(** * fizz: server handshake state record and the OpenSSL EVP AEAD kernel

    A shallow embedding of [fizz/server/State.h] and of
    [fizz/crypto/aead/OpenSSLEVPCipher.cpp], with the properties the
    specification states about them. *)

From Stdlib Require Import Arith Lia Bool ZArith NArith Strings.Byte String List.
Import ListNotations.

Set Implicit Arguments.

(** ** Handshake state ([fizz/server/State.h]) *)

Module ServerState.

(** [enum class StateEnum]; [NUM_STATES] is an enumerator of the C++ enum. *)
Inductive StateEnum : Type :=
| Uninitialized
| ExpectingClientHello
| ExpectingCertificate
| ExpectingCertificateVerify
| AcceptingEarlyData
| ExpectingFinished
| AcceptingData
| ExpectingCloseNotify
| Closed
| Error
| NUM_STATES.

(** The types the header takes from other headers of the project
    ([protocol/Types.h], [record/Extensions.h], ...) and from folly. *)
Record Types : Type := {
  Executor : Type;
  FizzServerContext : Type;
  KeyScheduler : Type;
  ReadRecordLayer : Type;
  WriteRecordLayer : Type;
  EncryptedReadRecordLayer : Type;
  HandshakeContext : Type;
  Cert : Type;
  PeerCert : Type;
  CertificateCompressionAlgorithm : Type;
  ProtocolVersion : Type;
  CipherSuite : Type;
  NamedGroup : Type;
  SignatureScheme : Type;
  PskType : Type;
  PskKeyExchangeMode : Type;
  KeyExchangeType : Type;
  EarlyDataType : Type;
  ReplayCacheResult : Type;
  Buf : Type;
  milliseconds : Type;
  AppTokenValidator : Type;
  ServerExtensions : Type;
  time_point : Type;
  HandshakeLogging : Type
}.

Section WithTypes.
Variable T : Types.

(** [class State]: the private members, in declaration order.  A
    [folly::Optional], a [unique_ptr], a [shared_ptr] and a raw pointer are
    each an [option] ([None] is [folly::none], respectively the null
    pointer). *)
Record State : Type := {
  state_ : StateEnum;
  executor_ : option (Executor T);
  context_ : option (FizzServerContext T);
  keyScheduler_ : option (KeyScheduler T);
  readRecordLayer_ : option (ReadRecordLayer T);
  writeRecordLayer_ : option (WriteRecordLayer T);
  handshakeReadRecordLayer_ : option (EncryptedReadRecordLayer T);
  handshakeContext_ : option (HandshakeContext T);
  serverCert_ : option (Cert T);
  clientCert_ : option (Cert T);
  serverCertCompAlgo_ : option (CertificateCompressionAlgorithm T);
  unverifiedCertChain_ : option (list (PeerCert T));
  version_ : option (ProtocolVersion T);
  cipher_ : option (CipherSuite T);
  group_ : option (NamedGroup T);
  sigScheme_ : option (SignatureScheme T);
  pskType_ : option (PskType T);
  pskMode_ : option (PskKeyExchangeMode T);
  keyExchangeType_ : option (KeyExchangeType T);
  earlyDataType_ : option (EarlyDataType T);
  replayCacheResult_ : option (ReplayCacheResult T);
  clientHandshakeSecret_ : option (Buf T);
  alpn_ : option string;
  clientClockSkew_ : option (milliseconds T);
  appTokenValidator_ : option (AppTokenValidator T);
  extensions_ : option (ServerExtensions T);
  resumptionMasterSecret_ : list byte;
  handshakeTime_ : option (time_point T);
  handshakeLogging_ : option (HandshakeLogging T);
  earlyExporterMasterSecret_ : option (Buf T);
  exporterMasterSecret_ : option (Buf T)
}.

(** The implicit default constructor.  [state_] has a default member
    initializer; optionals, smart pointers and the vector are
    default-constructed; [executor_] is a raw pointer without initializer, so
    its value is whatever the storage held: it is an argument here. *)
Definition default_State (indeterminate_executor : option (Executor T)) : State :=
  {| state_ := Uninitialized;
     executor_ := indeterminate_executor;
     context_ := None;
     keyScheduler_ := None;
     readRecordLayer_ := None;
     writeRecordLayer_ := None;
     handshakeReadRecordLayer_ := None;
     handshakeContext_ := None;
     serverCert_ := None;
     clientCert_ := None;
     serverCertCompAlgo_ := None;
     unverifiedCertChain_ := None;
     version_ := None;
     cipher_ := None;
     group_ := None;
     sigScheme_ := None;
     pskType_ := None;
     pskMode_ := None;
     keyExchangeType_ := None;
     earlyDataType_ := None;
     replayCacheResult_ := None;
     clientHandshakeSecret_ := None;
     alpn_ := None;
     clientClockSkew_ := None;
     appTokenValidator_ := None;
     extensions_ := None;
     resumptionMasterSecret_ := [];
     handshakeTime_ := None;
     handshakeLogging_ := None;
     earlyExporterMasterSecret_ := None;
     exporterMasterSecret_ := None |}.

(** The const accessors. *)
Definition state (s : State) : StateEnum := state_ s.
Definition version (s : State) := version_ s.
Definition cipher (s : State) := cipher_ s.
Definition group (s : State) := group_ s.
Definition sigScheme (s : State) := sigScheme_ s.
Definition pskType (s : State) := pskType_ s.
Definition pskMode (s : State) := pskMode_ s.
Definition keyExchangeType (s : State) := keyExchangeType_ s.
Definition earlyDataType (s : State) := earlyDataType_ s.
Definition replayCacheResult (s : State) := replayCacheResult_ s.
Definition alpn (s : State) := alpn_ s.
Definition clientClockSkew (s : State) := clientClockSkew_ s.
Definition unverifiedCertChain (s : State) := unverifiedCertChain_ s.
Definition serverCertCompAlgo (s : State) := serverCertCompAlgo_ s.
Definition earlyExporterMasterSecret (s : State) := earlyExporterMasterSecret_ s.
Definition exporterMasterSecret (s : State) := exporterMasterSecret_ s.
Definition handshakeTime (s : State) := handshakeTime_ s.

End WithTypes.

End ServerState.

(** ** AEAD kernel ([fizz/crypto/aead/OpenSSLEVPCipher.cpp]) *)

Module Aead.

Definition bytes : Type := list byte.

(** [std::numeric_limits<int>::max()] for the 32-bit [int] of the platforms
    fizz builds on. *)
Definition INT_MAX : N := 2147483647.

(** [len > std::numeric_limits<int>::max()] for a [size_t len]. *)
Definition exceeds_int (len : nat) : bool := (INT_MAX <? N.of_nat len)%N.

(** Wrap-around of an unsigned 64-bit [size_t] subtraction. *)
Definition size_t_sub (a b : nat) : Z :=
  ((Z.of_nat a - Z.of_nat b) mod 2 ^ 64)%Z.

(** *** folly::IOBuf, as far as the kernel looks at it

    One element of a chain: the bytes before the data inside its buffer
    ([headroom]), the data, the bytes after it ([tailroom]), and whether the
    buffer is shared with another IOBuf ([isSharedOne]). *)
Record IOBuf : Type := mkIOBuf {
  headroom : nat;
  data : bytes;
  tailroom : nat;
  isSharedOne : bool
}.

(** A chain is a non-empty circular list; it is kept as its head and the
    elements after it, in [next()] order. *)
Definition Chain : Type := (IOBuf * list IOBuf)%type.

Definition bufs (c : Chain) : list IOBuf := fst c :: snd c.

(** [prev()] of the head: the last element. *)
Definition prev (c : Chain) : IOBuf := last (snd c) (fst c).

Definition chain_bytes (l : list IOBuf) : bytes := concat (map data l).

(** [coalesce]d contents of a chain. *)
Definition contents (c : Chain) : bytes := chain_bytes (bufs c).

Definition computeChainDataLength (c : Chain) : nat :=
  fold_right (fun b n => length (data b) + n) 0 (bufs c).

(** [isShared()]: some element of the chain is shared. *)
Definition isShared (c : Chain) : bool := existsb isSharedOne (bufs c).

(** Memory that was allocated or exposed and not written yet.  Its contents
    are indeterminate in C++; they are fixed to zero bytes here. *)
Definition uninitialized (n : nat) : bytes := repeat x00 n.

(** What is left in [d] after [bs] was stored at offset [pos] of it; the
    part of [bs] that does not fit in [d] lands outside the data. *)
Definition overwrite (pos : nat) (bs d : bytes) : bytes :=
  firstn pos d ++ firstn (length d - pos) bs ++ skipn (pos + length bs) d.

Definition set_data (b : IOBuf) (d : bytes) : IOBuf :=
  {| headroom := headroom b; data := d; tailroom := tailroom b;
     isSharedOne := isSharedOne b |}.

(** A store of [bs] through the raw pointer [b.writableData() + pos]. *)
Definition poke (b : IOBuf) (pos : nat) (bs : bytes) : IOBuf :=
  set_data b (overwrite pos bs (data b)).

(** [IOBuf::create(capacity)], taken to allocate exactly [capacity]. *)
Definition create (capacity : nat) : IOBuf :=
  {| headroom := 0; data := []; tailroom := capacity; isSharedOne := false |}.

(** [advance(n)] on an empty buffer and [append(n)]. *)
Definition advance (b : IOBuf) (n : nat) : IOBuf :=
  {| headroom := headroom b + n; data := data b; tailroom := tailroom b - n;
     isSharedOne := isSharedOne b |}.

Definition append (b : IOBuf) (n : nat) : IOBuf :=
  {| headroom := headroom b; data := data b ++ uninitialized n;
     tailroom := tailroom b - n; isSharedOne := isSharedOne b |}.

(** [trimEnd(n)]. *)
Definition trimEnd (b : IOBuf) (n : nat) : IOBuf :=
  {| headroom := headroom b; data := firstn (length (data b) - n) (data b);
     tailroom := tailroom b + n; isSharedOne := isSharedOne b |}.

(** [IOBuf::copyBuffer(data, length)]: a fresh unshared buffer holding a copy. *)
Definition copyBuffer (d : bytes) : IOBuf :=
  {| headroom := 0; data := d; tailroom := 0; isSharedOne := false |}.

(** [head->prependChain(b)]: [b] goes in before the head, that is, last. *)
Definition prependChain (c : Chain) (b : IOBuf) : Chain :=
  (fst c, snd c ++ [b]).

(** Replace the last element of the chain. *)
Definition set_prev (c : Chain) (b : IOBuf) : Chain :=
  match snd c with
  | [] => (b, [])
  | _ :: _ => (fst c, removelast (snd c) ++ [b])
  end.

(** The fields of an element other than its contents. *)
Definition shape (b : IOBuf) : nat * nat * nat * bool :=
  (headroom b, length (data b), tailroom b, isSharedOne b).

(** *** Outcomes and the cipher context

    A call of the kernel returns, throws a [std::runtime_error] (or the
    [std::out_of_range] of a cursor), or has undefined behaviour. *)
Inductive result (A : Type) : Type :=
| Ok (a : A)
| Throw (what : string)
| Undefined.
Arguments Ok {A} a.
Arguments Throw {A} what.
Arguments Undefined {A}.

(** The calls into libcrypto, as they are recorded next to the context. *)
Inductive Call : Type :=
| Call_EncryptInit_ex (iv : bytes)
| Call_EncryptUpdate (out_null : bool) (inp : bytes)
| Call_EncryptFinal_ex
| Call_GET_TAG (n : nat)
| Call_DecryptInit_ex (iv : bytes)
| Call_DecryptUpdate (out_null : bool) (inp : bytes)
| Call_SET_TAG (tag : bytes)
| Call_DecryptFinal_ex.

(** libcrypto's EVP interface on a context that already holds its cipher and
    key.  [None] stands for a return value other than 1; [Some] carries the
    context after the call and the bytes the call stored through its output
    pointer ([outLen] is their number).  [out_null] tells that the output
    pointer is [nullptr], which is how associated data is fed.
    [EVP_EncryptUpdate_outl_negative] tells whether [EVP_EncryptUpdate], on
    this context and with this input, leaves a negative number in [*outl]
    although it returns 1; [encFuncBlocks] is the one place that asks. *)
Record EVP : Type := {
  EVP_CIPHER_CTX : Type;
  EVP_EncryptInit_ex : EVP_CIPHER_CTX -> bytes -> option EVP_CIPHER_CTX;
  EVP_EncryptUpdate :
    EVP_CIPHER_CTX -> bool -> bytes -> option (EVP_CIPHER_CTX * bytes);
  EVP_EncryptUpdate_outl_negative : EVP_CIPHER_CTX -> bool -> bytes -> bool;
  EVP_EncryptFinal_ex : EVP_CIPHER_CTX -> option (EVP_CIPHER_CTX * bytes);
  EVP_CTRL_GCM_GET_TAG : EVP_CIPHER_CTX -> nat -> option (EVP_CIPHER_CTX * bytes);
  EVP_DecryptInit_ex : EVP_CIPHER_CTX -> bytes -> option EVP_CIPHER_CTX;
  EVP_DecryptUpdate :
    EVP_CIPHER_CTX -> bool -> bytes -> option (EVP_CIPHER_CTX * bytes);
  EVP_CTRL_GCM_SET_TAG : EVP_CIPHER_CTX -> bytes -> option EVP_CIPHER_CTX;
  EVP_DecryptFinal_ex : EVP_CIPHER_CTX -> option (EVP_CIPHER_CTX * bytes)
}.

(** The context together with the calls made on it so far, oldest first,
    each with whether it returned 1. *)
Record cstate (E : EVP) : Type := mkCstate {
  cctx : EVP_CIPHER_CTX E;
  clog : list (Call * bool)
}.
Arguments mkCstate {E} _ _.

Definition M (E : EVP) (A : Type) : Type := cstate E -> result A * cstate E.

Definition ret {E A} (a : A) : M E A := fun st => (Ok a, st).
Definition throw {E A} (what : string) : M E A := fun st => (Throw what, st).
Definition undefined {E A} : M E A := fun st => (Undefined, st).
Definition bind {E A B} (m : M E A) (k : A -> M E B) : M E B :=
  fun st =>
    match m st with
    | (Ok a, st') => k a st'
    | (Throw w, st') => (Throw w, st')
    | (Undefined, st') => (Undefined, st')
    end.

Notation "x <- m ;; k" := (bind m (fun x => k))
  (at level 61, m at next level, right associativity).
Notation "' pat <- m ;; k" := (bind m (fun x => match x with pat => k end))
  (at level 61, pat pattern, m at next level, right associativity).

(** A pure step that can throw or be undefined, run inside [M]. *)
Definition lift {E A} (r : result A) : M E A := fun st => (r, st).

Section Kernel.
Variable E : EVP.

Definition logged (st : cstate E) (c : EVP_CIPHER_CTX E) (call : Call)
    (ok : bool) : cstate E :=
  mkCstate c (clog st ++ [(call, ok)]).

(** A libcrypto call that stores nothing: the answer is [ret == 1]. *)
Definition lib_ctl (f : EVP_CIPHER_CTX E -> option (EVP_CIPHER_CTX E))
    (call : Call) : M E bool :=
  fun st =>
    match f (cctx st) with
    | Some c => (Ok true, logged st c call true)
    | None => (Ok false, logged st (cctx st) call false)
    end.

(** A libcrypto call that stores bytes: [None] when it did not return 1. *)
Definition lib_out
    (f : EVP_CIPHER_CTX E -> option (EVP_CIPHER_CTX E * bytes))
    (call : Call) : M E (option bytes) :=
  fun st =>
    match f (cctx st) with
    | Some (c, w) => (Ok (Some w), logged st c call true)
    | None => (Ok None, logged st (cctx st) call false)
    end.

Definition lib_EncryptInit_ex (iv : bytes) : M E bool :=
  lib_ctl (fun c => EVP_EncryptInit_ex E c iv) (Call_EncryptInit_ex iv).
Definition lib_EncryptUpdate (out_null : bool) (inp : bytes) : M E (option bytes) :=
  lib_out (fun c => EVP_EncryptUpdate E c out_null inp)
          (Call_EncryptUpdate out_null inp).
(** [outLen < 0] for the [EVP_EncryptUpdate] that is made next. *)
Definition outLen_negative (out_null : bool) (inp : bytes) : M E bool :=
  fun st => (Ok (EVP_EncryptUpdate_outl_negative E (cctx st) out_null inp), st).
Definition lib_EncryptFinal_ex : M E (option bytes) :=
  lib_out (EVP_EncryptFinal_ex E) Call_EncryptFinal_ex.
Definition lib_GET_TAG (n : nat) : M E (option bytes) :=
  lib_out (fun c => EVP_CTRL_GCM_GET_TAG E c n) (Call_GET_TAG n).
Definition lib_DecryptInit_ex (iv : bytes) : M E bool :=
  lib_ctl (fun c => EVP_DecryptInit_ex E c iv) (Call_DecryptInit_ex iv).
Definition lib_DecryptUpdate (out_null : bool) (inp : bytes) : M E (option bytes) :=
  lib_out (fun c => EVP_DecryptUpdate E c out_null inp)
          (Call_DecryptUpdate out_null inp).
Definition lib_SET_TAG (tag : bytes) : M E bool :=
  lib_ctl (fun c => EVP_CTRL_GCM_SET_TAG E c tag) (Call_SET_TAG tag).
Definition lib_DecryptFinal_ex : M E (option bytes) :=
  lib_out (EVP_DecryptFinal_ex E) Call_DecryptFinal_ex.

(** [numWritten += outLen] on an [int]: signed overflow is undefined. *)
Definition int_add (numWritten : Z) (outLen : nat) : M E Z :=
  if (Z.of_N INT_MAX <? numWritten + Z.of_nat outLen)%Z then undefined
  else ret (numWritten + Z.of_nat outLen)%Z.

(** *** The helpers of [fizz/crypto/aead/IOBufUtil.h] *)

Section Transform.
Variable Acc : Type.
(** The lambda the caller passes: from its captured counters and one piece of
    input to the new counters and the bytes it stored at the output pointer. *)
Variable func : Acc -> bytes -> M E (Acc * bytes).

(** The [while (currentLength != 0)] loop of [transformBuffer] on what is
    left of one input element: [done] are the output elements already
    passed, the head of [out] is [currentOut] and [offset] the offset in it.
    [selected = min(currentOut->length() - offset, currentLength)] is
    written out by cases: either the rest of the input element is shorter
    than the room left in [currentOut], then it is handed over and the loop
    is over, or the room is filled and [currentOut] moves on. *)
Fixpoint transformBuffer_inner (s : Acc) (current : bytes)
    (done out : list IOBuf) (offset : nat) {struct out}
    : M E (Acc * (list IOBuf * list IOBuf * nat)) :=
  match current with
  | [] => ret (s, (done, out, offset))
  | _ :: _ =>
    match out with
    | [] => undefined
    | currentOut :: todo =>
      let room := length (data currentOut) - offset in
      if length current <? room then
        '(s', w) <- func s current ;;
        ret (s', (done, poke currentOut offset w :: todo,
                  offset + length current))
      else
        '(s', w) <- func s (firstn room current) ;;
        transformBuffer_inner s' (skipn room current)
          (done ++ [poke currentOut offset w]) todo 0
    end
  end.

(** The [for (auto current : in)] loop of [transformBuffer]. *)
Fixpoint transformBuffer_outer (s : Acc) (ins : list IOBuf)
    (done out : list IOBuf) (offset : nat)
    : M E (Acc * (list IOBuf * list IOBuf * nat)) :=
  match ins with
  | [] => ret (s, (done, out, offset))
  | current :: rest =>
    '(s', (d, o, off)) <- transformBuffer_inner s (data current) done out offset ;;
    transformBuffer_outer s' rest d o off
  end.

(** Modelled from the spec: [transformBuffer(in, out, func)] of
    [fizz/crypto/aead/IOBufUtil.h], which is not among the sources; the spec
    has it as the stream-mode pass in which "output length equals input
    length and no trailing write occurs".  It walks the input chain and the
    output chain together and hands [func] the longest piece that is
    contiguous in both, with the output pointer at the same offset of the
    output chain; [out] has to hold as many bytes as [in] (running off its
    end is [Undefined] here).  [in] is read as it was at the call, also when
    the caller passes the same chain for [in] and [out]. *)
Definition transformBuffer (inp out : Chain) (s : Acc) : M E (Acc * Chain) :=
  '(s', (d, o, _)) <- transformBuffer_outer s (bufs inp) [] (bufs out) 0 ;;
  match d ++ o with
  | h :: t => ret (s', (h, t))
  | [] => undefined
  end.

(** [bs] cut into pieces of [BlockSize] bytes, the last one maybe shorter. *)
Fixpoint blocks_fuel (fuel BlockSize : nat) (bs : bytes) : list bytes :=
  match fuel with
  | 0 => []
  | S fuel' =>
    match bs with
    | [] => []
    | _ :: _ =>
      firstn BlockSize bs :: blocks_fuel fuel' BlockSize (skipn BlockSize bs)
    end
  end.

Definition blocks (BlockSize : nat) (bs : bytes) : list bytes :=
  blocks_fuel (length bs) BlockSize bs.

(** A store of [bs] at offset [pos] of the chain's data that goes on into the
    following elements. *)
Fixpoint write_bufs (pos : nat) (bs : bytes) (l : list IOBuf) : list IOBuf :=
  match l with
  | [] => []
  | b :: t =>
    poke b pos bs ::
    write_bufs (pos - length (data b)) (skipn (length (data b) - pos) bs) t
  end.

Definition write_chain (pos : nat) (bs : bytes) (c : Chain) : Chain :=
  (poke (fst c) pos bs,
   write_bufs (pos - length (data (fst c)))
              (skipn (length (data (fst c)) - pos) bs) (snd c)).

(** A [folly::io::RWPrivateCursor] is its chain and its offset from the
    start of the chain's data.  [push(buf, len)] stores across elements and
    throws [std::out_of_range] when the chain ends first. *)
Definition push (c : Chain) (pos : nat) (bs : bytes) : M E Chain :=
  if computeChainDataLength c <? pos + length bs
  then throw "overflow"%string
  else ret (write_chain pos bs c).

(** [cursor.length()]: the bytes left in the element the cursor is in. *)
Fixpoint cursor_length (l : list IOBuf) (pos : nat) : nat :=
  match l with
  | [] => 0
  | b :: t =>
    if pos <? length (data b) then length (data b) - pos
    else cursor_length t (pos - length (data b))
  end.

(** A store through the raw pointer [cursor.writableData()]: it stays in the
    element the cursor is in. *)
Fixpoint poke_bufs (l : list IOBuf) (pos : nat) (bs : bytes) : list IOBuf :=
  match l with
  | [] => []
  | b :: t =>
    if pos <? length (data b) then poke b pos bs :: t
    else b :: poke_bufs t (pos - length (data b)) bs
  end.

Definition cursor_poke (c : Chain) (pos : nat) (bs : bytes) : Chain :=
  if pos <? length (data (fst c)) then (poke (fst c) pos bs, snd c)
  else (fst c, poke_bufs (snd c) (pos - length (data (fst c))) bs).

Fixpoint feed_blocks (s : Acc) (pieces : list bytes) (out : Chain) (pos : nat)
    : M E (Acc * (Chain * nat)) :=
  match pieces with
  | [] => ret (s, (out, pos))
  | piece :: rest =>
    '(s', w) <- func s piece ;;
    out' <- push out pos w ;;
    feed_blocks s' rest out' (pos + length w)
  end.

(** Modelled from the spec: [transformBufferBlocks<BlockSize>(in, out, func)]
    of [fizz/crypto/aead/IOBufUtil.h], which is not among the sources.  By
    the spec block mode "proceeds in 16-byte input chunks so that
    EncryptUpdate writes <= input length bytes": the input is handed to
    [func] in pieces of [BlockSize] bytes, what [func] reports as written is
    stored at the output cursor, which advances by that much, and the cursor
    is returned.  [in] is read as it was at the call. *)
Definition transformBufferBlocks (BlockSize : nat) (inp out : Chain) (s : Acc)
    : M E (Acc * (Chain * nat)) :=
  feed_blocks s (blocks BlockSize (contents inp)) out 0.

End Transform.

(** The last [n] bytes of [d]. *)
Definition lastn (n : nat) (d : bytes) : bytes := skipn (length d - n) d.

(** [trimBytes] from the last element backwards, on the reversed elements. *)
Fixpoint trimBytes_rev (rl : list IOBuf) (trim : nat) : list IOBuf * bytes :=
  match rl with
  | [] => ([], [])
  | current :: before =>
    let toTrim := Nat.min trim (length (data current)) in
    let '(before', trimmed) := trimBytes_rev before (trim - toTrim) in
    (trimEnd current toTrim :: before', trimmed ++ lastn toTrim (data current))
  end.

(** Modelled from the spec: [trimBytes(buf, trimmed)] of
    [fizz/crypto/aead/IOBufUtil.h], which is not among the sources ("trim
    the last [tag_length] bytes from the ciphertext chain into a mutable
    buffer").  Starting at the last element it cuts bytes off the end of the
    elements until [trimmed.size()] bytes are gone, and leaves them, in
    chain order, in [trimmed]. *)
Definition trimBytes (buf : Chain) (trim : nat) : Chain * bytes :=
  let '(rest', t1) := trimBytes_rev (rev (snd buf)) trim in
  let toTrim := Nat.min (trim - length t1) (length (data (fst buf))) in
  ((trimEnd (fst buf) toTrim, rev rest'),
   lastn toTrim (data (fst buf)) ++ t1).

(** *** [encFuncBlocks], [encFunc], [decFuncBlocks], [decFunc]

    [outLen] is the number of bytes the library stored.  The lambda of
    [encFuncBlocks] also throws when the call returned 1 and [outLen < 0];
    the other three do not look at the sign of [outLen]. *)

Definition encFuncBlocks (plaintext output : Chain) : M E Chain :=
  '((totalWritten, totalInput), (out, pos)) <-
    transformBufferBlocks
      (fun '(totalWritten, totalInput) plain =>
         if exceeds_int (length plain)
         then throw "Encryption error: too much plain text"%string
         else
           negative <- outLen_negative false plain ;;
           r <- lib_EncryptUpdate false plain ;;
           match r with
           | None => throw "Encryption error"%string
           | Some w =>
             (* || outLen < 0 *)
             if negative then throw "Encryption error"%string
             else
               ret ((totalWritten + length w, totalInput + length plain), w)
           end)
      16 plaintext output (0, 0) ;;
  (* We might end up needing to write more in the final encrypt stage *)
  let numBuffered := size_t_sub totalInput totalWritten in
  let numLeftInOutput := cursor_length (bufs out) pos in
  if (numBuffered <=? Z.of_nat numLeftInOutput)%Z then
    r <- lib_EncryptFinal_ex ;;
    match r with
    | None => throw "Encryption error"%string
    | Some w => ret (cursor_poke out pos w)
    end
  else
    (* std::array<uint8_t, 16> block *)
    r <- lib_EncryptFinal_ex ;;
    match r with
    | None => throw "Encryption error"%string
    | Some w => if 16 <? length w then undefined else push out pos w
    end.

Definition encFunc (plaintext output : Chain) : M E Chain :=
  '(numWritten, out) <-
    transformBuffer
      (fun numWritten plain =>
         if exceeds_int (length plain)
         then throw "Encryption error: too much plain text"%string
         else
           r <- lib_EncryptUpdate false plain ;;
           match r with
           | None => throw "Encryption error"%string
           | Some w => n <- int_add numWritten (length w) ;; ret (n, w)
           end)
      plaintext output 0%Z ;;
  (* We don't expect any writes at the end *)
  r <- lib_EncryptFinal_ex ;;
  match r with
  | None => throw "Encryption error"%string
  | Some w => ret (poke (fst out) (Z.to_nat numWritten) w, snd out)
  end.

Definition decFuncBlocks (ciphertext output : Chain) (tagOut : bytes)
    : M E (bool * Chain) :=
  ok <- lib_SET_TAG tagOut ;;
  if negb ok then throw "Decryption error"%string
  else
  '((totalWritten, totalInput), (out, pos)) <-
    transformBufferBlocks
      (fun '(totalWritten, totalInput) cipher =>
         if exceeds_int (length cipher)
         then throw "Decryption error: too much cipher text"%string
         else
           r <- lib_DecryptUpdate false cipher ;;
           match r with
           | None => throw "Decryption error"%string
           | Some w =>
             ret ((totalWritten + length w, totalInput + length cipher), w)
           end)
      16 ciphertext output (0, 0) ;;
  let numBuffered := size_t_sub totalInput totalWritten in
  let numLeftInOutput := cursor_length (bufs out) pos in
  if (numBuffered <=? Z.of_nat numLeftInOutput)%Z then
    r <- lib_DecryptFinal_ex ;;
    match r with
    | None => ret (false, out)
    | Some w => ret (true, cursor_poke out pos w)
    end
  else
    r <- lib_DecryptFinal_ex ;;
    match r with
    | None => ret (false, out)
    | Some w =>
      if 16 <? length w then undefined
      else out' <- push out pos w ;; ret (true, out')
    end.

Definition decFunc (ciphertext output : Chain) (tagOut : bytes)
    : M E (bool * Chain) :=
  '(numWritten, out) <-
    transformBuffer
      (fun numWritten cipher =>
         if exceeds_int (length cipher)
         then throw "Decryption error: too much cipher text"%string
         else
           r <- lib_DecryptUpdate false cipher ;;
           match r with
           | None => throw "Decryption error"%string
           | Some w => n <- int_add numWritten (length w) ;; ret (n, w)
           end)
      ciphertext output 0%Z ;;
  ok <- lib_SET_TAG tagOut ;;
  if negb ok then throw "Decryption error"%string
  else
    r <- lib_DecryptFinal_ex ;;
    match r with
    | None => ret (false, out)
    | Some w => ret (true, (poke (fst out) (Z.to_nat numWritten) w, snd out))
    end.

(** The associated-data loop of [evpEncrypt] and [evpDecrypt]; [update] is
    [EVP_EncryptUpdate] or [EVP_DecryptUpdate] with a null output pointer. *)
Fixpoint feed_associatedData (update : bytes -> M E (option bytes))
    (what : string) (ad : list IOBuf) : M E unit :=
  match ad with
  | [] => ret tt
  | current :: rest =>
    if exceeds_int (length (data current))
    then throw "too much associated data"%string
    else
      r <- update (data current) ;;
      match r with
      | None => throw what
      | Some _ => feed_associatedData update what rest
      end
  end.

(** [if (associatedData) { ... }]. *)
Definition feed_optional_associatedData (update : bytes -> M E (option bytes))
    (what : string) (associatedData : option Chain) : M E unit :=
  match associatedData with
  | Some ad => feed_associatedData update what (bufs ad)
  | None => ret tt
  end.

(** *** [evpEncrypt] *)

(** "Setup input and output buffers": the chain [evpEncrypt] writes the
    ciphertext into.  [input] is the plaintext chain in both branches. *)
Definition encrypt_output (plaintext : Chain) (tagLen headroom : nat) : Chain :=
  let inputLength := computeChainDataLength plaintext in
  if isShared plaintext then
    (* create enough to also fit the tag and headroom *)
    (append (advance (create (headroom + inputLength + tagLen)) headroom)
            inputLength, [])
  else plaintext.

Definition evpEncrypt (plaintext : Chain) (associatedData : option Chain)
    (iv : bytes) (tagLen : nat) (useBlockOps : bool) (headroom : nat)
    : M E Chain :=
  (* Setup input and output buffers. *)
  let output := encrypt_output plaintext tagLen headroom in
  let input := plaintext in
  ok <- lib_EncryptInit_ex iv ;;
  if negb ok then throw "Encryption error"%string
  else
  _ <- feed_optional_associatedData (lib_EncryptUpdate true)
         "Encryption error" associatedData ;;
  output <- (if useBlockOps then encFuncBlocks input output
             else encFunc input output) ;;
  (* output is always something we can modify *)
  let tailRoom := tailroom (prev output) in
  if tailRoom <? tagLen then
    let tag := append (create tagLen) tagLen in
    r <- lib_GET_TAG tagLen ;;
    match r with
    | None => throw "Encryption error"%string
    | Some t => ret (prependChain output (poke tag 0 t))
    end
  else
    let lastBuf := append (prev output) tagLen in
    (* we can copy into output directly *)
    r <- lib_GET_TAG tagLen ;;
    match r with
    | None => throw "Encryption error"%string
    | Some t =>
      ret (set_prev output (poke lastBuf (length (data lastBuf) - tagLen) t))
    end.

(** *** [fixupSharedBuffer]

    [kMaxSharedInChain] is declared in [OpenSSLEVPCipher.h], which is not
    among the sources. *)
Variable kMaxSharedInChain : nat.

(** A pointer to an element of the chain is the element's position, the
    head being 0.  An entry of [std::array<folly::IOBuf*, kMaxSharedInChain>
    chainedBufs], which is declared without initializer, is [None] until it
    is assigned. *)
Fixpoint array_set {A} (i : nat) (v : A) (a : list A) : list A :=
  match a, i with
  | [], _ => []
  | _ :: t, 0 => v :: t
  | x :: t, S i' => x :: array_set i' v t
  end.

(** The [do ... while (currBuf != encrypted.get())] loop; [l] are the
    elements from [currBuf] on. *)
Fixpoint count_shared (l : list IOBuf) (currBuf numShared : nat)
    (chainedBufs : list (option nat)) : nat * list (option nat) :=
  match l with
  | [] => (numShared, chainedBufs)
  | b :: t =>
    if isSharedOne b then
      let numShared := S numShared in
      if kMaxSharedInChain <? numShared then (numShared, chainedBufs)
      else count_shared t (S currBuf) numShared
             (array_set (numShared - 1) (Some currBuf) chainedBufs)
    else count_shared t (S currBuf) numShared chainedBufs
  end.

(** The [for (size_t i = 0; i < chainedBufs.size(); ++i)] loop.  Using an
    entry that was never assigned is undefined.  The entries that were
    assigned are distinct elements, so position 0 is the head [encrypted]
    had when they were collected. *)
Fixpoint unshare_each (chainedBufs : list (option nat)) (encrypted : Chain)
    : result Chain :=
  match chainedBufs with
  | [] => Ok encrypted
  | None :: _ => Undefined
  | Some chainedBuf :: rest =>
    if chainedBuf =? 0 then
      (* we just removed the head so we have to modify the head. *)
      unshare_each rest (copyBuffer (data (fst encrypted)), snd encrypted)
    else
      (* We add the buffer that we copied to the chain and then remove the
         original buffer from the chain. *)
      match nth_error (snd encrypted) (chainedBuf - 1) with
      | None => Undefined
      | Some b =>
        unshare_each rest
          (fst encrypted,
           array_set (chainedBuf - 1) (copyBuffer (data b)) (snd encrypted))
      end
  end.

(** Returns [( *input, output)]. *)
Definition fixupSharedBuffer (encrypted : Chain) (inputLength : nat)
    : result (Chain * Chain) :=
  let '(numShared, chainedBufs) :=
    count_shared (bufs encrypted) 0 0 (repeat None kMaxSharedInChain) in
  if numShared =? 0 then Ok (encrypted, encrypted)
  else if numShared <=? kMaxSharedInChain then
    match unshare_each chainedBufs encrypted with
    | Ok output => Ok (output, output)
    | Throw w => Throw w
    | Undefined => Undefined
    end
  else
    (* If the buffer has more than > kMaxSharedInChain shared elements, then
       we have to make a copy of it. *)
    Ok (encrypted, ((append (create inputLength) inputLength, []) : Chain)).

(** *** [evpDecrypt]

    [tagOut] is a buffer of the caller's, [tagLen] bytes long; [trimBytes]
    fills it. *)
Definition evpDecrypt (ciphertext : Chain) (associatedData : option Chain)
    (iv : bytes) (tagLen : nat) (useBlockOps : bool)
    : M E (option Chain) :=
  let inputLength := computeChainDataLength ciphertext in
  if inputLength <? tagLen then ret None
  else
  let inputLength := inputLength - tagLen in
  let '(ciphertext, tagOut) := trimBytes ciphertext tagLen in
  '(input, output) <- lift (fixupSharedBuffer ciphertext inputLength) ;;
  ok <- lib_DecryptInit_ex iv ;;
  if negb ok then throw "Decryption error"%string
  else
  _ <- feed_optional_associatedData (lib_DecryptUpdate true)
         "Decryption error" associatedData ;;
  '(decrypted, output) <-
    (if useBlockOps then decFuncBlocks input output tagOut
     else decFunc input output tagOut) ;;
  if negb decrypted then ret None else ret (Some output).

End Kernel.

Arguments evpEncrypt : clear implicits.
Arguments evpDecrypt : clear implicits.
Arguments fixupSharedBuffer : clear implicits.

(** *** Vocabulary of the properties *)

(** The number of shared elements of a chain. *)
Definition numShared (c : Chain) : nat :=
  length (filter isSharedOne (bufs c)).

(** The layout of a chain once the tag is in: in the tail of the last
    element when that has room for [tagLen] bytes, else in a new last
    element of exactly [tagLen] bytes. *)
Definition shapes_with_tag (tagLen : nat)
    (shapes : list (nat * nat * nat * bool)) : list (nat * nat * nat * bool) :=
  match rev shapes with
  | [] => []
  | (h, n, t, s) :: before =>
    if t <? tagLen then shapes ++ [(0, tagLen, 0, false)]
    else rev before ++ [(h, n + tagLen, t - tagLen, s)]
  end.

(** [copyBuffer] of an element when it is shared, the element otherwise. *)
Definition unshared_copy (b : IOBuf) : IOBuf :=
  if isSharedOne b then copyBuffer (data b) else b.

(** The chain encryption runs in according to the spec's words for
    [encrypt]: the input chain when nothing is shared, the input chain with
    each shared element replaced by a copy of its exact length when at most
    [K] are shared, one fresh chain of the full input length otherwise. *)
Definition spec_encrypt_output (K : nat) (plaintext : Chain) : Chain :=
  if numShared plaintext =? 0 then plaintext
  else if numShared plaintext <=? K then
    (unshared_copy (fst plaintext), map unshared_copy (snd plaintext))
  else
    (append (create (computeChainDataLength plaintext))
            (computeChainDataLength plaintext), []).

(** The chain with its tag, as [evpEncrypt] builds it from the filled output
    chain [out] and the bytes [t] that [GET_TAG] stored. *)
Definition tagged (out : Chain) (tagLen : nat) (t : bytes) : Chain :=
  if tailroom (prev out) <? tagLen
  then prependChain out (poke (append (create tagLen) tagLen) 0 t)
  else set_prev out
         (poke (append (prev out) tagLen)
               (length (data (append (prev out) tagLen)) - tagLen) t).

(** The data length recorded in a shape. *)
Definition shape_len (sh : nat * nat * nat * bool) : nat := snd (fst (fst sh)).

(** *** Vocabulary for the record of libcrypto calls *)

(** How a call of the kernel ended. *)
Inductive outcome : Type :=
| Returned
| Thrown (what : string)
| Undef.

Definition outcome_of {A} (r : result A) : outcome :=
  match r with
  | Ok _ => Returned
  | Throw w => Thrown w
  | Undefined => Undef
  end.

Definition prefix {A} (l1 l2 : list A) : Prop := exists l3, l2 = l1 ++ l3.

(** Every recorded call returned 1. *)
Definition good (tr : list (Call * bool)) : Prop :=
  Forall (fun e => snd e = true) tr.

(** What follows a libcrypto call that did not return 1: the kernel comes
    back with its "nothing" answer after [EVP_DecryptFinal_ex], and throws
    after every other call. *)
Definition fail_outcome (call : Call) (o : outcome) : Prop :=
  match call with
  | Call_DecryptFinal_ex => o = Returned
  | _ => exists w, o = Thrown w
  end.

(** A run that made the calls [tr] and ended as [o] follows the call
    sequence [L]: it made the calls of [L] in order (all of them when it
    returned), it stopped at the first call that did not return 1, and when
    it threw without such a call then for a reason in [Bad]. *)
Record follows (L : list Call) (Bad : string -> Prop) (o : outcome)
    (tr : list (Call * bool)) : Prop := {
  follows_prefix : prefix (map fst tr) L;
  follows_full : o = Returned -> map fst tr = L;
  follows_flags :
    (good tr /\ forall w, o = Thrown w -> Bad w) \/
    (exists tr0 call,
       tr = tr0 ++ [(call, false)] /\ good tr0 /\ fail_outcome call o)
}.

(** Every run of [m] extends the record by calls that follow [L]. *)
Definition traces {E A} (m : M E A) (L : list Call) (Bad : string -> Prop)
    : Prop :=
  forall st r st',
    m st = (r, st') ->
    exists tr, clog st' = clog st ++ tr /\ follows L Bad (outcome_of r) tr.

(** Some element of [l] is longer than an [int] can tell. *)
Definition oversize (l : list IOBuf) : Prop :=
  exists b, In b l /\ exceeds_int (length (data b)) = true.

(** Every run of [m] hands [input] to the library in pieces, through the
    call [mk]. *)
Definition feeds {E A} (m : M E A) (mk : bytes -> Call) (input : bytes)
    (Bad : string -> Prop) : Prop :=
  forall st r st',
    m st = (r, st') ->
    exists pieces tr,
      concat pieces = input /\ clog st' = clog st ++ tr /\
      follows (map mk pieces) Bad (outcome_of r) tr.

(** No call of [L] is [EVP_DecryptFinal_ex]. *)
Definition nofinal (L : list Call) : Prop := ~ In Call_DecryptFinal_ex L.

Definition not_final (call : Call) : Prop := call <> Call_DecryptFinal_ex.

(** Every run of [m] makes the calls [L0], then hands [input] over in
    pieces, then makes the calls [L2]. *)
Definition feeds_between {E A} (m : M E A) (L0 : list Call)
    (mk : bytes -> Call) (input : bytes) (L2 : list Call)
    (Bad : string -> Prop) : Prop :=
  forall st r st',
    m st = (r, st') ->
    exists pieces tr,
      concat pieces = input /\ clog st' = clog st ++ tr /\
      follows (L0 ++ map mk pieces ++ L2) Bad (outcome_of r) tr.

(** The cursor of an output chain ran off the end of the chain. *)
Definition overflow (w : string) : Prop := w = "overflow"%string.

(** The reasons for which the kernel throws without a failed library call:
    an element of the associated data or of the input is longer than an
    [int] can tell, or, with block operations, the library stored more than
    the output chain holds or told a negative number of bytes. *)
Definition bad_input (useBlockOps : bool) (ad : option Chain) (inp : Chain)
    (w : string) : Prop :=
  oversize (match ad with Some a => bufs a | None => [] end) \/
  oversize (bufs inp) \/
  (useBlockOps = true /\
   (w = "overflow"%string \/ w = "Encryption error"%string)).

(** The calls that feed the associated data. *)
Definition ad_calls (mk : bytes -> Call) (ad : option Chain) : list Call :=
  match ad with
  | Some a => map (fun b => mk (data b)) (bufs a)
  | None => []
  end.

(** *** The library's side of a round trip *)

(** The library fed with [pieces] one after the other: the context after
    the last one and what each call stored. *)
Fixpoint run_updates {C : Type} (upd : C -> bytes -> option (C * bytes))
    (c : C) (pieces : list bytes) : option (C * list bytes) :=
  match pieces with
  | [] => Some (c, [])
  | p :: ps =>
    match upd c p with
    | None => None
    | Some (c1, w) =>
      match run_updates upd c1 ps with
      | None => None
      | Some (c2, ws) => Some (c2, w :: ws)
      end
    end
  end.

(** Associated data fed piece by piece. *)
Fixpoint run_aad {C : Type} (upd : C -> bytes -> option (C * bytes))
    (c : C) (ads : list bytes) : option C :=
  match ads with
  | [] => Some c
  | a :: rest =>
    match upd c a with
    | None => None
    | Some (c1, _) => run_aad upd c1 rest
    end
  end.

(** An encryption through the EVP interface on a context that was
    initialised and fed the associated data: what the updates stored, what
    the final stored, and the tag. *)
Definition seal_from (E : EVP) (c : EVP_CIPHER_CTX E) (pieces : list bytes)
    (tagLen : nat) : option (list bytes * bytes * bytes) :=
  match run_updates (fun c p => EVP_EncryptUpdate E c false p) c pieces with
  | None => None
  | Some (c3, ws) =>
    match EVP_EncryptFinal_ex E c3 with
    | None => None
    | Some (c4, wf) =>
      match EVP_CTRL_GCM_GET_TAG E c4 tagLen with
      | None => None
      | Some (_, t) => Some (ws, wf, t)
      end
    end
  end.

Definition seal (E : EVP) (c : EVP_CIPHER_CTX E) (iv : bytes)
    (ads pieces : list bytes) (tagLen : nat)
    : option (list bytes * bytes * bytes) :=
  match EVP_EncryptInit_ex E c iv with
  | None => None
  | Some c1 =>
    match run_aad (fun c a => EVP_EncryptUpdate E c true a) c1 ads with
    | None => None
    | Some c2 => seal_from E c2 pieces tagLen
    end
  end.

(** A decryption through the EVP interface, with the tag set before the
    updates ([tag_first], as [decFuncBlocks] does) or after them (as
    [decFunc] does): what the updates stored and, when the final accepted
    the tag, what it stored. *)
Definition open_from (E : EVP) (tag_first : bool) (c : EVP_CIPHER_CTX E)
    (pieces : list bytes) (tag : bytes) : option (list bytes * option bytes) :=
  match (if tag_first then EVP_CTRL_GCM_SET_TAG E c tag else Some c) with
  | None => None
  | Some c3 =>
    match run_updates (fun c p => EVP_DecryptUpdate E c false p) c3 pieces with
    | None => None
    | Some (c4, ws) =>
      match (if tag_first then Some c4 else EVP_CTRL_GCM_SET_TAG E c4 tag) with
      | None => None
      | Some c5 =>
        match EVP_DecryptFinal_ex E c5 with
        | None => Some (ws, None)
        | Some (_, wf) => Some (ws, Some wf)
        end
      end
    end
  end.

Definition open (E : EVP) (tag_first : bool) (c : EVP_CIPHER_CTX E)
    (iv : bytes) (ads pieces : list bytes) (tag : bytes)
    : option (list bytes * option bytes) :=
  match EVP_DecryptInit_ex E c iv with
  | None => None
  | Some c1 =>
    match run_aad (fun c a => EVP_DecryptUpdate E c true a) c1 ads with
    | None => None
    | Some c2 => open_from E tag_first c2 pieces tag
    end
  end.

(** The associated data as it is fed: one piece per element. *)
Definition ad_pieces (ad : option Chain) : list bytes :=
  match ad with
  | Some a => map data (bufs a)
  | None => []
  end.

(** The library goes through with the input however it is cut. *)
Definition always_runs {C} (upd : C -> bytes -> option (C * bytes)) (c : C)
    (input : bytes) : Prop :=
  forall pieces, concat pieces = input -> run_updates upd c pieces <> None.

(** [l'] is [l] with one byte changed. *)
Definition one_byte_differs (l l' : bytes) : Prop :=
  exists a x y b, l = a ++ x :: b /\ l' = a ++ y :: b /\ x <> y.

(** What [evpEncrypt] and [evpDecrypt] rely on for the sizes of what the
    library stores.  [pending c] is the number of input bytes the context
    holds back: an update stores what it was given minus what it holds back
    more (and never tells a negative number of bytes), the final stores
    what was held back, at most one block, and [GET_TAG] stores as many
    bytes as it is asked for. *)
Record buffering (E : EVP) (pending : EVP_CIPHER_CTX E -> nat) : Prop := {
  buf_enc_init : forall c iv c',
    EVP_EncryptInit_ex E c iv = Some c' -> pending c' = 0;
  buf_enc_aad : forall c a c' w,
    EVP_EncryptUpdate E c true a = Some (c', w) -> pending c' = pending c;
  buf_enc_update : forall c p c' w,
    EVP_EncryptUpdate E c false p = Some (c', w) ->
    length w + pending c' = pending c + length p;
  buf_enc_outl : forall c p,
    EVP_EncryptUpdate_outl_negative E c false p = false;
  buf_enc_final : forall c c' w,
    EVP_EncryptFinal_ex E c = Some (c', w) ->
    length w = pending c /\ length w <= 16;
  buf_get_tag : forall c n c' t,
    EVP_CTRL_GCM_GET_TAG E c n = Some (c', t) -> length t = n;
  buf_dec_init : forall c iv c',
    EVP_DecryptInit_ex E c iv = Some c' -> pending c' = 0;
  buf_dec_aad : forall c a c' w,
    EVP_DecryptUpdate E c true a = Some (c', w) -> pending c' = pending c;
  buf_dec_update : forall c p c' w,
    EVP_DecryptUpdate E c false p = Some (c', w) ->
    length w + pending c' = pending c + length p;
  buf_set_tag : forall c t c',
    EVP_CTRL_GCM_SET_TAG E c t = Some c' -> pending c' = pending c;
  buf_dec_final : forall c c' w,
    EVP_DecryptFinal_ex E c = Some (c', w) ->
    length w = pending c /\ length w <= 16
}.

(** What the round trip relies on: with the encrypting context [kc] and the
    decrypting context [kd] (the two hold the same key), encryption goes
    through, decryption of what encryption produced gives the plaintext
    back however the ciphertext is cut into pieces, and decryption of it
    with one byte of the ciphertext or of the tag changed ends in a final
    that rejects the tag. *)
Record aead (E : EVP) (kc kd : EVP_CIPHER_CTX E) (tagLen : nat)
    (tag_first : bool) : Prop := {
  aead_seals : forall iv ads pieces, seal E kc iv ads pieces tagLen <> None;
  aead_opens : forall iv ads pieces ws wf t pieces',
    seal E kc iv ads pieces tagLen = Some (ws, wf, t) ->
    concat pieces' = concat ws ++ wf ->
    exists ws' wf',
      open E tag_first kd iv ads pieces' t = Some (ws', Some wf') /\
      concat ws' ++ wf' = concat pieces;
  aead_rejects : forall iv ads pieces ws wf t pieces' t',
    seal E kc iv ads pieces tagLen = Some (ws, wf, t) ->
    length t' = length t ->
    one_byte_differs ((concat ws ++ wf) ++ t) (concat pieces' ++ t') ->
    exists ws', open E tag_first kd iv ads pieces' t' = Some (ws', None)
}.

(** The part of the output chain that is written so far in its current
    element, and all that is not written yet. *)
Definition cur_written (out : list IOBuf) (offset : nat) : bytes :=
  match out with
  | [] => []
  | c :: _ => firstn offset (data c)
  end.

Definition unwritten (out : list IOBuf) (offset : nat) : bytes :=
  match out with
  | [] => []
  | c :: t => skipn offset (data c) ++ chain_bytes t
  end.


(** What the decryption pass answers once the library went through: with
    [r] what the final stored when it accepted the tag, [None] when it
    rejected it. *)
Definition dec_answer (ws : list bytes) (r : option bytes) (b : bool)
    (out' : Chain) : Prop :=
  match r with
  | Some wf => b = true /\ contents out' = concat ws ++ wf
  | None => b = false
  end.

(** No shape of the list is that of a shared element. *)
Definition flags_clear (shapes : list (nat * nat * nat * bool)) : Prop :=
  Forall (fun sh => snd sh = false) shapes.

(** The elements of the associated data. *)
Definition ad_bufs (ad : option Chain) : list IOBuf :=
  match ad with Some a => bufs a | None => [] end.

(** *** Vocabulary of block mode *)

(** [input] cut into pieces of 16 bytes, the last one maybe shorter. *)
Definition chunks16 (pieces : list bytes) (input : bytes) : Prop :=
  concat pieces = input /\
  Forall (fun p => length p <= 16) pieces /\
  Forall (fun p => length p = 16) (removelast pieces).

(** Where the bytes of the final call go: through the raw pointer into the
    element the cursor is in when that has room for them, through [push]
    from the 16-byte block on the stack otherwise. *)
Definition final_placed (out1 : Chain) (pos : nat) (wf : bytes) (out' : Chain)
    : Prop :=
  (length wf <= cursor_length (bufs out1) pos ->
   out' = cursor_poke out1 pos wf) /\
  (cursor_length (bufs out1) pos < length wf ->
   out' = write_chain pos wf out1).

(** What becomes of the bytes [wf] of the final call by the spec's words,
    when the updates left the chain [out1] with the cursor at [pos] and the
    running counter [total_input - total_written] at [counter]: if the
    element the cursor is in has room for [counter] bytes, they are stored
    through the raw pointer, which stays in that element; otherwise they
    pass through the 16-byte block on the stack, which more than 16 bytes
    overrun, and are pushed at the cursor, which throws when the chain ends
    first. *)
Definition final_by_counter (out1 : Chain) (pos counter : nat) (wf : bytes)
    : result Chain :=
  if counter <=? cursor_length (bufs out1) pos
  then Ok (cursor_poke out1 pos wf)
  else if 16 <? length wf then Undefined
  else if computeChainDataLength out1 <? pos + length wf
       then Throw "overflow"%string
       else Ok (write_chain pos wf out1).

(** The record of calls that all returned 1. *)
Definition calls_ok (L : list Call) : list (Call * bool) :=
  map (fun c => (c, true)) L.

(** A cipher with 16-byte blocks: an update with a whole block on a context
    that holds nothing back leaves nothing held back. *)
Record whole_blocks (E : EVP) (pending : EVP_CIPHER_CTX E -> nat) : Prop := {
  whole_enc : forall c p c' w,
    EVP_EncryptUpdate E c false p = Some (c', w) ->
    pending c = 0 -> length p = 16 -> pending c' = 0;
  whole_dec : forall c p c' w,
    EVP_DecryptUpdate E c false p = Some (c', w) ->
    pending c = 0 -> length p = 16 -> pending c' = 0
}.

(** The [int] counter of the stream pass after [n] more bytes: it went from
    [s] to [s'], and did not leave the range of an [int]. *)
Definition counted (s : Z) (n : nat) (s' : Z) : Prop :=
  s' = (s + Z.of_nat n)%Z /\
  ((s <= Z.of_N INT_MAX)%Z -> (s' <= Z.of_N INT_MAX)%Z).

(** *** Vocabulary for [fixupSharedBuffer] *)

(** The positions, from [idx] on, of the shared elements of [l]. *)
Fixpoint shared_positions (l : list IOBuf) (idx : nat) : list nat :=
  match l with
  | [] => []
  | b :: t =>
    if isSharedOne b then idx :: shared_positions t (S idx)
    else shared_positions t (S idx)
  end.

(** The element at position [p] replaced by a copy of its bytes. *)
Definition replace_copy (l : list IOBuf) (p : nat) : list IOBuf :=
  match nth_error l p with
  | Some b => array_set p (copyBuffer (data b)) l
  | None => l
  end.

(** *** The calls of a whole encryption and of a whole decryption *)

(** The calls of [evpEncrypt], in order, when the plaintext is handed over
    in [pieces]. *)
Definition encrypt_calls (iv : bytes) (ad : option Chain)
    (pieces : list bytes) (tagLen : nat) : list Call :=
  [Call_EncryptInit_ex iv] ++ ad_calls (Call_EncryptUpdate true) ad ++
  map (Call_EncryptUpdate false) pieces ++
  [Call_EncryptFinal_ex; Call_GET_TAG tagLen].

(** The calls of [evpDecrypt] before [EVP_DecryptFinal_ex], in order: with
    block operations the tag is set before the updates, without them
    after. *)
Definition decrypt_calls (blk : bool) (iv : bytes) (ad : option Chain)
    (pieces : list bytes) (tag : bytes) : list Call :=
  [Call_DecryptInit_ex iv] ++ ad_calls (Call_DecryptUpdate true) ad ++
  (if blk
   then [Call_SET_TAG tag] ++ map (Call_DecryptUpdate false) pieces
   else map (Call_DecryptUpdate false) pieces ++ [Call_SET_TAG tag]).

(** *** The exceptions of the kernel *)

(** Some call of the run from [st] to [st'] did not return 1, and it was
    the last one. *)
Definition failed_last {E} (st st' : cstate E) : Prop :=
  exists tr0 call, clog st' = clog st ++ tr0 ++ [(call, false)].

(** The last call of the run from [st] to [st'] was an [EVP_EncryptUpdate]
    on plaintext that returned 1 and left a negative number in [*outl]. *)
Definition negative_last {E} (st st' : cstate E) : Prop :=
  exists tr0 p c w,
    clog st' = clog st ++ tr0 ++ [(Call_EncryptUpdate false p, true)] /\
    EVP_EncryptUpdate E c false p = Some (cctx st', w) /\
    EVP_EncryptUpdate_outl_negative E c false p = true.

(** The run from [st] to [st'] stopped at its last call to the library. *)
Definition stopped {E} (st st' : cstate E) : Prop :=
  failed_last st st' \/ negative_last st st'.

(** Every run of [m] extends the record of calls, and when it throws then
    for a reason in [P], or with the message [what] right after the call
    that made it stop. *)
Definition throws {E A} (m : M E A) (P : string -> Prop) (what : string)
    : Prop :=
  forall st r st',
    m st = (r, st') ->
    (exists tr, clog st' = clog st ++ tr) /\
    (forall w, outcome_of r = Thrown w -> P w \/ (w = what /\ stopped st st')).

(** The reasons for which [evpEncrypt] throws without a failed call, each
    with its message. *)
Definition encrypt_reasons (useBlockOps : bool) (ad : option Chain)
    (plaintext : Chain) (w : string) : Prop :=
  (w = "too much associated data"%string /\ oversize (ad_bufs ad)) \/
  (w = "Encryption error: too much plain text"%string /\
   useBlockOps = false /\ oversize (bufs plaintext)) \/
  (w = "overflow"%string /\ useBlockOps = true).

(** The reasons for which [evpDecrypt] throws without a failed call, each
    with its message. *)
Definition decrypt_reasons (useBlockOps : bool) (ad : option Chain)
    (ciphertext : Chain) (w : string) : Prop :=
  (w = "too much associated data"%string /\ oversize (ad_bufs ad)) \/
  (w = "Decryption error: too much cipher text"%string /\
   useBlockOps = false /\
   exceeds_int (computeChainDataLength ciphertext) = true) \/
  (w = "overflow"%string /\ useBlockOps = true).
(** ** A small cipher behind the EVP interface

    It is used to run the kernel on concrete inputs: every byte is xor-ed
    with the key byte, input is held back until [tblock] bytes are there
    ([tblock = 1] gives a stream cipher), and the tag repeats the xor of the
    IV, the associated data and the ciphertext. *)
Module Toy.

Definition bxor (a b : byte) : byte :=
  let '(a0, (a1, (a2, (a3, (a4, (a5, (a6, a7))))))) := Byte.to_bits a in
  let '(b0, (b1, (b2, (b3, (b4, (b5, (b6, b7))))))) := Byte.to_bits b in
  Byte.of_bits
    (xorb a0 b0, (xorb a1 b1, (xorb a2 b2, (xorb a3 b3,
    (xorb a4 b4, (xorb a5 b5, (xorb a6 b6, xorb a7 b7))))))).

Definition xsum (bs : bytes) : byte := fold_right bxor x00 bs.

Record ctx : Type := mkCtx {
  tkey : byte;
  tblock : nat;
  tacc : byte;
  tpending : bytes;
  texpect : option bytes
}.

Definition init (c : ctx) (iv : bytes) : option ctx :=
  Some (mkCtx (tkey c) (tblock c) (xsum iv) [] None).

(** The bytes that leave the cipher once [inp] has arrived. *)
Definition ready (c : ctx) (inp : bytes) : nat :=
  (length (tpending c ++ inp) / tblock c) * tblock c.

Definition update (decrypting : bool) (c : ctx) (out_null : bool)
    (inp : bytes) : option (ctx * bytes) :=
  if out_null then
    Some (mkCtx (tkey c) (tblock c) (bxor (tacc c) (xsum inp)) (tpending c)
                (texpect c), [])
  else
    let all := tpending c ++ inp in
    let now := firstn (ready c inp) all in
    let out := map (bxor (tkey c)) now in
    let seen := if decrypting then now else out in
    Some (mkCtx (tkey c) (tblock c) (bxor (tacc c) (xsum seen))
                (skipn (ready c inp) all) (texpect c), out).

Definition final_enc (c : ctx) : option (ctx * bytes) :=
  let out := map (bxor (tkey c)) (tpending c) in
  Some (mkCtx (tkey c) (tblock c) (bxor (tacc c) (xsum out)) [] (texpect c),
        out).

Definition get_tag (c : ctx) (n : nat) : option (ctx * bytes) :=
  Some (c, repeat (tacc c) n).

Definition set_tag (c : ctx) (tag : bytes) : option ctx :=
  Some (mkCtx (tkey c) (tblock c) (tacc c) (tpending c) (Some tag)).

Definition final_dec (c : ctx) : option (ctx * bytes) :=
  let acc := bxor (tacc c) (xsum (tpending c)) in
  match texpect c with
  | Some tag =>
    if list_eq_dec Byte.byte_eq_dec tag (repeat acc (length tag))
    then Some (mkCtx (tkey c) (tblock c) acc [] (texpect c),
               map (bxor (tkey c)) (tpending c))
    else None
  | None => None
  end.

Definition cipher : EVP :=
  {| EVP_CIPHER_CTX := ctx;
     EVP_EncryptInit_ex := init;
     EVP_EncryptUpdate := update false;
     EVP_EncryptUpdate_outl_negative := fun _ _ _ => false;
     EVP_EncryptFinal_ex := final_enc;
     EVP_CTRL_GCM_GET_TAG := get_tag;
     EVP_DecryptInit_ex := init;
     EVP_DecryptUpdate := update true;
     EVP_CTRL_GCM_SET_TAG := set_tag;
     EVP_DecryptFinal_ex := final_dec |}.

(** A context holding key [k]. *)
Definition keyed (k : byte) (block : nat) : cstate cipher :=
  mkCstate (E := cipher) (mkCtx k block x00 [] None) [].

Definition buf (d : bytes) (tail : nat) (shared : bool) : IOBuf :=
  {| headroom := 0; data := d; tailroom := tail; isSharedOne := shared |}.

(** *** A stream cipher

    Every update stores as many bytes as it is given and the final stores
    none.  The context keeps the IV, the associated data and the ciphertext
    it has seen, and the tag repeats their xor. *)

Record sctx : Type := mkSctx {
  skey : byte;
  sseen : bytes;
  sexpect : option bytes
}.

Definition sinit (c : sctx) (iv : bytes) : option sctx :=
  Some (mkSctx (skey c) iv None).

Definition supdate (decrypting : bool) (c : sctx) (out_null : bool)
    (inp : bytes) : option (sctx * bytes) :=
  if out_null then Some (mkSctx (skey c) (sseen c ++ inp) (sexpect c), [])
  else
    let out := map (bxor (skey c)) inp in
    Some (mkSctx (skey c) (sseen c ++ (if decrypting then inp else out))
                 (sexpect c), out).

Definition sfinal_enc (c : sctx) : option (sctx * bytes) := Some (c, []).

Definition sget_tag (c : sctx) (n : nat) : option (sctx * bytes) :=
  Some (c, repeat (xsum (sseen c)) n).

Definition sset_tag (c : sctx) (tag : bytes) : option sctx :=
  Some (mkSctx (skey c) (sseen c) (Some tag)).

Definition sfinal_dec (c : sctx) : option (sctx * bytes) :=
  match sexpect c with
  | Some tag =>
    if list_eq_dec Byte.byte_eq_dec tag (repeat (xsum (sseen c)) (length tag))
    then Some (c, [])
    else None
  | None => None
  end.

Definition stream : EVP :=
  {| EVP_CIPHER_CTX := sctx;
     EVP_EncryptInit_ex := sinit;
     EVP_EncryptUpdate := supdate false;
     EVP_EncryptUpdate_outl_negative := fun _ _ _ => false;
     EVP_EncryptFinal_ex := sfinal_enc;
     EVP_CTRL_GCM_GET_TAG := sget_tag;
     EVP_DecryptInit_ex := sinit;
     EVP_DecryptUpdate := supdate true;
     EVP_CTRL_GCM_SET_TAG := sset_tag;
     EVP_DecryptFinal_ex := sfinal_dec |}.

(** A context of [stream] holding key [k]. *)
Definition stream_keyed (k : byte) : cstate stream :=
  mkCstate (E := stream) (mkSctx k [] None) [].

(** *** A cipher with 16-byte blocks

    [cipher] with the block size fixed, and with a final that refuses a
    context holding more than one block. *)

Definition with16 (c : ctx) : ctx :=
  mkCtx (tkey c) 16 (tacc c) (tpending c) (texpect c).

Definition one_block {A} (c : ctx) (r : option A) : option A :=
  if 16 <? length (tpending c) then None else r.

Definition block16 : EVP :=
  {| EVP_CIPHER_CTX := ctx;
     EVP_EncryptInit_ex := fun c => init (with16 c);
     EVP_EncryptUpdate := fun c => update false (with16 c);
     EVP_EncryptUpdate_outl_negative := fun _ _ _ => false;
     EVP_EncryptFinal_ex := fun c => one_block c (final_enc (with16 c));
     EVP_CTRL_GCM_GET_TAG := get_tag;
     EVP_DecryptInit_ex := fun c => init (with16 c);
     EVP_DecryptUpdate := fun c => update true (with16 c);
     EVP_CTRL_GCM_SET_TAG := set_tag;
     EVP_DecryptFinal_ex := fun c => one_block c (final_dec (with16 c)) |}.

(** A context of [block16] holding key [k]. *)
Definition keyed16 (k : byte) : cstate block16 :=
  mkCstate (E := block16) (mkCtx k 16 x00 [] None) [].

(** *** A cipher with 16-byte blocks that pads

    [block16], except that the final of an encryption stores a whole block:
    what the context holds back, filled up with zero bytes. *)
Definition final_padded (c : ctx) : option (ctx * bytes) :=
  match one_block c (final_enc (with16 c)) with
  | Some (c', w) => Some (c', w ++ repeat x00 (16 - length w))
  | None => None
  end.

Definition padded : EVP :=
  {| EVP_CIPHER_CTX := ctx;
     EVP_EncryptInit_ex := fun c => init (with16 c);
     EVP_EncryptUpdate := fun c => update false (with16 c);
     EVP_EncryptUpdate_outl_negative := fun _ _ _ => false;
     EVP_EncryptFinal_ex := final_padded;
     EVP_CTRL_GCM_GET_TAG := get_tag;
     EVP_DecryptInit_ex := fun c => init (with16 c);
     EVP_DecryptUpdate := fun c => update true (with16 c);
     EVP_CTRL_GCM_SET_TAG := set_tag;
     EVP_DecryptFinal_ex := fun c => one_block c (final_dec (with16 c)) |}.

(** A context of [padded] holding key [k]. *)
Definition keyed_padded (k : byte) : cstate padded :=
  mkCstate (E := padded) (mkCtx k 16 x00 [] None) [].

(** *** A library that tells a negative length

    [stream], except that every update on plaintext leaves a negative
    number in [*outl], though it returns 1. *)
Definition negating : EVP :=
  {| EVP_CIPHER_CTX := sctx;
     EVP_EncryptInit_ex := sinit;
     EVP_EncryptUpdate := supdate false;
     EVP_EncryptUpdate_outl_negative := fun _ out_null _ => negb out_null;
     EVP_EncryptFinal_ex := sfinal_enc;
     EVP_CTRL_GCM_GET_TAG := sget_tag;
     EVP_DecryptInit_ex := sinit;
     EVP_DecryptUpdate := supdate true;
     EVP_CTRL_GCM_SET_TAG := sset_tag;
     EVP_DecryptFinal_ex := sfinal_dec |}.

(** A context of [negating] holding key [k]. *)
Definition negating_keyed (k : byte) : cstate negating :=
  mkCstate (E := negating) (mkSctx k [] None) [].

(** *** A library that fails at a chosen call

    The context counts the calls that return 1 before one returns 0.  A call
    that returns 1 stores nothing, and the tag it gives is zero bytes. *)
Definition countdown (c : nat) : option nat :=
  match c with
  | 0 => None
  | S n => Some n
  end.

Definition countdown_out (out : bytes) (c : nat) : option (nat * bytes) :=
  match countdown c with
  | Some n => Some (n, out)
  | None => None
  end.

Definition faulty : EVP :=
  {| EVP_CIPHER_CTX := nat;
     EVP_EncryptInit_ex := fun c _ => countdown c;
     EVP_EncryptUpdate := fun c _ _ => countdown_out [] c;
     EVP_EncryptUpdate_outl_negative := fun _ _ _ => false;
     EVP_EncryptFinal_ex := countdown_out [];
     EVP_CTRL_GCM_GET_TAG := fun c n => countdown_out (repeat x00 n) c;
     EVP_DecryptInit_ex := fun c _ => countdown c;
     EVP_DecryptUpdate := fun c _ _ => countdown_out [] c;
     EVP_CTRL_GCM_SET_TAG := fun c _ => countdown c;
     EVP_DecryptFinal_ex := countdown_out [] |}.

(** A context of [faulty] whose call number [n], counted from 0, returns
    0. *)
Definition fails_at (n : nat) : cstate faulty :=
  mkCstate (E := faulty) n [].

End Toy.

End Aead.

Unset Implicit Arguments.

(** ** Properties of the handshake state *)

Module ServerStateFacts.
Import ServerState.

(** C10: a default-constructed [State] is in phase [Uninitialized] and every
    [folly::Optional] member (version, cipher, group, sigScheme, pskType,
    pskMode, keyExchangeType, earlyDataType, replayCacheResult,
    clientHandshakeSecret, alpn, clientClockSkew, handshakeTime,
    earlyExporterMasterSecret, exporterMasterSecret, unverifiedCertChain) is
    unset. *)
Theorem default_State_uninitialized_and_unset :
  forall (T : Types) (e : option (Executor T)),
    let s := default_State T e in
    state s = Uninitialized /\
    version s = None /\ cipher s = None /\ group s = None /\
    sigScheme s = None /\ pskType s = None /\ pskMode s = None /\
    keyExchangeType s = None /\ earlyDataType s = None /\
    replayCacheResult s = None /\ clientHandshakeSecret_ s = None /\
    alpn s = None /\ clientClockSkew s = None /\ handshakeTime s = None /\
    earlyExporterMasterSecret s = None /\ exporterMasterSecret s = None /\
    unverifiedCertChain s = None /\ serverCertCompAlgo s = None.
Proof.
  intros T e s; subst s; unfold default_State.
  repeat split.
Qed.

End ServerStateFacts.

(** ** Properties of the AEAD kernel *)

Module AeadFacts.
Import Aead.

(** *** Running the monad *)

Lemma bind_Ok E A B (m : M E A) (k : A -> M E B) st a st1 :
  m st = (Ok a, st1) -> bind m k st = k a st1.
Proof. intros H; unfold bind; now rewrite H. Qed.

Lemma bind_inv E A B (m : M E A) (k : A -> M E B) st r st' :
  bind m k st = (r, st') ->
  (exists a st1, m st = (Ok a, st1) /\ k a st1 = (r, st')) \/
  (exists w, m st = (Throw w, st') /\ r = Throw w) \/
  (m st = (Undefined, st') /\ r = Undefined).
Proof.
  unfold bind; destruct (m st) as [[a | w |] st1]; intros H.
  - left; eauto.
  - right; left; inversion H; subst; eauto.
  - right; right; inversion H; subst; eauto.
Qed.

(** An [Ok] run of a bind is an [Ok] run of both parts. *)
Lemma bind_inv_Ok E A B (m : M E A) (k : A -> M E B) st b st' :
  bind m k st = (Ok b, st') ->
  exists a st1, m st = (Ok a, st1) /\ k a st1 = (Ok b, st').
Proof.
  intros H; apply bind_inv in H.
  destruct H as [H | [[w [_ H]] | [_ H]]]; [assumption | discriminate ..].
Qed.

(** *** Chains and [trimBytes] *)

Lemma chain_bytes_app l1 l2 : chain_bytes (l1 ++ l2) = chain_bytes l1 ++ chain_bytes l2.
Proof. unfold chain_bytes; now rewrite map_app, concat_app. Qed.

Lemma chain_bytes_cons b l : chain_bytes (b :: l) = data b ++ chain_bytes l.
Proof. reflexivity. Qed.

Lemma trimEnd_0 b : trimEnd b 0 = b.
Proof.
  destruct b as [h d t s]; unfold trimEnd; simpl.
  rewrite Nat.sub_0_r, firstn_all, Nat.add_0_r; reflexivity.
Qed.

Lemma lastn_0 (d : bytes) : lastn 0 d = [].
Proof. unfold lastn; rewrite Nat.sub_0_r; apply skipn_all. Qed.

Lemma trimBytes_rev_0 rl : trimBytes_rev rl 0 = (rl, []).
Proof.
  induction rl as [| b t IH]; simpl; [reflexivity |].
  rewrite IH, trimEnd_0, lastn_0; reflexivity.
Qed.

Lemma lastn_length n d : n <= length d -> length (lastn n d) = n.
Proof. intros H; unfold lastn; rewrite length_skipn; lia. Qed.

Lemma firstn_lastn n (d : bytes) : firstn (length d - n) d ++ lastn n d = d.
Proof. unfold lastn; apply firstn_skipn. Qed.

Lemma trimBytes_rev_spec rl : forall n rl' t,
  trimBytes_rev rl n = (rl', t) ->
  map isSharedOne rl' = map isSharedOne rl /\
  map headroom rl' = map headroom rl /\
  chain_bytes (rev rl') ++ t = chain_bytes (rev rl) /\
  length t = Nat.min n (length (chain_bytes (rev rl))).
Proof.
  induction rl as [| b before IH]; intros n rl' t H; simpl in H.
  - inversion H; subst; simpl. repeat split; lia.
  - destruct (trimBytes_rev before (n - Nat.min n (length (data b))))
      as [before' trimmed] eqn:Hrec.
    inversion H; subst; clear H.
    destruct (IH _ _ _ Hrec) as (Hs & Hh & Hb & Hl).
    simpl. rewrite Hs, Hh. repeat split.
    + rewrite !chain_bytes_app, !chain_bytes_cons; simpl. rewrite !app_nil_r.
      destruct (Nat.le_gt_cases n (length (data b))) as [Hle | Hgt].
      * rewrite Nat.min_l in * by lia.
        rewrite Nat.sub_diag in Hrec. rewrite trimBytes_rev_0 in Hrec.
        inversion Hrec; subst. simpl.
        rewrite <- app_assoc. f_equal. apply firstn_lastn.
      * rewrite Nat.min_r in * by lia.
        rewrite Nat.sub_diag. simpl.
        unfold lastn. rewrite Nat.sub_diag. simpl.
        rewrite app_nil_r, app_assoc, Hb. reflexivity.
    + rewrite !length_app, chain_bytes_app, chain_bytes_cons, !length_app.
      simpl. rewrite Hl, lastn_length by lia. lia.
Qed.

Lemma trimBytes_spec c n c' t :
  trimBytes c n = (c', t) ->
  map isSharedOne (bufs c') = map isSharedOne (bufs c) /\
  map headroom (bufs c') = map headroom (bufs c) /\
  contents c' ++ t = contents c /\
  length t = Nat.min n (length (contents c)).
Proof.
  unfold trimBytes. destruct (trimBytes_rev (rev (snd c)) n) as [rest' t1] eqn:Hr.
  intros H; inversion H; subst; clear H.
  destruct (trimBytes_rev_spec _ _ _ _ Hr) as (Hs & Hh & Hb & Hl).
  rewrite rev_involutive in Hb, Hl.
  unfold contents, bufs; simpl.
  rewrite !map_rev, Hs, Hh, <- !map_rev, rev_involutive.
  repeat split.
  - rewrite !chain_bytes_cons. fold (chain_bytes (rev rest')).
    destruct (Nat.le_gt_cases n (length (chain_bytes (snd c)))) as [Hle | Hgt].
    + rewrite Nat.min_l in Hl by lia. rewrite Hl, Nat.sub_diag. simpl.
      unfold lastn. rewrite Nat.sub_0_r, firstn_all, skipn_all. simpl.
      now rewrite <- app_assoc, Hb.
    + rewrite Nat.min_r in Hl by lia.
      assert (Hnil : chain_bytes (rev rest') = []).
      { apply (f_equal (@length _)) in Hb. rewrite length_app in Hb.
        destruct (chain_bytes (rev rest')); [reflexivity | simpl in Hb; lia]. }
      rewrite Hnil in *. simpl in Hb. subst t1. rewrite app_nil_r.
      rewrite app_assoc. f_equal. apply firstn_lastn.
  - rewrite length_app, lastn_length by lia.
    rewrite chain_bytes_cons, length_app. lia.
Qed.

(** *** Short input *)

Lemma evpDecrypt_short E K c ad iv tagLen blk (st : cstate E) :
  computeChainDataLength c < tagLen ->
  evpDecrypt E K c ad iv tagLen blk st = (Ok None, st).
Proof.
  intros Hlt. unfold evpDecrypt.
  apply Nat.ltb_lt in Hlt; rewrite Hlt.
  reflexivity.
Qed.

(** C9: when the ciphertext chain holds fewer bytes than the tag,
    [evpDecrypt] returns [folly::none] and leaves the context and the record
    of calls made on it as they were: no [EVP_DecryptInit_ex], no associated
    data, no exception. *)
Theorem evpDecrypt_shorter_than_tag :
  forall E K ciphertext associatedData iv tagLen useBlockOps st,
    computeChainDataLength ciphertext < tagLen ->
    evpDecrypt E K ciphertext associatedData iv tagLen useBlockOps st
    = (Ok None, st).
Proof.
  intros E K c ad iv tagLen blk st Hlt.
  unfold evpDecrypt.
  apply Nat.ltb_lt in Hlt; rewrite Hlt.
  reflexivity.
Qed.

Lemma evpDecrypt_shorter_than_tag_witness :
  computeChainDataLength (Toy.buf [x01; x02] 0 false, []) < 4 /\
  evpDecrypt Toy.cipher 4 (Toy.buf [x01; x02] 0 false, []) None [x07] 4 false
    (Toy.keyed x55 1)
  = (Ok None, Toy.keyed x55 1).
Proof.
  split; [vm_compute; lia |].
  apply evpDecrypt_shorter_than_tag; vm_compute; lia.
Defined.

(** *** [fixupSharedBuffer] with fewer shared elements than the array holds *)

Lemma unshare_each_unassigned ps rest enc :
  unshare_each (map Some ps ++ None :: rest) enc = Undefined.
Proof.
  revert enc; induction ps as [| p ps IH]; intros enc; simpl; [reflexivity |].
  destruct (p =? 0); [apply IH |].
  destruct (nth_error (snd enc) (p - 1)); [apply IH | reflexivity].
Qed.

Lemma array_set_next A (xs : list A) (v d : A) m :
  array_set (length xs) v (xs ++ d :: m) = (xs ++ [v]) ++ m.
Proof.
  induction xs as [| x xs IH]; simpl; [reflexivity | now rewrite IH].
Qed.

Lemma count_shared_spec K l : forall idx ps m,
  K = length ps + m ->
  exists n arr, count_shared K l idx (length ps) (map Some ps ++ repeat None m) = (n, arr) /\
    ((n = length ps + length (filter isSharedOne l) /\ n <= K /\
      exists ps', length ps' = n /\ arr = map Some ps' ++ repeat None (K - n)) \/
     (n = S K /\ K < length ps + length (filter isSharedOne l))).
Proof.
  induction l as [| b t IH]; intros idx ps m HK; simpl.
  - exists (length ps), (map Some ps ++ repeat None m); split; [reflexivity |].
    left; repeat split; try lia.
    exists ps; split; [reflexivity |]. f_equal; f_equal; lia.
  - destruct (isSharedOne b) eqn:Hs; simpl.
    + destruct (K <? S (length ps)) eqn:Hlt.
      * apply Nat.ltb_lt in Hlt.
        exists (S (length ps)), (map Some ps ++ repeat None m); split; [reflexivity |].
        right; split; lia.
      * apply Nat.ltb_ge in Hlt.
        destruct m as [| m]; [lia |].
        replace (length ps - 0) with (length (map (@Some nat) ps))
          by (rewrite length_map; lia).
        simpl repeat. rewrite array_set_next.
        replace (map Some ps ++ [Some idx]) with (map Some (ps ++ [idx]))
          by (rewrite map_app; reflexivity).
        replace (S (length ps)) with (length (ps ++ [idx]))
          by (rewrite length_app; simpl; lia).
        destruct (IH (S idx) (ps ++ [idx]) m) as (n & arr & Heq & Hcases).
        { rewrite length_app; simpl; lia. }
        exists n, arr; split; [exact Heq |].
        rewrite length_app in Hcases; simpl in Hcases.
        destruct Hcases as [(Hn & Hle & ps' & Hl & Harr) | (Hn & Hgt)].
        -- left; repeat split; try lia. exists ps'; split; assumption.
        -- right; split; lia.
    + apply IH; assumption.
Qed.

Lemma fixupSharedBuffer_fewer_than_max_shared K c inputLength :
  0 < numShared c < K ->
  fixupSharedBuffer K c inputLength = Undefined.
Proof.
  intros [Hpos Hlt]; unfold fixupSharedBuffer, numShared in *.
  destruct (count_shared_spec K (bufs c) 0 [] K eq_refl) as (n & arr & Heq & Hcases).
  change (map Some [] ++ repeat None K) with (repeat (@None nat) K) in Heq.
  change (length (@nil nat)) with 0 in Heq.
  rewrite Heq.
  change (length (@nil nat)) with 0 in Hcases.
  destruct Hcases as [(Hn & Hle & ps' & Hl & Harr) | (Hn & Hgt)]; [| lia].
  destruct (n =? 0) eqn:Hz; [apply Nat.eqb_eq in Hz; lia |].
  apply Nat.leb_le in Hle; rewrite Hle.
  subst arr. destruct (K - n) as [| m] eqn:Hm; [lia |].
  simpl repeat. now rewrite unshare_each_unassigned.
Qed.

Lemma numShared_flags c c' :
  map isSharedOne (bufs c') = map isSharedOne (bufs c) ->
  numShared c' = numShared c.
Proof.
  unfold numShared. generalize (bufs c) (bufs c'); clear.
  induction l as [| b l IH]; intros [| b' l'] H; simpl in *;
    try discriminate; [reflexivity |].
  inversion H as [[Hb Hl]]. rewrite Hb.
  destruct (isSharedOne b); simpl; now rewrite (IH _ Hl).
Qed.

(** C3: what the code does where the spec asks for the result of the
    unshared chain.  With at least one and fewer than [kMaxSharedInChain]
    shared elements in the ciphertext, [fixupSharedBuffer] runs its copy loop
    over all [kMaxSharedInChain] entries of [chainedBufs] and so reads an
    entry that was never assigned: [evpDecrypt] has undefined behaviour, and
    no cipher call was made. *)
Theorem evpDecrypt_partly_shared_undefined :
  forall E K ciphertext associatedData iv tagLen useBlockOps st,
    tagLen <= computeChainDataLength ciphertext ->
    0 < numShared ciphertext < K ->
    evpDecrypt E K ciphertext associatedData iv tagLen useBlockOps st
    = (Undefined, st).
Proof.
  intros E K c ad iv tagLen blk st Hlen Hsh.
  unfold evpDecrypt.
  apply Nat.ltb_ge in Hlen; rewrite Hlen.
  destruct (trimBytes c tagLen) as [c' tagOut] eqn:Ht.
  destruct (trimBytes_spec _ _ _ _ Ht) as (Hflags & _).
  rewrite <- (numShared_flags _ _ Hflags) in Hsh.
  unfold bind, lift.
  now rewrite (fixupSharedBuffer_fewer_than_max_shared _ _ _ Hsh).
Qed.

Lemma evpDecrypt_partly_shared_undefined_witness :
  evpDecrypt Toy.cipher 4
    (Toy.buf [x01; x02; x03] 0 true, [Toy.buf [x04; x05; x06; x07] 0 false])
    None [x07] 2 false (Toy.keyed x55 1)
  = (Undefined, Toy.keyed x55 1).
Proof.
  apply evpDecrypt_partly_shared_undefined; vm_compute; lia.
Defined.

(** *** The transforms keep the layout of the output chain *)

Lemma overwrite_length pos bs d : length (overwrite pos bs d) = length d.
Proof.
  unfold overwrite. rewrite !length_app, !length_firstn, length_skipn. lia.
Qed.

Lemma shape_poke b pos bs : shape (poke b pos bs) = shape b.
Proof. unfold shape, poke, set_data; simpl. now rewrite overwrite_length. Qed.

Lemma length_data_poke b pos bs : length (data (poke b pos bs)) = length (data b).
Proof. unfold poke, set_data; simpl. apply overwrite_length. Qed.

Section Shapes.
Variable E : EVP.
Variable Acc : Type.
Variable func : Acc -> bytes -> M E (Acc * bytes).

Lemma transformBuffer_inner_shape out : forall s current done offset st s' d o off st',
  transformBuffer_inner func s current done out offset st = (Ok (s', (d, o, off)), st') ->
  map shape (d ++ o) = map shape (done ++ out).
Proof.
  induction out as [| cur todo IH]; intros s current done offset st s' d o off st' H;
    destruct current as [| x current]; simpl in H.
  - inversion H; subst; reflexivity.
  - discriminate.
  - inversion H; subst; reflexivity.
  - destruct (_ <? _) in H.
    + apply bind_inv_Ok in H. destruct H as ([s1 w] & st1 & Hf & H).
      inversion H; subst. rewrite !map_app. simpl. now rewrite shape_poke.
    + apply bind_inv_Ok in H. destruct H as ([s1 w] & st1 & Hf & H).
      apply IH in H. rewrite H, <- app_assoc, !map_app. simpl.
      now rewrite shape_poke.
Qed.

Lemma transformBuffer_outer_shape ins : forall s done out offset st s' d o off st',
  transformBuffer_outer func s ins done out offset st = (Ok (s', (d, o, off)), st') ->
  map shape (d ++ o) = map shape (done ++ out).
Proof.
  induction ins as [| cur rest IH]; intros s done out offset st s' d o off st' H;
    simpl in H.
  - inversion H; subst; reflexivity.
  - apply bind_inv_Ok in H. destruct H as ([s1 [[d1 o1] off1]] & st1 & Hi & H).
    apply IH in H. apply transformBuffer_inner_shape in Hi. congruence.
Qed.

Lemma transformBuffer_shape inp out s st s' out' st' :
  transformBuffer func inp out s st = (Ok (s', out'), st') ->
  map shape (bufs out') = map shape (bufs out).
Proof.
  unfold transformBuffer; intros H.
  apply bind_inv_Ok in H. destruct H as ([s1 [[d o] off]] & st1 & Ho & H).
  apply transformBuffer_outer_shape in Ho. simpl in Ho.
  destruct (d ++ o) as [| h t]; [discriminate |].
  inversion H; subst. exact Ho.
Qed.

Lemma write_bufs_shape l : forall pos bs, map shape (write_bufs pos bs l) = map shape l.
Proof.
  induction l as [| b t IH]; intros pos bs; simpl; [reflexivity |].
  now rewrite shape_poke, IH.
Qed.

Lemma write_chain_shape pos bs c :
  map shape (bufs (write_chain pos bs c)) = map shape (bufs c).
Proof.
  unfold write_chain, bufs; simpl. now rewrite shape_poke, write_bufs_shape.
Qed.

Lemma poke_bufs_shape l : forall pos bs, map shape (poke_bufs l pos bs) = map shape l.
Proof.
  induction l as [| b t IH]; intros pos bs; simpl; [reflexivity |].
  destruct (_ <? _); simpl; [now rewrite shape_poke | now rewrite IH].
Qed.

Lemma cursor_poke_shape c pos bs :
  map shape (bufs (cursor_poke c pos bs)) = map shape (bufs c).
Proof.
  unfold cursor_poke, bufs. destruct (_ <? _); simpl.
  - now rewrite shape_poke.
  - now rewrite poke_bufs_shape.
Qed.

Lemma push_shape c pos bs (st : cstate E) c' st' :
  push c pos bs st = (Ok c', st') ->
  map shape (bufs c') = map shape (bufs c) /\ st' = st.
Proof.
  unfold push. destruct (_ <? _); [discriminate |].
  intros H; inversion H; subst. split; [apply write_chain_shape | reflexivity].
Qed.

Lemma feed_blocks_shape pieces : forall s out pos st s' out' pos' st',
  feed_blocks func s pieces out pos st = (Ok (s', (out', pos')), st') ->
  map shape (bufs out') = map shape (bufs out).
Proof.
  induction pieces as [| p ps IH]; intros s out pos st s' out' pos' st' H; simpl in H.
  - inversion H; subst; reflexivity.
  - apply bind_inv_Ok in H. destruct H as ([s1 w] & st1 & Hf & H).
    apply bind_inv_Ok in H. destruct H as (out1 & st2 & Hp & H).
    apply push_shape in Hp. destruct Hp as [Hp _].
    apply IH in H. congruence.
Qed.

End Shapes.

(** *** [evpEncrypt]: the layout of the returned chain *)

Lemma lib_out_inv E f call (st : cstate E) r st' :
  lib_out f call st = (r, st') ->
  (exists c w, f (cctx st) = Some (c, w) /\ r = Ok (Some w) /\
               st' = logged st c call true) \/
  (f (cctx st) = None /\ r = Ok None /\ st' = logged st (cctx st) call false).
Proof.
  unfold lib_out. destruct (f (cctx st)) as [[c w] |]; intros H; inversion H; subst.
  - left; eauto.
  - right; auto.
Qed.

Lemma lib_ctl_inv E f call (st : cstate E) r st' :
  lib_ctl f call st = (r, st') ->
  (exists c, f (cctx st) = Some c /\ r = Ok true /\ st' = logged st c call true) \/
  (f (cctx st) = None /\ r = Ok false /\ st' = logged st (cctx st) call false).
Proof.
  unfold lib_ctl. destruct (f (cctx st)) as [c |]; intros H; inversion H; subst.
  - left; eauto.
  - right; auto.
Qed.

Ltac lib_inv H :=
  unfold lib_EncryptInit_ex, lib_EncryptUpdate, lib_EncryptFinal_ex, lib_GET_TAG,
    lib_DecryptInit_ex, lib_DecryptUpdate, lib_SET_TAG, lib_DecryptFinal_ex in H;
  first [apply lib_ctl_inv in H | apply lib_out_inv in H].

Lemma encFunc_shape E p output (st : cstate E) out st' :
  encFunc p output st = (Ok out, st') ->
  map shape (bufs out) = map shape (bufs output).
Proof.
  unfold encFunc; intros H.
  apply bind_inv_Ok in H. destruct H as ([n o] & st1 & Ht & H).
  apply transformBuffer_shape in Ht.
  apply bind_inv_Ok in H. destruct H as (r & st2 & _ & H).
  destruct r as [w |]; [| discriminate].
  inversion H; subst. rewrite <- Ht. unfold bufs; simpl. now rewrite shape_poke.
Qed.

Lemma encFuncBlocks_shape E p output (st : cstate E) out st' :
  encFuncBlocks p output st = (Ok out, st') ->
  map shape (bufs out) = map shape (bufs output).
Proof.
  unfold encFuncBlocks, transformBufferBlocks; intros H.
  apply bind_inv_Ok in H. destruct H as ([[tw ti] [o pos]] & st1 & Ht & H).
  apply feed_blocks_shape in Ht.
  destruct (_ <=? _)%Z.
  - apply bind_inv_Ok in H. destruct H as (r & st2 & _ & H).
    destruct r as [w |]; [| discriminate].
    inversion H; subst. now rewrite cursor_poke_shape.
  - apply bind_inv_Ok in H. destruct H as (r & st2 & _ & H).
    destruct r as [w |]; [| discriminate].
    destruct (16 <? length w); [discriminate |].
    apply push_shape in H. destruct H as [H _]. congruence.
Qed.

(** What a run of [evpEncrypt] that returns went through. *)
Lemma evpEncrypt_inv_Ok E p ad iv tagLen blk headroom (st : cstate E) c st' :
  evpEncrypt E p ad iv tagLen blk headroom st = (Ok c, st') ->
  exists ci st1 st2 out c0 t,
    EVP_EncryptInit_ex E (cctx st) iv = Some ci /\
    feed_optional_associatedData (lib_EncryptUpdate true) "Encryption error" ad
      (logged st ci (Call_EncryptInit_ex iv) true) = (Ok tt, st1) /\
    (if blk then encFuncBlocks p (encrypt_output p tagLen headroom)
     else encFunc p (encrypt_output p tagLen headroom)) st1 = (Ok out, st2) /\
    EVP_CTRL_GCM_GET_TAG E (cctx st2) tagLen = Some (c0, t) /\
    st' = logged st2 c0 (Call_GET_TAG tagLen) true /\
    c = (if tailroom (prev out) <? tagLen
         then prependChain out (poke (append (create tagLen) tagLen) 0 t)
         else set_prev out
                (poke (append (prev out) tagLen)
                      (length (data (append (prev out) tagLen)) - tagLen) t)).
Proof.
  unfold evpEncrypt; intros H.
  apply bind_inv_Ok in H. destruct H as (ok & st0 & Hinit & H).
  lib_inv Hinit.
  destruct Hinit as [(ci & Hci & Hok & Hst0) | (_ & Hok & _)];
    inversion Hok; subst ok; simpl in H; [| discriminate].
  apply bind_inv_Ok in H. destruct H as ([] & st1 & Had & H).
  apply bind_inv_Ok in H. destruct H as (out & st2 & Henc & H).
  exists ci, st1, st2, out.
  destruct (tailroom (prev out) <? tagLen) eqn:Hroom.
  - apply bind_inv_Ok in H. destruct H as (r & st3 & Htag & H).
    lib_inv Htag.
    destruct Htag as [(c0 & t & Hg & Hr & Hst3) | (_ & Hr & _)];
      inversion Hr; subst r; [| discriminate].
    inversion H; subst. exists c0, t. repeat split; auto.
  - apply bind_inv_Ok in H. destruct H as (r & st3 & Htag & H).
    lib_inv Htag.
    destruct Htag as [(c0 & t & Hg & Hr & Hst3) | (_ & Hr & _)];
      inversion Hr; subst r; [| discriminate].
    inversion H; subst. exists c0, t. repeat split; auto.
Qed.

Lemma last_cons_head A (t : list A) : forall h d, last (h :: t) d = last t h.
Proof.
  induction t as [| x t IH]; intros h d; [reflexivity |].
  change (last (h :: x :: t) d) with (last (x :: t) d).
  rewrite (IH x d), (IH x h). reflexivity.
Qed.

Lemma bufs_split c : bufs c = removelast (bufs c) ++ [prev c].
Proof.
  unfold prev. rewrite <- (last_cons_head _ (snd c) (fst c) (fst c)).
  apply app_removelast_last. discriminate.
Qed.

Lemma bufs_set_prev c b : bufs (set_prev c b) = removelast (bufs c) ++ [b].
Proof.
  unfold set_prev, bufs. destruct c as [h [| x t]]; simpl fst; simpl snd;
    reflexivity.
Qed.

Lemma bufs_prependChain c b : bufs (prependChain c b) = bufs c ++ [b].
Proof. reflexivity. Qed.

Lemma prev_app_last c l b : bufs c = l ++ [b] -> prev c = b.
Proof.
  intros H. rewrite bufs_split in H. apply app_inj_tail in H. apply H.
Qed.

Lemma shape_prev_eq c c' :
  map shape (bufs c) = map shape (bufs c') -> shape (prev c) = shape (prev c').
Proof.
  rewrite (bufs_split c), (bufs_split c'), !map_app. simpl.
  intros H. apply app_inj_tail in H. apply H.
Qed.

Lemma computeChainDataLength_shapes c :
  computeChainDataLength c = list_sum (map shape_len (map shape (bufs c))).
Proof.
  unfold computeChainDataLength. induction (bufs c) as [| b l IH]; simpl;
    [reflexivity | now rewrite IH].
Qed.

Lemma computeChainDataLength_contents c :
  computeChainDataLength c = length (contents c).
Proof.
  unfold computeChainDataLength, contents, chain_bytes.
  induction (bufs c) as [| b l IH]; simpl; [reflexivity |].
  now rewrite length_app, IH.
Qed.

Lemma shape_tag_buffer tagLen t :
  shape (poke (append (create tagLen) tagLen) 0 t) = (0, tagLen, 0, false).
Proof.
  rewrite shape_poke. unfold shape, append, create, uninitialized; simpl.
  now rewrite repeat_length, Nat.sub_diag.
Qed.

Lemma tagged_shapes out tagLen t :
  map shape (bufs (tagged out tagLen t))
  = shapes_with_tag tagLen (map shape (bufs out)).
Proof.
  unfold tagged, shapes_with_tag.
  pose proof (bufs_split out) as Hs.
  destruct (tailroom (prev out) <? tagLen) eqn:Hroom.
  - rewrite bufs_prependChain, map_app. cbn [map]. rewrite shape_tag_buffer.
    remember (removelast (bufs out)) as init. rewrite Hs at 2.
    rewrite map_app, rev_app_distr. cbn [map rev app].
    change (shape (prev out)) with
      (headroom (prev out), length (data (prev out)), tailroom (prev out),
       isSharedOne (prev out)).
    cbv beta iota. now rewrite Hroom.
  - rewrite bufs_set_prev, map_app.
    remember (removelast (bufs out)) as init. rewrite Hs.
    rewrite !map_app, rev_app_distr. cbn [map rev app].
    change (shape (prev out)) with
      (headroom (prev out), length (data (prev out)), tailroom (prev out),
       isSharedOne (prev out)).
    cbv beta iota. rewrite Hroom, rev_involutive, shape_poke.
    unfold shape, append, uninitialized; cbn [headroom data tailroom isSharedOne].
    now rewrite length_app, repeat_length.
Qed.

Lemma encrypt_output_shapes p tagLen headroom :
  map shape (bufs (encrypt_output p tagLen headroom))
  = if isShared p
    then [(headroom, computeChainDataLength p, tagLen, false)]
    else map shape (bufs p).
Proof.
  unfold encrypt_output. destruct (isShared p); [| reflexivity].
  unfold bufs, shape, append, advance, create, uninitialized; simpl.
  rewrite repeat_length.
  replace (headroom + computeChainDataLength p + tagLen - headroom
           - computeChainDataLength p) with tagLen by lia.
  reflexivity.
Qed.

Lemma enc_stage_shape E (blk : bool) p output (st : cstate E) out st' :
  (if blk then encFuncBlocks p output else encFunc p output) st = (Ok out, st') ->
  map shape (bufs out) = map shape (bufs output).
Proof.
  destruct blk; [apply encFuncBlocks_shape | apply encFunc_shape].
Qed.

Lemma evpEncrypt_tagged E p ad iv tagLen blk headroom (st : cstate E) c st' :
  evpEncrypt E p ad iv tagLen blk headroom st = (Ok c, st') ->
  exists out c0 t,
    map shape (bufs out) = map shape (bufs (encrypt_output p tagLen headroom)) /\
    EVP_CTRL_GCM_GET_TAG E c0 tagLen = Some (cctx st', t) /\
    c = tagged out tagLen t.
Proof.
  intros H. apply evpEncrypt_inv_Ok in H.
  destruct H as (ci & st1 & st2 & out & c0 & t & _ & _ & Henc & Hg & Hst & Hc).
  exists out, (cctx st2), t. repeat split.
  - eapply enc_stage_shape; eassumption.
  - subst st'; exact Hg.
  - exact Hc.
Qed.

(** C2, as the code has it: [evpEncrypt] works in place exactly when no
    element of the plaintext chain is shared, and the returned chain is then
    the input chain, element by element, with the tag; as soon as one
    element is shared, whatever their number, the returned chain is one
    fresh unshared buffer with the requested headroom that holds the
    ciphertext and the tag. *)
Theorem evpEncrypt_in_place_or_one_fresh_buffer :
  forall E plaintext associatedData iv tagLen useBlockOps headroom st c st',
    evpEncrypt E plaintext associatedData iv tagLen useBlockOps headroom st
    = (Ok c, st') ->
    map shape (bufs c)
    = if isShared plaintext
      then [(headroom, computeChainDataLength plaintext + tagLen, 0, false)]
      else shapes_with_tag tagLen (map shape (bufs plaintext)).
Proof.
  intros E p ad iv tagLen blk headroom st c st' H.
  apply evpEncrypt_tagged in H. destruct H as (out & c0 & t & Hsh & _ & Hc).
  subst c. rewrite tagged_shapes, Hsh, encrypt_output_shapes.
  destruct (isShared p); [| reflexivity].
  unfold shapes_with_tag; simpl. rewrite Nat.ltb_irrefl, Nat.sub_diag.
  reflexivity.
Qed.

(** C2 as it is stated fails: with one shared element out of two, and room
    for four, the returned chain is one fresh buffer and not the input chain
    with the shared element replaced by a copy. *)
Lemma evpEncrypt_one_shared_not_spliced :
  let p : Chain :=
    (Toy.buf [x01; x02; x03] 0 true, [Toy.buf [x04; x05] 20 false]) in
  numShared p = 1 /\ 1 <= 4 /\
  exists c st',
    evpEncrypt Toy.cipher p None [x07] 4 false 0 (Toy.keyed x55 1) = (Ok c, st') /\
    map shape (bufs c)
    <> shapes_with_tag 4 (map shape (bufs (spec_encrypt_output 4 p))).
Proof.
  split; [reflexivity |]. split; [lia |].
  eexists; eexists; split; [vm_compute; reflexivity |].
  vm_compute; discriminate.
Qed.

Lemma evpEncrypt_in_place_or_one_fresh_buffer_witness :
  exists c st',
    evpEncrypt Toy.cipher
      (Toy.buf [x01; x02; x03] 0 true, [Toy.buf [x04; x05] 20 false])
      None [x07] 4 false 0 (Toy.keyed x55 1) = (Ok c, st') /\
    map shape (bufs c) = [(0, 5 + 4, 0, false)].
Proof.
  eexists; eexists; split; [vm_compute; reflexivity |].
  exact (evpEncrypt_in_place_or_one_fresh_buffer Toy.cipher
           (Toy.buf [x01; x02; x03] 0 true, [Toy.buf [x04; x05] 20 false])
           None [x07] 4 false 0 (Toy.keyed x55 1) _ _ eq_refl).
Defined.

(** *** [evpEncrypt]: length and tag of the returned chain *)

Lemma overwrite_app_right (a b bs : bytes) :
  overwrite (length a) bs (a ++ b) = a ++ overwrite 0 bs b.
Proof.
  unfold overwrite.
  rewrite firstn_app, firstn_all, Nat.sub_diag, firstn_O, app_nil_r.
  rewrite length_app, Nat.add_comm, Nat.add_sub, Nat.sub_0_r.
  rewrite skipn_app, skipn_all2 by lia.
  replace (length a + length bs - length a) with (length bs) by lia.
  simpl. reflexivity.
Qed.

Lemma chain_bytes_single b : chain_bytes [b] = data b.
Proof. unfold chain_bytes; simpl. apply app_nil_r. Qed.

Lemma contents_split c : contents c = chain_bytes (removelast (bufs c)) ++ data (prev c).
Proof.
  unfold contents. rewrite (bufs_split c) at 1.
  now rewrite chain_bytes_app, chain_bytes_single.
Qed.

Lemma data_poke b pos bs : data (poke b pos bs) = overwrite pos bs (data b).
Proof. reflexivity. Qed.

Lemma data_append b n : data (append b n) = data b ++ uninitialized n.
Proof. reflexivity. Qed.

Lemma tagged_contents out tagLen t :
  contents (tagged out tagLen t)
  = contents out ++ overwrite 0 t (uninitialized tagLen).
Proof.
  unfold tagged. destruct (tailroom (prev out) <? tagLen).
  - unfold contents. rewrite bufs_prependChain, chain_bytes_app.
    rewrite chain_bytes_single, data_poke, data_append. reflexivity.
  - unfold contents at 1. rewrite bufs_set_prev, chain_bytes_app.
    rewrite chain_bytes_single, data_poke, data_append.
    rewrite length_app. unfold uninitialized at 1. rewrite repeat_length, Nat.add_sub.
    rewrite overwrite_app_right, app_assoc, <- contents_split. reflexivity.
Qed.

Lemma lastn_app (a b : bytes) : lastn (length b) (a ++ b) = b.
Proof.
  unfold lastn. rewrite length_app, Nat.add_sub, skipn_app, skipn_all, Nat.sub_diag.
  reflexivity.
Qed.

Lemma tag_length tagLen t : length (overwrite 0 t (uninitialized tagLen)) = tagLen.
Proof. rewrite overwrite_length. apply repeat_length. Qed.

Lemma shapes_eq_length c c' :
  map shape (bufs c) = map shape (bufs c') ->
  computeChainDataLength c = computeChainDataLength c' /\
  length (bufs c) = length (bufs c') /\
  tailroom (prev c) = tailroom (prev c').
Proof.
  intros H. repeat split.
  - now rewrite !computeChainDataLength_shapes, H.
  - apply (f_equal (@length _)) in H. now rewrite !length_map in H.
  - apply shape_prev_eq in H. unfold shape in H. now inversion H.
Qed.

Lemma encrypt_output_length p tagLen headroom :
  computeChainDataLength (encrypt_output p tagLen headroom) = computeChainDataLength p.
Proof.
  rewrite computeChainDataLength_shapes, encrypt_output_shapes.
  destruct (isShared p).
  - simpl. unfold shape_len; simpl. lia.
  - now rewrite <- computeChainDataLength_shapes.
Qed.

(** C4: a call of [evpEncrypt] that returns gives a chain of
    [plaintext length + tagLen] bytes whose last [tagLen] bytes are the bytes
    [EVP_CTRL_GCM_GET_TAG] stored.  When the last element of the output chain
    has [tagLen] bytes of tailroom the chain keeps its elements and the tag
    takes that tailroom; otherwise a new last element of exactly [tagLen]
    bytes holds the tag. *)
Theorem evpEncrypt_length_and_tag :
  forall E plaintext associatedData iv tagLen useBlockOps headroom st c st',
    evpEncrypt E plaintext associatedData iv tagLen useBlockOps headroom st
    = (Ok c, st') ->
    let output := encrypt_output plaintext tagLen headroom in
    computeChainDataLength c = computeChainDataLength plaintext + tagLen /\
    exists c0 t,
      EVP_CTRL_GCM_GET_TAG E c0 tagLen = Some (cctx st', t) /\
      lastn tagLen (contents c) = overwrite 0 t (uninitialized tagLen) /\
      (tagLen <= tailroom (prev output) ->
       length (bufs c) = length (bufs output) /\
       tailroom (prev c) = tailroom (prev output) - tagLen) /\
      (tailroom (prev output) < tagLen ->
       length (bufs c) = S (length (bufs output)) /\
       prev c = {| headroom := 0; data := overwrite 0 t (uninitialized tagLen);
                   tailroom := 0; isSharedOne := false |}).
Proof.
  intros E p ad iv tagLen blk headroom st c st' H output.
  apply evpEncrypt_tagged in H. destruct H as (out & c0 & t & Hsh & Hg & Hc).
  fold output in Hsh.
  destruct (shapes_eq_length _ _ Hsh) as (Hlen & Hn & Htail).
  split.
  - rewrite computeChainDataLength_contents. subst c.
    rewrite tagged_contents, length_app, tag_length.
    rewrite <- computeChainDataLength_contents, Hlen.
    unfold output. now rewrite encrypt_output_length.
  - exists c0, t. split; [exact Hg |]. split; [| split].
    + subst c. rewrite tagged_contents.
      rewrite <- (tag_length tagLen t) at 1. apply lastn_app.
    + intros Hroom. subst c. unfold tagged.
      rewrite Htail. apply Nat.ltb_ge in Hroom. rewrite Hroom.
      split.
      * rewrite bufs_set_prev, <- Hn. rewrite (bufs_split out) at 2.
        rewrite !length_app. reflexivity.
      * erewrite prev_app_last by apply bufs_set_prev.
        unfold poke, set_data, append; simpl. now rewrite Htail.
    + intros Hroom. subst c. unfold tagged.
      rewrite Htail. apply Nat.ltb_lt in Hroom. rewrite Hroom.
      split.
      * rewrite bufs_prependChain, length_app, Hn. simpl. lia.
      * erewrite prev_app_last by apply bufs_prependChain.
        unfold poke, set_data, append, create; simpl.
        now rewrite Nat.sub_diag.
Qed.

Lemma evpEncrypt_length_and_tag_witness :
  exists c st',
    evpEncrypt Toy.cipher
      (Toy.buf [x01; x02; x03] 0 false, [Toy.buf [x04; x05] 2 false])
      None [x07] 4 true 0 (Toy.keyed x55 16) = (Ok c, st') /\
    computeChainDataLength c = 5 + 4.
Proof.
  eexists; eexists; split; [vm_compute; reflexivity |].
  exact (proj1 (evpEncrypt_length_and_tag Toy.cipher
           (Toy.buf [x01; x02; x03] 0 false, [Toy.buf [x04; x05] 2 false])
           None [x07] 4 true 0 (Toy.keyed x55 16) _ _ eq_refl)).
Defined.

(** *** The record of libcrypto calls *)

Lemma prefix_refl A (l : list A) : prefix l l.
Proof. exists []; now rewrite app_nil_r. Qed.

Lemma prefix_nil A (l : list A) : prefix [] l.
Proof. exists l; reflexivity. Qed.

Lemma prefix_app_r A (l L1 L2 : list A) : prefix l L1 -> prefix l (L1 ++ L2).
Proof. intros [x ->]. exists (x ++ L2). now rewrite app_assoc. Qed.

Lemma prefix_app_l A (L1 l L2 : list A) : prefix l L2 -> prefix (L1 ++ l) (L1 ++ L2).
Proof. intros [x ->]. exists x. now rewrite app_assoc. Qed.

Lemma good_app tr1 tr2 : good tr1 -> good tr2 -> good (tr1 ++ tr2).
Proof. unfold good; intros; apply Forall_app; auto. Qed.

Lemma good_nil : good [].
Proof. constructor. Qed.


Lemma fail_outcome_Returned call : fail_outcome call Returned -> call = Call_DecryptFinal_ex.
Proof. destruct call; simpl; intros H; try reflexivity; destruct H; discriminate. Qed.

(** A part that returned, then the rest. *)
Lemma follows_seq L1 B1 tr1 L2 B2 o tr2 (B : string -> Prop) :
  follows L1 B1 Returned tr1 -> nofinal L1 -> follows L2 B2 o tr2 ->
  (forall w, B2 w -> B w) ->
  follows (L1 ++ L2) B o (tr1 ++ tr2).
Proof.
  intros [P1 F1 G1] Hnf [P2 F2 G2] HB.
  specialize (F1 eq_refl).
  assert (Hg1 : good tr1).
  { destruct G1 as [[Hg _] | (tr0 & call & -> & _ & Hf)]; [exact Hg |].
    apply fail_outcome_Returned in Hf; subst call.
    exfalso; apply Hnf. rewrite <- F1, map_app, in_app_iff. right; now left. }
  constructor.
  - rewrite map_app, F1. now apply prefix_app_l.
  - intros Ho. now rewrite map_app, F1, (F2 Ho).
  - destruct G2 as [[Hg2 Hb] | (tr0 & call & -> & Hg0 & Hf)].
    + left; split; [now apply good_app | auto].
    + right. exists (tr1 ++ tr0), call. rewrite app_assoc.
      repeat split; auto. now apply good_app.
Qed.

(** A part that did not return. *)
Lemma follows_stop L1 B1 tr1 L2 o (B : string -> Prop) :
  follows L1 B1 o tr1 -> o <> Returned ->
  (forall w, B1 w -> B w) ->
  follows (L1 ++ L2) B o tr1.
Proof.
  intros [P1 F1 G1] Ho HB. constructor.
  - now apply prefix_app_r.
  - intros; contradiction.
  - destruct G1 as [[Hg Hb] | H]; [left; split; auto | right; exact H].
Qed.

Lemma follows_weaken L (B1 B : string -> Prop) o tr :
  follows L B1 o tr -> (forall w, B1 w -> B w) -> follows L B o tr.
Proof.
  intros [P1 F1 G1] HB. constructor; auto.
  destruct G1 as [[Hg Hb] | H]; [left; split; auto | right; exact H].
Qed.

Lemma follows_nil B : follows [] B Returned [].
Proof.
  constructor; [apply prefix_refl | reflexivity |].
  left; split; [apply good_nil | discriminate].
Qed.

Lemma follows_one_ok call B o :
  (forall w, o <> Thrown w) -> follows [call] B o [(call, true)].
Proof.
  intros Ho. constructor; [apply prefix_refl | reflexivity |].
  left; split; [repeat constructor | intros w Hw; now apply Ho in Hw].
Qed.

Lemma follows_one_failed call B o L :
  fail_outcome call o -> prefix [call] L -> (o = Returned -> L = [call]) ->
  follows L B o [(call, false)].
Proof.
  intros Hf Hp Hfull. constructor;
    [exact Hp | intros Ho; symmetry; now apply Hfull |].
  right. exists [], call. repeat split; [constructor | exact Hf].
Qed.

Lemma follows_nothing L (B : string -> Prop) o :
  o <> Returned -> (forall w, o = Thrown w -> B w) -> follows L B o [].
Proof.
  intros Ho Hb. constructor; [apply prefix_nil | intros; contradiction |].
  left; split; [apply good_nil | exact Hb].
Qed.

Lemma logged_clog E (st : cstate E) c call ok :
  clog (logged st c call ok) = clog st ++ [(call, ok)].
Proof. reflexivity. Qed.

(** The bind rule. *)
Lemma traces_bind E A B (m : M E A) (k : A -> M E B) L1 B1 L2 B2 (Bad : string -> Prop) :
  traces m L1 B1 -> nofinal L1 -> (forall a, traces (k a) L2 B2) ->
  (forall w, B1 w -> Bad w) -> (forall w, B2 w -> Bad w) ->
  traces (bind m k) (L1 ++ L2) Bad.
Proof.
  intros Hm Hnf Hk HB1 HB2 st r st' H.
  apply bind_inv in H.
  destruct H as [(a & st1 & H1 & H2) | [(w & H1 & ->) | (H1 & ->)]].
  - destruct (Hm _ _ _ H1) as (tr1 & E1 & F1).
    destruct (Hk a _ _ _ H2) as (tr2 & E2 & F2).
    exists (tr1 ++ tr2). split; [now rewrite E2, E1, app_assoc |].
    eapply follows_seq; eauto.
  - destruct (Hm _ _ _ H1) as (tr1 & E1 & F1).
    exists tr1; split; [exact E1 |].
    eapply follows_stop; eauto. discriminate.
  - destruct (Hm _ _ _ H1) as (tr1 & E1 & F1).
    exists tr1; split; [exact E1 |].
    eapply follows_stop; eauto. discriminate.
Qed.

Lemma fail_outcome_thrown call w : not_final call -> fail_outcome call (Thrown w).
Proof. destruct call; simpl; intros H; eauto. now contradiction H. Qed.

Lemma nofinal_one call : not_final call -> nofinal [call].
Proof. intros H [Hc | []]. now apply H. Qed.

Lemma nofinal_app L1 L2 : nofinal L1 -> nofinal L2 -> nofinal (L1 ++ L2).
Proof. unfold nofinal; intros H1 H2 H. apply in_app_iff in H. tauto. Qed.

Lemma nofinal_map A (mk : A -> Call) l : (forall a, not_final (mk a)) -> nofinal (map mk l).
Proof.
  intros H Hin. apply in_map_iff in Hin. destruct Hin as (a & Ha & _).
  now apply (H a).
Qed.

Lemma traces_ret E A (a : A) B : traces (ret (E := E) a) [] B.
Proof.
  intros st r st' H. inversion H; subst. exists []. split; [now rewrite app_nil_r |].
  apply follows_nil.
Qed.

Lemma traces_throw E A w L (B : string -> Prop) :
  B w -> traces (throw (E := E) (A := A) w) L B.
Proof.
  intros Hb st r st' H. inversion H; subst. exists []. split; [now rewrite app_nil_r |].
  apply follows_nothing; [discriminate |]. intros w' Hw; inversion Hw; now subst.
Qed.

Lemma traces_undefined E A L B : traces (undefined (E := E) (A := A)) L B.
Proof.
  intros st r st' H. inversion H; subst. exists []. split; [now rewrite app_nil_r |].
  apply follows_nothing; discriminate.
Qed.

Lemma traces_weaken E A (m : M E A) L (B1 B : string -> Prop) :
  traces m L B1 -> (forall w, B1 w -> B w) -> traces m L B.
Proof.
  intros H HB st r st' Hr. destruct (H _ _ _ Hr) as (tr & He & Hf).
  exists tr; split; [exact He | eapply follows_weaken; eauto].
Qed.

(** A call that stores bytes, checked for its return value. *)
Lemma traces_checked_out E A f call what (k : bytes -> M E A) L2 B :
  not_final call -> (forall w, traces (k w) L2 B) ->
  traces (r <- lib_out f call ;;
          match r with None => throw what | Some w => k w end)
         ([call] ++ L2) B.
Proof.
  intros Hnf Hk st r st' H.
  unfold bind in H. destruct (lib_out f call st) as [r1 st1] eqn:Hl.
  apply lib_out_inv in Hl.
  destruct Hl as [(c & w & _ & -> & ->) | (_ & -> & ->)].
  - destruct (Hk w _ _ _ H) as (tr2 & E2 & F2).
    exists ([(call, true)] ++ tr2). rewrite E2, logged_clog, <- app_assoc.
    split; [reflexivity |].
    eapply follows_seq; eauto.
    + apply (follows_one_ok call B Returned). discriminate.
    + now apply nofinal_one.
  - inversion H; subst. exists [(call, false)]. split; [reflexivity |].
    apply follows_one_failed.
    + now apply fail_outcome_thrown.
    + exists L2; reflexivity.
    + discriminate.
Qed.

(** A call that stores nothing, checked for its return value. *)
Lemma traces_checked_ctl E A f call what (k : M E A) L2 B :
  not_final call -> traces k L2 B ->
  traces (ok <- lib_ctl f call ;; if negb ok then throw what else k)
         ([call] ++ L2) B.
Proof.
  intros Hnf Hk st r st' H.
  unfold bind in H. destruct (lib_ctl f call st) as [r1 st1] eqn:Hl.
  apply lib_ctl_inv in Hl.
  destruct Hl as [(c & _ & -> & ->) | (_ & -> & ->)]; simpl in H.
  - destruct (Hk _ _ _ H) as (tr2 & E2 & F2).
    exists ([(call, true)] ++ tr2). rewrite E2, logged_clog, <- app_assoc.
    split; [reflexivity |].
    eapply follows_seq; eauto.
    + apply (follows_one_ok call B Returned). discriminate.
    + now apply nofinal_one.
  - inversion H; subst. exists [(call, false)]. split; [reflexivity |].
    apply follows_one_failed.
    + now apply fail_outcome_thrown.
    + exists L2; reflexivity.
    + discriminate.
Qed.

Lemma exceeds_int_mono n m : n <= m -> exceeds_int n = true -> exceeds_int m = true.
Proof. unfold exceeds_int; intros H Hn. apply N.ltb_lt in Hn. apply N.ltb_lt. lia. Qed.

Lemma traces_int_add E n len : traces (int_add (E := E) n len) [] (fun _ => False).
Proof.
  unfold int_add. destruct (_ <? _)%Z; [apply traces_undefined | apply traces_ret].
Qed.

(** The lambdas of [encFunc] and [decFunc]. *)
Lemma traces_stream_lambda E (upd : bool -> bytes -> M E (option bytes)) f mk
    w1 w2 numWritten piece :
  (forall p, upd false p = lib_out (f p) (mk p)) -> not_final (mk piece) ->
  traces (if exceeds_int (length piece) then throw w1
          else r <- upd false piece ;;
               match r with
               | None => throw w2
               | Some w => n <- int_add numWritten (length w) ;; ret (n, w)
               end)
         [mk piece] (fun _ => exceeds_int (length piece) = true).
Proof.
  intros Hupd Hnf. destruct (exceeds_int (length piece)) eqn:Hex.
  - now apply traces_throw.
  - apply traces_weaken with (B1 := fun _ => False); [| intros ? []].
    rewrite Hupd. apply (traces_checked_out E _ (f piece) (mk piece) w2 _ [] _ Hnf).
    intros w. change (@nil Call) with (@nil Call ++ []).
    apply (traces_bind E _ _ _ _ [] (fun _ => False) [] (fun _ => False)).
    + apply traces_int_add.
    + intros [].
    + intros n. apply traces_ret.
    + auto.
    + auto.
Qed.

(** The lambdas of [encFuncBlocks] and [decFuncBlocks]. *)
Lemma traces_block_lambda E (upd : bool -> bytes -> M E (option bytes)) f mk
    w1 w2 (tw ti : nat) piece :
  (forall p, upd false p = lib_out (f p) (mk p)) -> not_final (mk piece) ->
  traces (if exceeds_int (length piece) then throw w1
          else r <- upd false piece ;;
               match r with
               | None => throw w2
               | Some w => ret ((tw + length w, ti + length piece), w)
               end)
         [mk piece] (fun _ => exceeds_int (length piece) = true).
Proof.
  intros Hupd Hnf. destruct (exceeds_int (length piece)) eqn:Hex.
  - now apply traces_throw.
  - apply traces_weaken with (B1 := fun _ => False); [| intros ? []].
    rewrite Hupd. apply (traces_checked_out E _ (f piece) (mk piece) w2 _ [] _ Hnf).
    intros w. apply traces_ret.
Qed.

(** The lambda of [encFuncBlocks], which also throws when [outLen < 0]. *)
Lemma traces_enc_block_lambda E (tw ti : nat) piece :
  traces (E := E)
         (if exceeds_int (length piece)
          then throw "Encryption error: too much plain text"%string
          else negative <- outLen_negative false piece ;;
               r <- lib_EncryptUpdate false piece ;;
               match r with
               | None => throw "Encryption error"%string
               | Some w =>
                 if negative then throw "Encryption error"%string
                 else ret ((tw + length w, ti + length piece), w)
               end)
         [Call_EncryptUpdate false piece]
         (fun w => exceeds_int (length piece) = true \/
                   w = "Encryption error"%string).
Proof.
  destruct (exceeds_int (length piece)) eqn:Hex.
  - apply traces_throw. now left.
  - intros st r st' H.
    pose proof (traces_checked_out E _
                  (fun c => EVP_EncryptUpdate E c false piece)
                  (Call_EncryptUpdate false piece) "Encryption error"
                  (fun w =>
                     if EVP_EncryptUpdate_outl_negative E (cctx st) false piece
                     then throw "Encryption error"%string
                     else ret ((tw + length w, ti + length piece), w)) []
                  (fun w => false = true \/ w = "Encryption error"%string)
                  ltac:(discriminate)) as T.
    refine (T _ st r st' H).
    intros w. destruct (EVP_EncryptUpdate_outl_negative E (cctx st) false piece).
    + apply traces_throw. now right.
    + apply traces_ret.
Qed.

Section Loops.
Variable E : EVP.
Variable Acc : Type.
Variable func : Acc -> bytes -> M E (Acc * bytes).
Variable mk : bytes -> Call.
Hypothesis func_traces :
  forall s p, traces (func s p) [mk p] (fun _ => exceeds_int (length p) = true).
Hypothesis mk_not_final : forall p, not_final (mk p).

Lemma transformBuffer_inner_nil s done out offset :
  transformBuffer_inner func s [] done out offset = ret (s, (done, out, offset)).
Proof. destruct out; reflexivity. Qed.

Lemma transformBuffer_inner_cons s current done cur todo offset :
  current <> [] ->
  transformBuffer_inner func s current done (cur :: todo) offset
  = if length current <? length (data cur) - offset then
      '(s', w) <- func s current ;;
      ret (s', (done, poke cur offset w :: todo, offset + length current))
    else
      '(s', w) <- func s (firstn (length (data cur) - offset) current) ;;
      transformBuffer_inner func s' (skipn (length (data cur) - offset) current)
        (done ++ [poke cur offset w]) todo 0.
Proof. destruct current; [contradiction | reflexivity]. Qed.

Lemma transformBuffer_inner_feeds out : forall s current done offset,
  feeds (transformBuffer_inner func s current done out offset) mk current
        (fun _ => exceeds_int (length current) = true).
Proof.
  induction out as [| cur todo IH]; intros s current done offset st r st' H.
  - destruct current as [| x current']; simpl in H; inversion H; subst.
    + exists [], []. rewrite app_nil_r.
      split; [reflexivity | split; [reflexivity |]]. apply follows_nil.
    + exists [x :: current'], []. rewrite !app_nil_r.
      split; [simpl; now rewrite app_nil_r | split; [reflexivity |]].
      apply follows_nothing; discriminate.
  - destruct (list_eq_dec Byte.byte_eq_dec current []) as [-> | Hne].
    { rewrite transformBuffer_inner_nil in H. inversion H; subst.
      exists [], []. rewrite app_nil_r.
      split; [reflexivity | split; [reflexivity |]]. apply follows_nil. }
    rewrite transformBuffer_inner_cons in H by assumption.
    destruct (length current <? length (data cur) - offset).
    + exists [current]. simpl concat. rewrite app_nil_r.
      apply bind_inv in H.
      destruct H as [([s1 w] & st1 & H1 & H2) | [(w & H1 & ->) | (H1 & ->)]];
        destruct (func_traces _ _ _ _ _ H1) as (tr & He & Hf).
      * inversion H2; subst r st'. exists tr. split; [reflexivity | split; assumption].
      * exists tr. split; [reflexivity | split; assumption].
      * exists tr. split; [reflexivity | split; assumption].
    + set (room := length (data cur) - offset) in *.
      assert (Hlen : forall n, length (firstn n current) <= length current)
        by (intros n; rewrite length_firstn; lia).
      assert (Hlen' : forall n, length (skipn n current) <= length current)
        by (intros n; rewrite length_skipn; lia).
      apply bind_inv in H.
      destruct H as [([s1 w] & st1 & H1 & H2) | [(w & H1 & ->) | (H1 & ->)]];
        destruct (func_traces _ _ _ _ _ H1) as (tr1 & He1 & Hf1).
      * destruct (IH _ _ _ _ _ _ _ H2) as (pieces & tr2 & Hc & He2 & Hf2).
        exists (firstn room current :: pieces), (tr1 ++ tr2).
        split; [| split].
        -- simpl. rewrite Hc. apply firstn_skipn.
        -- now rewrite He2, He1, app_assoc.
        -- change (map mk (firstn room current :: pieces))
             with ([mk (firstn room current)] ++ map mk pieces).
           eapply follows_seq; eauto.
           ++ now apply nofinal_one.
           ++ simpl. intros _. apply exceeds_int_mono. apply Hlen'.
      * exists [firstn room current; skipn room current], tr1.
        split; [| split].
        -- simpl. rewrite app_nil_r. apply firstn_skipn.
        -- exact He1.
        -- change (map mk [firstn room current; skipn room current])
             with ([mk (firstn room current)] ++ [mk (skipn room current)]).
           eapply follows_stop; eauto; [discriminate |].
           simpl. intros _. apply exceeds_int_mono. apply Hlen.
      * exists [firstn room current; skipn room current], tr1.
        split; [| split].
        -- simpl. rewrite app_nil_r. apply firstn_skipn.
        -- exact He1.
        -- change (map mk [firstn room current; skipn room current])
             with ([mk (firstn room current)] ++ [mk (skipn room current)]).
           eapply follows_stop; eauto; [discriminate |].
           simpl. intros _. apply exceeds_int_mono. apply Hlen.
Qed.

Lemma oversize_cons b l : exceeds_int (length (data b)) = true -> oversize (b :: l).
Proof. intros H. exists b. split; [now left | exact H]. Qed.

Lemma oversize_tail b l : oversize l -> oversize (b :: l).
Proof. intros (x & Hin & Hx). exists x. split; [now right | exact Hx]. Qed.

Lemma transformBuffer_outer_feeds ins : forall s done out offset,
  feeds (transformBuffer_outer func s ins done out offset) mk (chain_bytes ins)
        (fun _ => oversize ins).
Proof.
  induction ins as [| cur rest IH]; intros s done out offset st r st' H; simpl in H.
  - inversion H; subst. exists [], []. rewrite app_nil_r.
    split; [reflexivity | split; [reflexivity |]]. apply follows_nil.
  - rewrite chain_bytes_cons.
    apply bind_inv in H.
    destruct H as [([s1 [[d o] off]] & st1 & H1 & H2) | [(w & H1 & ->) | (H1 & ->)]];
      destruct (transformBuffer_inner_feeds _ _ _ _ _ _ _ _ H1)
        as (ps1 & tr1 & Hc1 & He1 & Hf1).
    + destruct (IH _ _ _ _ _ _ _ H2) as (ps2 & tr2 & Hc2 & He2 & Hf2).
      exists (ps1 ++ ps2), (tr1 ++ tr2). split; [| split].
      * now rewrite concat_app, Hc1, Hc2.
      * now rewrite He2, He1, app_assoc.
      * rewrite map_app. eapply follows_seq; eauto.
        -- now apply nofinal_map.
        -- simpl. intros _. apply oversize_tail.
    + exists (ps1 ++ [chain_bytes rest]), tr1. split; [| split].
      * rewrite concat_app, Hc1. simpl. now rewrite app_nil_r.
      * exact He1.
      * rewrite map_app. eapply follows_stop; eauto; [discriminate |].
        simpl. intros _. apply oversize_cons.
    + exists (ps1 ++ [chain_bytes rest]), tr1. split; [| split].
      * rewrite concat_app, Hc1. simpl. now rewrite app_nil_r.
      * exact He1.
      * rewrite map_app. eapply follows_stop; eauto; [discriminate |].
        simpl. intros _. apply oversize_cons.
Qed.

Lemma transformBuffer_feeds inp out s :
  feeds (transformBuffer func inp out s) mk (contents inp)
        (fun _ => oversize (bufs inp)).
Proof.
  intros st r st' H. unfold transformBuffer in H.
  apply bind_inv in H.
  destruct H as [([s1 [[d o] off]] & st1 & H1 & H2) | [(w & H1 & ->) | (H1 & ->)]];
    destruct (transformBuffer_outer_feeds _ _ _ _ _ _ _ _ H1)
      as (ps & tr & Hc & He & Hf);
    try (exists ps, tr; split; [exact Hc | split; [exact He | exact Hf]]).
  apply transformBuffer_outer_shape in H1.
  destruct (d ++ o) as [| h t]; [discriminate |].
  inversion H2; subst. exists ps, tr. auto.
Qed.

End Loops.

Lemma follows_seq_good L1 tr1 L2 B2 o tr2 (B : string -> Prop) :
  map fst tr1 = L1 -> good tr1 -> follows L2 B2 o tr2 ->
  (forall w, B2 w -> B w) ->
  follows (L1 ++ L2) B o (tr1 ++ tr2).
Proof.
  intros F1 Hg1 [P2 F2 G2] HB. constructor.
  - rewrite map_app, F1. now apply prefix_app_l.
  - intros Ho. now rewrite map_app, F1, (F2 Ho).
  - destruct G2 as [[Hg2 Hb] | (tr0 & call & -> & Hg0 & Hf)].
    + left; split; [now apply good_app | auto].
    + right. exists (tr1 ++ tr0), call. rewrite app_assoc.
      repeat split; auto. now apply good_app.
Qed.

Lemma feeds_between_of_feeds E A (m : M E A) mk input B :
  feeds m mk input B -> feeds_between m [] mk input [] B.
Proof.
  intros H st r st' Hr. destruct (H _ _ _ Hr) as (ps & tr & Hc & He & Hf).
  exists ps, tr. simpl. rewrite app_nil_r. auto.
Qed.

Lemma feeds_between_of_traces E A (m : M E A) L0 mk pieces input L2 B :
  traces m (L0 ++ map mk pieces ++ L2) B -> concat pieces = input ->
  feeds_between m L0 mk input L2 B.
Proof.
  intros H Hc st r st' Hr. destruct (H _ _ _ Hr) as (tr & He & Hf).
  exists pieces, tr. auto.
Qed.

Lemma feeds_between_weaken E A (m : M E A) L0 mk input L2 (B1 B : string -> Prop) :
  feeds_between m L0 mk input L2 B1 -> (forall w, B1 w -> B w) ->
  feeds_between m L0 mk input L2 B.
Proof.
  intros H HB st r st' Hr. destruct (H _ _ _ Hr) as (ps & tr & Hc & He & Hf).
  exists ps, tr. split; [exact Hc | split; [exact He |]].
  eapply follows_weaken; eauto.
Qed.

(** Calls after the feeding. *)
Lemma feeds_between_then E A B (m : M E A) (k : A -> M E B) L0 mk input L2 B1 L3 B2
    (Bad : string -> Prop) :
  feeds_between m L0 mk input L2 B1 ->
  nofinal L0 -> (forall p, not_final (mk p)) -> nofinal L2 ->
  (forall a, traces (k a) L3 B2) ->
  (forall w, B1 w -> Bad w) -> (forall w, B2 w -> Bad w) ->
  feeds_between (bind m k) L0 mk input (L2 ++ L3) Bad.
Proof.
  intros Hm Hn0 Hnm Hn2 Hk HB1 HB2 st r st' H.
  apply bind_inv in H.
  destruct H as [(a & st1 & H1 & H2) | [(w & H1 & ->) | (H1 & ->)]];
    destruct (Hm _ _ _ H1) as (ps & tr1 & Hc & E1 & F1); exists ps.
  - destruct (Hk a _ _ _ H2) as (tr2 & E2 & F2).
    exists (tr1 ++ tr2). split; [exact Hc |].
    split; [now rewrite E2, E1, app_assoc |].
    replace (L0 ++ map mk ps ++ L2 ++ L3) with ((L0 ++ map mk ps ++ L2) ++ L3)
      by (now rewrite <- !app_assoc).
    eapply follows_seq; eauto.
    apply nofinal_app; [assumption |].
    apply nofinal_app; [now apply nofinal_map | assumption].
  - exists tr1. split; [exact Hc |]. split; [exact E1 |].
    replace (L0 ++ map mk ps ++ L2 ++ L3) with ((L0 ++ map mk ps ++ L2) ++ L3)
      by (now rewrite <- !app_assoc).
    eapply follows_stop; eauto. discriminate.
  - exists tr1. split; [exact Hc |]. split; [exact E1 |].
    replace (L0 ++ map mk ps ++ L2 ++ L3) with ((L0 ++ map mk ps ++ L2) ++ L3)
      by (now rewrite <- !app_assoc).
    eapply follows_stop; eauto. discriminate.
Qed.

(** Calls before the feeding. *)
Lemma feeds_between_after E A B (m : M E A) (k : A -> M E B) L1 B1 L0 mk input L2 B2
    (Bad : string -> Prop) :
  traces m L1 B1 -> nofinal L1 ->
  (forall a, feeds_between (k a) L0 mk input L2 B2) ->
  (forall w, B1 w -> Bad w) -> (forall w, B2 w -> Bad w) ->
  feeds_between (bind m k) (L1 ++ L0) mk input L2 Bad.
Proof.
  intros Hm Hn1 Hk HB1 HB2 st r st' H.
  apply bind_inv in H.
  destruct H as [(a & st1 & H1 & H2) | [(w & H1 & ->) | (H1 & ->)]];
    destruct (Hm _ _ _ H1) as (tr1 & E1 & F1).
  - destruct (Hk a _ _ _ H2) as (ps & tr2 & Hc & E2 & F2).
    exists ps, (tr1 ++ tr2). split; [exact Hc |].
    split; [now rewrite E2, E1, app_assoc |].
    rewrite <- app_assoc. eapply follows_seq; eauto.
  - exists [input], tr1. split; [simpl; now rewrite app_nil_r |].
    split; [exact E1 |].
    rewrite <- app_assoc. eapply follows_stop; eauto. discriminate.
  - exists [input], tr1. split; [simpl; now rewrite app_nil_r |].
    split; [exact E1 |].
    rewrite <- app_assoc. eapply follows_stop; eauto. discriminate.
Qed.

(** A continuation that only returns. *)
Lemma feeds_between_ret E A B (m : M E A) (k : A -> M E B) L0 mk input L2 Bad :
  feeds_between m L0 mk input L2 Bad ->
  (forall a, exists b, k a = ret b) ->
  feeds_between (bind m k) L0 mk input L2 Bad.
Proof.
  intros Hm Hk st r st' H.
  apply bind_inv in H.
  destruct H as [(a & st1 & H1 & H2) | [(w & H1 & ->) | (H1 & ->)]];
    destruct (Hm _ _ _ H1) as (ps & tr1 & Hc & E1 & F1); exists ps, tr1.
  - destruct (Hk a) as [b Hb]. rewrite Hb in H2. inversion H2; subst. auto.
  - auto.
  - auto.
Qed.

Lemma traces_push E c pos bs :
  traces (push (E := E) c pos bs) [] (fun w => w = "overflow"%string).
Proof.
  unfold push. destruct (_ <? _); [now apply traces_throw | apply traces_ret].
Qed.

Section Blocks.
Variable E : EVP.
Variable Acc : Type.
Variable func : Acc -> bytes -> M E (Acc * bytes).
Variable mk : bytes -> Call.
Variable other : string -> Prop.
Hypothesis func_traces :
  forall s p, traces (func s p) [mk p]
                (fun w => exceeds_int (length p) = true \/ other w).
Hypothesis mk_not_final : forall p, not_final (mk p).

Lemma feed_blocks_traces pieces : forall s out pos,
  traces (feed_blocks func s pieces out pos) (map mk pieces)
         (fun w => Exists (fun p => exceeds_int (length p) = true) pieces \/
                   w = "overflow"%string \/ other w).
Proof.
  induction pieces as [| p ps IH]; intros s out pos; simpl feed_blocks.
  - apply traces_ret.
  - change (map mk (p :: ps)) with ([mk p] ++ map mk ps).
    eapply traces_bind.
    + apply func_traces.
    + now apply nofinal_one.
    + intros [s1 w]. change (map mk ps) with ([] ++ map mk ps).
      eapply traces_bind.
      * apply traces_push.
      * intros [].
      * intros out'. apply IH.
      * intros w' Hw.
        exact (or_intror (or_introl Hw)
               : (fun w => Exists (fun p => exceeds_int (length p) = true) ps \/
                           w = "overflow"%string \/ other w) w').
      * intros w' Hw. exact Hw.
    + simpl. intros w' [Hw | Hw]; [left; now constructor | right; now right].
    + simpl. intros w' [Hw | Hw]; [left; now constructor 2 | now right].
Qed.

End Blocks.

(** The associated-data loop. *)
Lemma feed_associatedData_traces E (upd : bytes -> M E (option bytes)) f mk what ads :
  (forall p, upd p = lib_out (f p) (mk p)) -> (forall p, not_final (mk p)) ->
  traces (feed_associatedData upd what ads) (map (fun b => mk (data b)) ads)
         (fun _ => oversize ads).
Proof.
  intros Hupd Hnf. induction ads as [| b rest IH]; simpl feed_associatedData.
  - apply traces_ret.
  - destruct (exceeds_int (length (data b))) eqn:Hex.
    + apply traces_throw. now apply oversize_cons.
    + rewrite Hupd.
      apply (traces_checked_out E _ (f (data b)) (mk (data b)) what
               (fun _ => feed_associatedData upd what rest) _ _ (Hnf _)).
      intros _. eapply traces_weaken; [apply IH |].
      simpl. intros _. apply oversize_tail.
Qed.

(** [EVP_DecryptFinal_ex], whose failure is an answer and not an error. *)
Lemma traces_final_dec E A f (x : A) (k : bytes -> M E A) B :
  (forall w, traces (k w) [] B) ->
  traces (r <- lib_out f Call_DecryptFinal_ex ;;
          match r with None => ret x | Some w => k w end)
         [Call_DecryptFinal_ex] B.
Proof.
  intros Hk st r st' H.
  unfold bind in H. destruct (lib_out f Call_DecryptFinal_ex st) as [r1 st1] eqn:Hl.
  apply lib_out_inv in Hl.
  destruct Hl as [(c & w & _ & -> & ->) | (_ & -> & ->)].
  - destruct (Hk w _ _ _ H) as (tr2 & E2 & F2).
    exists ([(Call_DecryptFinal_ex, true)] ++ tr2).
    rewrite E2, logged_clog, <- app_assoc. split; [reflexivity |].
    change [Call_DecryptFinal_ex] with ([Call_DecryptFinal_ex] ++ []).
    eapply follows_seq_good; eauto. repeat constructor.
  - inversion H; subst. exists [(Call_DecryptFinal_ex, false)].
    split; [reflexivity |].
    apply follows_one_failed; [reflexivity | apply prefix_refl | reflexivity].
Qed.

Lemma feeds_checked_ctl E A f call what (k : M E A) L0 mk input L2 B :
  not_final call -> feeds_between k L0 mk input L2 B ->
  feeds_between (ok <- lib_ctl f call ;; if negb ok then throw what else k)
                ([call] ++ L0) mk input L2 B.
Proof.
  intros Hnf Hk st r st' H.
  unfold bind in H. destruct (lib_ctl f call st) as [r1 st1] eqn:Hl.
  apply lib_ctl_inv in Hl.
  destruct Hl as [(c & _ & -> & ->) | (_ & -> & ->)]; simpl in H.
  - destruct (Hk _ _ _ H) as (ps & tr2 & Hc & E2 & F2).
    exists ps, ([(call, true)] ++ tr2). rewrite E2, logged_clog, <- app_assoc.
    split; [exact Hc | split; [reflexivity |]].
    rewrite <- app_assoc.
    eapply follows_seq_good; eauto. repeat constructor.
  - inversion H; subst. exists [input], [(call, false)].
    split; [simpl; now rewrite app_nil_r | split; [reflexivity |]].
    apply follows_one_failed.
    + now apply fail_outcome_thrown.
    + eexists; reflexivity.
    + discriminate.
Qed.

Lemma enc_upd_not_final p : not_final (Call_EncryptUpdate false p).
Proof. discriminate. Qed.
Lemma dec_upd_not_final p : not_final (Call_DecryptUpdate false p).
Proof. discriminate. Qed.

Lemma encFunc_feeds E (p out : Chain) :
  feeds_between (encFunc (E := E) p out) [] (Call_EncryptUpdate false) (contents p)
    [Call_EncryptFinal_ex] (fun _ => oversize (bufs p)).
Proof.
  unfold encFunc.
  change [Call_EncryptFinal_ex] with ([] ++ [Call_EncryptFinal_ex]).
  eapply feeds_between_then.
  - apply feeds_between_of_feeds. apply transformBuffer_feeds.
    + intros s piece.
      apply (traces_stream_lambda E (@lib_EncryptUpdate E)
               (fun p c => EVP_EncryptUpdate E c false p)
               (Call_EncryptUpdate false)); [reflexivity | discriminate].
    + intros; discriminate.
  - intros [].
  - intros; discriminate.
  - intros [].
  - intros [n o]. unfold lib_EncryptFinal_ex.
    change [Call_EncryptFinal_ex] with ([Call_EncryptFinal_ex] ++ []).
    apply traces_checked_out; [discriminate |].
    intros w. apply traces_ret.
  - auto.
  - simpl. intros w Hw. exact Hw.
Qed.

Lemma decFunc_feeds E (c out : Chain) tag :
  feeds_between (decFunc (E := E) c out tag) [] (Call_DecryptUpdate false) (contents c)
    [Call_SET_TAG tag; Call_DecryptFinal_ex] (fun _ => oversize (bufs c)).
Proof.
  unfold decFunc.
  change [Call_SET_TAG tag; Call_DecryptFinal_ex]
    with ([] ++ [Call_SET_TAG tag; Call_DecryptFinal_ex]).
  eapply feeds_between_then.
  - apply feeds_between_of_feeds. apply transformBuffer_feeds.
    + intros s piece.
      apply (traces_stream_lambda E (@lib_DecryptUpdate E)
               (fun p c => EVP_DecryptUpdate E c false p)
               (Call_DecryptUpdate false)); [reflexivity | discriminate].
    + intros; discriminate.
  - intros [].
  - intros; discriminate.
  - intros [].
  - intros [n o]. unfold lib_SET_TAG, lib_DecryptFinal_ex.
    change [Call_SET_TAG tag; Call_DecryptFinal_ex]
      with ([Call_SET_TAG tag] ++ [Call_DecryptFinal_ex]).
    apply traces_checked_ctl; [discriminate |].
    apply traces_final_dec. intros w. apply traces_ret.
  - auto.
  - simpl. intros w Hw. exact Hw.
Qed.

Lemma blocks_fuel_concat n : 0 < n -> forall fuel bs,
  length bs <= fuel -> concat (blocks_fuel fuel n bs) = bs.
Proof.
  intros Hn. induction fuel as [| fuel IH]; intros bs Hlen.
  - destruct bs; [reflexivity | simpl in Hlen; lia].
  - destruct bs as [| x bs]; [reflexivity |].
    remember (x :: bs) as l. simpl. subst l.
    change (concat (firstn n (x :: bs) :: blocks_fuel fuel n (skipn n (x :: bs)))
            = x :: bs).
    simpl concat. rewrite IH; [apply firstn_skipn |].
    rewrite length_skipn. cbn [length] in *. lia.
Qed.

Lemma blocks_concat n bs : 0 < n -> concat (blocks n bs) = bs.
Proof. intros Hn. apply blocks_fuel_concat; auto. Qed.

Lemma blocks_fuel_small n : forall fuel bs,
  Forall (fun p => length p <= n) (blocks_fuel fuel n bs).
Proof.
  induction fuel as [| fuel IH]; intros bs; simpl; [constructor |].
  destruct bs as [| x bs]; [constructor |].
  constructor; [| apply IH]. rewrite length_firstn. lia.
Qed.

Lemma blocks_small n bs : Forall (fun p => length p <= n) (blocks n bs).
Proof. apply blocks_fuel_small. Qed.

Lemma exceeds_int_16 n : n <= 16 -> exceeds_int n = false.
Proof. unfold exceeds_int, INT_MAX; intros H. apply N.ltb_ge. lia. Qed.

Lemma blocks_16_never_exceed bs :
  ~ Exists (fun p => exceeds_int (length p) = true) (blocks 16 bs).
Proof.
  intros H. apply Exists_exists in H. destruct H as (p & Hin & Hp).
  pose proof (blocks_small 16 bs) as Hs. rewrite Forall_forall in Hs.
  rewrite exceeds_int_16 in Hp by (now apply Hs). discriminate.
Qed.


Lemma encFuncBlocks_traces E (p out : Chain) :
  traces (encFuncBlocks (E := E) p out)
    (map (Call_EncryptUpdate false) (blocks 16 (contents p)) ++ [Call_EncryptFinal_ex])
    (fun w => overflow w \/ w = "Encryption error"%string).
Proof.
  unfold encFuncBlocks, transformBufferBlocks.
  eapply traces_bind.
  - apply (feed_blocks_traces E _ _ (Call_EncryptUpdate false)
             (fun w => w = "Encryption error"%string)).
    + intros [tw ti] piece. apply traces_enc_block_lambda.
    + intros; discriminate.
  - apply nofinal_map. intros; discriminate.
  - intros [[tw ti] [o pos]]. unfold lib_EncryptFinal_ex.
    change [Call_EncryptFinal_ex] with ([Call_EncryptFinal_ex] ++ []).
    destruct (_ <=? _)%Z; (apply traces_checked_out; [discriminate |]); intros w.
    + apply (traces_ret E _ _ overflow).
    + destruct (16 <? length w); [apply traces_undefined | apply traces_push].
  - simpl. intros w [Hw | [Hw | Hw]]; [| now left | now right].
    now apply blocks_16_never_exceed in Hw.
  - intros w Hw. left. exact Hw.
Qed.

Lemma decFuncBlocks_traces E (c out : Chain) tag :
  traces (decFuncBlocks (E := E) c out tag)
    ([Call_SET_TAG tag] ++
     map (Call_DecryptUpdate false) (blocks 16 (contents c)) ++ [Call_DecryptFinal_ex])
    overflow.
Proof.
  unfold decFuncBlocks, transformBufferBlocks, lib_SET_TAG.
  apply traces_checked_ctl; [discriminate |].
  eapply traces_bind.
  - apply (feed_blocks_traces E _ _ (Call_DecryptUpdate false) (fun _ => False)).
    + intros [tw ti] piece. eapply traces_weaken.
      * apply (traces_block_lambda E (@lib_DecryptUpdate E)
                 (fun p c => EVP_DecryptUpdate E c false p)
                 (Call_DecryptUpdate false)); [reflexivity | discriminate].
      * intros w Hw. now left.
    + intros; discriminate.
  - apply nofinal_map. intros; discriminate.
  - intros [[tw ti] [o pos]]. unfold lib_DecryptFinal_ex.
    destruct (_ <=? _)%Z; apply traces_final_dec; intros w.
    + apply (traces_ret E _ _ overflow).
    + destruct (16 <? length w); [apply traces_undefined |].
      change (@nil Call) with (@nil Call ++ []).
      eapply traces_bind;
        [apply traces_push | intros [] | intros; apply (traces_ret E _ _ overflow)
        | auto | auto].
  - simpl. intros w [Hw | [Hw | []]]; [| exact Hw].
    now apply blocks_16_never_exceed in Hw.
  - auto.
Qed.

Lemma feed_optional_associatedData_traces E (upd : bytes -> M E (option bytes)) f mk what ad :
  (forall p, upd p = lib_out (f p) (mk p)) -> (forall p, not_final (mk p)) ->
  traces (feed_optional_associatedData upd what ad) (ad_calls mk ad)
         (fun _ => oversize (match ad with Some a => bufs a | None => [] end)).
Proof.
  intros Hupd Hnf. destruct ad as [a |];
    unfold feed_optional_associatedData, ad_calls.
  - now apply (feed_associatedData_traces E upd f mk).
  - apply traces_ret.
Qed.

Lemma enc_stage_feeds E (blk : bool) (p out : Chain) :
  feeds_between (if blk then encFuncBlocks (E := E) p out else encFunc p out)
    [] (Call_EncryptUpdate false) (contents p) [Call_EncryptFinal_ex]
    (fun w => oversize (bufs p) \/
              (blk = true /\
               (w = "overflow"%string \/ w = "Encryption error"%string))).
Proof.
  destruct blk.
  - eapply feeds_between_weaken.
    + apply (feeds_between_of_traces E _ _ [] _ (blocks 16 (contents p))).
      * apply encFuncBlocks_traces.
      * apply blocks_concat; lia.
    + intros w Hw. right. split; [reflexivity | exact Hw].
  - eapply feeds_between_weaken; [apply encFunc_feeds | auto].
Qed.

Lemma nofinal_ad_calls mk ad : (forall p, not_final (mk p)) -> nofinal (ad_calls mk ad).
Proof.
  intros H. destruct ad; unfold ad_calls; [| intros []].
  apply nofinal_map. intros b. apply H.
Qed.

Lemma evpEncrypt_feeds E p ad iv tagLen blk headroom :
  feeds_between (evpEncrypt E p ad iv tagLen blk headroom)
    ([Call_EncryptInit_ex iv] ++ ad_calls (Call_EncryptUpdate true) ad)
    (Call_EncryptUpdate false) (contents p)
    [Call_EncryptFinal_ex; Call_GET_TAG tagLen]
    (bad_input blk ad p).
Proof.
  unfold evpEncrypt, lib_EncryptInit_ex.
  apply feeds_checked_ctl; [discriminate |].
  rewrite <- (app_nil_r (ad_calls _ ad)).
  eapply feeds_between_after.
  - apply (feed_optional_associatedData_traces E _
             (fun p c => EVP_EncryptUpdate E c true p) (Call_EncryptUpdate true));
      [reflexivity | intros; discriminate].
  - apply nofinal_ad_calls. intros; discriminate.
  - intros _.
    change [Call_EncryptFinal_ex; Call_GET_TAG tagLen]
      with ([Call_EncryptFinal_ex] ++ [Call_GET_TAG tagLen]).
    eapply feeds_between_then.
    + apply enc_stage_feeds.
    + intros [].
    + intros; discriminate.
    + intros [H | []]. discriminate.
    + intros output. unfold lib_GET_TAG.
      change [Call_GET_TAG tagLen] with ([Call_GET_TAG tagLen] ++ []).
      destruct (_ <? _); (apply traces_checked_out; [discriminate |]);
        intros t; apply (traces_ret E _ _ (fun _ => False)).
    + intros w Hw. exact Hw.
    + intros w [].
  - intros w Hw. left. exact Hw.
  - intros w Hw. right. exact Hw.
Qed.

Lemma array_set_same_data l : forall i b v,
  nth_error l i = Some b -> data v = data b ->
  map data (array_set i v l) = map data l.
Proof.
  induction l as [| x l IH]; intros [| i] b v Hn Hd; simpl in *; try discriminate.
  - inversion Hn; subst. now rewrite Hd.
  - f_equal. eapply IH; eauto.
Qed.

Lemma unshare_each_contents arr : forall c out,
  unshare_each arr c = Ok out -> contents out = contents c.
Proof.
  induction arr as [| [p |] arr IH]; intros c out H; simpl in H.
  - now inversion H.
  - destruct (p =? 0).
    + apply IH in H. rewrite H. reflexivity.
    + destruct (nth_error (snd c) (p - 1)) as [b |] eqn:Hn; [| discriminate].
      apply IH in H. rewrite H. unfold contents, chain_bytes, bufs; simpl.
      now rewrite (array_set_same_data _ _ b).
  - discriminate.
Qed.

Lemma fixupSharedBuffer_input K c n input output :
  fixupSharedBuffer K c n = Ok (input, output) -> contents input = contents c.
Proof.
  unfold fixupSharedBuffer.
  destruct (count_shared K (bufs c) 0 0 (repeat None K)) as [numShared arr].
  destruct (numShared =? 0); [intros H; now inversion H |].
  destruct (numShared <=? K).
  - destruct (unshare_each arr c) as [o | |] eqn:Hu; try discriminate.
    intros H; inversion H; subst. now apply unshare_each_contents in Hu.
  - intros H; now inversion H.
Qed.

Lemma feeds_between_lift E A B (r : result A) (k : A -> M E B) L0 mk input L2
    (Bad : string -> Prop) :
  (forall a, r = Ok a -> feeds_between (k a) L0 mk input L2 Bad) ->
  (forall w, r = Throw w -> Bad w) ->
  feeds_between (bind (lift r) k) L0 mk input L2 Bad.
Proof.
  intros Hk Hb st r' st' H. unfold bind, lift in H.
  destruct r as [a | w |].
  - now apply (Hk a eq_refl).
  - inversion H; subst. exists [input], [].
    split; [simpl; now rewrite app_nil_r | split; [now rewrite app_nil_r |]].
    apply follows_nothing; [discriminate |].
    intros w' Hw; inversion Hw; subst. now apply Hb.
  - inversion H; subst. exists [input], [].
    split; [simpl; now rewrite app_nil_r | split; [now rewrite app_nil_r |]].
    apply follows_nothing; discriminate.
Qed.

Lemma dec_stage_feeds E (blk : bool) (c out : Chain) tag :
  feeds_between (if blk then decFuncBlocks (E := E) c out tag else decFunc c out tag)
    (if blk then [Call_SET_TAG tag] else [])
    (Call_DecryptUpdate false) (contents c)
    ((if blk then [] else [Call_SET_TAG tag]) ++ [Call_DecryptFinal_ex])
    (fun _ => True).
Proof.
  destruct blk.
  - eapply feeds_between_weaken.
    + apply (feeds_between_of_traces E _ _ _ _ (blocks 16 (contents c))).
      * apply decFuncBlocks_traces.
      * apply blocks_concat; lia.
    + auto.
  - eapply feeds_between_weaken; [apply decFunc_feeds | auto].
Qed.

Lemma trimBytes_parts c n c' t :
  n <= computeChainDataLength c -> trimBytes c n = (c', t) ->
  contents c' = firstn (computeChainDataLength c - n) (contents c) /\
  t = lastn n (contents c).
Proof.
  intros Hn Ht. apply trimBytes_spec in Ht.
  destruct Ht as (_ & _ & Hc & Hl).
  rewrite computeChainDataLength_contents in *.
  rewrite Nat.min_l in Hl by lia.
  assert (Hlen : length (contents c') = length (contents c) - n).
  { apply (f_equal (@length _)) in Hc. rewrite length_app in Hc. lia. }
  split.
  - rewrite <- Hlen, <- Hc, firstn_app, Nat.sub_diag, firstn_all. simpl.
    now rewrite app_nil_r.
  - unfold lastn. rewrite <- Hlen, <- Hc, skipn_app, Nat.sub_diag.
    rewrite skipn_all. reflexivity.
Qed.

(** The calls of a run of [evpDecrypt] on a ciphertext that holds a tag. *)
Lemma evpDecrypt_feeds E K c ad iv tagLen (blk : bool) :
  tagLen <= computeChainDataLength c ->
  let tag := lastn tagLen (contents c) in
  feeds_between (evpDecrypt E K c ad iv tagLen blk)
    ([Call_DecryptInit_ex iv] ++ ad_calls (Call_DecryptUpdate true) ad ++
     (if blk then [Call_SET_TAG tag] else []))
    (Call_DecryptUpdate false)
    (firstn (computeChainDataLength c - tagLen) (contents c))
    ((if blk then [] else [Call_SET_TAG tag]) ++ [Call_DecryptFinal_ex])
    (fun _ => True).
Proof.
  intros Hlen tag. unfold evpDecrypt.
  pose proof Hlen as Hlt. apply Nat.ltb_ge in Hlt. rewrite Hlt.
  destruct (trimBytes c tagLen) as [c' tagOut] eqn:Ht.
  destruct (trimBytes_parts _ _ _ _ Hlen Ht) as [Hbody Htag].
  rewrite <- Hbody. fold tag in Htag. subst tagOut.
  apply feeds_between_lift; [| auto].
  intros [input output] Hfix. apply fixupSharedBuffer_input in Hfix.
  rewrite <- Hfix. unfold lib_DecryptInit_ex.
  apply feeds_checked_ctl; [discriminate |].
  eapply feeds_between_after.
  - apply (feed_optional_associatedData_traces E _
             (fun p c => EVP_DecryptUpdate E c true p) (Call_DecryptUpdate true));
      [reflexivity | intros; discriminate].
  - apply nofinal_ad_calls. intros; discriminate.
  - intros _. apply feeds_between_ret.
    + apply dec_stage_feeds.
    + intros [decrypted o]. destruct decrypted; simpl; eauto.
  - auto.
  - auto.
Qed.

(** *** The last call of a decryption that answers *)

Lemma good_last_true tr0 call ok : good (tr0 ++ [(call, ok)]) -> ok = true.
Proof.
  unfold good; intros H. apply Forall_app in H. destruct H as [_ H].
  inversion H; subst. assumption.
Qed.

Lemma push_state E c pos bs (st : cstate E) r st' :
  push c pos bs st = (r, st') -> st' = st.
Proof. unfold push. destruct (_ <? _); intros H; now inversion H. Qed.

(** When the decryption pass answers [true], the last call was an
    [EVP_DecryptFinal_ex] that returned 1. *)
Lemma dec_stage_true_final E (blk : bool) c out tag (st : cstate E) out' st' :
  (if blk then decFuncBlocks c out tag else decFunc c out tag) st
  = (Ok (true, out'), st') ->
  exists tr0, clog st' = tr0 ++ [(Call_DecryptFinal_ex, true)].
Proof.
  destruct blk; unfold decFuncBlocks, decFunc; intros H.
  - apply bind_inv_Ok in H. destruct H as (ok & st0 & _ & H).
    destruct (negb ok); [discriminate |].
    apply bind_inv_Ok in H. destruct H as ([[tw ti] [o pos]] & st1 & _ & H).
    destruct (_ <=? _)%Z.
    + apply bind_inv_Ok in H. destruct H as (r & st2 & Hf & H).
      lib_inv Hf.
      destruct Hf as [(c0 & w & _ & Hr & ->) | (_ & Hr & ->)];
        inversion Hr; subst r; inversion H; subst.
      eexists; apply logged_clog.
    + apply bind_inv_Ok in H. destruct H as (r & st2 & Hf & H).
      lib_inv Hf.
      destruct Hf as [(c0 & w & _ & Hr & ->) | (_ & Hr & ->)];
        inversion Hr; subst r; [| inversion H].
      destruct (16 <? length w); [discriminate |].
      apply bind_inv_Ok in H. destruct H as (o' & st3 & Hp & H).
      apply push_state in Hp. inversion H; subst.
      eexists; apply logged_clog.
  - apply bind_inv_Ok in H. destruct H as ([n o] & st1 & _ & H).
    apply bind_inv_Ok in H. destruct H as (ok & st0 & _ & H).
    destruct (negb ok); [discriminate |].
    apply bind_inv_Ok in H. destruct H as (r & st2 & Hf & H).
    lib_inv Hf.
    destruct Hf as [(c0 & w & _ & Hr & ->) | (_ & Hr & ->)];
      inversion Hr; subst r; inversion H; subst.
    eexists; apply logged_clog.
Qed.

Lemma evpDecrypt_Some_final E K c ad iv tagLen blk (st : cstate E) q st' :
  evpDecrypt E K c ad iv tagLen blk st = (Ok (Some q), st') ->
  exists tr0, clog st' = tr0 ++ [(Call_DecryptFinal_ex, true)].
Proof.
  unfold evpDecrypt. destruct (_ <? _); [discriminate |].
  destruct (trimBytes c tagLen) as [c' tagOut].
  intros H.
  apply bind_inv_Ok in H. destruct H as ([input output] & st0 & _ & H).
  apply bind_inv_Ok in H. destruct H as (ok & st1 & _ & H).
  destruct (negb ok); [discriminate |].
  apply bind_inv_Ok in H. destruct H as ([] & st2 & _ & H).
  apply bind_inv_Ok in H. destruct H as ([decrypted o] & st3 & Hd & H).
  destruct decrypted; simpl in H; [| discriminate].
  inversion H; subst. eapply dec_stage_true_final; eauto.
Qed.

(** *** Stores into a chain, on its contents *)

Lemma overwrite_nil pos (d : bytes) : overwrite pos [] d = d.
Proof. unfold overwrite. rewrite firstn_nil, Nat.add_0_r. simpl. apply firstn_skipn. Qed.

Lemma poke_nil b pos : poke b pos [] = b.
Proof. unfold poke, set_data. rewrite overwrite_nil. now destruct b. Qed.

Lemma overwrite_fill pos (w d : bytes) :
  length w = length d - pos -> overwrite pos w d = firstn pos d ++ w.
Proof.
  intros H. unfold overwrite. rewrite <- H, firstn_all.
  rewrite skipn_all2 by lia. now rewrite app_nil_r.
Qed.

Lemma firstn_overwrite pos (w d : bytes) :
  pos + length w <= length d ->
  firstn (pos + length w) (overwrite pos w d) = firstn pos d ++ w.
Proof.
  intros H. unfold overwrite.
  rewrite (firstn_all2 (n := length d - pos)) by lia.
  rewrite app_assoc, firstn_app.
  rewrite firstn_all2 by (rewrite length_app, length_firstn; lia).
  rewrite length_app, length_firstn.
  replace (pos + length w - (Nat.min pos (length d) + length w)) with 0 by lia.
  simpl. now rewrite app_nil_r.
Qed.

Lemma skipn_overwrite pos (w d : bytes) :
  pos + length w <= length d ->
  skipn (pos + length w) (overwrite pos w d) = skipn (pos + length w) d.
Proof.
  intros H. unfold overwrite.
  rewrite (firstn_all2 (n := length d - pos)) by lia.
  rewrite app_assoc, skipn_app.
  rewrite skipn_all2 by (rewrite length_app, length_firstn; lia).
  rewrite length_app, length_firstn.
  replace (pos + length w - (Nat.min pos (length d) + length w)) with 0 by lia.
  reflexivity.
Qed.

Lemma overwrite_from_0 (w d : bytes) :
  length w <= length d -> overwrite 0 w d = w ++ skipn (length w) d.
Proof.
  intros H. unfold overwrite. simpl. rewrite Nat.sub_0_r.
  now rewrite firstn_all2 by lia.
Qed.

Lemma overwrite_all (w d : bytes) : length w = length d -> overwrite 0 w d = w.
Proof.
  intros H. rewrite overwrite_from_0 by lia. rewrite H, skipn_all. apply app_nil_r.
Qed.

Lemma overwrite_in_bounds pos (w d : bytes) :
  pos + length w <= length d ->
  overwrite pos w d = firstn pos d ++ w ++ skipn (pos + length w) d.
Proof.
  intros H. unfold overwrite. now rewrite (firstn_all2 (n := length d - pos)) by lia.
Qed.

Lemma overwrite_overwrite pos (w1 w2 d : bytes) :
  pos + length w1 + length w2 <= length d ->
  overwrite (pos + length w1) w2 (overwrite pos w1 d) = overwrite pos (w1 ++ w2) d.
Proof.
  intros H.
  rewrite (overwrite_in_bounds (pos + length w1)) by (rewrite overwrite_length; lia).
  rewrite firstn_overwrite by lia.
  rewrite <- Nat.add_assoc, (overwrite_in_bounds pos w1) by lia.
  rewrite (overwrite_in_bounds pos (w1 ++ w2)) by (rewrite length_app; lia).
  rewrite length_app, <- !app_assoc. do 3 f_equal.
  rewrite !skipn_app, length_firstn.
  rewrite (skipn_all2 (firstn pos d)) by (rewrite length_firstn; lia).
  rewrite (skipn_all2 w1) by lia.
  rewrite skipn_skipn. simpl. f_equal. lia.
Qed.

Lemma overwrite_cons_0 y (bs : bytes) x d :
  overwrite 0 (y :: bs) (x :: d) = y :: overwrite 0 bs d.
Proof. unfold overwrite. simpl. now rewrite !Nat.sub_0_r. Qed.

Lemma overwrite_cons_S p (bs : bytes) x d :
  overwrite (S p) bs (x :: d) = x :: overwrite p bs d.
Proof. reflexivity. Qed.

Lemma overwrite_empty pos (bs : bytes) : overwrite pos bs [] = [].
Proof. unfold overwrite. simpl. now rewrite firstn_nil, skipn_nil. Qed.

Lemma overwrite_app (a : bytes) : forall pos (bs b : bytes),
  overwrite pos bs (a ++ b)
  = overwrite pos bs a ++ overwrite (pos - length a) (skipn (length a - pos) bs) b.
Proof.
  induction a as [| x a IH]; intros pos bs b.
  - rewrite overwrite_empty. simpl. now rewrite Nat.sub_0_r.
  - destruct pos as [| p].
    + destruct bs as [| y bs].
      * rewrite !overwrite_nil. reflexivity.
      * change ((x :: a) ++ b) with (x :: (a ++ b)).
        rewrite !overwrite_cons_0, IH.
        cbn [length Nat.sub skipn app]. rewrite ?Nat.sub_0_r. reflexivity.
    + change ((x :: a) ++ b) with (x :: (a ++ b)).
      rewrite !overwrite_cons_S, IH. reflexivity.
Qed.

Lemma chain_bytes_write_bufs l : forall pos bs,
  chain_bytes (write_bufs pos bs l) = overwrite pos bs (chain_bytes l).
Proof.
  induction l as [| b t IH]; intros pos bs; simpl write_bufs.
  - unfold chain_bytes, overwrite; simpl. now rewrite firstn_nil, skipn_nil.
  - rewrite !chain_bytes_cons, IH, data_poke. symmetry. apply overwrite_app.
Qed.

Lemma contents_write_chain pos bs c :
  contents (write_chain pos bs c) = overwrite pos bs (contents c).
Proof.
  unfold contents, write_chain, bufs; simpl fst; simpl snd.
  rewrite !chain_bytes_cons, chain_bytes_write_bufs, data_poke.
  symmetry. apply overwrite_app.
Qed.

(** ** What the passes compute when the library goes through *)

(** *** The stream pass *)

Lemma run_updates_app C (upd : C -> bytes -> option (C * bytes)) a : forall c b,
  run_updates upd c (a ++ b)
  = match run_updates upd c a with
    | None => None
    | Some (c1, wa) =>
      match run_updates upd c1 b with
      | None => None
      | Some (c', wb) => Some (c', wa ++ wb)
      end
    end.
Proof.
  induction a as [| p a IH]; intros c b; simpl.
  - destruct (run_updates upd c b) as [[c' wb] |]; reflexivity.
  - destruct (upd c p) as [[c1 w] |]; [| reflexivity].
    rewrite IH. destruct (run_updates upd c1 a) as [[c2 wa] |]; [| reflexivity].
    destruct (run_updates upd c2 b) as [[c' wb] |]; reflexivity.
Qed.

Lemma always_runs_head C (upd : C -> bytes -> option (C * bytes)) c p rest :
  always_runs upd c (p ++ rest) ->
  exists c1 w, upd c p = Some (c1, w) /\ always_runs upd c1 rest.
Proof.
  intros H.
  destruct (upd c p) as [[c1 w] |] eqn:Hu.
  - exists c1, w. split; [reflexivity |].
    intros ps Hc Hn. apply (H (p :: ps)); [simpl; now rewrite Hc |].
    simpl. now rewrite Hu, Hn.
  - exfalso. apply (H [p; rest]); [simpl; now rewrite app_nil_r |].
    simpl. now rewrite Hu.
Qed.

Lemma always_runs_split C (upd : C -> bytes -> option (C * bytes)) c a b :
  always_runs upd c (a ++ b) -> always_runs upd c a.
Proof.
  intros H ps Hc Hn. apply (H (ps ++ [b])).
  - rewrite concat_app, Hc. simpl. now rewrite app_nil_r.
  - now rewrite run_updates_app, Hn.
Qed.

Lemma always_runs_after C (upd : C -> bytes -> option (C * bytes)) c ps c1 ws b :
  always_runs upd c (concat ps ++ b) -> run_updates upd c ps = Some (c1, ws) ->
  always_runs upd c1 b.
Proof.
  intros H Hr qs Hc Hn. apply (H (ps ++ qs)).
  - now rewrite concat_app, Hc.
  - now rewrite run_updates_app, Hr, Hn.
Qed.

Lemma exceeds_int_le n : (Z.of_nat n <= Z.of_N INT_MAX)%Z -> exceeds_int n = false.
Proof. unfold exceeds_int. intros H. apply N.ltb_ge. lia. Qed.

Section StreamForward.
Variable E : EVP.
Variable f : bytes -> EVP_CIPHER_CTX E -> option (EVP_CIPHER_CTX E * bytes).
Variable mk : bytes -> Call.
Variables w1 w2 : string.
Variable func : Z -> bytes -> M E (Z * bytes).
Hypothesis func_eq : forall s p,
  func s p =
  (if exceeds_int (length p) then throw w1
   else r <- lib_out (f p) (mk p) ;;
        match r with
        | None => throw w2
        | Some w => n <- int_add s (length w) ;; ret (n, w)
        end).
Hypothesis f_length : forall p c c' w, f p c = Some (c', w) -> length w = length p.

Let upd := fun c p => f p c.

Lemma stream_lambda_forward s p st c' w :
  f p (cctx st) = Some (c', w) ->
  (0 <= s)%Z -> (s + Z.of_nat (length p) <= Z.of_N INT_MAX)%Z ->
  func s p st = (Ok ((s + Z.of_nat (length p))%Z, w), logged st c' (mk p) true).
Proof.
  intros Hf Hs Hmax. rewrite func_eq.
  rewrite exceeds_int_le by lia.
  unfold bind, lib_out. rewrite Hf.
  rewrite (f_length _ _ _ _ Hf). unfold int_add.
  destruct (Z.ltb_spec (Z.of_N INT_MAX) (s + Z.of_nat (length p))); [lia |].
  reflexivity.
Qed.

Lemma cur_written_cons c t offset : cur_written (c :: t) offset = firstn offset (data c).
Proof. reflexivity. Qed.

Lemma unwritten_cons c t offset :
  unwritten (c :: t) offset = skipn offset (data c) ++ chain_bytes t.
Proof. reflexivity. Qed.

Lemma unwritten_0 l : unwritten l 0 = chain_bytes l.
Proof. destruct l; reflexivity. Qed.

Lemma cur_written_0 l : cur_written l 0 = [].
Proof. destruct l; reflexivity. Qed.

Lemma transformBuffer_inner_forward out : forall current done offset s st,
  length current <= length (unwritten out offset) ->
  always_runs upd (cctx st) current ->
  (0 <= s)%Z -> (s + Z.of_nat (length current) <= Z.of_N INT_MAX)%Z ->
  exists pieces c' ws d o off st',
    concat pieces = current /\
    run_updates upd (cctx st) pieces = Some (c', ws) /\
    transformBuffer_inner func s current done out offset st
    = (Ok ((s + Z.of_nat (length current))%Z, (d, o, off)), st') /\
    cctx st' = c' /\
    chain_bytes d ++ cur_written o off
    = chain_bytes done ++ cur_written out offset ++ concat ws /\
    unwritten o off = skipn (length current) (unwritten out offset).
Proof.
  induction out as [| cur todo IH]; intros current done offset s st Hroom Hall Hs Hmax.
  - simpl in Hroom. destruct current; [| simpl in Hroom; lia].
    exists [], (cctx st), [], done, [], offset, st.
    simpl. rewrite Z.add_0_r, app_nil_r. auto 7.
  - destruct (list_eq_dec Byte.byte_eq_dec current []) as [-> | Hne].
    { exists [], (cctx st), [], done, (cur :: todo), offset, st.
      rewrite transformBuffer_inner_nil. simpl length. rewrite Z.add_0_r.
      simpl concat. rewrite !app_nil_r. auto 7. }
    set (room := length (data cur) - offset).
    assert (Hskip : length (skipn offset (data cur)) = room)
      by (rewrite length_skipn; reflexivity).
    rewrite unwritten_cons, length_app, Hskip in Hroom.
    rewrite transformBuffer_inner_cons by assumption. fold room.
    destruct (length current <? room) eqn:Hfit.
    + apply Nat.ltb_lt in Hfit.
      rewrite <- (app_nil_r current) in Hall.
      destruct (always_runs_head _ _ _ _ _ Hall) as (c1 & w & Hu & _).
      unfold upd in Hu. pose proof (f_length _ _ _ _ Hu) as Hlw.
      exists [current], c1, [w], done, (poke cur offset w :: todo),
        (offset + length current), (logged st c1 (mk current) true).
      unfold bind. rewrite (stream_lambda_forward _ _ _ _ _ Hu Hs Hmax).
      split; [simpl; apply app_nil_r |].
      split; [simpl; unfold upd; now rewrite Hu |].
      split; [reflexivity |]. split; [reflexivity |].
      unfold room in Hfit.
      rewrite !cur_written_cons, !unwritten_cons, data_poke, <- Hlw.
      rewrite firstn_overwrite, skipn_overwrite by lia.
      split; [simpl concat; now rewrite app_nil_r |].
      rewrite skipn_app, skipn_skipn, Hskip.
      replace (length w - room) with 0 by (unfold room; lia).
      rewrite (Nat.add_comm (length w)). reflexivity.
    + apply Nat.ltb_ge in Hfit.
      rewrite <- (firstn_skipn room current) in Hall.
      destruct (always_runs_head _ _ _ _ _ Hall) as (c1 & w & Hu & Hall').
      unfold upd in Hu. pose proof (f_length _ _ _ _ Hu) as Hlw.
      assert (Hpiece : length (firstn room current) = room)
        by (rewrite length_firstn; lia).
      assert (Hsplit : length current = room + length (skipn room current))
        by (rewrite length_skipn; lia).
      assert (Hrest : length (skipn room current) <= length (unwritten todo 0)).
      { rewrite length_skipn, unwritten_0. lia. }
      destruct (IH (skipn room current) (done ++ [poke cur offset w]) 0
                   (s + Z.of_nat room)%Z
                   (logged st c1 (mk (firstn room current)) true)
                   Hrest Hall' ltac:(lia) ltac:(lia))
        as (ps & c' & ws & d & o & off & st' & Hc & Hr & Hrun' & Hctx & Hw & Hu').
      exists (firstn room current :: ps), c', (w :: ws), d, o, off, st'.
      unfold bind.
      rewrite (stream_lambda_forward _ _ _ _ _ Hu Hs ltac:(lia)).
      rewrite Hpiece, Hrun'.
      replace (s + Z.of_nat (length current))%Z
        with (s + Z.of_nat room + Z.of_nat (length (skipn room current)))%Z by lia.
      split; [simpl; rewrite Hc; apply firstn_skipn |].
      split; [simpl; unfold upd at 1; rewrite Hu; simpl in Hr; now rewrite Hr |].
      split; [reflexivity |]. split; [exact Hctx |].
      rewrite Hw, Hu', chain_bytes_app, chain_bytes_single, data_poke.
      rewrite cur_written_0, unwritten_0, cur_written_cons, unwritten_cons.
      rewrite overwrite_fill by (unfold room in *; lia).
      split.
      * simpl. now rewrite <- !app_assoc.
      * rewrite skipn_app, Hskip.
        rewrite (skipn_all2 (n := length current)) by lia.
        simpl. f_equal. lia.
Qed.

Lemma transformBuffer_outer_forward ins : forall done out offset s st,
  length (chain_bytes ins) <= length (unwritten out offset) ->
  always_runs upd (cctx st) (chain_bytes ins) ->
  (0 <= s)%Z -> (s + Z.of_nat (length (chain_bytes ins)) <= Z.of_N INT_MAX)%Z ->
  exists pieces c' ws d o off st',
    concat pieces = chain_bytes ins /\
    run_updates upd (cctx st) pieces = Some (c', ws) /\
    transformBuffer_outer func s ins done out offset st
    = (Ok ((s + Z.of_nat (length (chain_bytes ins)))%Z, (d, o, off)), st') /\
    cctx st' = c' /\
    chain_bytes d ++ cur_written o off
    = chain_bytes done ++ cur_written out offset ++ concat ws /\
    unwritten o off = skipn (length (chain_bytes ins)) (unwritten out offset).
Proof.
  induction ins as [| cur rest IH]; intros done out offset s st Hroom Hall Hs Hmax.
  - exists [], (cctx st), [], done, out, offset, st.
    simpl. rewrite Z.add_0_r, !app_nil_r. auto 7.
  - rewrite chain_bytes_cons in *. rewrite length_app in Hroom, Hmax.
    destruct (transformBuffer_inner_forward out (data cur) done offset s st
                ltac:(lia) (always_runs_split _ _ _ _ _ Hall) Hs ltac:(lia))
      as (ps1 & c1 & ws1 & d1 & o1 & off1 & st1 & Hc1 & Hr1 & Hrun1 & Hctx1 & Hw1 & Hu1).
    rewrite <- Hc1 in Hall.
    pose proof (always_runs_after _ _ _ _ _ _ _ Hall Hr1) as Hall2.
    rewrite <- Hctx1 in Hall2.
    destruct (IH d1 o1 off1 (s + Z.of_nat (length (data cur)))%Z st1
                ltac:(rewrite Hu1, length_skipn; lia) Hall2 ltac:(lia) ltac:(lia))
      as (ps2 & c2 & ws2 & d2 & o2 & off2 & st2 & Hc2 & Hr2 & Hrun2 & Hctx2 & Hw2 & Hu2).
    exists (ps1 ++ ps2), c2, (ws1 ++ ws2), d2, o2, off2, st2.
    split; [rewrite concat_app, Hc2; f_equal; now rewrite Hc1 in * |].
    split; [rewrite run_updates_app, Hr1; rewrite Hctx1 in Hr2; now rewrite Hr2 |].
    split.
    { simpl. unfold bind. rewrite Hrun1, Hrun2. rewrite length_app.
      replace (s + Z.of_nat (length (data cur) + length (chain_bytes rest)))%Z
        with (s + Z.of_nat (length (data cur)) + Z.of_nat (length (chain_bytes rest)))%Z
        by lia.
      reflexivity. }
    split; [exact Hctx2 |].
    rewrite Hw2, Hu2, app_assoc, Hw1, Hu1, concat_app, skipn_skipn, length_app.
    split; [now rewrite <- !app_assoc | f_equal; lia].
Qed.

(** The stream pass on a library that goes through: it hands the input
    over in pieces, counts what was stored, and leaves in the output chain
    what the library stored, in order. *)
Lemma transformBuffer_forward inp out s st :
  length (contents inp) = length (contents out) ->
  always_runs upd (cctx st) (contents inp) ->
  (0 <= s)%Z -> (s + Z.of_nat (length (contents inp)) <= Z.of_N INT_MAX)%Z ->
  exists pieces c' ws out' st',
    concat pieces = contents inp /\
    run_updates upd (cctx st) pieces = Some (c', ws) /\
    transformBuffer func inp out s st
    = (Ok ((s + Z.of_nat (length (contents inp)))%Z, out'), st') /\
    cctx st' = c' /\
    contents out' = concat ws /\
    map shape (bufs out') = map shape (bufs out).
Proof.
  intros Hlen Hall Hs Hmax.
  destruct (transformBuffer_outer_forward (bufs inp) [] (bufs out) 0 s st
              ltac:(rewrite unwritten_0; unfold contents in Hlen; lia) Hall Hs Hmax)
    as (ps & c' & ws & d & o & off & st' & Hc & Hr & Hrun & Hctx & Hw & Hu).
  pose proof Hrun as Hsh. apply transformBuffer_outer_shape in Hsh.
  simpl in Hsh.
  destruct (d ++ o) as [| h t] eqn:Hdo; [discriminate |].
  exists ps, c', ws, (h, t), st'.
  split; [exact Hc |]. split; [exact Hr |].
  split; [unfold transformBuffer, bind; fold (contents inp); rewrite Hrun, Hdo; reflexivity |].
  split; [exact Hctx |]. split; [| exact Hsh].
  change (contents (h, t)) with (chain_bytes (h :: t)). rewrite <- Hdo.
  rewrite unwritten_0 in Hu. fold (contents inp) in Hu. fold (contents out) in Hu.
  rewrite Hlen, skipn_all in Hu.
  rewrite cur_written_0 in Hw. simpl in Hw.
  assert (Hsplit : chain_bytes (d ++ o)
                   = (chain_bytes d ++ cur_written o off) ++ unwritten o off).
  { rewrite chain_bytes_app. destruct o as [| x o]; simpl.
    - now rewrite !app_nil_r.
    - rewrite chain_bytes_cons, <- app_assoc. f_equal.
      rewrite app_assoc, firstn_skipn. reflexivity. }
  rewrite Hsplit, Hw, Hu. apply app_nil_r.
Qed.

End StreamForward.

(** *** The block pass *)

Lemma overwrite_beyond pos (w d : bytes) : length d <= pos -> overwrite pos w d = d.
Proof.
  intros H. unfold overwrite.
  rewrite firstn_all2 by lia. replace (length d - pos) with 0 by lia.
  rewrite skipn_all2 by lia. simpl. apply app_nil_r.
Qed.

Lemma chain_bytes_poke_bufs l : forall pos w,
  length w <= cursor_length l pos ->
  chain_bytes (poke_bufs l pos w) = overwrite pos w (chain_bytes l).
Proof.
  induction l as [| b t IH]; intros pos w Hw; simpl in *.
  - destruct w; [| simpl in Hw; lia]. now rewrite overwrite_nil.
  - rewrite chain_bytes_cons, overwrite_app.
    destruct (pos <? length (data b)) eqn:Hpos; rewrite ?Hpos in Hw.
    + apply Nat.ltb_lt in Hpos.
      rewrite chain_bytes_cons, data_poke.
      rewrite skipn_all2 by lia. now rewrite overwrite_nil.
    + apply Nat.ltb_ge in Hpos.
      rewrite chain_bytes_cons. rewrite IH by exact Hw.
      rewrite (overwrite_beyond pos w (data b)) by exact Hpos.
      replace (length (data b) - pos) with 0 by lia. reflexivity.
Qed.

Lemma contents_cursor_poke c pos w :
  length w <= cursor_length (bufs c) pos ->
  contents (cursor_poke c pos w) = overwrite pos w (contents c).
Proof.
  intros Hw. unfold cursor_poke.
  change (bufs c) with (fst c :: snd c) in Hw. simpl cursor_length in Hw.
  unfold contents, bufs.
  destruct (pos <? length (data (fst c))) eqn:Hpos; rewrite ?Hpos in Hw;
    simpl fst; simpl snd.
  - apply Nat.ltb_lt in Hpos.
    rewrite !chain_bytes_cons, data_poke, overwrite_app.
    rewrite skipn_all2 by lia. now rewrite overwrite_nil.
  - apply Nat.ltb_ge in Hpos.
    rewrite !chain_bytes_cons. rewrite chain_bytes_poke_bufs by exact Hw.
    rewrite overwrite_app.
    rewrite (overwrite_beyond pos w (data (fst c))) by exact Hpos.
    replace (length (data (fst c)) - pos) with 0 by lia. reflexivity.
Qed.

Section BlockForward.
Variable E : EVP.
Variable f : bytes -> EVP_CIPHER_CTX E -> option (EVP_CIPHER_CTX E * bytes).
Variable neg : bytes -> EVP_CIPHER_CTX E -> bool.
Variable mk : bytes -> Call.
Variables w1 w2 : string.
Variable func : nat * nat -> bytes -> M E (nat * nat * bytes).
Hypothesis func_eq : forall tw ti p st,
  func (tw, ti) p st =
  (if exceeds_int (length p) then throw w1
   else r <- lib_out (f p) (mk p) ;;
        match r with
        | None => throw w2
        | Some w =>
          if neg p (cctx st) then throw w2
          else ret ((tw + length w, ti + length p), w)
        end) st.
Hypothesis neg_false : forall p c, neg p c = false.

Let upd := fun c p => f p c.

Lemma block_lambda_forward tw ti p st c' w :
  f p (cctx st) = Some (c', w) -> length p <= 16 ->
  func (tw, ti) p st
  = (Ok ((tw + length w, ti + length p), w), logged st c' (mk p) true).
Proof.
  intros Hf Hp. rewrite func_eq. rewrite exceeds_int_16 by assumption.
  unfold bind, lib_out. rewrite Hf, neg_false. reflexivity.
Qed.

(** The block pass on a library that goes through, as long as what the
    library stores fits in the output chain: every piece is one update,
    what it stored is pushed at the cursor, and the two counters add up
    what was given and what was stored. *)
Lemma feed_blocks_stored pieces : forall tw ti out pos st c' ws,
  Forall (fun p => length p <= 16) pieces ->
  run_updates upd (cctx st) pieces = Some (c', ws) ->
  pos + length (concat ws) <= length (contents out) ->
  exists out' st',
    feed_blocks func (tw, ti) pieces out pos st
    = (Ok ((tw + length (concat ws), ti + length (concat pieces)),
           (out', pos + length (concat ws))), st') /\
    cctx st' = c' /\
    contents out' = overwrite pos (concat ws) (contents out) /\
    map shape (bufs out') = map shape (bufs out) /\
    clog st' = clog st ++ map (fun p => (mk p, true)) pieces.
Proof.
  induction pieces as [| p ps IH]; intros tw ti out pos st c' ws Hsmall Hrun Hroom.
  - simpl in Hrun. inversion Hrun; subst. exists out, st.
    simpl. rewrite !Nat.add_0_r, overwrite_nil, app_nil_r. auto 7.
  - simpl in Hrun.
    destruct (upd (cctx st) p) as [[c1 w] |] eqn:Hu; [| discriminate].
    destruct (run_updates upd c1 ps) as [[c2 ws'] |] eqn:Hr; [| discriminate].
    inversion Hrun; subst c2 ws. unfold upd in Hu.
    inversion Hsmall as [| ? ? Hp Hps]; subst.
    simpl concat in *. rewrite length_app in *.
    set (st1 := logged st c1 (mk p) true).
    destruct (IH (tw + length w) (ti + length p) (write_chain pos w out)
                 (pos + length w) st1 c' ws' Hps Hr)
      as (out' & st' & Hrun' & Hctx & Hcont & Hsh & Hlog).
    { rewrite contents_write_chain, overwrite_length. lia. }
    exists out', st'.
    simpl feed_blocks. unfold bind.
    rewrite (block_lambda_forward _ _ _ _ _ _ Hu Hp). fold st1.
    unfold push. rewrite computeChainDataLength_contents.
    destruct (Nat.ltb_spec (length (contents out)) (pos + length w)); [lia |].
    unfold ret at 1. rewrite Hrun'.
    simpl concat. rewrite ?length_app, !Nat.add_assoc.
    split; [reflexivity |]. split; [exact Hctx |].
    split; [| split; [now rewrite Hsh, write_chain_shape |]].
    + rewrite Hcont, contents_write_chain. apply overwrite_overwrite. lia.
    + rewrite Hlog. unfold st1. rewrite logged_clog, <- app_assoc. reflexivity.
Qed.

Variable pending : EVP_CIPHER_CTX E -> nat.
Hypothesis f_pending : forall p c c' w,
  f p c = Some (c', w) -> length w + pending c' = pending c + length p.

(** What the library stored and what it holds back add up to what it was
    given. *)
Lemma run_updates_balance pieces : forall c c' ws,
  run_updates upd c pieces = Some (c', ws) ->
  length (concat ws) + pending c' = pending c + length (concat pieces).
Proof.
  induction pieces as [| p ps IH]; intros c c' ws Hrun; simpl in Hrun.
  - inversion Hrun; subst. simpl. lia.
  - destruct (upd c p) as [[c1 w] |] eqn:Hu; [| discriminate].
    destruct (run_updates upd c1 ps) as [[c2 ws'] |] eqn:Hr; [| discriminate].
    inversion Hrun; subst c2 ws. unfold upd in Hu.
    pose proof (f_pending _ _ _ _ Hu). pose proof (IH _ _ _ Hr).
    simpl concat. rewrite !length_app. lia.
Qed.

(** The block pass on a library that goes through and keeps the balance of
    what it holds back. *)
Lemma feed_blocks_forward pieces tw ti out pos st c' ws :
  Forall (fun p => length p <= 16) pieces ->
  run_updates upd (cctx st) pieces = Some (c', ws) ->
  pos + pending (cctx st) + length (concat pieces) <= length (contents out) ->
  exists out' st',
    feed_blocks func (tw, ti) pieces out pos st
    = (Ok ((tw + length (concat ws), ti + length (concat pieces)),
           (out', pos + length (concat ws))), st') /\
    cctx st' = c' /\
    contents out' = overwrite pos (concat ws) (contents out) /\
    length (concat ws) + pending c' = pending (cctx st) + length (concat pieces) /\
    map shape (bufs out') = map shape (bufs out) /\
    clog st' = clog st ++ map (fun p => (mk p, true)) pieces.
Proof.
  intros Hsmall Hrun Hroom.
  pose proof (run_updates_balance _ _ _ _ Hrun) as Hbal.
  destruct (feed_blocks_stored pieces tw ti out pos st c' ws Hsmall Hrun
              ltac:(lia))
    as (out' & st' & H1 & H2 & H3 & H4 & H5).
  exists out', st'. auto 8.
Qed.

End BlockForward.
(** *** The passes of encryption and decryption *)

Lemma size_t_sub_small a b :
  b <= a -> a - b <= 16 -> size_t_sub a b = Z.of_nat (a - b).
Proof.
  intros Hle Hs. unfold size_t_sub. rewrite Z.mod_small; [lia |].
  split; [lia |]. apply Z.lt_le_trans with 17%Z; [lia |]. now compute.
Qed.

Lemma length_0_nil (l : bytes) : length l = 0 -> l = [].
Proof. destruct l; [reflexivity | discriminate]. Qed.

Lemma lib_out_Some E f call (st : cstate E) c w :
  f (cctx st) = Some (c, w) ->
  lib_out f call st = (Ok (Some w), logged st c call true).
Proof. intros H. unfold lib_out. now rewrite H. Qed.

Lemma lib_out_None E f call (st : cstate E) :
  f (cctx st) = None ->
  lib_out f call st = (Ok None, logged st (cctx st) call false).
Proof. intros H. unfold lib_out. now rewrite H. Qed.

Lemma lib_ctl_Some E f call (st : cstate E) c :
  f (cctx st) = Some c -> lib_ctl f call st = (Ok true, logged st c call true).
Proof. intros H. unfold lib_ctl. now rewrite H. Qed.

Section Stages.
Variable E : EVP.
Variable pending : EVP_CIPHER_CTX E -> nat.
Hypothesis Hb : buffering E pending.

Lemma seal_from_always_runs c input tagLen :
  (forall pieces, concat pieces = input -> seal_from E c pieces tagLen <> None) ->
  always_runs (fun c p => EVP_EncryptUpdate E c false p) c input.
Proof.
  intros H ps Hc Hn. apply (H ps Hc). unfold seal_from. now rewrite Hn.
Qed.

Lemma seal_from_inv c pieces tagLen :
  seal_from E c pieces tagLen <> None ->
  exists c3 ws c4 wf c5 t,
    run_updates (fun c p => EVP_EncryptUpdate E c false p) c pieces = Some (c3, ws) /\
    EVP_EncryptFinal_ex E c3 = Some (c4, wf) /\
    EVP_CTRL_GCM_GET_TAG E c4 tagLen = Some (c5, t) /\
    seal_from E c pieces tagLen = Some (ws, wf, t).
Proof.
  unfold seal_from.
  destruct (run_updates _ c pieces) as [[c3 ws] |];
    [| intros H; now contradiction H].
  destruct (EVP_EncryptFinal_ex E c3) as [[c4 wf] |] eqn:H1;
    [| intros H; now contradiction H].
  destruct (EVP_CTRL_GCM_GET_TAG E c4 tagLen) as [[c5 t] |] eqn:H2;
    [| intros H; now contradiction H].
  intros _. exists c3, ws, c4, wf, c5, t. repeat split; assumption.
Qed.

(** [encFunc] on a library that holds nothing back. *)
Lemma encFunc_forward inp out st tagLen :
  (forall c, pending c = 0) ->
  (Z.of_nat (length (contents inp)) <= Z.of_N INT_MAX)%Z ->
  length (contents inp) = length (contents out) ->
  (forall pieces, concat pieces = contents inp ->
                  seal_from E (cctx st) pieces tagLen <> None) ->
  exists pieces ws wf t c5 out' st',
    concat pieces = contents inp /\
    seal_from E (cctx st) pieces tagLen = Some (ws, wf, t) /\
    encFunc inp out st = (Ok out', st') /\
    EVP_CTRL_GCM_GET_TAG E (cctx st') tagLen = Some (c5, t) /\
    contents out' = concat ws ++ wf /\
    map shape (bufs out') = map shape (bufs out).
Proof.
  intros Hz Hmax Hlen Hseal.
  destruct (transformBuffer_forward E
              (fun p c => EVP_EncryptUpdate E c false p) (Call_EncryptUpdate false)
              "Encryption error: too much plain text" "Encryption error"
              (fun numWritten plain =>
                 if exceeds_int (length plain)
                 then throw "Encryption error: too much plain text"%string
                 else
                   r <- lib_EncryptUpdate false plain ;;
                   match r with
                   | None => throw "Encryption error"%string
                   | Some w => n <- int_add numWritten (length w) ;; ret (n, w)
                   end)
              ltac:(reflexivity)
              ltac:(intros p c c' w H; apply (buf_enc_update Hb) in H;
                    rewrite !Hz in H; lia)
              inp out 0%Z st Hlen (seal_from_always_runs _ _ _ Hseal)
              ltac:(lia) ltac:(lia))
    as (ps & c' & ws & out1 & st1 & Hc & Hr & Hrun & Hctx & Hcont & Hsh).
  destruct (seal_from_inv _ _ _ (Hseal ps Hc))
    as (c3 & ws' & c4 & wf & c5 & t & Hr' & Hfin & Htag & Hs).
  rewrite Hr in Hr'. inversion Hr'; subst c3 ws'.
  pose proof (buf_enc_final Hb _ Hfin) as [Hwf _].
  rewrite Hz in Hwf. apply length_0_nil in Hwf. subst wf.
  exists ps, ws, [], t, c5, out1, (logged st1 c4 Call_EncryptFinal_ex true).
  split; [exact Hc |]. split; [exact Hs |].
  split.
  { unfold encFunc. erewrite bind_Ok by exact Hrun.
    unfold lib_EncryptFinal_ex.
    erewrite bind_Ok by (apply lib_out_Some; rewrite Hctx; exact Hfin).
    unfold ret. rewrite poke_nil. now destruct out1. }
  split; [exact Htag |]. split; [now rewrite app_nil_r | exact Hsh].
Qed.

End Stages.

Section DecStages.
Variable E : EVP.
Variable pending : EVP_CIPHER_CTX E -> nat.
Hypothesis Hb : buffering E pending.

(** [decFunc] on a library that holds nothing back: the tag is set after
    the updates, and the answer is that of [EVP_DecryptFinal_ex]. *)
Lemma decFunc_forward inp out tag st :
  (forall c, pending c = 0) ->
  (Z.of_nat (length (contents inp)) <= Z.of_N INT_MAX)%Z ->
  length (contents inp) = length (contents out) ->
  (forall pieces, concat pieces = contents inp ->
                  open_from E false (cctx st) pieces tag <> None) ->
  exists pieces ws r b out' st',
    concat pieces = contents inp /\
    open_from E false (cctx st) pieces tag = Some (ws, r) /\
    decFunc inp out tag st = (Ok (b, out'), st') /\
    dec_answer ws r b out' /\
    map shape (bufs out') = map shape (bufs out).
Proof.
  intros Hz Hmax Hlen Hopen.
  assert (Hall : always_runs (fun c p => EVP_DecryptUpdate E c false p)
                   (cctx st) (contents inp)).
  { intros ps Hc Hn. apply (Hopen ps Hc). unfold open_from. now rewrite Hn. }
  destruct (transformBuffer_forward E
              (fun p c => EVP_DecryptUpdate E c false p) (Call_DecryptUpdate false)
              "Decryption error: too much cipher text" "Decryption error"
              (fun numWritten cipher =>
                 if exceeds_int (length cipher)
                 then throw "Decryption error: too much cipher text"%string
                 else
                   r <- lib_DecryptUpdate false cipher ;;
                   match r with
                   | None => throw "Decryption error"%string
                   | Some w => n <- int_add numWritten (length w) ;; ret (n, w)
                   end)
              ltac:(reflexivity)
              ltac:(intros p c c' w H; apply (buf_dec_update Hb) in H;
                    rewrite !Hz in H; lia)
              inp out 0%Z st Hlen Hall ltac:(lia) ltac:(lia))
    as (ps & c' & ws & out1 & st1 & Hc & Hr & Hrun & Hctx & Hcont & Hsh).
  pose proof (Hopen ps Hc) as Ho. unfold open_from in Ho |- *.
  exists ps, ws.
  rewrite Hr in Ho.
  destruct (EVP_CTRL_GCM_SET_TAG E c' tag) as [c5 |] eqn:Hset;
    [| now contradiction Ho].
  set (st2 := logged st1 c5 (Call_SET_TAG tag) true).
  destruct (EVP_DecryptFinal_ex E c5) as [[c6 wf] |] eqn:Hfin.
  - pose proof (buf_dec_final Hb _ Hfin) as [Hwf _].
    rewrite Hz in Hwf. apply length_0_nil in Hwf. subst wf.
    exists (Some []), true, out1, (logged st2 c6 Call_DecryptFinal_ex true).
    split; [exact Hc |]. split; [now rewrite Hr, Hset, Hfin |].
    split.
    { unfold decFunc. erewrite bind_Ok by exact Hrun. cbv beta iota.
      unfold lib_SET_TAG.
      erewrite bind_Ok by (apply lib_ctl_Some; rewrite Hctx; exact Hset).
      cbv beta iota. change (negb true) with false. cbv iota. unfold lib_DecryptFinal_ex.
      erewrite bind_Ok by (apply lib_out_Some; exact Hfin).
      unfold ret. rewrite poke_nil. now destruct out1. }
    split; [| exact Hsh].
    split; [reflexivity | now rewrite app_nil_r].
  - exists None, false, out1, (logged st2 c5 Call_DecryptFinal_ex false).
    split; [exact Hc |]. split; [now rewrite Hr, Hset, Hfin |].
    split.
    { unfold decFunc. erewrite bind_Ok by exact Hrun. cbv beta iota.
      unfold lib_SET_TAG.
      erewrite bind_Ok by (apply lib_ctl_Some; rewrite Hctx; exact Hset).
      cbv beta iota. change (negb true) with false. cbv iota. unfold lib_DecryptFinal_ex.
      erewrite bind_Ok by (apply lib_out_None; exact Hfin).
      reflexivity. }
    split; [reflexivity | exact Hsh].
Qed.

End DecStages.

Lemma app_inj_length {A} (l1 : list A) : forall l2 t1 t2,
  l1 ++ t1 = l2 ++ t2 -> length t1 = length t2 -> l1 = l2 /\ t1 = t2.
Proof.
  induction l1 as [| a l1 IH]; intros [| b l2] t1 t2 H Hl; simpl in H.
  - now split.
  - subst t1. simpl in Hl. rewrite length_app in Hl. lia.
  - subst t2. simpl in Hl. rewrite length_app in Hl. lia.
  - inversion H; subst. destruct (IH _ _ _ H2 Hl) as [-> ->]. now split.
Qed.

(** *** Chains without shared elements *)

Lemma numShared_shapes c :
  flags_clear (map shape (bufs c)) -> numShared c = 0.
Proof.
  unfold numShared, flags_clear. induction (bufs c) as [| b l IH]; intros H.
  - reflexivity.
  - inversion H as [| ? ? Hb Hl]; subst. simpl in Hb. simpl. rewrite Hb.
    now apply IH.
Qed.

Lemma shapes_numShared c :
  numShared c = 0 -> flags_clear (map shape (bufs c)).
Proof.
  unfold numShared, flags_clear. induction (bufs c) as [| b l IH]; intros H.
  - constructor.
  - simpl in H. destruct (isSharedOne b) eqn:Hb; [discriminate |].
    constructor; [exact Hb | now apply IH].
Qed.

Lemma isShared_false_flags c :
  isShared c = false -> flags_clear (map shape (bufs c)).
Proof.
  unfold isShared, flags_clear. induction (bufs c) as [| b l IH]; intros H.
  - constructor.
  - simpl in H. apply orb_false_iff in H. destruct H as [Hb Hl].
    constructor; [exact Hb | now apply IH].
Qed.

Lemma flags_clear_with_tag tagLen shapes :
  flags_clear shapes -> flags_clear (shapes_with_tag tagLen shapes).
Proof.
  unfold shapes_with_tag, flags_clear. intros H.
  destruct (rev shapes) as [| [[[h n] t] s] before] eqn:Hr; [constructor |].
  destruct (t <? tagLen).
  - apply Forall_app. split; [exact H |]. now repeat constructor.
  - assert (Hs : shapes = rev before ++ [(h, n, t, s)]).
    { rewrite <- (rev_involutive shapes), Hr. reflexivity. }
    rewrite Hs in H. apply Forall_app in H. destruct H as [Hb Hl].
    apply Forall_app. split; [exact Hb |].
    inversion Hl; subst. now repeat constructor.
Qed.

Lemma evpEncrypt_unshared E p ad iv tagLen blk headroom (st : cstate E) c st' :
  evpEncrypt E p ad iv tagLen blk headroom st = (Ok c, st') ->
  numShared c = 0.
Proof.
  intros H. apply evpEncrypt_tagged in H.
  destruct H as (out & c0 & t & Hsh & _ & ->).
  apply numShared_shapes. rewrite tagged_shapes, Hsh, encrypt_output_shapes.
  apply flags_clear_with_tag.
  destruct (isShared p) eqn:Hp.
  - now repeat constructor.
  - now apply isShared_false_flags.
Qed.

Lemma fixupSharedBuffer_unshared K c n :
  numShared c = 0 -> fixupSharedBuffer K c n = Ok (c, c).
Proof.
  intros H0. unfold fixupSharedBuffer.
  destruct (count_shared_spec K (bufs c) 0 [] K eq_refl) as (n' & arr & Heq & Hcases).
  change (map Some [] ++ repeat None K) with (repeat (@None nat) K) in Heq.
  change (length (@nil nat)) with 0 in Heq, Hcases.
  rewrite Heq. unfold numShared in H0. rewrite H0 in Hcases.
  destruct Hcases as [(Hn & _) | (_ & Hgt)]; [| lia].
  simpl in Hn. subst n'. reflexivity.
Qed.

(** *** The associated data *)

Lemma not_oversize_cons b l :
  ~ oversize (b :: l) ->
  exceeds_int (length (data b)) = false /\ ~ oversize l.
Proof.
  intros H. split.
  - destruct (exceeds_int (length (data b))) eqn:He; [| reflexivity].
    exfalso. apply H. exists b. split; [now left | exact He].
  - intros (b' & Hin & He). apply H. exists b'. split; [now right | exact He].
Qed.

Lemma feed_associatedData_forward E (f : EVP_CIPHER_CTX E -> bytes -> option (EVP_CIPHER_CTX E * bytes))
    (mk : bytes -> Call) what ad : forall (st : cstate E) c',
  ~ oversize ad ->
  run_aad f (cctx st) (map data ad) = Some c' ->
  exists st',
    feed_associatedData (fun a => lib_out (fun c => f c a) (mk a)) what ad st
    = (Ok tt, st') /\ cctx st' = c'.
Proof.
  induction ad as [| b rest IH]; intros st c' Hsize Hrun.
  - simpl in Hrun. inversion Hrun; subst. now exists st.
  - apply not_oversize_cons in Hsize. destruct Hsize as [Hb Hrest].
    simpl in Hrun.
    destruct (f (cctx st) (data b)) as [[c1 w] |] eqn:Hf; [| discriminate].
    destruct (IH (logged st c1 (mk (data b)) true) c' Hrest Hrun)
      as (st' & Hfeed & Hctx).
    exists st'. split; [| exact Hctx].
    cbn [feed_associatedData]. rewrite Hb.
    erewrite bind_Ok by (apply lib_out_Some; exact Hf).
    exact Hfeed.
Qed.

Lemma feed_optional_associatedData_forward E
    (f : EVP_CIPHER_CTX E -> bytes -> option (EVP_CIPHER_CTX E * bytes))
    (mk : bytes -> Call) what ad (st : cstate E) c' :
  ~ oversize (ad_bufs ad) ->
  run_aad f (cctx st) (ad_pieces ad) = Some c' ->
  exists st',
    feed_optional_associatedData (fun a => lib_out (fun c => f c a) (mk a))
      what ad st = (Ok tt, st') /\ cctx st' = c'.
Proof.
  destruct ad as [a |]; intros Hsize Hrun.
  - now apply feed_associatedData_forward.
  - simpl in Hrun. inversion Hrun; subst. now exists st.
Qed.

(** *** Pieces of 16 bytes *)

Lemma blocks_fuel_whole fuel : forall l,
  Forall (fun p => length p = 16) (removelast (blocks_fuel fuel 16 l)).
Proof.
  induction fuel as [| fuel IH]; intros l; [constructor |].
  destruct l as [| x l]; [constructor |].
  cbn [blocks_fuel].
  destruct (blocks_fuel fuel 16 (skipn 16 (x :: l))) as [| q qs] eqn:Hq.
  - constructor.
  - change (removelast (firstn 16 (x :: l) :: q :: qs))
      with (firstn 16 (x :: l) :: removelast (q :: qs)).
    constructor; [| rewrite <- Hq; apply IH].
    rewrite length_firstn.
    destruct (Nat.le_gt_cases 16 (length (x :: l))) as [Hle | Hlt]; [lia |].
    rewrite skipn_all2 in Hq by lia.
    destruct fuel; discriminate.
Qed.

Lemma blocks_whole l :
  Forall (fun p => length p = 16) (removelast (blocks 16 l)).
Proof. apply blocks_fuel_whole. Qed.

Section Bounded.
Variable C : Type.
Variable upd : C -> bytes -> option (C * bytes).
Variable pending : C -> nat.
Hypothesis upd_pending : forall c p c' w,
  upd c p = Some (c', w) -> length w + pending c' = pending c + length p.
Hypothesis upd_whole : forall c p c' w,
  upd c p = Some (c', w) -> pending c = 0 -> length p = 16 -> pending c' = 0.

Lemma blocks_fuel_written fuel : forall l c c' ws,
  pending c = 0 ->
  run_updates upd c (blocks_fuel fuel 16 l) = Some (c', ws) ->
  Forall2 (fun p w => length w <= length p) (blocks_fuel fuel 16 l) ws.
Proof.
  induction fuel as [| fuel IH]; intros l c c' ws Hp Hrun.
  - simpl in Hrun. inversion Hrun; subst. constructor.
  - destruct l as [| x l].
    + simpl in Hrun. inversion Hrun; subst. constructor.
    + cbn [blocks_fuel] in *. cbn [run_updates] in Hrun.
      destruct (upd c (firstn 16 (x :: l))) as [[c1 w] |] eqn:Hu; [| discriminate].
      destruct (run_updates upd c1 _) as [[c2 ws'] |] eqn:Hr; [| discriminate].
      inversion Hrun; subst c2 ws.
      pose proof (upd_pending _ _ _ _ Hu) as Hbal. rewrite Hp in Hbal.
      constructor; [lia |].
      destruct (Nat.le_gt_cases 16 (length (x :: l))) as [Hle | Hlt].
      * apply (IH _ c1 c'); [| exact Hr].
        apply (upd_whole _ _ _ _ Hu Hp). rewrite length_firstn. lia.
      * rewrite skipn_all2 in Hr |- * by lia.
        destruct fuel; simpl in Hr |- *; inversion Hr; constructor.
Qed.

End Bounded.

(** *** [encFuncBlocks] *)

Lemma clog_updates_final (l : list (Call * bool)) (mk : bytes -> Call) pieces final :
  (l ++ map (fun p => (mk p, true)) pieces) ++ [(final, true)]
  = l ++ calls_ok (map mk pieces ++ [final]).
Proof.
  unfold calls_ok. rewrite map_app, map_map, <- app_assoc. reflexivity.
Qed.


Section BlockRuns.
Variable E : EVP.
Variable pending : EVP_CIPHER_CTX E -> nat.
Hypothesis Hb : buffering E pending.

(** The bytes of the final call land behind those of the updates, in
    either way of storing them. *)
Lemma final_after_updates out out1 ws (wf : bytes) total :
  contents out1 = overwrite 0 (concat ws) (contents out) ->
  length (concat ws) + length wf = total ->
  total = length (contents out) ->
  contents (write_chain (length (concat ws)) wf out1) = concat ws ++ wf.
Proof.
  intros Hcont Hsum Htotal.
  rewrite contents_write_chain, Hcont.
  change (length (concat ws)) with (0 + length (concat ws)) at 1.
  rewrite (overwrite_overwrite 0) by (simpl; lia).
  apply overwrite_all. rewrite length_app. lia.
Qed.

(** [encFuncBlocks] step by step: the chain [out1] the updates leave, the
    counters, the calls recorded, and where the final call stores. *)
Lemma encFuncBlocks_run inp out st c3 ws c4 wf :
  pending (cctx st) = 0 ->
  length (contents inp) = length (contents out) ->
  run_updates (fun c p => EVP_EncryptUpdate E c false p) (cctx st)
    (blocks 16 (contents inp)) = Some (c3, ws) ->
  EVP_EncryptFinal_ex E c3 = Some (c4, wf) ->
  exists out1 out' st',
    map shape (bufs out1) = map shape (bufs out) /\
    contents out1 = overwrite 0 (concat ws) (contents out) /\
    length (concat ws) + pending c3 = length (contents inp) /\
    encFuncBlocks inp out st = (Ok out', st') /\
    cctx st' = c4 /\
    clog st' = clog st ++
               calls_ok (map (Call_EncryptUpdate false) (blocks 16 (contents inp))
                         ++ [Call_EncryptFinal_ex]) /\
    final_placed out1 (length (concat ws)) wf out' /\
    contents out' = concat ws ++ wf /\
    map shape (bufs out') = map shape (bufs out).
Proof.
  intros Hp0 Hlen Hr Hfin.
  pose proof (blocks_concat 16 (contents inp) ltac:(lia)) as Hc.
  destruct (feed_blocks_forward E
              (fun p c => EVP_EncryptUpdate E c false p)
              (fun p c => EVP_EncryptUpdate_outl_negative E c false p)
              (Call_EncryptUpdate false)
              "Encryption error: too much plain text" "Encryption error"
              (fun '(totalWritten, totalInput) plain =>
                 if exceeds_int (length plain)
                 then throw "Encryption error: too much plain text"%string
                 else
                   negative <- outLen_negative false plain ;;
                   r <- lib_EncryptUpdate false plain ;;
                   match r with
                   | None => throw "Encryption error"%string
                   | Some w =>
                     if negative then throw "Encryption error"%string
                     else
                       ret ((totalWritten + length w, totalInput + length plain), w)
                   end)
              ltac:(intros tw ti p st0; cbv beta iota; destruct (exceeds_int (length p));
                    reflexivity)
              ltac:(intros p c; apply (buf_enc_outl Hb)) pending
              ltac:(intros p c c' w H; now apply (buf_enc_update Hb) in H)
              (blocks 16 (contents inp)) 0 0 out 0 st c3 ws
              (blocks_small 16 _) Hr ltac:(rewrite Hc; lia))
    as (out1 & st1 & Hrun & Hctx & Hcont & Hbal & Hsh & Hlog).
  pose proof (buf_enc_final Hb _ Hfin) as [Hwf Hwf16].
  rewrite Hc, Hp0 in Hbal. simpl in Hbal, Hrun. rewrite Hc in Hrun.
  assert (Hnb : size_t_sub (length (contents inp)) (length (concat ws))
                = Z.of_nat (length wf)).
  { rewrite size_t_sub_small by lia. f_equal. lia. }
  pose proof (final_after_updates out out1 ws wf _ Hcont
                ltac:(rewrite Hwf; exact Hbal) Hlen) as Hfinal.
  exists out1.
  destruct (Z.leb_spec (Z.of_nat (length wf))
              (Z.of_nat (cursor_length (bufs out1) (length (concat ws)))))
    as [Hdirect | Hpush].
  - exists (cursor_poke out1 (length (concat ws)) wf),
      (logged st1 c4 Call_EncryptFinal_ex true).
    split; [exact Hsh |]. split; [exact Hcont |]. split; [exact Hbal |].
    split.
    { unfold encFuncBlocks, transformBufferBlocks.
      erewrite bind_Ok by exact Hrun. cbv beta iota. rewrite Hnb.
      apply Z.leb_le in Hdirect. rewrite Hdirect.
      unfold lib_EncryptFinal_ex.
      erewrite bind_Ok by (apply lib_out_Some; rewrite Hctx; exact Hfin).
      reflexivity. }
    split; [reflexivity |].
    split; [rewrite logged_clog, Hlog; apply clog_updates_final |].
    split; [split; [reflexivity | lia] |].
    split; [| now rewrite cursor_poke_shape].
    rewrite contents_cursor_poke by lia.
    rewrite <- contents_write_chain. exact Hfinal.
  - exists (write_chain (length (concat ws)) wf out1),
      (logged st1 c4 Call_EncryptFinal_ex true).
    split; [exact Hsh |]. split; [exact Hcont |]. split; [exact Hbal |].
    split.
    { unfold encFuncBlocks, transformBufferBlocks.
      erewrite bind_Ok by exact Hrun. cbv beta iota. rewrite Hnb.
      apply Z.leb_gt in Hpush. rewrite Hpush.
      unfold lib_EncryptFinal_ex.
      erewrite bind_Ok by (apply lib_out_Some; rewrite Hctx; exact Hfin).
      cbv beta iota.
      destruct (Nat.ltb_spec 16 (length wf)); [lia |].
      unfold push. rewrite computeChainDataLength_contents, Hcont, overwrite_length.
      destruct (Nat.ltb_spec (length (contents out)) (length (concat ws) + length wf));
        [lia | reflexivity]. }
    split; [reflexivity |].
    split; [rewrite logged_clog, Hlog; apply clog_updates_final |].
    split; [split; [lia | reflexivity] |].
    split; [exact Hfinal | now rewrite write_chain_shape].
Qed.

Lemma encFuncBlocks_forward inp out st tagLen :
  pending (cctx st) = 0 ->
  length (contents inp) = length (contents out) ->
  (forall pieces, concat pieces = contents inp ->
                  seal_from E (cctx st) pieces tagLen <> None) ->
  exists pieces ws wf t c5 out' st',
    concat pieces = contents inp /\
    seal_from E (cctx st) pieces tagLen = Some (ws, wf, t) /\
    encFuncBlocks inp out st = (Ok out', st') /\
    EVP_CTRL_GCM_GET_TAG E (cctx st') tagLen = Some (c5, t) /\
    contents out' = concat ws ++ wf /\
    map shape (bufs out') = map shape (bufs out).
Proof.
  intros Hp0 Hlen Hseal.
  pose proof (blocks_concat 16 (contents inp) ltac:(lia)) as Hc.
  destruct (seal_from_inv E _ _ _ (Hseal _ Hc))
    as (c3 & ws & c4 & wf & c5 & t & Hr & Hfin & Htag & Hs).
  destruct (encFuncBlocks_run inp out st c3 ws c4 wf Hp0 Hlen Hr Hfin)
    as (out1 & out' & st' & _ & _ & _ & Hrun & Hctx & _ & _ & Hcont & Hsh).
  exists (blocks 16 (contents inp)), ws, wf, t, c5, out', st'.
  rewrite Hctx. repeat split; assumption.
Qed.

End BlockRuns.

(** *** [decFuncBlocks] *)

Lemma clog_tag_updates E (st : cstate E) c tag (mk : bytes -> Call) pieces b :
  (clog (logged st c (Call_SET_TAG tag) true)
   ++ map (fun p => (mk p, true)) pieces) ++ [(Call_DecryptFinal_ex, b)]
  = clog st ++ calls_ok (Call_SET_TAG tag :: map mk pieces)
    ++ [(Call_DecryptFinal_ex, b)].
Proof.
  rewrite logged_clog. unfold calls_ok. cbn [map]. rewrite map_map.
  rewrite <- !app_assoc. reflexivity.
Qed.

Section BlockRunsDec.
Variable E : EVP.
Variable pending : EVP_CIPHER_CTX E -> nat.
Hypothesis Hb : buffering E pending.

(** [decFuncBlocks] step by step: the tag is set first, then as in
    [encFuncBlocks]; a final call that does not return 1 gives [false] and
    the chain the updates left. *)
Lemma decFuncBlocks_run inp out tag st c0 c3 ws :
  pending (cctx st) = 0 ->
  length (contents inp) = length (contents out) ->
  EVP_CTRL_GCM_SET_TAG E (cctx st) tag = Some c0 ->
  run_updates (fun c p => EVP_DecryptUpdate E c false p) c0
    (blocks 16 (contents inp)) = Some (c3, ws) ->
  exists out1 b out' st',
    map shape (bufs out1) = map shape (bufs out) /\
    contents out1 = overwrite 0 (concat ws) (contents out) /\
    length (concat ws) + pending c3 = length (contents inp) /\
    decFuncBlocks inp out tag st = (Ok (b, out'), st') /\
    clog st' = clog st ++
               calls_ok (Call_SET_TAG tag ::
                         map (Call_DecryptUpdate false) (blocks 16 (contents inp)))
               ++ [(Call_DecryptFinal_ex, b)] /\
    match EVP_DecryptFinal_ex E c3 with
    | Some (c4, wf) =>
      b = true /\ final_placed out1 (length (concat ws)) wf out' /\
      contents out' = concat ws ++ wf
    | None => b = false /\ out' = out1
    end /\
    map shape (bufs out') = map shape (bufs out).
Proof.
  intros Hp0 Hlen Hset Hr.
  pose proof (blocks_concat 16 (contents inp) ltac:(lia)) as Hc.
  set (st0 := logged st c0 (Call_SET_TAG tag) true).
  destruct (feed_blocks_forward E
              (fun p c => EVP_DecryptUpdate E c false p) (fun _ _ => false)
              (Call_DecryptUpdate false)
              "Decryption error: too much cipher text" "Decryption error"
              (fun '(totalWritten, totalInput) cipher =>
                 if exceeds_int (length cipher)
                 then throw "Decryption error: too much cipher text"%string
                 else
                   r <- lib_DecryptUpdate false cipher ;;
                   match r with
                   | None => throw "Decryption error"%string
                   | Some w =>
                     ret ((totalWritten + length w, totalInput + length cipher), w)
                   end)
              ltac:(intros tw ti p st1; cbv beta iota; destruct (exceeds_int (length p));
                    reflexivity)
              ltac:(reflexivity) pending
              ltac:(intros p c c' w H; now apply (buf_dec_update Hb) in H)
              (blocks 16 (contents inp)) 0 0 out 0 st0 c3 ws
              (blocks_small 16 _) Hr
              ltac:(simpl cctx; rewrite (buf_set_tag Hb _ _ Hset), Hc; lia))
    as (out1 & st1 & Hrun & Hctx & Hcont & Hbal & Hsh & Hlog).
  simpl cctx in Hbal. rewrite (buf_set_tag Hb _ _ Hset), Hc, Hp0 in Hbal.
  simpl in Hbal, Hrun. rewrite Hc in Hrun.
  assert (Hstart : decFuncBlocks inp out tag st
                   = (let numBuffered :=
                        size_t_sub (length (contents inp)) (length (concat ws)) in
                      let numLeftInOutput :=
                        cursor_length (bufs out1) (length (concat ws)) in
                      if (numBuffered <=? Z.of_nat numLeftInOutput)%Z then
                        r <- @lib_DecryptFinal_ex E ;;
                        match r with
                        | None => ret (false, out1)
                        | Some w =>
                          ret (true, cursor_poke out1 (length (concat ws)) w)
                        end
                      else
                        r <- @lib_DecryptFinal_ex E ;;
                        match r with
                        | None => ret (false, out1)
                        | Some w =>
                          if 16 <? length w then undefined
                          else out' <- push out1 (length (concat ws)) w ;;
                               ret (true, out')
                        end) st1).
  { unfold decFuncBlocks, transformBufferBlocks, lib_SET_TAG.
    erewrite bind_Ok by (apply lib_ctl_Some; exact Hset).
    cbv beta iota. change (negb true) with false. cbv iota. fold st0.
    erewrite bind_Ok by exact Hrun. reflexivity. }
  rewrite Hstart. cbv zeta. clear Hstart.
  exists out1.
  destruct (EVP_DecryptFinal_ex E c3) as [[c4 wf] |] eqn:Hfin.
  - pose proof (buf_dec_final Hb _ Hfin) as [Hwf Hwf16].
    assert (Hnb : size_t_sub (length (contents inp)) (length (concat ws))
                  = Z.of_nat (length wf)).
    { rewrite size_t_sub_small by lia. f_equal. lia. }
    pose proof (final_after_updates out out1 ws wf _ Hcont
                  ltac:(rewrite Hwf; exact Hbal) Hlen) as Hfinal.
    rewrite Hnb.
    destruct (Z.leb_spec (Z.of_nat (length wf))
                (Z.of_nat (cursor_length (bufs out1) (length (concat ws)))))
      as [Hdirect | Hpush].
    + exists true, (cursor_poke out1 (length (concat ws)) wf),
        (logged st1 c4 Call_DecryptFinal_ex true).
      split; [exact Hsh |]. split; [exact Hcont |]. split; [exact Hbal |].
      split.
      { unfold lib_DecryptFinal_ex.
        erewrite bind_Ok by (apply lib_out_Some; rewrite Hctx; exact Hfin).
        reflexivity. }
      split; [rewrite logged_clog, Hlog; apply clog_tag_updates |].
      split; [| now rewrite cursor_poke_shape].
      split; [reflexivity |].
      split; [split; [reflexivity | lia] |].
      rewrite contents_cursor_poke by lia.
      rewrite <- contents_write_chain. exact Hfinal.
    + exists true, (write_chain (length (concat ws)) wf out1),
        (logged st1 c4 Call_DecryptFinal_ex true).
      split; [exact Hsh |]. split; [exact Hcont |]. split; [exact Hbal |].
      split.
      { unfold lib_DecryptFinal_ex.
        erewrite bind_Ok by (apply lib_out_Some; rewrite Hctx; exact Hfin).
        cbv beta iota.
        destruct (Nat.ltb_spec 16 (length wf)); [lia |].
        unfold push. rewrite computeChainDataLength_contents, Hcont, overwrite_length.
        destruct (Nat.ltb_spec (length (contents out))
                    (length (concat ws) + length wf)); [lia | reflexivity]. }
      split; [rewrite logged_clog, Hlog; apply clog_tag_updates |].
      split; [| now rewrite write_chain_shape].
      split; [reflexivity |].
      split; [split; [lia | reflexivity] | exact Hfinal].
  - exists false, out1, (logged st1 c3 Call_DecryptFinal_ex false).
    split; [exact Hsh |]. split; [exact Hcont |]. split; [exact Hbal |].
    split.
    { unfold lib_DecryptFinal_ex.
      destruct (_ <=? _)%Z;
        (erewrite bind_Ok by (apply lib_out_None; rewrite Hctx; exact Hfin));
        now rewrite Hctx. }
    split; [rewrite logged_clog, Hlog; apply clog_tag_updates |].
    split; [now split | exact Hsh].
Qed.

Lemma decFuncBlocks_forward inp out tag st :
  pending (cctx st) = 0 ->
  length (contents inp) = length (contents out) ->
  (forall pieces, concat pieces = contents inp ->
                  open_from E true (cctx st) pieces tag <> None) ->
  exists pieces ws r b out' st',
    concat pieces = contents inp /\
    open_from E true (cctx st) pieces tag = Some (ws, r) /\
    decFuncBlocks inp out tag st = (Ok (b, out'), st') /\
    dec_answer ws r b out' /\
    map shape (bufs out') = map shape (bufs out).
Proof.
  intros Hp0 Hlen Hopen.
  pose proof (blocks_concat 16 (contents inp) ltac:(lia)) as Hc.
  pose proof (Hopen _ Hc) as Ho. unfold open_from in Ho |- *.
  destruct (EVP_CTRL_GCM_SET_TAG E (cctx st) tag) as [c0 |] eqn:Hset;
    [| now contradiction Ho].
  destruct (run_updates (fun c p => EVP_DecryptUpdate E c false p) c0
              (blocks 16 (contents inp))) as [[c3 ws] |] eqn:Hr;
    [| now contradiction Ho].
  destruct (decFuncBlocks_run inp out tag st c0 c3 ws Hp0 Hlen Hset Hr)
    as (out1 & b & out' & st' & _ & _ & _ & Hrun & _ & Hfin & Hsh).
  exists (blocks 16 (contents inp)), ws.
  rewrite Hr.
  destruct (EVP_DecryptFinal_ex E c3) as [[c4 wf] |].
  - destruct Hfin as (-> & _ & Hcont).
    exists (Some wf), true, out', st'. repeat split; assumption.
  - destruct Hfin as (-> & ->).
    exists None, false, out1, st'. repeat split; assumption.
Qed.

End BlockRunsDec.

(** *** [evpEncrypt] and [evpDecrypt] on a library that goes through *)

Lemma run_aad_keeps {C} (f : C -> bytes -> option (C * bytes)) (P : C -> Prop) ads :
  (forall c a c' w, f c a = Some (c', w) -> P c -> P c') ->
  forall c c', run_aad f c ads = Some c' -> P c -> P c'.
Proof.
  intros Hstep. induction ads as [| a rest IH]; intros c c' H Hc; simpl in H.
  - now inversion H; subst.
  - destruct (f c a) as [[c1 w] |] eqn:Hf; [| discriminate].
    eapply IH; [exact H |]. eapply Hstep; eassumption.
Qed.

Lemma length_encrypt_output p tagLen headroom :
  length (contents p) = length (contents (encrypt_output p tagLen headroom)).
Proof.
  rewrite <- !computeChainDataLength_contents.
  symmetry. apply encrypt_output_length.
Qed.

Section Kernels.
Variable E : EVP.
Variable pending : EVP_CIPHER_CTX E -> nat.
Hypothesis Hb : buffering E pending.

(** [evpEncrypt] on a library that goes through: the chain it returns
    holds what the updates and the final stored, then the tag. *)
Lemma evpEncrypt_forward p ad iv tagLen (blk : bool) headroom (st : cstate E) :
  (blk = false -> forall c, pending c = 0) ->
  (blk = false -> (Z.of_nat (length (contents p)) <= Z.of_N INT_MAX)%Z) ->
  ~ oversize (ad_bufs ad) ->
  (forall pieces, concat pieces = contents p ->
     seal E (cctx st) iv (ad_pieces ad) pieces tagLen <> None) ->
  exists pieces ws wf t c st',
    concat pieces = contents p /\
    seal E (cctx st) iv (ad_pieces ad) pieces tagLen = Some (ws, wf, t) /\
    evpEncrypt E p ad iv tagLen blk headroom st = (Ok c, st') /\
    contents c = (concat ws ++ wf) ++ t /\
    length (concat ws ++ wf) = length (contents p) /\
    length t = tagLen.
Proof.
  intros Hz Hmax Hsize Hseal.
  pose proof (Hseal [contents p] (app_nil_r _)) as Hone. unfold seal in Hone.
  destruct (EVP_EncryptInit_ex E (cctx st) iv) as [c1 |] eqn:Hinit;
    [| now contradiction Hone].
  destruct (run_aad (fun c a => EVP_EncryptUpdate E c true a) c1 (ad_pieces ad))
    as [c2 |] eqn:Had; [| now contradiction Hone].
  clear Hone.
  assert (Hseal' : forall pieces, concat pieces = contents p ->
                     seal_from E c2 pieces tagLen <> None).
  { intros ps Hps. specialize (Hseal ps Hps). unfold seal in Hseal.
    now rewrite Hinit, Had in Hseal. }
  assert (Hp2 : pending c2 = 0).
  { apply (run_aad_keeps _ (fun c => pending c = 0) _
             ltac:(intros c a c' w Hf Hc; rewrite <- Hc;
                   eapply (buf_enc_aad Hb); exact Hf) _ _ Had).
    eapply (buf_enc_init Hb); exact Hinit. }
  set (st0 := logged st c1 (Call_EncryptInit_ex iv) true).
  destruct (feed_optional_associatedData_forward E
              (fun c a => EVP_EncryptUpdate E c true a) (Call_EncryptUpdate true)
              "Encryption error" ad st0 c2 Hsize Had) as (st1 & Hfeed & Hctx1).
  assert (Hstage : exists pieces ws wf t c5 out' st2,
            concat pieces = contents p /\
            seal_from E (cctx st1) pieces tagLen = Some (ws, wf, t) /\
            (if blk then encFuncBlocks p (encrypt_output p tagLen headroom)
             else encFunc p (encrypt_output p tagLen headroom)) st1
            = (Ok out', st2) /\
            EVP_CTRL_GCM_GET_TAG E (cctx st2) tagLen = Some (c5, t) /\
            contents out' = concat ws ++ wf /\
            map shape (bufs out')
            = map shape (bufs (encrypt_output p tagLen headroom))).
  { destruct blk.
    - apply (encFuncBlocks_forward E pending Hb).
      + now rewrite Hctx1.
      + apply length_encrypt_output.
      + now rewrite Hctx1.
    - apply (encFunc_forward E pending Hb).
      + now apply Hz.
      + now apply Hmax.
      + apply length_encrypt_output.
      + now rewrite Hctx1. }
  destruct Hstage as (ps & ws & wf & t & c5 & out' & st2 & Hps & Hsf & Hrun
                      & Htag & Hcont & Hshape).
  exists ps, ws, wf, t, (tagged out' tagLen t),
    (logged st2 c5 (Call_GET_TAG tagLen) true).
  split; [exact Hps |].
  split. { unfold seal. rewrite Hinit, Had, <- Hctx1. exact Hsf. }
  split.
  - unfold evpEncrypt, lib_EncryptInit_ex.
    erewrite bind_Ok by (apply lib_ctl_Some; exact Hinit).
    cbv beta iota. change (negb true) with false. cbv iota. fold st0.
    erewrite bind_Ok by exact Hfeed. cbv beta iota.
    erewrite bind_Ok by exact Hrun. cbv beta iota zeta.
    unfold tagged, lib_GET_TAG.
    destruct (tailroom (prev out') <? tagLen);
      (erewrite bind_Ok by (apply lib_out_Some; exact Htag)); reflexivity.
  - assert (Ht : length t = tagLen) by exact (buf_get_tag Hb _ _ Htag).
    split; [| split; [| exact Ht]].
    + rewrite tagged_contents, Hcont. f_equal.
      apply overwrite_all. unfold uninitialized. now rewrite repeat_length.
    + rewrite <- Hcont, <- !computeChainDataLength_contents.
      rewrite (proj1 (shapes_eq_length _ _ Hshape)).
      apply encrypt_output_length.
Qed.

End Kernels.

Section KernelsDec.
Variable E : EVP.
Variable pending : EVP_CIPHER_CTX E -> nat.
Hypothesis Hb : buffering E pending.

(** [evpDecrypt] of a chain without shared elements that holds [ct] and
    then the tag [t]: the answer is that of the library on [ct] and [t]. *)
Lemma evpDecrypt_forward K c ad iv tagLen (blk : bool) (st : cstate E) ct t :
  (blk = false -> forall c, pending c = 0) ->
  (blk = false -> (Z.of_nat (length ct) <= Z.of_N INT_MAX)%Z) ->
  ~ oversize (ad_bufs ad) ->
  numShared c = 0 ->
  contents c = ct ++ t -> length t = tagLen ->
  (forall pieces, concat pieces = ct ->
     open E blk (cctx st) iv (ad_pieces ad) pieces t <> None) ->
  exists pieces ws r res st',
    concat pieces = ct /\
    open E blk (cctx st) iv (ad_pieces ad) pieces t = Some (ws, r) /\
    evpDecrypt E K c ad iv tagLen blk st = (Ok res, st') /\
    match r with
    | Some wf => exists q, res = Some q /\ contents q = concat ws ++ wf
    | None => res = None
    end.
Proof.
  intros Hz Hmax Hsize Hshared Hparts Htag Hopen.
  pose proof (Hopen [ct] (app_nil_r _)) as Hone. unfold open in Hone.
  destruct (EVP_DecryptInit_ex E (cctx st) iv) as [c1 |] eqn:Hinit;
    [| now contradiction Hone].
  destruct (run_aad (fun c a => EVP_DecryptUpdate E c true a) c1 (ad_pieces ad))
    as [c2 |] eqn:Had; [| now contradiction Hone].
  clear Hone.
  assert (Hopen' : forall pieces, concat pieces = ct ->
                     open_from E blk c2 pieces t <> None).
  { intros ps Hps. specialize (Hopen ps Hps). unfold open in Hopen.
    now rewrite Hinit, Had in Hopen. }
  assert (Hp2 : pending c2 = 0).
  { apply (run_aad_keeps _ (fun c => pending c = 0) _
             ltac:(intros c0 a c' w Hf Hc; rewrite <- Hc;
                   eapply (buf_dec_aad Hb); exact Hf) _ _ Had).
    eapply (buf_dec_init Hb); exact Hinit. }
  destruct (trimBytes c tagLen) as [c' t'] eqn:Htrim.
  destruct (trimBytes_spec _ _ _ _ Htrim) as (Hflags & _ & Hsplit & Hlt).
  assert (Hlen : length (contents c) = length ct + tagLen).
  { rewrite Hparts, length_app. lia. }
  rewrite Nat.min_l in Hlt by lia.
  rewrite Hparts in Hsplit.
  destruct (app_inj_length _ _ _ _ Hsplit ltac:(lia)) as [Hct Ht]. subst t'.
  set (st0 := logged st c1 (Call_DecryptInit_ex iv) true).
  destruct (feed_optional_associatedData_forward E
              (fun c a => EVP_DecryptUpdate E c true a) (Call_DecryptUpdate true)
              "Decryption error" ad st0 c2 Hsize Had) as (st1 & Hfeed & Hctx1).
  assert (Hstage : exists pieces ws r b out' st2,
            concat pieces = contents c' /\
            open_from E blk (cctx st1) pieces t = Some (ws, r) /\
            (if blk then decFuncBlocks c' c' t else decFunc c' c' t) st1
            = (Ok (b, out'), st2) /\
            dec_answer ws r b out' /\
            map shape (bufs out') = map shape (bufs c')).
  { destruct blk.
    - apply (decFuncBlocks_forward E pending Hb).
      + now rewrite Hctx1.
      + reflexivity.
      + rewrite Hctx1, Hct. exact Hopen'.
    - apply (decFunc_forward E pending Hb).
      + now apply Hz.
      + rewrite Hct. now apply Hmax.
      + reflexivity.
      + rewrite Hctx1, Hct. exact Hopen'. }
  destruct Hstage as (ps & ws & r & b & out' & st2 & Hps & Hof & Hrun & Hans & _).
  exists ps, ws, r, (if negb b then None else Some out'), st2.
  split; [now rewrite Hps |].
  split. { unfold open. rewrite Hinit, Had, <- Hctx1. exact Hof. }
  split.
  - unfold evpDecrypt. rewrite computeChainDataLength_contents, Hlen.
    destruct (Nat.ltb_spec (length ct + tagLen) tagLen) as [Hlt' | _]; [lia |].
    rewrite Htrim.
    rewrite fixupSharedBuffer_unshared
      by (rewrite (numShared_flags _ _ Hflags); exact Hshared).
    unfold lift at 1. unfold bind at 1. unfold lib_DecryptInit_ex.
    erewrite bind_Ok by (apply lib_ctl_Some; exact Hinit).
    cbv beta iota. change (negb true) with false. cbv iota. fold st0.
    erewrite bind_Ok by exact Hfeed. cbv beta iota.
    erewrite bind_Ok by exact Hrun. cbv beta iota.
    now destruct b.
  - unfold dec_answer in Hans. destruct r as [wf |].
    + destruct Hans as [-> Hcont]. now exists out'.
    + now subst b.
Qed.

End KernelsDec.

(** *** What a pass that returned tells about the sizes *)

Section StreamCount.
Variable E : EVP.
Variable func : Z -> bytes -> M E (Z * bytes).
Hypothesis func_counts : forall s p (st : cstate E) s' w st',
  func s p st = (Ok (s', w), st') ->
  s' = (s + Z.of_nat (length p))%Z /\ (s' <= Z.of_N INT_MAX)%Z.

Lemma transformBuffer_inner_counts out : forall s current done offset st s' x st',
  transformBuffer_inner func s current done out offset st = (Ok (s', x), st') ->
  counted s (length current) s'.
Proof.
  induction out as [| cur todo IH]; intros s current done offset st s' x st' H.
  - destruct current; simpl in H; inversion H; subst.
    split; [simpl; lia | auto].
  - destruct (list_eq_dec Byte.byte_eq_dec current []) as [-> | Hne].
    { rewrite transformBuffer_inner_nil in H. inversion H; subst.
      split; [simpl; lia | auto]. }
    rewrite transformBuffer_inner_cons in H by assumption.
    destruct (length current <? length (data cur) - offset).
    + apply bind_inv_Ok in H. destruct H as ([s1 w] & st1 & H1 & H2).
      inversion H2; subst. apply func_counts in H1. destruct H1 as [-> Hle].
      split; [reflexivity | auto].
    + apply bind_inv_Ok in H. destruct H as ([s1 w] & st1 & H1 & H2).
      apply func_counts in H1. destruct H1 as [-> Hle].
      apply IH in H2. destruct H2 as [-> Hle'].
      split; [| auto].
      rewrite <- (firstn_skipn (length (data cur) - offset) current) at 3.
      rewrite length_app. lia.
Qed.

Lemma transformBuffer_outer_counts ins : forall s done out offset st s' x st',
  transformBuffer_outer func s ins done out offset st = (Ok (s', x), st') ->
  counted s (length (chain_bytes ins)) s'.
Proof.
  induction ins as [| b rest IH]; intros s done out offset st s' x st' H.
  - simpl in H. inversion H; subst. split; [simpl; lia | auto].
  - simpl in H. apply bind_inv_Ok in H.
    destruct H as ([s1 [[d o] off]] & st1 & H1 & H2).
    apply transformBuffer_inner_counts in H1. destruct H1 as [-> Hle].
    apply IH in H2. destruct H2 as [-> Hle'].
    split; [| auto]. rewrite chain_bytes_cons, length_app. lia.
Qed.

Lemma transformBuffer_counts inp out s st s' out' st' :
  transformBuffer func inp out s st = (Ok (s', out'), st') ->
  counted s (length (contents inp)) s'.
Proof.
  unfold transformBuffer. intros H. apply bind_inv_Ok in H.
  destruct H as ([s1 [[d o] off]] & st1 & H1 & H2).
  apply transformBuffer_outer_counts in H1.
  destruct (d ++ o); [discriminate |]. inversion H2; subst. exact H1.
Qed.

End StreamCount.

Lemma int_add_Ok E s n (st : cstate E) s' st' :
  int_add s n st = (Ok s', st') ->
  s' = (s + Z.of_nat n)%Z /\ (s' <= Z.of_N INT_MAX)%Z.
Proof.
  unfold int_add. destruct (Z.ltb_spec (Z.of_N INT_MAX) (s + Z.of_nat n)) as [Hlt | Hge];
    intros H; inversion H; subst. split; [reflexivity | lia].
Qed.

Lemma stream_lambda_counts E (f : bytes -> EVP_CIPHER_CTX E -> option (EVP_CIPHER_CTX E * bytes))
    (mk : bytes -> Call) (w1 w2 : string) :
  (forall p c c' w, f p c = Some (c', w) -> length w = length p) ->
  forall s p (st : cstate E) s' w st',
    (if exceeds_int (length p) then throw w1
     else r <- lib_out (f p) (mk p) ;;
          match r with
          | None => throw w2
          | Some w => n <- int_add s (length w) ;; ret (n, w)
          end) st = (Ok (s', w), st') ->
    s' = (s + Z.of_nat (length p))%Z /\ (s' <= Z.of_N INT_MAX)%Z.
Proof.
  intros Hf s p st s' w st' H.
  destruct (exceeds_int (length p)); [discriminate |].
  apply bind_inv_Ok in H. destruct H as (r & st1 & H1 & H2).
  apply lib_out_inv in H1.
  destruct H1 as [(c & w0 & Hc & Hr & ->) | (_ & Hr & _)];
    inversion Hr; subst r; [| discriminate].
  apply bind_inv_Ok in H2. destruct H2 as (n & st2 & H2 & H3).
  inversion H3; subst. apply int_add_Ok in H2.
  now rewrite (Hf _ _ _ _ Hc) in H2.
Qed.

Lemma feed_associatedData_Ok E (update : bytes -> M E (option bytes)) what ad :
  forall (st : cstate E) u st',
    feed_associatedData update what ad st = (Ok u, st') -> ~ oversize ad.
Proof.
  induction ad as [| b rest IH]; intros st u st' H (b' & Hin & He).
  - destruct Hin.
  - cbn [feed_associatedData] in H.
    destruct (exceeds_int (length (data b))) eqn:Hb; [discriminate |].
    apply bind_inv_Ok in H. destruct H as (r & st1 & _ & H).
    destruct r as [w |]; [| discriminate].
    destruct Hin as [<- | Hin]; [congruence |].
    apply (IH _ _ _ H). now exists b'.
Qed.

Lemma feed_optional_associatedData_Ok E (update : bytes -> M E (option bytes))
    what ad (st : cstate E) u st' :
  feed_optional_associatedData update what ad st = (Ok u, st') ->
  ~ oversize (ad_bufs ad).
Proof.
  destruct ad as [a |].
  - apply feed_associatedData_Ok.
  - intros _ (b & [] & _).
Qed.

Section Returned.
Variable E : EVP.
Variable pending : EVP_CIPHER_CTX E -> nat.
Hypothesis Hb : buffering E pending.

Lemma encFunc_Ok_size inp out (st : cstate E) out' st' :
  (forall c, pending c = 0) ->
  encFunc inp out st = (Ok out', st') ->
  (Z.of_nat (length (contents inp)) <= Z.of_N INT_MAX)%Z.
Proof.
  intros Hz H. unfold encFunc in H.
  apply bind_inv_Ok in H. destruct H as ([n o] & st1 & H & _).
  apply (transformBuffer_counts E _
           (stream_lambda_counts E (fun p c => EVP_EncryptUpdate E c false p)
              (Call_EncryptUpdate false) _ _
              ltac:(intros p c c' w Hu; apply (buf_enc_update Hb) in Hu;
                    rewrite !Hz in Hu; lia))) in H.
  destruct H as [-> Hle]. specialize (Hle ltac:(vm_compute; discriminate)). lia.
Qed.

(** A call of [evpEncrypt] that returned was within the sizes an [int]
    can tell. *)
Lemma evpEncrypt_Ok_sizes p ad iv tagLen (blk : bool) headroom (st : cstate E) c st' :
  (blk = false -> forall c, pending c = 0) ->
  evpEncrypt E p ad iv tagLen blk headroom st = (Ok c, st') ->
  ~ oversize (ad_bufs ad) /\
  (blk = false -> (Z.of_nat (length (contents p)) <= Z.of_N INT_MAX)%Z).
Proof.
  intros Hz H. apply evpEncrypt_inv_Ok in H.
  destruct H as (ci & st1 & st2 & out & c0 & t & _ & Had & Henc & _).
  split.
  - eapply feed_optional_associatedData_Ok; exact Had.
  - intros ->. eapply encFunc_Ok_size; [now apply Hz | exact Henc].
Qed.

End Returned.

(** *** One byte changed *)

Lemma repeat_inj {A} (x y : A) n : 0 < n -> repeat x n = repeat y n -> x = y.
Proof. destruct n; [lia |]. simpl. intros _ H. now inversion H. Qed.

Lemma one_byte_differs_length l l' :
  one_byte_differs l l' -> length l = length l'.
Proof.
  intros (a & x & y & b & -> & -> & _). now rewrite !length_app.
Qed.

(** A change of one byte in [l1 ++ t1] is in [l1] or in [t1]. *)
Lemma one_byte_differs_app (a : bytes) : forall l1 l2 t1 t2 x y b,
  l1 ++ t1 = a ++ x :: b -> l2 ++ t2 = a ++ y :: b ->
  length t1 = length t2 ->
  (exists a' b', l1 = a' ++ x :: b' /\ l2 = a' ++ y :: b' /\ t1 = t2) \/
  (l1 = l2 /\ exists a', t1 = a' ++ x :: b /\ t2 = a' ++ y :: b).
Proof.
  induction a as [| h a IH]; intros l1 l2 t1 t2 x y b H1 H2 Hl.
  - simpl in H1, H2.
    assert (Hlen : length l1 = length l2).
    { apply (f_equal (@length _)) in H1, H2.
      rewrite length_app in H1, H2. simpl in H1, H2. lia. }
    destruct l1 as [| h1 l1], l2 as [| h2 l2]; try discriminate.
    + right. split; [reflexivity |]. exists []. now split.
    + left. simpl in H1, H2. inversion H1; inversion H2; subst.
      destruct (app_inj_length _ _ _ _ H5 (eq_sym Hl)) as [-> ->].
      exists [], l1. now repeat split.
  - simpl in H1, H2.
    assert (Hlen : length l1 = length l2).
    { apply (f_equal (@length _)) in H1, H2.
      rewrite length_app in H1, H2. simpl in H1, H2. rewrite !length_app in *.
      simpl in *. lia. }
    destruct l1 as [| h1 l1], l2 as [| h2 l2]; try discriminate.
    + right. split; [reflexivity |]. exists (h :: a). now split.
    + simpl in H1, H2. inversion H1; inversion H2; subst.
      destruct (IH _ _ _ _ _ _ _ H3 H5 Hl)
        as [(a' & b' & -> & -> & ->) | (-> & a' & -> & ->)].
      * left. exists (h :: a'), b'. now repeat split.
      * right. split; [reflexivity |]. now exists a'.
Qed.

(** ** The ciphers of [Toy] keep the library's side *)
Module ToyFacts.
Import Toy.

Lemma bxor_bxor k x : bxor k (bxor k x) = x.
Proof.
  unfold bxor.
  destruct (Byte.to_bits k) as (k0 & k1 & k2 & k3 & k4 & k5 & k6 & k7).
  destruct (Byte.to_bits x) as (x0 & x1 & x2 & x3 & x4 & x5 & x6 & x7) eqn:Hx.
  rewrite Byte.to_bits_of_bits.
  rewrite <- (Byte.of_bits_to_bits x), Hx.
  rewrite <- !xorb_assoc, !xorb_nilpotent, !xorb_false_l. reflexivity.
Qed.

Lemma bxor_comm a b : bxor a b = bxor b a.
Proof.
  unfold bxor.
  destruct (Byte.to_bits a) as (a0 & a1 & a2 & a3 & a4 & a5 & a6 & a7).
  destruct (Byte.to_bits b) as (b0 & b1 & b2 & b3 & b4 & b5 & b6 & b7).
  now rewrite (xorb_comm a0 b0), (xorb_comm a1 b1), (xorb_comm a2 b2),
    (xorb_comm a3 b3), (xorb_comm a4 b4), (xorb_comm a5 b5),
    (xorb_comm a6 b6), (xorb_comm a7 b7).
Qed.

Lemma bxor_inj_l h u v : bxor h u = bxor h v -> u = v.
Proof.
  intros H. rewrite <- (bxor_bxor h u), <- (bxor_bxor h v). now rewrite H.
Qed.

Lemma bxor_inj_r s x y : bxor x s = bxor y s -> x = y.
Proof. rewrite !(bxor_comm _ s). apply bxor_inj_l. Qed.

Lemma map_bxor_bxor k l : map (bxor k) (map (bxor k) l) = l.
Proof.
  induction l as [| x l IH]; simpl; [reflexivity |].
  now rewrite bxor_bxor, IH.
Qed.

Lemma xsum_one_byte a x y b : x <> y -> xsum (a ++ x :: b) <> xsum (a ++ y :: b).
Proof.
  intros Hxy. unfold xsum. induction a as [| h a IH]; simpl; intros H.
  - now apply bxor_inj_r in H.
  - now apply bxor_inj_l in H.
Qed.


(** *** The stream cipher *)

Lemma stream_buffering : buffering stream (fun _ => 0).
Proof.
  split; simpl; try reflexivity.
  - intros c p c' w H. unfold supdate in H. inversion H; subst.
    rewrite length_map. lia.
  - intros c c' w H. unfold sfinal_enc in H. inversion H; subst. simpl. lia.
  - intros c n c' t H. unfold sget_tag in H. inversion H; subst.
    apply repeat_length.
  - intros c p c' w H. unfold supdate in H. inversion H; subst.
    rewrite length_map. lia.
  - intros c c' w H. unfold sfinal_dec in H.
    destruct (sexpect c) as [tag |]; [| discriminate].
    destruct (list_eq_dec _ _ _); [| discriminate].
    inversion H; subst. simpl. lia.
Qed.

Lemma stream_run_aad d ads : forall c,
  run_aad (fun c a => supdate d c true a) c ads
  = Some (mkSctx (skey c) (sseen c ++ concat ads) (sexpect c)).
Proof.
  induction ads as [| a rest IH]; intros c; simpl.
  - rewrite app_nil_r. now destruct c.
  - rewrite IH. simpl. now rewrite <- app_assoc.
Qed.

Lemma stream_run_updates d pieces : forall c,
  run_updates (fun c p => supdate d c false p) c pieces
  = Some (mkSctx (skey c)
            (sseen c ++ (if d then concat pieces
                         else map (bxor (skey c)) (concat pieces)))
            (sexpect c),
          map (map (bxor (skey c))) pieces).
Proof.
  induction pieces as [| p rest IH]; intros c; simpl.
  - destruct d; simpl; rewrite app_nil_r; now destruct c.
  - rewrite IH. simpl. destruct d; simpl.
    + now rewrite <- app_assoc.
    + now rewrite map_app, <- app_assoc.
Qed.

Lemma stream_seal k s e iv ads pieces tagLen :
  seal stream (mkSctx k s e) iv ads pieces tagLen
  = Some (map (map (bxor k)) pieces, [],
          repeat (xsum ((iv ++ concat ads) ++ map (bxor k) (concat pieces)))
                 tagLen).
Proof.
  unfold seal, seal_from.
  change (EVP_EncryptInit_ex stream) with sinit.
  change (EVP_EncryptUpdate stream) with (supdate false).
  unfold sinit. rewrite stream_run_aad. cbn [skey sseen sexpect].
  rewrite stream_run_updates. reflexivity.
Qed.

Lemma stream_open tag_first k s e iv ads pieces tag :
  open stream tag_first (mkSctx k s e) iv ads pieces tag
  = Some (map (map (bxor k)) pieces,
          if list_eq_dec Byte.byte_eq_dec tag
               (repeat (xsum ((iv ++ concat ads) ++ concat pieces)) (length tag))
          then Some [] else None).
Proof.
  unfold open, open_from.
  change (EVP_DecryptInit_ex stream) with sinit.
  change (EVP_DecryptUpdate stream) with (supdate true).
  change (EVP_CTRL_GCM_SET_TAG stream) with sset_tag.
  change (EVP_DecryptFinal_ex stream) with sfinal_dec.
  unfold sinit. rewrite stream_run_aad. cbn [skey sseen sexpect].
  destruct tag_first; unfold sset_tag; cbn [skey sseen sexpect];
    rewrite stream_run_updates; cbn [skey sseen sexpect]; unfold sfinal_dec;
    cbn [skey sseen sexpect];
    now destruct (list_eq_dec _ _ _).
Qed.

Lemma concat_map_map {A B} (f : A -> B) (ls : list (list A)) :
  concat (map (map f) ls) = map f (concat ls).
Proof. now rewrite concat_map. Qed.

Lemma stream_aead k s e s' e' tagLen tag_first :
  0 < tagLen ->
  aead stream (mkSctx k s e) (mkSctx k s' e') tagLen tag_first.
Proof.
  intros Hpos. split.
  - intros iv ads pieces. now rewrite stream_seal.
  - intros iv ads pieces ws wf t pieces' Hseal Hcut.
    rewrite stream_seal in Hseal. inversion Hseal; subst ws wf t; clear Hseal.
    rewrite app_nil_r, concat_map_map in Hcut.
    rewrite stream_open, repeat_length, Hcut.
    destruct (list_eq_dec _ _ _) as [_ | Hne]; [| now contradiction Hne].
    exists (map (map (bxor k)) pieces'), []. split; [reflexivity |].
    now rewrite app_nil_r, concat_map_map, Hcut, map_bxor_bxor.
  - intros iv ads pieces ws wf t pieces' t' Hseal Hlen Hdiff.
    rewrite stream_seal in Hseal. inversion Hseal; subst ws wf t; clear Hseal.
    rewrite repeat_length in Hlen.
    rewrite app_nil_r, concat_map_map in Hdiff.
    rewrite stream_open, Hlen.
    exists (map (map (bxor k)) pieces').
    destruct (list_eq_dec _ _ _) as [Heq |]; [exfalso | reflexivity].
    destruct Hdiff as (a & x & y & b & H1 & H2 & Hxy).
    destruct (one_byte_differs_app a _ _ _ _ x y b H1 H2
                ltac:(rewrite repeat_length; lia))
      as [(a' & b' & Hc & Hc' & Ht) | (Hc & a' & Ht & Ht')].
    + rewrite Heq in Ht. apply (repeat_inj _ _ _ Hpos) in Ht.
      rewrite Hc, Hc', !app_assoc in Ht.
      revert Ht. apply not_eq_sym. apply not_eq_sym. now apply xsum_one_byte.
    + rewrite Heq, <- Hc in Ht'. rewrite Ht in Ht'.
      apply app_inv_head in Ht'. inversion Ht'. now apply Hxy.
Qed.

(** *** The cipher with 16-byte blocks *)

Lemma update_lengths d c p c' w :
  update d c false p = Some (c', w) ->
  length w + length (tpending c') = length (tpending c) + length p.
Proof.
  unfold update. intros H. inversion H; subst; clear H. cbn [tpending].
  rewrite length_map, length_firstn, length_skipn.
  assert (Hr : ready c p <= length (tpending c ++ p)).
  { unfold ready. destruct (tblock c) as [| b]; [simpl; lia |].
    rewrite Nat.mul_comm. apply Nat.Div0.mul_div_le. }
  rewrite length_app in *. lia.
Qed.

Lemma block16_buffering : buffering block16 (fun c => length (tpending c)).
Proof.
  split; cbn [block16 EVP_EncryptInit_ex EVP_EncryptUpdate EVP_EncryptFinal_ex
              EVP_CTRL_GCM_GET_TAG EVP_DecryptInit_ex EVP_DecryptUpdate
              EVP_CTRL_GCM_SET_TAG EVP_DecryptFinal_ex].
  - intros c iv c' H. inversion H; subst. reflexivity.
  - intros c a c' w H. inversion H; subst. reflexivity.
  - intros c p c' w H. now apply update_lengths in H.
  - reflexivity.
  - intros c c' w H. unfold one_block in H.
    destruct (Nat.ltb_spec 16 (length (tpending c))); [discriminate |].
    inversion H; subst. cbn [with16 tpending tkey]. rewrite length_map. lia.
  - intros c n c' t H. inversion H; subst. apply repeat_length.
  - intros c iv c' H. inversion H; subst. reflexivity.
  - intros c a c' w H. inversion H; subst. reflexivity.
  - intros c p c' w H. now apply update_lengths in H.
  - intros c t c' H. inversion H; subst. reflexivity.
  - intros c c' w H. unfold one_block in H.
    destruct (Nat.ltb_spec 16 (length (tpending c))); [discriminate |].
    unfold final_dec in H. cbn [with16 texpect tpending tkey tacc] in H.
    destruct (texpect c) as [tag |]; [| discriminate].
    destruct (list_eq_dec _ _ _); [| discriminate].
    inversion H; subst. rewrite length_map. lia.
Qed.

Lemma update_whole d c p c' w :
  update d (with16 c) false p = Some (c', w) ->
  length (tpending c) = 0 -> length p = 16 -> length (tpending c') = 0.
Proof.
  unfold update. intros H Hp Hl. inversion H; subst; clear H.
  cbn [tpending with16]. unfold ready. cbn [tpending with16 tblock].
  destruct (tpending c); [| discriminate]. simpl app. rewrite Hl.
  rewrite length_skipn. change (16 / 16 * 16) with 16. lia.
Qed.

Lemma block16_whole_blocks :
  whole_blocks block16 (fun c => length (tpending c)).
Proof.
  split; cbn [block16 EVP_EncryptUpdate EVP_DecryptUpdate];
    intros c p c' w H Hp Hl; exact (update_whole _ _ _ _ _ H Hp Hl).
Qed.

End ToyFacts.

(** ** The round trip *)

(** Within the sizes an [int] can tell the whole round trip goes through. *)
Lemma round_trip_within_sizes (E : EVP)
    (pending : EVP_CIPHER_CTX E -> nat) (kc kd : EVP_CIPHER_CTX E)
    (K tagLen headroom : nat) (blk : bool) (p : Chain) (ad : option Chain)
    (iv : bytes) (se sd : cstate E) :
  buffering E pending ->
  aead E kc kd tagLen blk ->
  (blk = false -> forall c, pending c = 0) ->
  (blk = false -> (Z.of_nat (length (contents p)) <= Z.of_N INT_MAX)%Z) ->
  ~ oversize (ad_bufs ad) ->
  cctx se = kc -> cctx sd = kd ->
  exists c se',
    evpEncrypt E p ad iv tagLen blk headroom se = (Ok c, se') /\
    (exists q sd',
       evpDecrypt E K c ad iv tagLen blk sd = (Ok (Some q), sd') /\
       contents q = contents p) /\
    (forall c', numShared c' = 0 ->
       one_byte_differs (contents c) (contents c') ->
       exists sd', evpDecrypt E K c' ad iv tagLen blk sd = (Ok None, sd')).
Proof.
  intros Hb Ha Hz Hmax Hsize Hkc Hkd.
  destruct (evpEncrypt_forward E pending Hb p ad iv tagLen blk headroom se
              Hz Hmax Hsize
              ltac:(intros ps _; rewrite Hkc; apply (aead_seals Ha)))
    as (ps & ws & wf & t & c & se' & Hps & Hseal & Henc & Hcont & Hclen & Ht).
  rewrite Hkc in Hseal.
  exists c, se'. split; [exact Henc |]. split.
  - destruct (evpDecrypt_forward E pending Hb K c ad iv tagLen blk sd
                (concat ws ++ wf) t Hz
                ltac:(intros Hs; rewrite Hclen; now apply Hmax) Hsize
                (evpEncrypt_unshared _ _ _ _ _ _ _ _ _ _ Henc) Hcont Ht)
      as (ps' & ws' & r & res & sd' & Hps' & Hopen & Hdec & Hres).
    { intros ps' Hps'. rewrite Hkd.
      destruct (aead_opens Ha _ _ _ _ Hseal Hps') as (ws' & wf' & Ho & _).
      now rewrite Ho. }
    rewrite Hkd in Hopen.
    destruct (aead_opens Ha _ _ _ _ Hseal Hps') as (ws2 & wf2 & Ho & Hplain).
    rewrite Ho in Hopen. inversion Hopen; subst ws' r.
    destruct Hres as (q & -> & Hq).
    exists q, sd'. split; [exact Hdec |]. now rewrite Hq, Hplain, Hps.
  - intros c' Hshared Hdiff.
    pose proof (one_byte_differs_length _ _ Hdiff) as Hl.
    rewrite Hcont, length_app in Hl.
    set (n := length (contents c') - tagLen).
    assert (Hparts : contents c'
                     = firstn n (contents c') ++ skipn n (contents c'))
      by (symmetry; apply firstn_skipn).
    assert (Ht' : length (skipn n (contents c')) = tagLen)
      by (rewrite length_skipn; unfold n; lia).
    rewrite Hcont, Hparts in Hdiff.
    assert (Hrej : forall ps', concat ps' = firstn n (contents c') ->
              exists ws', open E blk kd iv (ad_pieces ad) ps'
                            (skipn n (contents c')) = Some (ws', None)).
    { intros ps' Hps'. eapply (aead_rejects Ha).
      - exact Hseal.
      - now rewrite Ht'.
      - now rewrite Hps'. }
    destruct (evpDecrypt_forward E pending Hb K c' ad iv tagLen blk sd
                (firstn n (contents c')) (skipn n (contents c')) Hz
                ltac:(intros Hs; rewrite length_firstn; specialize (Hmax Hs); lia)
                Hsize Hshared Hparts Ht')
      as (ps' & ws' & r & res & sd' & Hps' & Hopen & Hdec & Hres).
    { intros ps' Hps'. rewrite Hkd.
      destruct (Hrej ps' Hps') as (ws' & Ho). now rewrite Ho. }
    rewrite Hkd in Hopen. destruct (Hrej ps' Hps') as (ws2 & Ho).
    rewrite Ho in Hopen. inversion Hopen; subst ws' r. subst res.
    now exists sd'.
Qed.

(** C1: with a library that keeps its side ([buffering] for the sizes of
    what it stores, [aead] for what an authenticated cipher does with the
    encrypting context [kc] and the decrypting context [kd] of one key; in
    stream mode the library holds nothing back), for every plaintext chain,
    associated data and IV, in block mode and in stream mode: [evpDecrypt]
    of the chain that [evpEncrypt] returned, with the same associated data
    and IV, returns the bytes of the plaintext, and [evpDecrypt] of a chain
    of unshared elements whose bytes are those of the encrypted chain with
    one byte changed returns [folly::none].  [evpEncrypt] does return when
    no element of the associated data and, in stream mode, not the
    plaintext is longer than an [int] can tell. *)
Theorem evpDecrypt_evpEncrypt_round_trip (E : EVP)
    (pending : EVP_CIPHER_CTX E -> nat) (kc kd : EVP_CIPHER_CTX E)
    (K tagLen headroom : nat) (blk : bool) (p : Chain) (ad : option Chain)
    (iv : bytes) (se sd : cstate E) :
  buffering E pending ->
  aead E kc kd tagLen blk ->
  (blk = false -> forall c, pending c = 0) ->
  cctx se = kc -> cctx sd = kd ->
  (forall c se',
     evpEncrypt E p ad iv tagLen blk headroom se = (Ok c, se') ->
     (exists q sd',
        evpDecrypt E K c ad iv tagLen blk sd = (Ok (Some q), sd') /\
        contents q = contents p) /\
     (forall c', numShared c' = 0 ->
        one_byte_differs (contents c) (contents c') ->
        exists sd', evpDecrypt E K c' ad iv tagLen blk sd = (Ok None, sd'))) /\
  (~ oversize (ad_bufs ad) ->
   (blk = false -> (Z.of_nat (length (contents p)) <= Z.of_N INT_MAX)%Z) ->
   exists c se', evpEncrypt E p ad iv tagLen blk headroom se = (Ok c, se')).
Proof.
  intros Hb Ha Hz Hkc Hkd. split.
  - intros c se' Henc.
    destruct (evpEncrypt_Ok_sizes E pending Hb p ad iv tagLen blk headroom
                se c se' Hz Henc) as [Hsize Hmax].
    destruct (round_trip_within_sizes E pending kc kd K tagLen headroom blk
                p ad iv se sd Hb Ha Hz Hmax Hsize Hkc Hkd)
      as (c0 & se0 & Henc0 & Hdec & Htamper).
    rewrite Henc in Henc0. inversion Henc0; subst c0 se0.
    split; assumption.
  - intros Hsize Hmax.
    destruct (round_trip_within_sizes E pending kc kd K tagLen headroom blk
                p ad iv se sd Hb Ha Hz Hmax Hsize Hkc Hkd)
      as (c0 & se0 & Henc0 & _).
    now exists c0, se0.
Qed.

Lemma evpDecrypt_evpEncrypt_round_trip_witness :
  let k := Toy.mkSctx x55 [] None in
  let p : Chain :=
    (Toy.buf [x01; x02; x03] 0 false, [Toy.buf [x04; x05] 20 false]) in
  let ad : option Chain := Some (Toy.buf [x09; x0a] 0 false, []) in
  let st := Toy.stream_keyed x55 in
  buffering Toy.stream (fun _ => 0) /\
  aead Toy.stream k k 4 false /\
  exists c se',
    evpEncrypt Toy.stream p ad [x07] 4 false 0 st = (Ok c, se') /\
    (exists q sd',
       evpDecrypt Toy.stream 4 c ad [x07] 4 false st = (Ok (Some q), sd') /\
       contents q = contents p) /\
    (forall c', numShared c' = 0 ->
       one_byte_differs (contents c) (contents c') ->
       exists sd', evpDecrypt Toy.stream 4 c' ad [x07] 4 false st = (Ok None, sd')).
Proof.
  intros k p ad st.
  assert (Hb : buffering Toy.stream (fun _ => 0))
    by apply ToyFacts.stream_buffering.
  assert (Ha : aead Toy.stream k k 4 false)
    by (apply ToyFacts.stream_aead; lia).
  split; [exact Hb |]. split; [exact Ha |].
  destruct (evpDecrypt_evpEncrypt_round_trip Toy.stream (fun _ => 0) k k 4 4 0
              false p ad [x07] st st Hb Ha (fun _ _ => eq_refl) eq_refl eq_refl)
    as [Hround Hreturns].
  destruct Hreturns as (c & se' & Henc).
  - intros (b & Hin & He). destruct Hin as [<- | []].
    vm_compute in He. discriminate.
  - intros _. vm_compute. discriminate.
  - exists c, se'. split; [exact Henc |]. exact (Hround c se' Henc).
Defined.
(** ** Block mode *)

Lemma size_t_sub_le a b :
  b <= a -> (Z.of_nat a < 2 ^ 64)%Z -> size_t_sub a b = Z.of_nat (a - b).
Proof.
  intros Hle Hs. unfold size_t_sub. rewrite Z.mod_small; lia.
Qed.

Section BlockStored.
Variable E : EVP.

(** [encFuncBlocks] on a library whose updates go through and store no
    more than they were given: the chain [out1] the updates leave, the
    calls, and what becomes of the bytes of the final call, by the counter
    and the room left in the element the cursor is in. *)
Lemma encFuncBlocks_stored inp out (st : cstate E) c3 ws c4 wf :
  (forall c p, EVP_EncryptUpdate_outl_negative E c false p = false) ->
  (Z.of_nat (length (contents inp)) < 2 ^ 64)%Z ->
  length (contents inp) <= length (contents out) ->
  run_updates (fun c p => EVP_EncryptUpdate E c false p) (cctx st)
    (blocks 16 (contents inp)) = Some (c3, ws) ->
  length (concat ws) <= length (contents inp) ->
  EVP_EncryptFinal_ex E c3 = Some (c4, wf) ->
  exists out1,
    map shape (bufs out1) = map shape (bufs out) /\
    contents out1 = overwrite 0 (concat ws) (contents out) /\
    let run := encFuncBlocks inp out st in
    let pos := length (concat ws) in
    let counter := length (contents inp) - length (concat ws) in
    let room := cursor_length (bufs out1) pos in
    clog (snd run)
    = clog st ++ calls_ok (map (Call_EncryptUpdate false)
                               (blocks 16 (contents inp))
                           ++ [Call_EncryptFinal_ex]) /\
    cctx (snd run) = c4 /\
    (counter <= room -> fst run = Ok (cursor_poke out1 pos wf)) /\
    (room < counter ->
     fst run = if 16 <? length wf then Undefined
               else if length (contents out) <? pos + length wf
                    then Throw "overflow"%string
                    else Ok (write_chain pos wf out1)).
Proof.
  intros Hneg Hsize Hout Hr Hws Hfin.
  pose proof (blocks_concat 16 (contents inp) ltac:(lia)) as Hc.
  destruct (feed_blocks_stored E
              (fun p c => EVP_EncryptUpdate E c false p)
              (fun p c => EVP_EncryptUpdate_outl_negative E c false p)
              (Call_EncryptUpdate false)
              "Encryption error: too much plain text" "Encryption error"
              (fun '(totalWritten, totalInput) plain =>
                 if exceeds_int (length plain)
                 then throw "Encryption error: too much plain text"%string
                 else
                   negative <- outLen_negative false plain ;;
                   r <- lib_EncryptUpdate false plain ;;
                   match r with
                   | None => throw "Encryption error"%string
                   | Some w =>
                     if negative then throw "Encryption error"%string
                     else
                       ret ((totalWritten + length w, totalInput + length plain), w)
                   end)
              ltac:(intros tw ti p st0; cbv beta iota;
                    destruct (exceeds_int (length p)); reflexivity)
              ltac:(intros p c; apply Hneg)
              (blocks 16 (contents inp)) 0 0 out 0 st c3 ws
              (blocks_small 16 _) Hr ltac:(simpl; lia))
    as (out1 & st1 & Hrun & Hctx & Hcont & Hsh & Hlog).
  simpl in Hrun. rewrite Hc in Hrun.
  exists out1. split; [exact Hsh |]. split; [exact Hcont |].
  cbv zeta.
  assert (Hstart : encFuncBlocks inp out st
    = (if (Z.of_nat (length (contents inp) - length (concat ws))
           <=? Z.of_nat (cursor_length (bufs out1) (length (concat ws))))%Z
       then Ok (cursor_poke out1 (length (concat ws)) wf)
       else if 16 <? length wf then Undefined
            else if length (contents out) <? length (concat ws) + length wf
                 then Throw "overflow"%string
                 else Ok (write_chain (length (concat ws)) wf out1),
       logged st1 c4 Call_EncryptFinal_ex true)).
  { unfold encFuncBlocks, transformBufferBlocks.
    erewrite bind_Ok by exact Hrun. cbv beta iota.
    rewrite size_t_sub_le by assumption.
    unfold lib_EncryptFinal_ex.
    destruct (_ <=? _)%Z;
      (erewrite bind_Ok by (apply lib_out_Some; rewrite Hctx; exact Hfin));
      [reflexivity |].
    cbv beta iota. destruct (16 <? length wf); [reflexivity |].
    unfold push. rewrite computeChainDataLength_contents, Hcont, overwrite_length.
    destruct (_ <? _); reflexivity. }
  rewrite Hstart. cbn [fst snd].
  split; [rewrite logged_clog, Hlog; apply clog_updates_final |].
  split; [reflexivity |].
  split; intros Hcmp.
  - destruct (Z.leb_spec (Z.of_nat (length (contents inp) - length (concat ws)))
                (Z.of_nat (cursor_length (bufs out1) (length (concat ws)))));
      [reflexivity | lia].
  - destruct (Z.leb_spec (Z.of_nat (length (contents inp) - length (concat ws)))
                (Z.of_nat (cursor_length (bufs out1) (length (concat ws)))));
      [lia | reflexivity].
Qed.

(** The same for [decFuncBlocks], where the tag is set first and a final
    call that does not return 1 is the answer [false]. *)
Lemma decFuncBlocks_stored inp out tag (st : cstate E) c0 c3 ws :
  (Z.of_nat (length (contents inp)) < 2 ^ 64)%Z ->
  length (contents inp) <= length (contents out) ->
  EVP_CTRL_GCM_SET_TAG E (cctx st) tag = Some c0 ->
  run_updates (fun c p => EVP_DecryptUpdate E c false p) c0
    (blocks 16 (contents inp)) = Some (c3, ws) ->
  length (concat ws) <= length (contents inp) ->
  exists out1,
    map shape (bufs out1) = map shape (bufs out) /\
    contents out1 = overwrite 0 (concat ws) (contents out) /\
    let run := decFuncBlocks inp out tag st in
    let pos := length (concat ws) in
    let counter := length (contents inp) - length (concat ws) in
    let room := cursor_length (bufs out1) pos in
    match EVP_DecryptFinal_ex E c3 with
    | None =>
      clog (snd run)
      = clog st ++ calls_ok (Call_SET_TAG tag ::
                             map (Call_DecryptUpdate false)
                                 (blocks 16 (contents inp)))
        ++ [(Call_DecryptFinal_ex, false)] /\
      fst run = Ok (false, out1)
    | Some (c4, wf) =>
      clog (snd run)
      = clog st ++ calls_ok (Call_SET_TAG tag ::
                             map (Call_DecryptUpdate false)
                                 (blocks 16 (contents inp)))
        ++ [(Call_DecryptFinal_ex, true)] /\
      (counter <= room -> fst run = Ok (true, cursor_poke out1 pos wf)) /\
      (room < counter ->
       fst run = if 16 <? length wf then Undefined
                 else if length (contents out) <? pos + length wf
                      then Throw "overflow"%string
                      else Ok (true, write_chain pos wf out1))
    end.
Proof.
  intros Hsize Hout Hset Hr Hws.
  pose proof (blocks_concat 16 (contents inp) ltac:(lia)) as Hc.
  set (st0 := logged st c0 (Call_SET_TAG tag) true).
  destruct (feed_blocks_stored E
              (fun p c => EVP_DecryptUpdate E c false p) (fun _ _ => false)
              (Call_DecryptUpdate false)
              "Decryption error: too much cipher text" "Decryption error"
              (fun '(totalWritten, totalInput) cipher =>
                 if exceeds_int (length cipher)
                 then throw "Decryption error: too much cipher text"%string
                 else
                   r <- lib_DecryptUpdate false cipher ;;
                   match r with
                   | None => throw "Decryption error"%string
                   | Some w =>
                     ret ((totalWritten + length w, totalInput + length cipher), w)
                   end)
              ltac:(intros tw ti p st1; cbv beta iota;
                    destruct (exceeds_int (length p)); reflexivity)
              ltac:(reflexivity)
              (blocks 16 (contents inp)) 0 0 out 0 st0 c3 ws
              (blocks_small 16 _) Hr ltac:(simpl; lia))
    as (out1 & st1 & Hrun & Hctx & Hcont & Hsh & Hlog).
  simpl in Hrun. rewrite Hc in Hrun.
  exists out1. split; [exact Hsh |]. split; [exact Hcont |].
  cbv zeta.
  assert (Hlog' : forall b,
            clog st1 ++ [(Call_DecryptFinal_ex, b)]
            = clog st ++ calls_ok (Call_SET_TAG tag ::
                                   map (Call_DecryptUpdate false)
                                       (blocks 16 (contents inp)))
              ++ [(Call_DecryptFinal_ex, b)]).
  { intros b. rewrite Hlog. unfold st0. rewrite logged_clog.
    unfold calls_ok. cbn [map]. rewrite map_map, <- !app_assoc. reflexivity. }
  assert (Hstart : decFuncBlocks inp out tag st
    = (if (Z.of_nat (length (contents inp) - length (concat ws))
           <=? Z.of_nat (cursor_length (bufs out1) (length (concat ws))))%Z
       then
         (r <- @lib_DecryptFinal_ex E ;;
          match r with
          | None => ret (false, out1)
          | Some w => ret (true, cursor_poke out1 (length (concat ws)) w)
          end) st1
       else
         (r <- @lib_DecryptFinal_ex E ;;
          match r with
          | None => ret (false, out1)
          | Some w =>
            if 16 <? length w then undefined
            else out' <- push out1 (length (concat ws)) w ;; ret (true, out')
          end) st1)).
  { unfold decFuncBlocks, transformBufferBlocks.
    unfold lib_SET_TAG.
    erewrite bind_Ok by (apply lib_ctl_Some; exact Hset).
    change (negb true) with false. cbv iota. fold st0.
    erewrite bind_Ok by exact Hrun. cbv beta iota zeta.
    rewrite size_t_sub_le by assumption.
    destruct (_ <=? _)%Z; reflexivity. }
  rewrite Hstart. unfold lib_DecryptFinal_ex.
  destruct (EVP_DecryptFinal_ex E c3) as [[c4 wf] |] eqn:Hfin.
  - destruct (Z.leb_spec (Z.of_nat (length (contents inp) - length (concat ws)))
                (Z.of_nat (cursor_length (bufs out1) (length (concat ws)))));
      (erewrite bind_Ok by (apply lib_out_Some; rewrite Hctx; exact Hfin)).
    + cbn [fst snd ret]. rewrite logged_clog.
      split; [apply Hlog' |]. split; [reflexivity | lia].
    + cbv beta iota. destruct (16 <? length wf).
      * cbn [fst snd undefined]. rewrite logged_clog.
        split; [apply Hlog' |]. split; [lia | reflexivity].
      * unfold push, bind.
        rewrite computeChainDataLength_contents, Hcont, overwrite_length.
        destruct (_ <? _); cbn [fst snd throw ret]; rewrite logged_clog;
          (split; [apply Hlog' |]); (split; [lia | reflexivity]).
  - destruct (_ <=? _)%Z;
      (erewrite bind_Ok by (apply lib_out_None; rewrite Hctx; exact Hfin));
      cbn [fst snd ret]; rewrite logged_clog; (split; [apply Hlog' | reflexivity]).
Qed.

End BlockStored.

(** C6: block mode.  [encFuncBlocks] and [decFuncBlocks] hand the input to
    the library in pieces of 16 bytes, the last one maybe shorter.  Whatever
    the library, as long as its updates go through and store no more than
    they were given: the running counter is [total_input - total_written],
    what the updates stored lies at the start of the output chain, and the
    bytes of the final call are stored through the raw pointer, staying in
    the element the cursor is in, when that element has room for as many
    bytes as the counter tells, and otherwise pass through the 16-byte
    block on the stack and are pushed at the cursor ([final_by_counter]).
    With a library that keeps [buffering] and has 16-byte blocks, each
    update stores at most as many bytes as it was given, the counter is
    what the library holds back, the final call stores exactly that, at
    most one block, and the chain then holds what the updates stored
    followed by what the final stored. *)
Theorem block_mode_chunks_counter_and_final (E : EVP) (inp out : Chain)
    (tag : bytes) (st : cstate E) :
  let pieces := blocks 16 (contents inp) in
  let total_input := length (contents inp) in
  chunks16 pieces (contents inp) /\
  ((Z.of_nat total_input < 2 ^ 64)%Z ->
   total_input <= length (contents out) ->
   (forall c3 ws c4 wf,
      (forall c p, EVP_EncryptUpdate_outl_negative E c false p = false) ->
      run_updates (fun c p => EVP_EncryptUpdate E c false p) (cctx st) pieces
      = Some (c3, ws) ->
      length (concat ws) <= total_input ->
      EVP_EncryptFinal_ex E c3 = Some (c4, wf) ->
      let total_written := length (concat ws) in
      exists out1,
        map shape (bufs out1) = map shape (bufs out) /\
        contents out1 = overwrite 0 (concat ws) (contents out) /\
        clog (snd (encFuncBlocks inp out st))
        = clog st ++ calls_ok (map (Call_EncryptUpdate false) pieces
                               ++ [Call_EncryptFinal_ex]) /\
        fst (encFuncBlocks inp out st)
        = final_by_counter out1 total_written (total_input - total_written) wf) /\
   (forall c0 c3 ws,
      EVP_CTRL_GCM_SET_TAG E (cctx st) tag = Some c0 ->
      run_updates (fun c p => EVP_DecryptUpdate E c false p) c0 pieces
      = Some (c3, ws) ->
      length (concat ws) <= total_input ->
      let total_written := length (concat ws) in
      exists out1,
        map shape (bufs out1) = map shape (bufs out) /\
        contents out1 = overwrite 0 (concat ws) (contents out) /\
        match EVP_DecryptFinal_ex E c3 with
        | Some (c4, wf) =>
          clog (snd (decFuncBlocks inp out tag st))
          = clog st ++ calls_ok (Call_SET_TAG tag ::
                                 map (Call_DecryptUpdate false) pieces
                                 ++ [Call_DecryptFinal_ex]) /\
          fst (decFuncBlocks inp out tag st)
          = match final_by_counter out1 total_written
                    (total_input - total_written) wf with
            | Ok out' => Ok (true, out')
            | Throw w => Throw w
            | Undefined => Undefined
            end
        | None =>
          clog (snd (decFuncBlocks inp out tag st))
          = clog st ++ calls_ok (Call_SET_TAG tag ::
                                 map (Call_DecryptUpdate false) pieces)
            ++ [(Call_DecryptFinal_ex, false)] /\
          fst (decFuncBlocks inp out tag st) = Ok (false, out1)
        end)) /\
  (forall pending,
     buffering E pending -> whole_blocks E pending ->
     pending (cctx st) = 0 ->
     total_input = length (contents out) ->
     (forall c3 ws c4 wf,
        run_updates (fun c p => EVP_EncryptUpdate E c false p) (cctx st) pieces
        = Some (c3, ws) ->
        EVP_EncryptFinal_ex E c3 = Some (c4, wf) ->
        Forall2 (fun p w => length w <= length p) pieces ws /\
        total_input - length (concat ws) = pending c3 /\
        length wf = pending c3 /\ length wf <= 16 /\
        exists out' st',
          encFuncBlocks inp out st = (Ok out', st') /\
          contents out' = concat ws ++ wf) /\
     (forall c0 c3 ws,
        EVP_CTRL_GCM_SET_TAG E (cctx st) tag = Some c0 ->
        run_updates (fun c p => EVP_DecryptUpdate E c false p) c0 pieces
        = Some (c3, ws) ->
        Forall2 (fun p w => length w <= length p) pieces ws /\
        total_input - length (concat ws) = pending c3 /\
        exists b out' st',
          decFuncBlocks inp out tag st = (Ok (b, out'), st') /\
          match EVP_DecryptFinal_ex E c3 with
          | Some (c4, wf) =>
            b = true /\ length wf = pending c3 /\ length wf <= 16 /\
            contents out' = concat ws ++ wf
          | None => b = false
          end)).
Proof.
  intros pieces total_input.
  split.
  { split; [apply blocks_concat; lia |].
    split; [apply blocks_small | apply blocks_whole]. }
  split.
  - intros Hsize Hout. split.
    + intros c3 ws c4 wf Hneg Hr Hws Hfin total_written.
      destruct (encFuncBlocks_stored E inp out st c3 ws c4 wf
                  Hneg Hsize Hout Hr Hws Hfin)
        as (out1 & Hsh & Hcont & Hlog & _ & Hdirect & Hpush).
      exists out1. split; [exact Hsh |]. split; [exact Hcont |].
      split; [exact Hlog |].
      unfold final_by_counter.
      rewrite computeChainDataLength_contents, Hcont, overwrite_length.
      destruct (Nat.leb_spec (total_input - total_written)
                  (cursor_length (bufs out1) total_written)) as [Hle | Hgt].
      * now apply Hdirect.
      * now apply Hpush.
    + intros c0 c3 ws Hset Hr Hws total_written.
      destruct (decFuncBlocks_stored E inp out tag st c0 c3 ws
                  Hsize Hout Hset Hr Hws)
        as (out1 & Hsh & Hcont & Hfinal).
      exists out1. split; [exact Hsh |]. split; [exact Hcont |].
      cbv zeta in Hfinal.
      destruct (EVP_DecryptFinal_ex E c3) as [[c4 wf] |]; [| exact Hfinal].
      destruct Hfinal as (Hlog & Hdirect & Hpush).
      split.
      { rewrite Hlog. f_equal. unfold calls_ok. cbn [map].
        now rewrite map_app. }
      unfold final_by_counter.
      rewrite computeChainDataLength_contents, Hcont, overwrite_length.
      destruct (Nat.leb_spec (total_input - total_written)
                  (cursor_length (bufs out1) total_written)) as [Hle | Hgt].
      * now apply Hdirect.
      * rewrite (Hpush Hgt). destruct (16 <? length wf); [reflexivity |].
        destruct (_ <? _); reflexivity.
  - intros pending Hb Hw Hp0 Hlen. split.
    + intros c3 ws c4 wf Hr Hfin.
      split.
      { apply (blocks_fuel_written _ (fun c p => EVP_EncryptUpdate E c false p)
                 pending
                 ltac:(intros c p c' w H; eapply (buf_enc_update Hb); exact H)
                 ltac:(intros c p c' w H; eapply (whole_enc Hw); exact H)
                 _ _ (cctx st) c3 ws Hp0 Hr). }
      destruct (encFuncBlocks_run E pending Hb inp out st c3 ws c4 wf
                  Hp0 Hlen Hr Hfin)
        as (out1 & out' & st' & _ & _ & Hbal & Hrun & _ & _ & _ & Hcont & _).
      destruct (buf_enc_final Hb _ Hfin) as [Hwf Hwf16].
      split; [unfold total_input; lia |].
      split; [exact Hwf |]. split; [exact Hwf16 |].
      exists out', st'. now split.
    + intros c0 c3 ws Hset Hr.
      assert (Hp1 : pending c0 = 0)
        by (rewrite <- Hp0; eapply (buf_set_tag Hb); exact Hset).
      split.
      { apply (blocks_fuel_written _ (fun c p => EVP_DecryptUpdate E c false p)
                 pending
                 ltac:(intros c p c' w H; eapply (buf_dec_update Hb); exact H)
                 ltac:(intros c p c' w H; eapply (whole_dec Hw); exact H)
                 _ _ c0 c3 ws Hp1 Hr). }
      destruct (decFuncBlocks_run E pending Hb inp out tag st c0 c3 ws
                  Hp0 Hlen Hset Hr)
        as (out1 & b & out' & st' & _ & _ & Hbal & Hrun & _ & Hfin & _).
      split; [unfold total_input; lia |].
      exists b, out', st'. split; [exact Hrun |].
      destruct (EVP_DecryptFinal_ex E c3) as [[c4 wf] |] eqn:Hf.
      * destruct Hfin as (Hbt & _ & Hcont).
        destruct (buf_dec_final Hb _ Hf) as [Hwf Hwf16]. auto.
      * now destruct Hfin.
Qed.

Lemma block_mode_chunks_counter_and_final_witness :
  let inp : Chain :=
    (Toy.buf [x01; x02; x03; x04; x05; x06; x07; x08; x09; x0a; x0b; x0c;
              x0d; x0e; x0f; x10; x11; x12; x13; x14; x15; x16; x17; x18]
             16 false, []) in
  let st := Toy.keyed_padded x55 in
  let updated :=
    run_updates (fun c p => EVP_EncryptUpdate Toy.padded c false p) (cctx st)
      (blocks 16 (contents inp)) in
  let c3 := match updated with Some (c3, _) => c3 | None => cctx st end in
  let ws := match updated with Some (_, ws) => ws | None => [] end in
  let wf := match EVP_EncryptFinal_ex Toy.padded c3 with
            | Some (_, wf) => wf
            | None => []
            end in
  let chain : Chain :=
    (Toy.buf [x01; x02; x03] 0 false,
     [Toy.buf [x04; x05; x06; x07; x08; x09; x0a; x0b; x0c; x0d; x0e; x0f;
               x10; x11] 0 false;
      Toy.buf [x12; x13; x14; x15] 0 false]) in
  let pending := fun c : Toy.ctx => length (Toy.tpending c) in
  (map (@length byte) (blocks 16 (contents inp)) = [16; 8] /\
   map (@length byte) ws = [16; 0] /\ length wf = 16 /\
   (exists out1,
      cursor_length (bufs out1) 16 = 8 /\
      computeChainDataLength out1 = 24 /\
      fst (encFuncBlocks inp inp st)
      = final_by_counter out1 (length (concat ws))
          (length (contents inp) - length (concat ws)) wf) /\
   exists out',
     fst (encFuncBlocks inp inp st) = Ok out' /\
     contents out' = map (Toy.bxor x55) (contents inp)) /\
  (buffering Toy.block16 pending /\
   whole_blocks Toy.block16 pending /\
   map (@length byte) (blocks 16 (contents chain)) = [16; 5] /\
   exists ws' wf' out' st',
     map (@length byte) ws' = [16; 0] /\ length wf' = 5 /\
     encFuncBlocks chain chain (Toy.keyed16 x55) = (Ok out', st') /\
     contents out' = concat ws' ++ wf' /\
     contents out' = map (Toy.bxor x55) (contents chain)).
Proof.
  intros inp st updated c3 ws wf chain pending. split.
  - split; [reflexivity |]. split; [reflexivity |]. split; [reflexivity |].
    split; [| eexists; split; vm_compute; reflexivity].
    destruct (block_mode_chunks_counter_and_final Toy.padded inp inp [] st)
      as (_ & Hany & _).
    destruct Hany as [Henc _]; [vm_compute; reflexivity | vm_compute; lia |].
    pose (c4 := match EVP_EncryptFinal_ex Toy.padded c3 with
                | Some (c4, _) => c4
                | None => c3
                end).
    destruct (Henc c3 ws c4 wf) as (out1 & Hsh & _ & _ & Hfst);
      [ intros c p; reflexivity
      | vm_compute; reflexivity
      | vm_compute; lia
      | vm_compute; reflexivity |].
    exists out1. split; [| split; [| exact Hfst]].
    all: assert (Hl : map (fun b => length (data b)) (bufs out1) = [24])
      by (apply (f_equal (map (fun sh : nat * nat * nat * bool =>
                                 snd (fst (fst sh))))) in Hsh;
          rewrite !map_map in Hsh; exact Hsh).
    all: unfold computeChainDataLength, bufs in *; destruct out1 as [h t];
      cbn [fst snd] in *; destruct t; [| discriminate]; cbn [map] in Hl;
      inversion Hl as [Hh]; cbn [cursor_length fold_right]; rewrite Hh;
      reflexivity.
  - assert (Hb : buffering Toy.block16 pending)
      by apply ToyFacts.block16_buffering.
    assert (Hw : whole_blocks Toy.block16 pending)
      by apply ToyFacts.block16_whole_blocks.
    split; [exact Hb |]. split; [exact Hw |]. split; [reflexivity |].
    destruct (block_mode_chunks_counter_and_final Toy.block16 chain chain []
                (Toy.keyed16 x55)) as (_ & _ & Hcontract).
    destruct (Hcontract pending Hb Hw eq_refl eq_refl) as [Henc _].
    edestruct Henc as (_ & _ & _ & _ & out' & st' & Hrun & Hcont);
      [reflexivity | reflexivity |].
    eexists _, _, out', st'.
    split; [| split; [| split; [exact Hrun | split; [exact Hcont |]]]].
    + reflexivity.
    + reflexivity.
    + rewrite Hcont. reflexivity.
Defined.
(** ** [fixupSharedBuffer] by the number of shared elements *)

Lemma shared_positions_length l : forall idx,
  length (shared_positions l idx) = length (filter isSharedOne l).
Proof.
  induction l as [| b t IH]; intros idx; simpl; [reflexivity |].
  destruct (isSharedOne b); simpl; now rewrite IH.
Qed.

Lemma shared_positions_bound l : forall idx,
  Forall (fun p => p < idx + length l) (shared_positions l idx).
Proof.
  induction l as [| b t IH]; intros idx; simpl; [constructor |].
  assert (Ht : Forall (fun p => p < idx + S (length t)) (shared_positions t (S idx))).
  { eapply Forall_impl; [| apply IH]. simpl. intros; lia. }
  destruct (isSharedOne b); [constructor; [lia | exact Ht] | exact Ht].
Qed.

(** The counting loop when the array is long enough: it holds the
    positions of the shared elements, in chain order. *)
Lemma count_shared_positions K l : forall idx ps m,
  K = length ps + m -> length (filter isSharedOne l) <= m ->
  count_shared K l idx (length ps) (map Some ps ++ repeat None m)
  = (length ps + length (filter isSharedOne l),
     map Some (ps ++ shared_positions l idx)
     ++ repeat None (m - length (filter isSharedOne l))).
Proof.
  induction l as [| b t IH]; intros idx ps m HK Hm; simpl in Hm |- *.
  - now rewrite app_nil_r, Nat.add_0_r, Nat.sub_0_r.
  - destruct (isSharedOne b) eqn:Hs; simpl in Hm |- *.
    + destruct (Nat.ltb_spec K (S (length ps))) as [Hlt | Hge]; [lia |].
      destruct m as [| m]; [lia |].
      replace (length ps - 0) with (length (map (@Some nat) ps))
        by (rewrite length_map; lia).
      simpl repeat. rewrite array_set_next.
      replace (map Some ps ++ [Some idx]) with (map Some (ps ++ [idx]))
        by (rewrite map_app; reflexivity).
      replace (S (length ps)) with (length (ps ++ [idx]))
        by (rewrite length_app; simpl; lia).
      rewrite IH by (rewrite ?length_app; simpl; lia).
      rewrite length_app, <- app_assoc. simpl. f_equal. lia.
    + now apply IH.
Qed.

(** The counting loop when more elements are shared than the array holds. *)
Lemma count_shared_over K l : forall idx n arr,
  K < n + length (filter isSharedOne l) -> n <= K ->
  fst (count_shared K l idx n arr) = S K.
Proof.
  induction l as [| b t IH]; intros idx n arr Hgt Hle; simpl in *; [lia |].
  destruct (isSharedOne b) eqn:Hs; rewrite ?Hs in Hgt; simpl in Hgt.
  - destruct (Nat.ltb_spec K (S n)) as [Hlt | Hge].
    + simpl. lia.
    + apply IH; lia.
  - apply IH; lia.
Qed.

Lemma length_array_set A (l : list A) : forall i v,
  length (array_set i v l) = length l.
Proof.
  induction l as [| x l IH]; intros [| i] v; simpl; auto.
Qed.

Lemma unshare_each_flat ps : forall c,
  Forall (fun p => p < length (bufs c)) ps ->
  exists o, unshare_each (map Some ps) c = Ok o /\
            bufs o = fold_left replace_copy ps (bufs c).
Proof.
  induction ps as [| p ps IH]; intros c Hb.
  - exists c. now split.
  - inversion Hb as [| ? ? Hp Hps]; subst. cbn [map unshare_each fold_left].
    destruct p as [| p'].
    + cbn [Nat.eqb].
      destruct (IH (copyBuffer (data (fst c)), snd c)) as (o & Ho & Hbufs).
      { exact Hps. }
      exists o. split; [exact Ho |]. rewrite Hbufs. reflexivity.
    + cbn [Nat.eqb]. replace (S p' - 1) with p' by lia.
      unfold bufs in Hp. simpl in Hp.
      destruct (nth_error (snd c) p') as [b |] eqn:Hn.
      2:{ apply nth_error_None in Hn. lia. }
      destruct (IH (fst c, array_set p' (copyBuffer (data b)) (snd c)))
        as (o & Ho & Hbufs).
      { unfold bufs in *. simpl in *. now rewrite length_array_set. }
      exists o. split; [exact Ho |]. rewrite Hbufs.
      unfold replace_copy, bufs. simpl. now rewrite Hn.
Qed.

Lemma fold_replace_positions l : forall idx pre,
  length pre = idx ->
  fold_left replace_copy (shared_positions l idx) (pre ++ l)
  = pre ++ map unshared_copy l.
Proof.
  induction l as [| b t IH]; intros idx pre Hpre; [reflexivity |].
  cbn [shared_positions map]. unfold unshared_copy at 1.
  destruct (isSharedOne b).
  - cbn [fold_left]. unfold replace_copy at 2.
    rewrite <- Hpre, nth_error_app2, Nat.sub_diag by lia. cbn [nth_error].
    rewrite array_set_next.
    rewrite (IH (S (length pre)) (pre ++ [copyBuffer (data b)]))
      by (rewrite length_app; simpl; lia).
    now rewrite <- app_assoc.
  - change (pre ++ b :: t) with (pre ++ [b] ++ t). rewrite app_assoc.
    rewrite (IH (S idx) (pre ++ [b])) by (rewrite length_app; simpl; lia).
    now rewrite <- app_assoc.
Qed.

Lemma unshared_copy_unshared b : isSharedOne (unshared_copy b) = false.
Proof. unfold unshared_copy. destruct (isSharedOne b) eqn:H; [reflexivity | exact H]. Qed.

Lemma unshared_copy_data b : data (unshared_copy b) = data b.
Proof. unfold unshared_copy. now destruct (isSharedOne b). Qed.

Lemma filter_unshared_copy l : filter isSharedOne (map unshared_copy l) = [].
Proof.
  induction l as [| b t IH]; simpl; [reflexivity |].
  now rewrite unshared_copy_unshared.
Qed.

(** [fixupSharedBuffer] when as many elements are shared as the array
    holds. *)
Lemma fixupSharedBuffer_full K c n :
  numShared c = K -> 0 < K ->
  fixupSharedBuffer K c n
  = Ok ((unshared_copy (fst c), map unshared_copy (snd c)),
        (unshared_copy (fst c), map unshared_copy (snd c))).
Proof.
  unfold numShared. intros HK Hpos. unfold fixupSharedBuffer.
  pose proof (count_shared_positions K (bufs c) 0 [] K eq_refl ltac:(lia)) as Hc.
  change (map Some [] ++ repeat None K) with (repeat (@None nat) K) in Hc.
  change (length (@nil nat)) with 0 in Hc. rewrite Hc. cbn [app Nat.add].
  rewrite HK, Nat.sub_diag. cbn [repeat]. rewrite app_nil_r.
  destruct (Nat.eqb_spec K 0) as [H0 | _]; [lia |].
  rewrite Nat.leb_refl.
  destruct (unshare_each_flat (shared_positions (bufs c) 0) c) as (o & Ho & Hb).
  { apply (shared_positions_bound (bufs c) 0). }
  rewrite Ho.
  pose proof (fold_replace_positions (bufs c) 0 [] eq_refl) as Hf.
  cbn [app] in Hf. rewrite Hf in Hb. unfold bufs in Hb. cbn [map] in Hb.
  destruct o as [h t]. cbn [fst snd] in Hb. inversion Hb; subst. reflexivity.
Qed.

(** [fixupSharedBuffer] when more elements are shared than the array
    holds. *)
Lemma fixupSharedBuffer_over K c n :
  K < numShared c ->
  fixupSharedBuffer K c n = Ok (c, (append (create n) n, [])).
Proof.
  unfold numShared. intros Hgt. unfold fixupSharedBuffer.
  pose proof (count_shared_over K (bufs c) 0 0 (repeat None K)
                ltac:(exact Hgt) ltac:(lia)) as Hn.
  destruct (count_shared K (bufs c) 0 0 (repeat None K)) as [m arr].
  cbn [fst] in Hn. subst m.
  cbn [Nat.eqb].
  destruct (Nat.leb_spec (S K) K) as [Hle | _]; [lia |]. reflexivity.
Qed.


(** Whenever [fixupSharedBuffer] returns. *)
Lemma fixupSharedBuffer_Ok K c n input output :
  fixupSharedBuffer K c n = Ok (input, output) ->
  (numShared c = 0 \/ K <= numShared c) /\
  contents input = contents c /\
  numShared output = 0 /\
  (n = computeChainDataLength c -> computeChainDataLength output = n).
Proof.
  intros H.
  destruct (Nat.eq_dec (numShared c) 0) as [H0 | Hpos].
  - rewrite (fixupSharedBuffer_unshared K c n H0) in H. inversion H; subst.
    repeat split; auto.
  - destruct (Nat.lt_trichotomy (numShared c) K) as [Hlt | [Heq | Hgt]].
    + rewrite fixupSharedBuffer_fewer_than_max_shared in H by lia. discriminate.
    + rewrite (fixupSharedBuffer_full K c n Heq ltac:(lia)) in H.
      inversion H; subst input output. clear H.
      assert (Hc : contents (unshared_copy (fst c), map unshared_copy (snd c))
                   = contents c).
      { unfold contents, chain_bytes, bufs. cbn [fst snd map].
        rewrite unshared_copy_data. f_equal. rewrite map_map.
        f_equal. apply map_ext. intros; apply unshared_copy_data. }
      split; [right; lia |]. split; [exact Hc |]. split.
      * unfold numShared, bufs. cbn [fst snd].
        change (unshared_copy (fst c) :: map unshared_copy (snd c))
          with (map unshared_copy (fst c :: snd c)).
        now rewrite filter_unshared_copy.
      * intros ->. now rewrite !computeChainDataLength_contents, Hc.
    + rewrite (fixupSharedBuffer_over K c n Hgt) in H. inversion H; subst.
      split; [right; lia |]. split; [reflexivity |]. split; [reflexivity |].
      intros _. unfold computeChainDataLength, bufs, append, create, uninitialized.
      simpl. rewrite repeat_length. lia.
Qed.

(** [fixupSharedBuffer] returns in these cases. *)
Lemma fixupSharedBuffer_returns K c n :
  numShared c = 0 \/ K <= numShared c ->
  exists input output, fixupSharedBuffer K c n = Ok (input, output).
Proof.
  intros [H0 | HK].
  - exists c, c. now apply fixupSharedBuffer_unshared.
  - destruct (Nat.eq_dec (numShared c) 0) as [H0 | Hpos].
    { exists c, c. now apply fixupSharedBuffer_unshared. }
    destruct (Nat.eq_dec (numShared c) K) as [Heq | Hne].
    { eexists _, _. apply fixupSharedBuffer_full; [exact Heq | lia]. }
    eexists _, _. apply fixupSharedBuffer_over. lia.
Qed.

(** X1: when no element of the chain is shared, [fixupSharedBuffer] hands
    the chain itself back as input and as output: nothing is copied. *)
Theorem fixupSharedBuffer_nothing_shared K (encrypted : Chain)
    (inputLength : nat) :
  numShared encrypted = 0 ->
  fixupSharedBuffer K encrypted inputLength = Ok (encrypted, encrypted).
Proof.
  intros H0. unfold numShared in H0. unfold fixupSharedBuffer.
  pose proof (count_shared_positions K (bufs encrypted) 0 [] K eq_refl
                ltac:(lia)) as Hc.
  change (map Some [] ++ repeat None K) with (repeat (@None nat) K) in Hc.
  change (length (@nil nat)) with 0 in Hc.
  rewrite Hc, H0. reflexivity.
Qed.

Lemma fixupSharedBuffer_nothing_shared_witness :
  let c : Chain :=
    (Toy.buf [x01; x02] 0 false, [Toy.buf [x03] 3 false]) in
  numShared c = 0 /\ fixupSharedBuffer 2 c 3 = Ok (c, c).
Proof.
  intros c. split; [reflexivity |].
  apply fixupSharedBuffer_nothing_shared. reflexivity.
Defined.

(** X2: when exactly [kMaxSharedInChain] elements are shared (and that is
    not zero), the input and the output are one chain, which has the
    elements of [encrypted] in their order, each shared one replaced by an
    unshared copy of exactly its bytes, without headroom, and each unshared
    one as it was. *)
Theorem fixupSharedBuffer_copies_each_shared_element K (encrypted : Chain)
    (inputLength : nat) input output :
  numShared encrypted = K -> 0 < K ->
  fixupSharedBuffer K encrypted inputLength = Ok (input, output) ->
  input = output /\
  Forall2 (fun b b' =>
             data b' = data b /\ isSharedOne b' = false /\
             (isSharedOne b = false -> b' = b) /\
             (isSharedOne b = true -> headroom b' = 0))
          (bufs encrypted) (bufs output).
Proof.
  intros HK Hpos H.
  rewrite (fixupSharedBuffer_full K encrypted inputLength HK Hpos) in H.
  inversion H; subst. split; [reflexivity |].
  unfold bufs. cbn [fst snd].
  change (unshared_copy (fst encrypted) :: map unshared_copy (snd encrypted))
    with (map unshared_copy (fst encrypted :: snd encrypted)).
  induction (fst encrypted :: snd encrypted) as [| b t IH]; [constructor |].
  cbn [map]. constructor; [| exact IH].
  split; [apply unshared_copy_data |]. split; [apply unshared_copy_unshared |].
  unfold unshared_copy. split; intros Hb; rewrite Hb; reflexivity.
Qed.

Lemma fixupSharedBuffer_copies_each_shared_element_witness :
  let c : Chain :=
    (Toy.buf [x01; x02] 5 true,
     [Toy.buf [x03] 3 false; Toy.buf [x04; x05] 7 true]) in
  let o := match fixupSharedBuffer 2 c 5 with Ok (_, o) => o | _ => c end in
  numShared c = 2 /\ fixupSharedBuffer 2 c 5 = Ok (o, o) /\
  map data (bufs o) = [[x01; x02]; [x03]; [x04; x05]] /\
  map headroom (bufs o) = [0; 0; 0] /\
  map isSharedOne (bufs o) = [false; false; false] /\
  Forall2 (fun b b' =>
             data b' = data b /\ isSharedOne b' = false /\
             (isSharedOne b = false -> b' = b) /\
             (isSharedOne b = true -> headroom b' = 0))
          (bufs c) (bufs o).
Proof.
  intros c o. split; [reflexivity |]. split; [reflexivity |].
  split; [reflexivity |]. split; [reflexivity |]. split; [reflexivity |].
  exact (proj2 (fixupSharedBuffer_copies_each_shared_element 2 c 5 o o
                  eq_refl ltac:(lia) eq_refl)).
Defined.

(** X3: when more than [kMaxSharedInChain] elements are shared, the input is
    the chain as it was, and the output is one new unshared element of
    [inputLength] bytes. *)
Theorem fixupSharedBuffer_copies_whole_chain K (encrypted : Chain)
    (inputLength : nat) input output :
  K < numShared encrypted ->
  fixupSharedBuffer K encrypted inputLength = Ok (input, output) ->
  input = encrypted /\
  snd output = [] /\
  length (data (fst output)) = inputLength /\
  isSharedOne (fst output) = false.
Proof.
  intros Hgt H. rewrite (fixupSharedBuffer_over K encrypted inputLength Hgt) in H.
  inversion H; subst. split; [reflexivity |]. split; [reflexivity |].
  unfold append, create, uninitialized. cbn [fst data isSharedOne app].
  now rewrite repeat_length.
Qed.

Lemma fixupSharedBuffer_copies_whole_chain_witness :
  let c : Chain :=
    (Toy.buf [x01; x02] 5 true,
     [Toy.buf [x03] 3 false; Toy.buf [x04; x05] 7 true]) in
  let run := fixupSharedBuffer 1 c 5 in
  1 < numShared c /\
  exists output,
    run = Ok (c, output) /\ snd output = [] /\
    length (data (fst output)) = 5 /\ isSharedOne (fst output) = false.
Proof.
  intros c run. split; [vm_compute; lia |].
  exists (append (create 5) 5, []). split; [reflexivity |].
  exact (proj2 (fixupSharedBuffer_copies_whole_chain 1 c 5 c
                  (append (create 5) 5, []) ltac:(vm_compute; lia) eq_refl)).
Defined.

(** X4: [fixupSharedBuffer] returns exactly when no element is shared or at
    least [kMaxSharedInChain] are.  When it returns, the input holds the
    bytes of [encrypted], the output has no shared element, and, called with
    the length of [encrypted], the output holds as many bytes as the
    input. *)
Theorem fixupSharedBuffer_output_is_writable K (encrypted : Chain)
    (inputLength : nat) :
  ((exists input output,
      fixupSharedBuffer K encrypted inputLength = Ok (input, output)) <->
   (numShared encrypted = 0 \/ K <= numShared encrypted)) /\
  (forall input output,
     fixupSharedBuffer K encrypted inputLength = Ok (input, output) ->
     contents input = contents encrypted /\
     numShared output = 0 /\
     (inputLength = computeChainDataLength encrypted ->
      computeChainDataLength output = computeChainDataLength input)).
Proof.
  split.
  - split.
    + intros (input & output & H). now apply fixupSharedBuffer_Ok in H.
    + apply fixupSharedBuffer_returns.
  - intros input output H. apply fixupSharedBuffer_Ok in H.
    destruct H as (_ & Hin & Hout & Hlen).
    split; [exact Hin |]. split; [exact Hout |].
    intros Hn. rewrite (Hlen Hn), Hn, !computeChainDataLength_contents.
    now rewrite Hin.
Qed.

Lemma fixupSharedBuffer_output_is_writable_witness :
  let c : Chain :=
    (Toy.buf [x01; x02] 5 true,
     [Toy.buf [x03] 3 false; Toy.buf [x04; x05] 7 true]) in
  let o : Chain :=
    (Toy.buf [x01; x02] 0 false,
     [Toy.buf [x03] 3 false; Toy.buf [x04; x05] 0 false]) in
  fixupSharedBuffer 2 c 5 = Ok (o, o) /\
  contents o = contents c /\ numShared o = 0 /\
  (5 = computeChainDataLength c ->
   computeChainDataLength o = computeChainDataLength o).
Proof.
  intros c o. split; [reflexivity |].
  exact (proj2 (fixupSharedBuffer_output_is_writable 2 c 5) o o eq_refl).
Defined.
(** ** What [evpDecrypt] gives back *)

Lemma decFunc_shape E c output tag (st : cstate E) b out st' :
  decFunc c output tag st = (Ok (b, out), st') ->
  map shape (bufs out) = map shape (bufs output).
Proof.
  unfold decFunc; intros H.
  apply bind_inv_Ok in H. destruct H as ([n o] & st1 & Ht & H).
  apply transformBuffer_shape in Ht.
  apply bind_inv_Ok in H. destruct H as (ok & st2 & _ & H).
  destruct (negb ok); [discriminate |].
  apply bind_inv_Ok in H. destruct H as (r & st3 & _ & H).
  destruct r as [w |]; inversion H; subst; rewrite <- Ht; [| reflexivity].
  unfold bufs; simpl. now rewrite shape_poke.
Qed.

Lemma decFuncBlocks_shape E c output tag (st : cstate E) b out st' :
  decFuncBlocks c output tag st = (Ok (b, out), st') ->
  map shape (bufs out) = map shape (bufs output).
Proof.
  unfold decFuncBlocks, transformBufferBlocks; intros H.
  apply bind_inv_Ok in H. destruct H as (ok & st0 & _ & H).
  destruct (negb ok); [discriminate |].
  apply bind_inv_Ok in H. destruct H as ([[tw ti] [o pos]] & st1 & Ht & H).
  apply feed_blocks_shape in Ht.
  destruct (_ <=? _)%Z.
  - apply bind_inv_Ok in H. destruct H as (r & st2 & _ & H).
    destruct r as [w |]; inversion H; subst; [| exact Ht].
    now rewrite cursor_poke_shape.
  - apply bind_inv_Ok in H. destruct H as (r & st2 & _ & H).
    destruct r as [w |]; [| inversion H; subst; exact Ht].
    destruct (16 <? length w); [discriminate |].
    apply bind_inv_Ok in H. destruct H as (o' & st3 & Hp & H).
    apply push_shape in Hp. destruct Hp as [Hp _].
    inversion H; subst. now rewrite Hp.
Qed.

(** What a call of [evpDecrypt] that returned a chain went through. *)
Lemma evpDecrypt_inv_Some E K c ad iv tagLen (blk : bool) (st : cstate E) q st' :
  evpDecrypt E K c ad iv tagLen blk st = (Ok (Some q), st') ->
  tagLen <= computeChainDataLength c /\
  exists c' t input output st1,
    trimBytes c tagLen = (c', t) /\
    fixupSharedBuffer K c' (computeChainDataLength c - tagLen)
    = Ok (input, output) /\
    (if blk then decFuncBlocks input output t else decFunc input output t) st1
    = (Ok (true, q), st').
Proof.
  unfold evpDecrypt. intros H.
  destruct (Nat.ltb_spec (computeChainDataLength c) tagLen) as [Hlt | Hge];
    [discriminate |].
  split; [exact Hge |].
  destruct (trimBytes c tagLen) as [c' t].
  apply bind_inv_Ok in H. destruct H as ([input output] & st0 & Hfix & H).
  unfold lift in Hfix. inversion Hfix; subst st0.
  apply bind_inv_Ok in H. destruct H as (ok & st1 & _ & H).
  destruct (negb ok); [discriminate |].
  apply bind_inv_Ok in H. destruct H as ([] & st2 & _ & H).
  apply bind_inv_Ok in H. destruct H as ([decrypted o] & st3 & Hd & H).
  destruct decrypted; simpl in H; [| discriminate].
  inversion H; subst.
  exists c', t, input, output, st2. repeat split; assumption.
Qed.


Lemma good_calls_ok tr : good tr -> tr = calls_ok (map fst tr).
Proof.
  unfold good, calls_ok. induction tr as [| [c b] tr IH]; intros H; [reflexivity |].
  inversion H as [| ? ? Hb Ht]; subst. simpl in Hb. subst b.
  cbn [map fst]. now rewrite <- IH.
Qed.

(** When the decryption pass answers [false], the last call was an
    [EVP_DecryptFinal_ex] that did not return 1. *)
Lemma dec_stage_false_final E (blk : bool) c out tag (st : cstate E) out' st' :
  (if blk then decFuncBlocks c out tag else decFunc c out tag) st
  = (Ok (false, out'), st') ->
  exists tr0, clog st' = tr0 ++ [(Call_DecryptFinal_ex, false)].
Proof.
  destruct blk; unfold decFuncBlocks, decFunc; intros H.
  - apply bind_inv_Ok in H. destruct H as (ok & st0 & _ & H).
    destruct (negb ok); [discriminate |].
    apply bind_inv_Ok in H. destruct H as ([[tw ti] [o pos]] & st1 & _ & H).
    destruct (_ <=? _)%Z.
    + apply bind_inv_Ok in H. destruct H as (r & st2 & Hf & H).
      lib_inv Hf.
      destruct Hf as [(c0 & w & _ & Hr & ->) | (_ & Hr & ->)];
        inversion Hr; subst r; inversion H; subst.
      eexists; apply logged_clog.
    + apply bind_inv_Ok in H. destruct H as (r & st2 & Hf & H).
      lib_inv Hf.
      destruct Hf as [(c0 & w & _ & Hr & ->) | (_ & Hr & ->)];
        inversion Hr; subst r.
      * destruct (16 <? length w); [discriminate |].
        apply bind_inv_Ok in H. destruct H as (o' & st3 & _ & H). inversion H.
      * inversion H; subst. eexists; apply logged_clog.
  - apply bind_inv_Ok in H. destruct H as ([n o] & st1 & _ & H).
    apply bind_inv_Ok in H. destruct H as (ok & st0 & _ & H).
    destruct (negb ok); [discriminate |].
    apply bind_inv_Ok in H. destruct H as (r & st2 & Hf & H).
    lib_inv Hf.
    destruct Hf as [(c0 & w & _ & Hr & ->) | (_ & Hr & ->)];
      inversion Hr; subst r; inversion H; subst.
    eexists; apply logged_clog.
Qed.

Lemma evpDecrypt_None_final E K c ad iv tagLen blk (st : cstate E) st' :
  tagLen <= computeChainDataLength c ->
  evpDecrypt E K c ad iv tagLen blk st = (Ok None, st') ->
  exists tr0, clog st' = tr0 ++ [(Call_DecryptFinal_ex, false)].
Proof.
  unfold evpDecrypt. intros Hlen H.
  destruct (Nat.ltb_spec (computeChainDataLength c) tagLen); [lia |].
  destruct (trimBytes c tagLen) as [c' tagOut].
  apply bind_inv_Ok in H. destruct H as ([input output] & st0 & _ & H).
  apply bind_inv_Ok in H. destruct H as (ok & st1 & _ & H).
  destruct (negb ok); [discriminate |].
  apply bind_inv_Ok in H. destruct H as ([] & st2 & _ & H).
  apply bind_inv_Ok in H. destruct H as ([decrypted o] & st3 & Hd & H).
  destruct decrypted; simpl in H; [discriminate |].
  inversion H; subst. eapply dec_stage_false_final; eauto.
Qed.

Lemma decrypt_calls_eq (blk : bool) iv ad pieces tag :
  ([Call_DecryptInit_ex iv] ++ ad_calls (Call_DecryptUpdate true) ad ++
   (if blk then [Call_SET_TAG tag] else [])) ++
  map (Call_DecryptUpdate false) pieces ++
  (if blk then [] else [Call_SET_TAG tag]) ++ [Call_DecryptFinal_ex]
  = decrypt_calls blk iv ad pieces tag ++ [Call_DecryptFinal_ex].
Proof.
  unfold decrypt_calls. destruct blk; simpl; now rewrite <- ?app_assoc, ?app_nil_r.
Qed.


Lemma shapes_numShared_eq c c' :
  map shape (bufs c') = map shape (bufs c) -> numShared c' = numShared c.
Proof.
  intros H. apply numShared_flags.
  apply (f_equal (map (fun sh : nat * nat * nat * bool => snd sh))) in H.
  now rewrite !map_map in H.
Qed.

Lemma dec_stage_shape E (blk : bool) c output tag (st : cstate E) b out st' :
  (if blk then decFuncBlocks c output tag else decFunc c output tag) st
  = (Ok (b, out), st') ->
  map shape (bufs out) = map shape (bufs output).
Proof.
  destruct blk; [apply decFuncBlocks_shape | apply decFunc_shape].
Qed.


(** X6: when [evpDecrypt] returns a chain, every call it made returned 1:
    the init, the associated data, the updates on pieces of the ciphertext
    without its last [tagLen] bytes, [EVP_CTRL_GCM_SET_TAG] with those last
    bytes, and [EVP_DecryptFinal_ex] last.  No plaintext comes back without
    the tag having been checked. *)
Theorem evpDecrypt_plaintext_only_after_tag_check E K (ciphertext : Chain)
    associatedData iv tagLen (useBlockOps : bool) (st : cstate E) q st' :
  evpDecrypt E K ciphertext associatedData iv tagLen useBlockOps st
  = (Ok (Some q), st') ->
  let tag := lastn tagLen (contents ciphertext) in
  let body :=
    firstn (computeChainDataLength ciphertext - tagLen) (contents ciphertext) in
  exists pieces,
    concat pieces = body /\
    clog st' = clog st ++
               calls_ok (decrypt_calls useBlockOps iv associatedData pieces tag
                         ++ [Call_DecryptFinal_ex]).
Proof.
  intros H tag body.
  destruct (evpDecrypt_inv_Some _ _ _ _ _ _ _ _ _ _ H) as [Hlen _].
  destruct (evpDecrypt_feeds E K ciphertext associatedData iv tagLen useBlockOps
              Hlen _ _ _ H) as (ps & tr & Hc & He & [_ Hfull Hflags]).
  fold tag in Hfull. rewrite decrypt_calls_eq in Hfull.
  exists ps. split; [exact Hc |]. rewrite He. f_equal.
  destruct Hflags as [[Hg _] | (tr0 & call & Heq & _ & _)].
  - rewrite <- (Hfull eq_refl). now apply good_calls_ok.
  - apply evpDecrypt_Some_final in H. destruct H as [tr2 H2].
    rewrite He, Heq, app_assoc in H2. apply app_inj_tail in H2.
    destruct H2 as [_ H2]. discriminate.
Qed.

(** X7: when [evpDecrypt] returns [folly::none] for a ciphertext of at
    least [tagLen] bytes, it made all its calls, every one before
    [EVP_DecryptFinal_ex] returned 1, and [EVP_DecryptFinal_ex] did not:
    [folly::none] means the tag was rejected and nothing else. *)
Theorem evpDecrypt_none_is_rejected_tag E K (ciphertext : Chain)
    associatedData iv tagLen (useBlockOps : bool) (st : cstate E) st' :
  tagLen <= computeChainDataLength ciphertext ->
  evpDecrypt E K ciphertext associatedData iv tagLen useBlockOps st
  = (Ok None, st') ->
  let tag := lastn tagLen (contents ciphertext) in
  let body :=
    firstn (computeChainDataLength ciphertext - tagLen) (contents ciphertext) in
  exists pieces,
    concat pieces = body /\
    clog st' = clog st ++
               calls_ok (decrypt_calls useBlockOps iv associatedData pieces tag)
               ++ [(Call_DecryptFinal_ex, false)].
Proof.
  intros Hlen H tag body.
  destruct (evpDecrypt_feeds E K ciphertext associatedData iv tagLen useBlockOps
              Hlen _ _ _ H) as (ps & tr & Hc & He & [_ Hfull Hflags]).
  fold tag in Hfull. rewrite decrypt_calls_eq in Hfull.
  specialize (Hfull eq_refl).
  exists ps. split; [exact Hc |]. rewrite He. f_equal.
  apply evpDecrypt_None_final in H; [| exact Hlen]. destruct H as [tr2 H2].
  destruct Hflags as [[Hg _] | (tr0 & call & Heq & Hg0 & _)].
  - rewrite He in H2.
    assert (Hlast : exists tr1, tr = tr1 ++ [(Call_DecryptFinal_ex, false)]).
    { destruct tr as [| e tr] using rev_ind.
      - destruct (decrypt_calls useBlockOps iv associatedData ps tag); discriminate.
      - rewrite app_assoc in H2. apply app_inj_tail in H2.
        destruct H2 as [_ ->]. now exists tr. }
    destruct Hlast as [tr1 ->]. apply good_last_true in Hg. discriminate.
  - subst tr. rewrite map_app in Hfull. cbn [map fst] in Hfull.
    apply app_inj_tail in Hfull. destruct Hfull as [H0 Hcall]. subst call.
    rewrite <- H0. f_equal. now apply good_calls_ok.
Qed.

(** X5: the chain [evpDecrypt] returns holds [tagLen] bytes less than the
    ciphertext, and none of its elements is shared. *)
Theorem evpDecrypt_plaintext_chain E K (ciphertext : Chain) associatedData iv
    tagLen (useBlockOps : bool) (st : cstate E) q st' :
  evpDecrypt E K ciphertext associatedData iv tagLen useBlockOps st
  = (Ok (Some q), st') ->
  computeChainDataLength q + tagLen = computeChainDataLength ciphertext /\
  numShared q = 0.
Proof.
  intros H. apply evpDecrypt_inv_Some in H.
  destruct H as (Hlen & c' & t & input & output & st1 & Htrim & Hfix & Hrun).
  apply dec_stage_shape in Hrun.
  apply fixupSharedBuffer_Ok in Hfix. destruct Hfix as (_ & _ & Hout & Hn).
  destruct (trimBytes_spec _ _ _ _ Htrim) as (_ & _ & Hsplit & Ht).
  assert (Hc' : computeChainDataLength c' = computeChainDataLength ciphertext - tagLen).
  { rewrite !computeChainDataLength_contents in *.
    apply (f_equal (@length _)) in Hsplit. rewrite length_app in Hsplit. lia. }
  split.
  - rewrite (proj1 (shapes_eq_length _ _ Hrun)), (Hn (eq_sym Hc')). lia.
  - now rewrite (shapes_numShared_eq _ _ Hrun).
Qed.

(** X8: on a library that keeps [buffering] and goes through, [evpDecrypt]
    of a chain in which no element or at least [kMaxSharedInChain] elements
    are shared answers as the library does on the bytes: the chain holds
    [body] and then the [tagLen] bytes [tag]; the library is given [body] in
    pieces and [tag]; when its final accepts, the chain returned holds what
    the updates and the final stored, and when it rejects, the answer is
    [folly::none].  How the bytes are spread over elements and which
    elements are shared does not matter. *)
Theorem evpDecrypt_answer_is_the_librarys (E : EVP)
    (pending : EVP_CIPHER_CTX E -> nat) K (ciphertext : Chain) associatedData
    iv tagLen (useBlockOps : bool) (st : cstate E) body tag :
  buffering E pending ->
  (useBlockOps = false -> forall c, pending c = 0) ->
  (useBlockOps = false -> (Z.of_nat (length body) <= Z.of_N INT_MAX)%Z) ->
  ~ oversize (ad_bufs associatedData) ->
  numShared ciphertext = 0 \/ K <= numShared ciphertext ->
  contents ciphertext = body ++ tag -> length tag = tagLen ->
  (forall pieces, concat pieces = body ->
     open E useBlockOps (cctx st) iv (ad_pieces associatedData) pieces tag
     <> None) ->
  exists pieces ws r res st',
    concat pieces = body /\
    open E useBlockOps (cctx st) iv (ad_pieces associatedData) pieces tag
    = Some (ws, r) /\
    evpDecrypt E K ciphertext associatedData iv tagLen useBlockOps st
    = (Ok res, st') /\
    match r with
    | Some wf => exists q, res = Some q /\ contents q = concat ws ++ wf
    | None => res = None
    end.
Proof.
  intros Hb Hz Hmax Hsize Hshared Hparts Htag Hopen.
  pose proof (Hopen [body] (app_nil_r _)) as Hone. unfold open in Hone.
  destruct (EVP_DecryptInit_ex E (cctx st) iv) as [c1 |] eqn:Hinit;
    [| now contradiction Hone].
  destruct (run_aad (fun c a => EVP_DecryptUpdate E c true a) c1
              (ad_pieces associatedData)) as [c2 |] eqn:Had;
    [| now contradiction Hone].
  clear Hone.
  assert (Hopen' : forall pieces, concat pieces = body ->
                     open_from E useBlockOps c2 pieces tag <> None).
  { intros ps Hps. specialize (Hopen ps Hps). unfold open in Hopen.
    now rewrite Hinit, Had in Hopen. }
  assert (Hp2 : pending c2 = 0).
  { apply (run_aad_keeps _ (fun c => pending c = 0) _
             ltac:(intros c0 a c' w Hf Hc; rewrite <- Hc;
                   eapply (buf_dec_aad Hb); exact Hf) _ _ Had).
    eapply (buf_dec_init Hb); exact Hinit. }
  destruct (trimBytes ciphertext tagLen) as [c' t'] eqn:Htrim.
  destruct (trimBytes_spec _ _ _ _ Htrim) as (Hflags & _ & Hsplit & Hlt).
  assert (Hlen : length (contents ciphertext) = length body + tagLen).
  { rewrite Hparts, length_app. lia. }
  rewrite Nat.min_l in Hlt by lia.
  rewrite Hparts in Hsplit.
  destruct (app_inj_length _ _ _ _ Hsplit ltac:(lia)) as [Hct Ht]. subst t'.
  destruct (fixupSharedBuffer_returns K c' (length body))
    as (input & output & Hfix).
  { now rewrite (numShared_flags _ _ Hflags). }
  destruct (fixupSharedBuffer_Ok _ _ _ _ _ Hfix) as (_ & Hin & _ & Hn).
  rewrite Hct in Hin.
  assert (Hio : length (contents input) = length (contents output)).
  { rewrite <- (computeChainDataLength_contents output), Hn, Hin; [reflexivity |].
    now rewrite computeChainDataLength_contents, Hct. }
  set (st0 := logged st c1 (Call_DecryptInit_ex iv) true).
  destruct (feed_optional_associatedData_forward E
              (fun c a => EVP_DecryptUpdate E c true a) (Call_DecryptUpdate true)
              "Decryption error" associatedData st0 c2 Hsize Had)
    as (st1 & Hfeed & Hctx1).
  assert (Hstage : exists pieces ws r b out' st2,
            concat pieces = contents input /\
            open_from E useBlockOps (cctx st1) pieces tag = Some (ws, r) /\
            (if useBlockOps then decFuncBlocks input output tag
             else decFunc input output tag) st1
            = (Ok (b, out'), st2) /\
            dec_answer ws r b out' /\
            map shape (bufs out') = map shape (bufs output)).
  { destruct useBlockOps.
    - apply (decFuncBlocks_forward E pending Hb).
      + now rewrite Hctx1.
      + exact Hio.
      + rewrite Hctx1, Hin. exact Hopen'.
    - apply (decFunc_forward E pending Hb).
      + now apply Hz.
      + rewrite Hin. now apply Hmax.
      + exact Hio.
      + rewrite Hctx1, Hin. exact Hopen'. }
  destruct Hstage as (ps & ws & r & b & out' & st2 & Hps & Hof & Hrun & Hans & _).
  exists ps, ws, r, (if negb b then None else Some out'), st2.
  split; [now rewrite Hps |].
  split. { unfold open. rewrite Hinit, Had, <- Hctx1. exact Hof. }
  split.
  - unfold evpDecrypt. rewrite computeChainDataLength_contents, Hlen.
    destruct (Nat.ltb_spec (length body + tagLen) tagLen) as [Hlt' | _]; [lia |].
    rewrite Htrim.
    replace (length body + tagLen - tagLen) with (length body) by lia.
    rewrite Hfix.
    unfold lift at 1. unfold bind at 1. unfold lib_DecryptInit_ex.
    erewrite bind_Ok by (apply lib_ctl_Some; exact Hinit).
    cbv beta iota. change (negb true) with false. cbv iota. fold st0.
    erewrite bind_Ok by exact Hfeed. cbv beta iota.
    erewrite bind_Ok by exact Hrun. cbv beta iota.
    now destruct b.
  - unfold dec_answer in Hans. destruct r as [wf |].
    + destruct Hans as [-> Hcont]. now exists out'.
    + now subst b.
Qed.

Lemma evpDecrypt_plaintext_only_after_tag_check_witness :
  let c : Chain :=
    (Toy.buf [x54; x57; x56] 0 true,
     [Toy.buf [x51; x50; x50; x50; x50; x50] 16 true]) in
  let ad : option Chain := Some (Toy.buf [x09; x0a] 0 false, []) in
  let st := Toy.stream_keyed x55 in
  let run := evpDecrypt Toy.stream 2 c ad [x07] 4 false st in
  let q := match fst run with Ok (Some q) => q | _ => c end in
  run = (Ok (Some q), snd run) /\
  exists pieces,
    concat pieces = [x54; x57; x56; x51; x50] /\
    clog (snd run)
    = calls_ok (decrypt_calls false [x07] ad pieces [x50; x50; x50; x50]
                ++ [Call_DecryptFinal_ex]).
Proof.
  intros c ad st run q.
  assert (Hrun : run = (Ok (Some q), snd run)) by (vm_compute; reflexivity).
  split; [exact Hrun |].
  exact (evpDecrypt_plaintext_only_after_tag_check Toy.stream 2 c ad [x07] 4
           false st q (snd run) Hrun).
Defined.

Lemma evpDecrypt_none_is_rejected_tag_witness :
  let c : Chain :=
    (Toy.buf [x54; x57; x56] 0 false,
     [Toy.buf [x51; x50; x50; x50; x50; x51] 16 false]) in
  let ad : option Chain := Some (Toy.buf [x09; x0a] 0 false, []) in
  let st := Toy.stream_keyed x55 in
  let run := evpDecrypt Toy.stream 1 c ad [x07] 4 true st in
  4 <= computeChainDataLength c /\
  run = (Ok None, snd run) /\
  exists pieces,
    concat pieces = [x54; x57; x56; x51; x50] /\
    clog (snd run)
    = calls_ok (decrypt_calls true [x07] ad pieces [x50; x50; x50; x51])
      ++ [(Call_DecryptFinal_ex, false)].
Proof.
  intros c ad st run.
  assert (Hlen : 4 <= computeChainDataLength c) by (vm_compute; lia).
  assert (Hrun : run = (Ok None, snd run)) by (vm_compute; reflexivity).
  split; [exact Hlen |]. split; [exact Hrun |].
  exact (evpDecrypt_none_is_rejected_tag Toy.stream 1 c ad [x07] 4 true st
           (snd run) Hlen Hrun).
Defined.

Lemma evpDecrypt_plaintext_chain_witness :
  let c : Chain :=
    (Toy.buf [x54; x57; x56] 0 true,
     [Toy.buf [x51; x50; x50; x50; x50; x50] 16 true]) in
  let ad : option Chain := Some (Toy.buf [x09; x0a] 0 false, []) in
  let st := Toy.stream_keyed x55 in
  let run := evpDecrypt Toy.stream 2 c ad [x07] 4 false st in
  let q := match fst run with Ok (Some q) => q | _ => c end in
  run = (Ok (Some q), snd run) /\
  computeChainDataLength q + 4 = computeChainDataLength c /\
  numShared q = 0.
Proof.
  intros c ad st run q.
  assert (Hrun : run = (Ok (Some q), snd run)) by (vm_compute; reflexivity).
  split; [exact Hrun |].
  exact (evpDecrypt_plaintext_chain Toy.stream 2 c ad [x07] 4 false st q
           (snd run) Hrun).
Defined.

Lemma evpDecrypt_answer_is_the_librarys_witness :
  let c : Chain :=
    (Toy.buf [x54; x57; x56] 0 true,
     [Toy.buf [x51; x50; x50; x50; x50; x50] 16 true]) in
  let ad : option Chain := Some (Toy.buf [x09; x0a] 0 false, []) in
  let st := Toy.stream_keyed x55 in
  let body := [x54; x57; x56; x51; x50] in
  let tag := [x50; x50; x50; x50] in
  buffering Toy.stream (fun _ => 0) /\
  1 <= numShared c /\
  contents c = body ++ tag /\
  exists pieces ws r res st',
    concat pieces = body /\
    open Toy.stream true (cctx st) [x07] (ad_pieces ad) pieces tag
    = Some (ws, r) /\
    evpDecrypt Toy.stream 1 c ad [x07] 4 true st = (Ok res, st') /\
    match r with
    | Some wf => exists q, res = Some q /\ contents q = concat ws ++ wf
    | None => res = None
    end.
Proof.
  intros c ad st body tag.
  assert (Hb : buffering Toy.stream (fun _ => 0))
    by apply ToyFacts.stream_buffering.
  assert (Hs : 1 <= numShared c) by (vm_compute; lia).
  split; [exact Hb |]. split; [exact Hs |]. split; [reflexivity |].
  apply (evpDecrypt_answer_is_the_librarys Toy.stream (fun _ => 0) 1 c ad
           [x07] 4 true st body tag Hb).
  - discriminate.
  - discriminate.
  - intros (b & Hin & He). destruct Hin as [<- | []].
    vm_compute in He. discriminate.
  - right. exact Hs.
  - reflexivity.
  - reflexivity.
  - intros ps _.
    change (cctx st) with (Toy.mkSctx x55 [] None).
    rewrite ToyFacts.stream_open. discriminate.
Defined.
(** ** The tag and the order of the calls of [evpDecrypt] *)

(** On a library that keeps [buffering] and goes through, [evpDecrypt] of a
    chain in which no element or at least [kMaxSharedInChain] elements are
    shared returns, with the answer of the library. *)
Lemma evpDecrypt_goes_through (E : EVP)
    (pending : EVP_CIPHER_CTX E -> nat) K (ciphertext : Chain) associatedData
    iv tagLen (useBlockOps : bool) (st : cstate E) body tag :
  buffering E pending ->
  (useBlockOps = false -> forall c, pending c = 0) ->
  (useBlockOps = false -> (Z.of_nat (length body) <= Z.of_N INT_MAX)%Z) ->
  ~ oversize (ad_bufs associatedData) ->
  numShared ciphertext = 0 \/ K <= numShared ciphertext ->
  contents ciphertext = body ++ tag -> length tag = tagLen ->
  (forall pieces, concat pieces = body ->
     open E useBlockOps (cctx st) iv (ad_pieces associatedData) pieces tag
     <> None) ->
  exists pieces ws r res st',
    concat pieces = body /\
    open E useBlockOps (cctx st) iv (ad_pieces associatedData) pieces tag
    = Some (ws, r) /\
    evpDecrypt E K ciphertext associatedData iv tagLen useBlockOps st
    = (Ok res, st') /\
    match r with
    | Some wf => exists q, res = Some q /\ contents q = concat ws ++ wf
    | None => res = None
    end.
Proof.
  intros Hb Hz Hmax Hsize Hshared Hparts Htag Hopen.
  pose proof (Hopen [body] (app_nil_r _)) as Hone. unfold open in Hone.
  destruct (EVP_DecryptInit_ex E (cctx st) iv) as [c1 |] eqn:Hinit;
    [| now contradiction Hone].
  destruct (run_aad (fun c a => EVP_DecryptUpdate E c true a) c1
              (ad_pieces associatedData)) as [c2 |] eqn:Had;
    [| now contradiction Hone].
  clear Hone.
  assert (Hopen' : forall pieces, concat pieces = body ->
                     open_from E useBlockOps c2 pieces tag <> None).
  { intros ps Hps. specialize (Hopen ps Hps). unfold open in Hopen.
    now rewrite Hinit, Had in Hopen. }
  assert (Hp2 : pending c2 = 0).
  { apply (run_aad_keeps _ (fun c => pending c = 0) _
             ltac:(intros c0 a c' w Hf Hc; rewrite <- Hc;
                   eapply (buf_dec_aad Hb); exact Hf) _ _ Had).
    eapply (buf_dec_init Hb); exact Hinit. }
  destruct (trimBytes ciphertext tagLen) as [c' t'] eqn:Htrim.
  destruct (trimBytes_spec _ _ _ _ Htrim) as (Hflags & _ & Hsplit & Hlt).
  assert (Hlen : length (contents ciphertext) = length body + tagLen).
  { rewrite Hparts, length_app. lia. }
  rewrite Nat.min_l in Hlt by lia.
  rewrite Hparts in Hsplit.
  destruct (app_inj_length _ _ _ _ Hsplit ltac:(lia)) as [Hct Ht]. subst t'.
  destruct (fixupSharedBuffer_returns K c' (length body))
    as (input & output & Hfix).
  { now rewrite (numShared_flags _ _ Hflags). }
  destruct (fixupSharedBuffer_Ok _ _ _ _ _ Hfix) as (_ & Hin & _ & Hn).
  rewrite Hct in Hin.
  assert (Hio : length (contents input) = length (contents output)).
  { rewrite <- (computeChainDataLength_contents output), Hn, Hin; [reflexivity |].
    now rewrite computeChainDataLength_contents, Hct. }
  set (st0 := logged st c1 (Call_DecryptInit_ex iv) true).
  destruct (feed_optional_associatedData_forward E
              (fun c a => EVP_DecryptUpdate E c true a) (Call_DecryptUpdate true)
              "Decryption error" associatedData st0 c2 Hsize Had)
    as (st1 & Hfeed & Hctx1).
  assert (Hstage : exists pieces ws r b out' st2,
            concat pieces = contents input /\
            open_from E useBlockOps (cctx st1) pieces tag = Some (ws, r) /\
            (if useBlockOps then decFuncBlocks input output tag
             else decFunc input output tag) st1
            = (Ok (b, out'), st2) /\
            dec_answer ws r b out' /\
            map shape (bufs out') = map shape (bufs output)).
  { destruct useBlockOps.
    - apply (decFuncBlocks_forward E pending Hb).
      + now rewrite Hctx1.
      + exact Hio.
      + rewrite Hctx1, Hin. exact Hopen'.
    - apply (decFunc_forward E pending Hb).
      + now apply Hz.
      + rewrite Hin. now apply Hmax.
      + exact Hio.
      + rewrite Hctx1, Hin. exact Hopen'. }
  destruct Hstage as (ps & ws & r & b & out' & st2 & Hps & Hof & Hrun & Hans & _).
  exists ps, ws, r, (if negb b then None else Some out'), st2.
  split; [now rewrite Hps |].
  split. { unfold open. rewrite Hinit, Had, <- Hctx1. exact Hof. }
  split.
  - unfold evpDecrypt. rewrite computeChainDataLength_contents, Hlen.
    destruct (Nat.ltb_spec (length body + tagLen) tagLen) as [Hlt' | _]; [lia |].
    rewrite Htrim.
    replace (length body + tagLen - tagLen) with (length body) by lia.
    rewrite Hfix.
    unfold lift at 1. unfold bind at 1. unfold lib_DecryptInit_ex.
    erewrite bind_Ok by (apply lib_ctl_Some; exact Hinit).
    cbv beta iota. change (negb true) with false. cbv iota. fold st0.
    erewrite bind_Ok by exact Hfeed. cbv beta iota.
    erewrite bind_Ok by exact Hrun. cbv beta iota.
    now destruct b.
  - unfold dec_answer in Hans. destruct r as [wf |].
    + destruct Hans as [-> Hcont]. now exists out'.
    + now subst b.
Qed.

(** C7: a run of [evpDecrypt] on a ciphertext that holds at least
    [tagLen] bytes.  The chain's bytes split into a body and the last
    [tagLen] bytes, the tag.  In every run, the calls made are, in this
    order and up to where the run stopped: the init, the associated data,
    then in stream mode the updates, the tag and the final, and with block
    operations the tag, the updates and the final; the updates are fed
    pieces of the body and nothing else, and the bytes given to
    [EVP_CTRL_GCM_SET_TAG] are the trimmed tag; a run that returns made all
    of these calls.  And the run does make them: on a library that keeps
    [buffering] and goes through, within the sizes an [int] can tell, and
    for a chain in which no element or at least [kMaxSharedInChain]
    elements are shared, [evpDecrypt] returns, every call before the final
    returned 1, and the final returned 1 exactly when a chain comes
    back. *)
Theorem evpDecrypt_trims_tag_and_orders_calls :
  forall E K ciphertext associatedData iv tagLen (useBlockOps : bool)
         (st : cstate E),
    tagLen <= computeChainDataLength ciphertext ->
    let tag := lastn tagLen (contents ciphertext) in
    let body :=
      firstn (computeChainDataLength ciphertext - tagLen) (contents ciphertext) in
    body ++ tag = contents ciphertext /\ length tag = tagLen /\
    (forall r st',
       evpDecrypt E K ciphertext associatedData iv tagLen useBlockOps st
       = (r, st') ->
       exists pieces tr,
         concat pieces = body /\ clog st' = clog st ++ tr /\
         let L := decrypt_calls useBlockOps iv associatedData pieces tag
                  ++ [Call_DecryptFinal_ex] in
         prefix (map fst tr) L /\ (outcome_of r = Returned -> map fst tr = L)) /\
    (forall pending,
       buffering E pending ->
       (useBlockOps = false -> forall c, pending c = 0) ->
       (useBlockOps = false -> (Z.of_nat (length body) <= Z.of_N INT_MAX)%Z) ->
       ~ oversize (ad_bufs associatedData) ->
       numShared ciphertext = 0 \/ K <= numShared ciphertext ->
       (forall pieces, concat pieces = body ->
          open E useBlockOps (cctx st) iv (ad_pieces associatedData) pieces tag
          <> None) ->
       exists pieces res st',
         concat pieces = body /\
         evpDecrypt E K ciphertext associatedData iv tagLen useBlockOps st
         = (Ok res, st') /\
         clog st'
         = clog st ++
           calls_ok (decrypt_calls useBlockOps iv associatedData pieces tag) ++
           [(Call_DecryptFinal_ex,
             match res with Some _ => true | None => false end)]).
Proof.
  intros E K c ad iv tagLen blk st Hlen tag body.
  assert (Hsplit : body ++ tag = contents c).
  { unfold body, tag. rewrite computeChainDataLength_contents. apply firstn_lastn. }
  assert (Htag : length tag = tagLen).
  { unfold tag. apply lastn_length. now rewrite <- computeChainDataLength_contents. }
  split; [exact Hsplit |]. split; [exact Htag |]. split.
  - intros r st' H.
    destruct (evpDecrypt_feeds E K c ad iv tagLen blk Hlen _ _ _ H)
      as (ps & tr & Hc & He & [Hp Hfull _]).
    exists ps, tr. split; [exact Hc |]. split; [exact He |].
    fold tag in Hp, Hfull. rewrite decrypt_calls_eq in Hp, Hfull.
    cbv zeta. split; assumption.
  - intros pending Hb Hz Hmax Hsize Hshared Hopen.
    destruct (evpDecrypt_goes_through E pending K c ad iv tagLen blk st body tag
                Hb Hz Hmax Hsize Hshared (eq_sym Hsplit) Htag Hopen)
      as (_ & _ & _ & res & st' & _ & _ & H & _).
    destruct (evpDecrypt_feeds E K c ad iv tagLen blk Hlen _ _ _ H)
      as (ps & tr & Hc & He & [_ Hfull Hflags]).
    fold tag in Hfull. rewrite decrypt_calls_eq in Hfull.
    specialize (Hfull eq_refl).
    exists ps, res, st'. split; [exact Hc |]. split; [exact H |].
    rewrite He. f_equal.
    destruct res as [q |].
    + destruct Hflags as [[Hg _] | (tr0 & call & Heq & _ & _)].
      * rewrite (good_calls_ok _ Hg), Hfull. unfold calls_ok.
        now rewrite map_app.
      * apply evpDecrypt_Some_final in H. destruct H as [tr2 H2].
        rewrite He, Heq, app_assoc in H2. apply app_inj_tail in H2.
        destruct H2 as [_ H2]. discriminate.
    + apply evpDecrypt_None_final in H; [| exact Hlen]. destruct H as [tr2 H2].
      destruct Hflags as [[Hg _] | (tr0 & call & Heq & Hg0 & _)].
      * rewrite He in H2.
        assert (Hlast : exists tr1, tr = tr1 ++ [(Call_DecryptFinal_ex, false)]).
        { destruct tr as [| e tr _] using rev_ind.
          - destruct (decrypt_calls blk iv ad ps tag); discriminate.
          - rewrite app_assoc in H2. apply app_inj_tail in H2.
            destruct H2 as [_ ->]. now exists tr. }
        destruct Hlast as [tr1 ->]. apply good_last_true in Hg. discriminate.
      * subst tr. rewrite map_app in Hfull. cbn [map fst] in Hfull.
        apply app_inj_tail in Hfull. destruct Hfull as [H0 Hcall]. subst call.
        rewrite <- H0. f_equal. now apply good_calls_ok.
Qed.

Lemma evpDecrypt_trims_tag_and_orders_calls_witness :
  let c : Chain :=
    (Toy.buf [x54; x57; x56] 0 false,
     [Toy.buf [x51; x50; x50; x50; x50; x50] 16 false]) in
  let ad : option Chain := Some (Toy.buf [x09; x0a] 0 false, []) in
  let st := Toy.stream_keyed x55 in
  let run := evpDecrypt Toy.stream 4 c ad [x07] 4 true st in
  let q := match fst run with Ok (Some q) => q | _ => c end in
  4 <= computeChainDataLength c /\
  buffering Toy.stream (fun _ => 0) /\
  numShared c = 0 /\
  fst run = Ok (Some q) /\
  exists pieces,
    concat pieces = [x54; x57; x56; x51; x50] /\
    clog (snd run)
    = [(Call_DecryptInit_ex [x07], true);
       (Call_DecryptUpdate true [x09; x0a], true);
       (Call_SET_TAG [x50; x50; x50; x50], true)]
      ++ map (fun p => (Call_DecryptUpdate false p, true)) pieces
      ++ [(Call_DecryptFinal_ex, true)].
Proof.
  intros c ad st run q.
  assert (Hlen : 4 <= computeChainDataLength c) by (vm_compute; lia).
  assert (Hb : buffering Toy.stream (fun _ => 0))
    by apply ToyFacts.stream_buffering.
  assert (Hq : fst run = Ok (Some q)) by (vm_compute; reflexivity).
  split; [exact Hlen |]. split; [exact Hb |]. split; [reflexivity |].
  split; [exact Hq |].
  destruct (evpDecrypt_trims_tag_and_orders_calls Toy.stream 4 c ad [x07] 4
              true st Hlen) as (_ & _ & _ & Hlive).
  destruct (Hlive (fun _ => 0) Hb) as (ps & res & st' & Hps & Hrun & Hlog).
  - discriminate.
  - discriminate.
  - intros (b & Hin & He). destruct Hin as [<- | []].
    vm_compute in He. discriminate.
  - left. reflexivity.
  - intros pieces _.
    change (cctx st) with (Toy.mkSctx x55 [] None).
    rewrite ToyFacts.stream_open. discriminate.
  - exists ps. split; [exact Hps |].
    fold run in Hrun. rewrite Hrun in Hq |- *. cbn [fst snd] in Hq |- *.
    inversion Hq; subst res. rewrite Hlog.
    unfold decrypt_calls, calls_ok, ad_calls. cbn [app map bufs fst snd ad].
    rewrite map_map. reflexivity.
Defined.
(** ** What [evpEncrypt] does and gives back *)

Lemma encrypt_calls_nofinal iv ad pieces tagLen :
  nofinal (encrypt_calls iv ad pieces tagLen).
Proof.
  unfold encrypt_calls.
  apply nofinal_app; [apply nofinal_one; discriminate |].
  apply nofinal_app; [apply nofinal_ad_calls; discriminate |].
  apply nofinal_app; [apply nofinal_map; discriminate |].
  intros [H | [H | []]]; discriminate.
Qed.

Lemma prefix_In A (l1 l2 : list A) x : prefix l1 l2 -> In x l1 -> In x l2.
Proof. intros [l3 ->] H. apply in_app_iff. now left. Qed.

(** X9: the calls of [evpEncrypt], whatever the run: the init, one update
    without output per element of the associated data, the updates on
    pieces of the plaintext, the final and [EVP_CTRL_GCM_GET_TAG], in this
    order and up to where the run stopped.  A run that returns made all of
    them and each returned 1; a call that did not return 1 is the last one
    made, and the run threw. *)
Theorem evpEncrypt_orders_calls E (plaintext : Chain) associatedData iv tagLen
    (useBlockOps : bool) headroom (st : cstate E) r st' :
  evpEncrypt E plaintext associatedData iv tagLen useBlockOps headroom st
  = (r, st') ->
  exists pieces tr,
    concat pieces = contents plaintext /\
    clog st' = clog st ++ tr /\
    let L := encrypt_calls iv associatedData pieces tagLen in
    prefix (map fst tr) L /\
    (forall c, r = Ok c -> tr = calls_ok L) /\
    (good tr \/
     exists tr0 call w,
       tr = tr0 ++ [(call, false)] /\ good tr0 /\ r = Throw w).
Proof.
  intros H.
  destruct (evpEncrypt_feeds E plaintext associatedData iv tagLen useBlockOps
              headroom _ _ _ H) as (ps & tr & Hc & He & [Hp Hfull Hflags]).
  exists ps, tr. split; [exact Hc |]. split; [exact He |].
  assert (HL : ([Call_EncryptInit_ex iv]
                ++ ad_calls (Call_EncryptUpdate true) associatedData)
               ++ map (Call_EncryptUpdate false) ps
               ++ [Call_EncryptFinal_ex; Call_GET_TAG tagLen]
               = encrypt_calls iv associatedData ps tagLen).
  { unfold encrypt_calls. now rewrite <- app_assoc. }
  rewrite HL in Hp, Hfull. cbv zeta.
  assert (Hfailed : forall tr0 call,
            tr = tr0 ++ [(call, false)] -> fail_outcome call (outcome_of r) ->
            exists w, r = Throw w).
  { intros tr0 call -> Hf.
    assert (Hin : In call (encrypt_calls iv associatedData ps tagLen)).
    { apply (prefix_In _ _ _ _ Hp). rewrite map_app. apply in_app_iff.
      right. now left. }
    destruct call; simpl in Hf;
      try (exfalso; exact (encrypt_calls_nofinal _ _ _ _ Hin));
      destruct Hf as [w Hw]; destruct r; try discriminate;
      inversion Hw; eauto. }
  split; [exact Hp |]. split.
  - intros c ->. destruct Hflags as [[Hg _] | (tr0 & call & Heq & _ & Hf)].
    + rewrite <- (Hfull eq_refl). now apply good_calls_ok.
    + destruct (Hfailed _ _ Heq Hf) as [w Hw]. discriminate.
  - destruct Hflags as [[Hg _] | (tr0 & call & Heq & Hg0 & Hf)].
    + now left.
    + right. destruct (Hfailed _ _ Heq Hf) as [w Hw]. now exists tr0, call, w.
Qed.

(** X10: no element of the chain [evpEncrypt] returns is shared ("output
    is always something we can modify"). *)
Theorem evpEncrypt_output_is_writable E (plaintext : Chain) associatedData iv
    tagLen (useBlockOps : bool) headroom (st : cstate E) c st' :
  evpEncrypt E plaintext associatedData iv tagLen useBlockOps headroom st
  = (Ok c, st') ->
  Forall (fun b => isSharedOne b = false) (bufs c).
Proof.
  intros H. apply evpEncrypt_tagged in H.
  destruct H as (out & c0 & t & Hsh & _ & ->).
  assert (Hflags : flags_clear (map shape (bufs (tagged out tagLen t)))).
  { rewrite tagged_shapes, Hsh, encrypt_output_shapes.
    apply flags_clear_with_tag.
    destruct (isShared plaintext) eqn:Hp.
    - now repeat constructor.
    - now apply isShared_false_flags. }
  unfold flags_clear in Hflags. rewrite Forall_map in Hflags. exact Hflags.
Qed.

(** X11: for a plaintext without bytes, whatever its elements, the chain
    [evpEncrypt] returns holds the tag and nothing else. *)
Theorem evpEncrypt_empty_plaintext E (plaintext : Chain) associatedData iv
    tagLen (useBlockOps : bool) headroom (st : cstate E) c st' :
  contents plaintext = [] ->
  evpEncrypt E plaintext associatedData iv tagLen useBlockOps headroom st
  = (Ok c, st') ->
  exists c0 t,
    EVP_CTRL_GCM_GET_TAG E c0 tagLen = Some (cctx st', t) /\
    contents c = overwrite 0 t (uninitialized tagLen).
Proof.
  intros Hempty H. apply evpEncrypt_tagged in H.
  destruct H as (out & c0 & t & Hsh & Hg & ->).
  exists c0, t. split; [exact Hg |].
  rewrite tagged_contents.
  assert (Hout : contents out = []).
  { apply length_0_nil. rewrite <- computeChainDataLength_contents.
    rewrite (proj1 (shapes_eq_length _ _ Hsh)), encrypt_output_length.
    now rewrite computeChainDataLength_contents, Hempty. }
  now rewrite Hout.
Qed.

(** X12: on a library that keeps [buffering] and goes through, and within
    the sizes an [int] can tell, [evpEncrypt] returns, and the chain it
    returns holds, in this order, what the updates on the pieces of the
    plaintext stored, what the final stored, and the tag; what was stored
    before the tag is as long as the plaintext.  How the plaintext is spread
    over elements and which of them are shared does not matter. *)
Theorem evpEncrypt_output_is_the_librarys (E : EVP)
    (pending : EVP_CIPHER_CTX E -> nat) (plaintext : Chain) associatedData iv
    tagLen (useBlockOps : bool) headroom (st : cstate E) :
  buffering E pending ->
  (useBlockOps = false -> forall c, pending c = 0) ->
  (useBlockOps = false ->
   (Z.of_nat (length (contents plaintext)) <= Z.of_N INT_MAX)%Z) ->
  ~ oversize (ad_bufs associatedData) ->
  (forall pieces, concat pieces = contents plaintext ->
     seal E (cctx st) iv (ad_pieces associatedData) pieces tagLen <> None) ->
  exists pieces ws wf t c st',
    concat pieces = contents plaintext /\
    seal E (cctx st) iv (ad_pieces associatedData) pieces tagLen
    = Some (ws, wf, t) /\
    evpEncrypt E plaintext associatedData iv tagLen useBlockOps headroom st
    = (Ok c, st') /\
    contents c = concat ws ++ wf ++ t /\
    length (concat ws ++ wf) = length (contents plaintext) /\
    length t = tagLen.
Proof.
  intros Hb Hz Hmax Hsize Hseal.
  destruct (evpEncrypt_forward E pending Hb plaintext associatedData iv tagLen
              useBlockOps headroom st Hz Hmax Hsize Hseal)
    as (ps & ws & wf & t & c & st' & Hps & Hs & Hrun & Hcont & Hlen & Ht).
  exists ps, ws, wf, t, c, st'.
  rewrite app_assoc, <- Hcont. repeat split; assumption.
Qed.

Lemma evpEncrypt_orders_calls_witness :
  let p : Chain :=
    (Toy.buf [x01; x02; x03] 0 true, [Toy.buf [x04; x05] 20 false]) in
  let ad : option Chain := Some (Toy.buf [x09; x0a] 0 false, []) in
  let st := Toy.stream_keyed x55 in
  let run := evpEncrypt Toy.stream p ad [x07] 4 true 0 st in
  exists pieces tr,
    concat pieces = contents p /\
    clog (snd run) = clog st ++ tr /\
    prefix (map fst tr) (encrypt_calls [x07] ad pieces 4) /\
    (forall c, fst run = Ok c -> tr = calls_ok (encrypt_calls [x07] ad pieces 4)) /\
    (good tr \/
     exists tr0 call w,
       tr = tr0 ++ [(call, false)] /\ good tr0 /\ fst run = Throw w).
Proof.
  intros p ad st run.
  exact (evpEncrypt_orders_calls Toy.stream p ad [x07] 4 true 0 st
           (fst run) (snd run) (surjective_pairing run)).
Defined.

Lemma evpEncrypt_output_is_writable_witness :
  let p : Chain :=
    (Toy.buf [x01; x02; x03] 0 true, [Toy.buf [x04; x05] 20 false]) in
  let ad : option Chain := Some (Toy.buf [x09; x0a] 0 false, []) in
  let run := evpEncrypt Toy.stream p ad [x07] 4 true 0 (Toy.stream_keyed x55) in
  let c := match fst run with Ok c => c | _ => p end in
  run = (Ok c, snd run) /\ Forall (fun b => isSharedOne b = false) (bufs c).
Proof.
  intros p ad run c.
  assert (Hrun : run = (Ok c, snd run)) by (vm_compute; reflexivity).
  split; [exact Hrun |].
  exact (evpEncrypt_output_is_writable Toy.stream p ad [x07] 4 true 0
           (Toy.stream_keyed x55) c (snd run) Hrun).
Defined.

Lemma evpEncrypt_empty_plaintext_witness :
  let p : Chain := (Toy.buf [] 8 true, [Toy.buf [] 0 false]) in
  let ad : option Chain := Some (Toy.buf [x09; x0a] 0 false, []) in
  let run := evpEncrypt Toy.stream p ad [x07] 4 false 0 (Toy.stream_keyed x55) in
  let c := match fst run with Ok c => c | _ => p end in
  contents p = [] /\ run = (Ok c, snd run) /\
  exists c0 t,
    EVP_CTRL_GCM_GET_TAG Toy.stream c0 4 = Some (cctx (snd run), t) /\
    contents c = overwrite 0 t (uninitialized 4).
Proof.
  intros p ad run c.
  assert (Hrun : run = (Ok c, snd run)) by (vm_compute; reflexivity).
  split; [reflexivity |]. split; [exact Hrun |].
  exact (evpEncrypt_empty_plaintext Toy.stream p ad [x07] 4 false 0
           (Toy.stream_keyed x55) c (snd run) eq_refl Hrun).
Defined.

Lemma evpEncrypt_output_is_the_librarys_witness :
  let p : Chain :=
    (Toy.buf [x01; x02; x03] 0 true, [Toy.buf [x04; x05] 20 false]) in
  let ad : option Chain := Some (Toy.buf [x09; x0a] 0 false, []) in
  let st := Toy.stream_keyed x55 in
  buffering Toy.stream (fun _ => 0) /\
  exists pieces ws wf t c st',
    concat pieces = contents p /\
    seal Toy.stream (cctx st) [x07] (ad_pieces ad) pieces 4 = Some (ws, wf, t) /\
    evpEncrypt Toy.stream p ad [x07] 4 false 3 st = (Ok c, st') /\
    contents c = concat ws ++ wf ++ t /\
    length (concat ws ++ wf) = length (contents p) /\
    length t = 4.
Proof.
  intros p ad st.
  assert (Hb : buffering Toy.stream (fun _ => 0))
    by apply ToyFacts.stream_buffering.
  split; [exact Hb |].
  apply (evpEncrypt_output_is_the_librarys Toy.stream (fun _ => 0) p ad [x07]
           4 false 3 st Hb).
  - reflexivity.
  - intros _. vm_compute. discriminate.
  - intros (b & Hin & He). destruct Hin as [<- | []].
    vm_compute in He. discriminate.
  - intros ps _. change (cctx st) with (Toy.mkSctx x55 [] None).
    rewrite ToyFacts.stream_seal. discriminate.
Defined.
(** ** The exceptions of the kernel *)

Lemma failed_last_after E (st st1 st' : cstate E) tr :
  clog st1 = clog st ++ tr -> failed_last st1 st' -> failed_last st st'.
Proof.
  intros H1 (tr0 & call & H2). exists (tr ++ tr0), call.
  now rewrite H2, H1, <- !app_assoc.
Qed.

Lemma stopped_after E (st st1 st' : cstate E) tr :
  clog st1 = clog st ++ tr -> stopped st1 st' -> stopped st st'.
Proof.
  intros H1 [Hf | (tr0 & p & c & w & H2 & Hu & Hn)].
  - left. eapply failed_last_after; eassumption.
  - right. exists (tr ++ tr0), p, c, w.
    split; [now rewrite H2, H1, <- !app_assoc | now split].
Qed.

Lemma stopped_failed E (st : cstate E) c call :
  stopped st (logged st c call false).
Proof. left. exists [], call. apply logged_clog. Qed.

Lemma throws_bind E A B (m : M E A) (k : A -> M E B) P what :
  throws m P what -> (forall a, throws (k a) P what) ->
  throws (bind m k) P what.
Proof.
  intros Hm Hk st r st' H. apply bind_inv in H.
  destruct H as [(a & st1 & H1 & H2) | [(w & H1 & ->) | (H1 & ->)]].
  - destruct (Hm _ _ _ H1) as [(tr1 & He1) _].
    destruct (Hk a _ _ _ H2) as [(tr2 & He2) Ht]. split.
    + exists (tr1 ++ tr2). now rewrite He2, He1, app_assoc.
    + intros w Hw. destruct (Ht w Hw) as [Hp | [-> Hf]]; [now left |].
      right. split; [reflexivity |]. eapply stopped_after; eassumption.
  - destruct (Hm _ _ _ H1) as [He Ht]. split; [exact He | exact Ht].
  - destruct (Hm _ _ _ H1) as [He _]. split; [exact He | discriminate].
Qed.

Lemma throws_weaken E A (m : M E A) (P P' : string -> Prop) what :
  throws m P what -> (forall w, P w -> P' w) -> throws m P' what.
Proof.
  intros Hm HP st r st' H. destruct (Hm _ _ _ H) as [He Ht].
  split; [exact He |]. intros w Hw. destruct (Ht w Hw); auto.
Qed.

Lemma throws_ret E A (a : A) P what : throws (ret (E := E) a) P what.
Proof.
  intros st r st' H. inversion H; subst.
  split; [exists []; now rewrite app_nil_r | discriminate].
Qed.

Lemma throws_undefined E A P what : throws (@undefined E A) P what.
Proof.
  intros st r st' H. inversion H; subst.
  split; [exists []; now rewrite app_nil_r | discriminate].
Qed.

Lemma throws_throw E A (w : string) (P : string -> Prop) what :
  P w -> throws (@throw E A w) P what.
Proof.
  intros Hp st r st' H. inversion H; subst.
  split; [exists []; now rewrite app_nil_r |].
  intros w' Hw. inversion Hw; subst. now left.
Qed.

Lemma throws_lift E A (x : result A) P what :
  (forall w, x <> Throw w) -> throws (lift (E := E) x) P what.
Proof.
  intros Hx st r st' H. inversion H; subst.
  split; [exists []; now rewrite app_nil_r |].
  intros w Hw. destruct r; try discriminate. inversion Hw; subst.
  now contradiction (Hx w).
Qed.

(** A checked call that stores bytes. *)
Lemma throws_checked_out E B f call what (k : bytes -> M E B) P :
  (forall w, throws (k w) P what) ->
  throws (r <- lib_out f call ;;
          match r with None => throw what | Some w => k w end) P what.
Proof.
  intros Hk st r st' H. apply bind_inv in H.
  destruct H as [(a & st1 & H1 & H2) | [(w & H1 & ->) | (H1 & ->)]];
    apply lib_out_inv in H1;
    destruct H1 as [(c & w0 & _ & Hr & Hst) | (_ & Hr & Hst)];
    try discriminate; inversion Hr; subst a.
  - destruct (Hk w0 _ _ _ H2) as [(tr2 & He2) Ht]. split.
    + exists ([(call, true)] ++ tr2).
      now rewrite He2, Hst, logged_clog, <- app_assoc.
    + intros w Hw. destruct (Ht w Hw) as [Hp | [-> Hf]]; [now left |].
      right. split; [reflexivity |].
      eapply stopped_after; [| exact Hf]. rewrite Hst. apply logged_clog.
  - inversion H2; subst. split.
    + exists [(call, false)]. apply logged_clog.
    + intros w Hw. inversion Hw; subst. right. split; [reflexivity |].
      apply stopped_failed.
Qed.

(** A decryption final: it never throws. *)
Lemma throws_unchecked_out E B f call (k : option bytes -> M E B) P what :
  (forall r, throws (k r) P what) ->
  throws (r <- lib_out f call ;; k r) P what.
Proof.
  intros Hk st r st' H. apply bind_inv in H.
  destruct H as [(a & st1 & H1 & H2) | [(w & H1 & ->) | (H1 & ->)]];
    apply lib_out_inv in H1;
    destruct H1 as [(c & w0 & _ & Hr & Hst) | (_ & Hr & Hst)];
    try discriminate; inversion Hr; subst a;
    destruct (Hk _ _ _ _ H2) as [(tr2 & He2) Ht]; (split;
    [ eexists (_ :: tr2);
      rewrite He2, Hst, logged_clog, <- app_assoc; reflexivity
    | intros w Hw; destruct (Ht w Hw) as [Hp | [-> Hf]]; [now left |];
      right; split; [reflexivity |];
      eapply stopped_after; [| exact Hf]; rewrite Hst; apply logged_clog ]).
Qed.

(** A checked call that stores nothing. *)
Lemma throws_checked_ctl E B f call what (k : M E B) P :
  throws k P what ->
  throws (ok <- lib_ctl f call ;; if negb ok then throw what else k) P what.
Proof.
  intros Hk st r st' H. apply bind_inv in H.
  destruct H as [(a & st1 & H1 & H2) | [(w & H1 & ->) | (H1 & ->)]];
    apply lib_ctl_inv in H1;
    destruct H1 as [(c & _ & Hr & Hst) | (_ & Hr & Hst)];
    try discriminate; inversion Hr; subst a; simpl in H2.
  - destruct (Hk _ _ _ H2) as [(tr2 & He2) Ht]. split.
    + exists ([(call, true)] ++ tr2).
      now rewrite He2, Hst, logged_clog, <- app_assoc.
    + intros w Hw. destruct (Ht w Hw) as [Hp | [-> Hf]]; [now left |].
      right. split; [reflexivity |].
      eapply stopped_after; [| exact Hf]. rewrite Hst. apply logged_clog.
  - inversion H2; subst. split.
    + exists [(call, false)]. apply logged_clog.
    + intros w Hw. inversion Hw; subst. right. split; [reflexivity |].
      apply stopped_failed.
Qed.

Lemma throws_int_add E n len P what : throws (int_add (E := E) n len) P what.
Proof.
  unfold int_add. destruct (_ <? _)%Z; [apply throws_undefined | apply throws_ret].
Qed.

Lemma throws_push E c pos bs (P : string -> Prop) what :
  P "overflow"%string -> throws (push (E := E) c pos bs) P what.
Proof.
  intros Hp. unfold push. destruct (_ <? _); [now apply throws_throw | apply throws_ret].
Qed.

Section ThrowLoops.
Variable E : EVP.
Variable Acc : Type.
Variable func : Acc -> bytes -> M E (Acc * bytes).
Variables too_much what : string.
Hypothesis func_throws : forall s p,
  throws (func s p)
         (fun w => w = too_much /\ exceeds_int (length p) = true) what.

Lemma transformBuffer_inner_throws out : forall s current done offset,
  throws (transformBuffer_inner func s current done out offset)
         (fun w => w = too_much /\ exceeds_int (length current) = true) what.
Proof.
  induction out as [| cur todo IH]; intros s current done offset.
  - destruct current; [apply throws_ret | apply throws_undefined].
  - destruct (list_eq_dec Byte.byte_eq_dec current []) as [-> | Hne].
    { rewrite transformBuffer_inner_nil. apply throws_ret. }
    rewrite transformBuffer_inner_cons by assumption.
    destruct (length current <? length (data cur) - offset).
    + apply throws_bind; [apply func_throws |].
      intros [s1 w]. apply throws_ret.
    + apply throws_bind.
      * eapply throws_weaken; [apply func_throws |].
        intros w [-> Hx]. split; [reflexivity |].
        eapply exceeds_int_mono; [| exact Hx]. rewrite length_firstn. lia.
      * intros [s1 w]. eapply throws_weaken; [apply IH |].
        intros w' [-> Hx]. split; [reflexivity |].
        eapply exceeds_int_mono; [| exact Hx]. rewrite length_skipn. lia.
Qed.

Lemma transformBuffer_outer_throws ins : forall s done out offset,
  throws (transformBuffer_outer func s ins done out offset)
         (fun w => w = too_much /\ oversize ins) what.
Proof.
  induction ins as [| cur rest IH]; intros s done out offset; simpl.
  - apply throws_ret.
  - apply throws_bind.
    + eapply throws_weaken; [apply transformBuffer_inner_throws |].
      intros w [-> Hx]. split; [reflexivity | now apply oversize_cons].
    + intros [s1 [[d o] off]]. eapply throws_weaken; [apply IH |].
      intros w [-> Hx]. split; [reflexivity | now apply oversize_tail].
Qed.

Lemma transformBuffer_throws inp out s :
  throws (transformBuffer func inp out s)
         (fun w => w = too_much /\ oversize (bufs inp)) what.
Proof.
  unfold transformBuffer. apply throws_bind.
  - apply transformBuffer_outer_throws.
  - intros [s1 [[d o] off]].
    destruct (d ++ o); [apply throws_undefined | apply throws_ret].
Qed.

Lemma feed_blocks_throws pieces : forall s out pos,
  Forall (fun p => length p <= 16) pieces ->
  throws (feed_blocks func s pieces out pos)
         (fun w => w = "overflow"%string) what.
Proof.
  induction pieces as [| p ps IH]; intros s out pos Hsmall; simpl feed_blocks.
  - apply throws_ret.
  - inversion Hsmall as [| ? ? Hp Hps]; subst.
    apply throws_bind.
    + eapply throws_weaken; [apply func_throws |].
      intros w [_ Hx]. rewrite exceeds_int_16 in Hx by assumption. discriminate.
    + intros [s1 w]. apply throws_bind.
      * now apply throws_push.
      * intros out'. now apply IH.
Qed.

End ThrowLoops.

Lemma throws_stream_lambda E
    (f : bytes -> EVP_CIPHER_CTX E -> option (EVP_CIPHER_CTX E * bytes))
    (mk : bytes -> Call) too_much what numWritten (piece : bytes) :
  throws (E := E)
         (if exceeds_int (length piece) then throw too_much
          else r <- lib_out (f piece) (mk piece) ;;
               match r with
               | None => throw what
               | Some w => n <- int_add numWritten (length w) ;; ret (n, w)
               end)
         (fun w => w = too_much /\ exceeds_int (length piece) = true) what.
Proof.
  destruct (exceeds_int (length piece)) eqn:Hx.
  - now apply throws_throw.
  - apply throws_checked_out. intros w.
    apply throws_bind; [apply throws_int_add | intros n; apply throws_ret].
Qed.

Lemma throws_block_lambda E
    (f : bytes -> EVP_CIPHER_CTX E -> option (EVP_CIPHER_CTX E * bytes))
    (mk : bytes -> Call) too_much what (tw ti : nat) (piece : bytes) :
  throws (E := E)
         (if exceeds_int (length piece) then throw too_much
          else r <- lib_out (f piece) (mk piece) ;;
               match r with
               | None => throw what
               | Some w => ret ((tw + length w, ti + length piece), w)
               end)
         (fun w => w = too_much /\ exceeds_int (length piece) = true) what.
Proof.
  destruct (exceeds_int (length piece)) eqn:Hx.
  - now apply throws_throw.
  - apply throws_checked_out. intros w. apply throws_ret.
Qed.

(** The lambda of [encFuncBlocks], which also throws when [outLen < 0]. *)
Lemma throws_enc_block_lambda E (tw ti : nat) (piece : bytes) :
  throws (E := E)
         (if exceeds_int (length piece)
          then throw "Encryption error: too much plain text"%string
          else negative <- outLen_negative false piece ;;
               r <- lib_EncryptUpdate false piece ;;
               match r with
               | None => throw "Encryption error"%string
               | Some w =>
                 if negative then throw "Encryption error"%string
                 else ret ((tw + length w, ti + length piece), w)
               end)
         (fun w => w = "Encryption error: too much plain text"%string /\
                   exceeds_int (length piece) = true)
         "Encryption error".
Proof.
  destruct (exceeds_int (length piece)) eqn:Hx.
  - now apply throws_throw.
  - intros st r st' H. unfold bind at 1, outLen_negative in H.
    apply bind_inv in H.
    destruct H as [(a & st1 & H1 & H2) | [(w & H1 & ->) | (H1 & ->)]];
      unfold lib_EncryptUpdate in H1; apply lib_out_inv in H1;
      destruct H1 as [(c & w0 & Hu & Hr & Hst) | (_ & Hr & Hst)];
      try discriminate; inversion Hr; subst a.
    + destruct (EVP_EncryptUpdate_outl_negative E (cctx st) false piece) eqn:Hn;
        inversion H2; subst; (split; [eexists; apply logged_clog |]).
      * intros w Hw. inversion Hw; subst. right. split; [reflexivity |].
        right. exists [], piece, (cctx st), w0.
        split; [apply logged_clog | now split].
      * discriminate.
    + inversion H2; subst. split; [eexists; apply logged_clog |].
      intros w Hw. inversion Hw; subst. right. split; [reflexivity |].
      apply stopped_failed.
Qed.

Lemma feed_associatedData_throws E
    (f : bytes -> EVP_CIPHER_CTX E -> option (EVP_CIPHER_CTX E * bytes))
    (mk : bytes -> Call) what ads :
  throws (E := E)
    (feed_associatedData (fun a => lib_out (f a) (mk a)) what ads)
    (fun w => w = "too much associated data"%string /\ oversize ads) what.
Proof.
  induction ads as [| b rest IH]; simpl feed_associatedData.
  - apply throws_ret.
  - destruct (exceeds_int (length (data b))) eqn:Hx.
    + apply throws_throw. split; [reflexivity | now apply oversize_cons].
    + apply throws_checked_out. intros _.
      eapply throws_weaken; [apply IH |].
      intros w [-> Ho]. split; [reflexivity | now apply oversize_tail].
Qed.

Lemma feed_optional_associatedData_throws E
    (f : bytes -> EVP_CIPHER_CTX E -> option (EVP_CIPHER_CTX E * bytes))
    (mk : bytes -> Call) what ad :
  throws (E := E)
    (feed_optional_associatedData (fun a => lib_out (f a) (mk a)) what ad)
    (fun w => w = "too much associated data"%string /\ oversize (ad_bufs ad))
    what.
Proof.
  destruct ad as [a |]; [apply feed_associatedData_throws | apply throws_ret].
Qed.


Lemma encFunc_throws E (p out : Chain) :
  throws (encFunc (E := E) p out)
         (fun w => w = "Encryption error: too much plain text"%string /\
                   oversize (bufs p))
         "Encryption error".
Proof.
  unfold encFunc. apply throws_bind.
  - apply transformBuffer_throws. intros s piece.
    apply (throws_stream_lambda E (fun p c => EVP_EncryptUpdate E c false p)
             (Call_EncryptUpdate false)).
  - intros [n o]. unfold lib_EncryptFinal_ex.
    apply throws_checked_out. intros w. apply throws_ret.
Qed.

Lemma encFuncBlocks_throws E (p out : Chain) :
  throws (encFuncBlocks (E := E) p out) (fun w => w = "overflow"%string)
         "Encryption error".
Proof.
  unfold encFuncBlocks, transformBufferBlocks. apply throws_bind.
  - apply (feed_blocks_throws E _ _ "Encryption error: too much plain text").
    + intros [tw ti] piece. apply throws_enc_block_lambda.
    + apply blocks_small.
  - intros [[tw ti] [o pos]]. unfold lib_EncryptFinal_ex.
    destruct (_ <=? _)%Z; apply throws_checked_out; intros w.
    + apply throws_ret.
    + destruct (16 <? length w); [apply throws_undefined | now apply throws_push].
Qed.

Lemma evpEncrypt_throws E p ad iv tagLen (blk : bool) headroom :
  throws (evpEncrypt E p ad iv tagLen blk headroom) (encrypt_reasons blk ad p)
         "Encryption error".
Proof.
  unfold evpEncrypt, lib_EncryptInit_ex.
  apply throws_checked_ctl. apply throws_bind.
  - eapply throws_weaken.
    + apply (feed_optional_associatedData_throws E
               (fun a c => EVP_EncryptUpdate E c true a) (Call_EncryptUpdate true)).
    + intros w H. now left.
  - intros _. apply throws_bind.
    + destruct blk.
      * eapply throws_weaken; [apply encFuncBlocks_throws |].
        intros w ->. right; right. now split.
      * eapply throws_weaken; [apply encFunc_throws |].
        intros w [-> Ho]. right; left. now repeat split.
    + intros out. unfold lib_GET_TAG.
      destruct (_ <? _); apply throws_checked_out; intros t; apply throws_ret.
Qed.

Lemma throws_bind_lift E A B (x : result A) (k : A -> M E B) P what :
  (forall w, x <> Throw w) ->
  (forall a, x = Ok a -> throws (k a) P what) ->
  throws (bind (lift x) k) P what.
Proof.
  intros Hx Hk. destruct x as [a | w |].
  - intros st r st' H. unfold bind, lift in H. exact (Hk a eq_refl _ _ _ H).
  - now contradiction (Hx w).
  - intros st r st' H. unfold bind, lift in H. inversion H; subst.
    split; [exists []; now rewrite app_nil_r | discriminate].
Qed.

Lemma unshare_each_never_throws arr : forall c w, unshare_each arr c <> Throw w.
Proof.
  induction arr as [| [p |] arr IH]; intros c w; simpl; try discriminate.
  destruct (p =? 0); [apply IH |].
  destruct (nth_error (snd c) (p - 1)); [apply IH | discriminate].
Qed.

Lemma fixupSharedBuffer_never_throws K c n w :
  fixupSharedBuffer K c n <> Throw w.
Proof.
  unfold fixupSharedBuffer.
  destruct (count_shared K (bufs c) 0 0 (repeat None K)) as [m arr].
  destruct (m =? 0); [discriminate |].
  destruct (m <=? K); [| discriminate].
  destruct (unshare_each arr c) eqn:Hu; try discriminate.
  now apply unshare_each_never_throws in Hu.
Qed.

Lemma oversize_total l :
  oversize l -> exceeds_int (length (chain_bytes l)) = true.
Proof.
  intros (b & Hin & Hx). eapply exceeds_int_mono; [| exact Hx].
  induction l as [| x l IH]; [destruct Hin |].
  rewrite chain_bytes_cons, length_app.
  destruct Hin as [-> | Hin]; [lia | specialize (IH Hin); lia].
Qed.


Lemma decFunc_throws E (c out : Chain) tag :
  throws (decFunc (E := E) c out tag)
         (fun w => w = "Decryption error: too much cipher text"%string /\
                   oversize (bufs c))
         "Decryption error".
Proof.
  unfold decFunc. apply throws_bind.
  - apply transformBuffer_throws. intros s piece.
    apply (throws_stream_lambda E (fun p c => EVP_DecryptUpdate E c false p)
             (Call_DecryptUpdate false)).
  - intros [n o]. unfold lib_SET_TAG. apply throws_checked_ctl.
    unfold lib_DecryptFinal_ex. apply throws_unchecked_out.
    intros [w |]; apply throws_ret.
Qed.

Lemma decFuncBlocks_throws E (c out : Chain) tag :
  throws (decFuncBlocks (E := E) c out tag) (fun w => w = "overflow"%string)
         "Decryption error".
Proof.
  unfold decFuncBlocks, transformBufferBlocks, lib_SET_TAG.
  apply throws_checked_ctl. apply throws_bind.
  - apply (feed_blocks_throws E _ _ "Decryption error: too much cipher text").
    + intros [tw ti] piece.
      apply (throws_block_lambda E (fun p c => EVP_DecryptUpdate E c false p)
               (Call_DecryptUpdate false)).
    + apply blocks_small.
  - intros [[tw ti] [o pos]]. unfold lib_DecryptFinal_ex.
    destruct (_ <=? _)%Z; apply throws_unchecked_out; intros [w |];
      try apply throws_ret.
    destruct (16 <? length w); [apply throws_undefined |].
    apply throws_bind; [now apply throws_push | intros o'; apply throws_ret].
Qed.

Lemma evpDecrypt_throws E K c ad iv tagLen (blk : bool) :
  throws (evpDecrypt E K c ad iv tagLen blk) (decrypt_reasons blk ad c)
         "Decryption error".
Proof.
  unfold evpDecrypt.
  destruct (Nat.ltb_spec (computeChainDataLength c) tagLen) as [Hlt | Hge];
    [apply throws_ret |].
  destruct (trimBytes c tagLen) as [c' tagOut] eqn:Htrim.
  apply throws_bind_lift; [apply fixupSharedBuffer_never_throws |].
  intros [input output] Hfix.
  unfold lib_DecryptInit_ex. apply throws_checked_ctl. apply throws_bind.
  - eapply throws_weaken.
    + apply (feed_optional_associatedData_throws E
               (fun a c => EVP_DecryptUpdate E c true a) (Call_DecryptUpdate true)).
    + intros w H. now left.
  - intros _. apply throws_bind.
    + destruct blk.
      * eapply throws_weaken; [apply decFuncBlocks_throws |].
        intros w ->. right; right. now split.
      * eapply throws_weaken; [apply decFunc_throws |].
        intros w [-> Ho]. right; left. split; [reflexivity |].
        split; [reflexivity |].
        apply oversize_total in Ho. eapply exceeds_int_mono; [| exact Ho].
        fold (contents input). rewrite (fixupSharedBuffer_input _ _ _ _ _ Hfix).
        destruct (trimBytes_spec _ _ _ _ Htrim) as (_ & _ & Hsplit & _).
        rewrite computeChainDataLength_contents, <- Hsplit, length_app. lia.
    + intros [decrypted o]. destruct (negb decrypted); apply throws_ret.
Qed.

(** [evpDecrypt] makes no [EVP_EncryptUpdate]. *)
Lemma evpDecrypt_not_negative_last E K c ad iv tagLen (blk : bool)
    (st : cstate E) r st' :
  evpDecrypt E K c ad iv tagLen blk st = (r, st') -> ~ negative_last st st'.
Proof.
  intros H (tr0 & p & c0 & w & Hlog & _).
  destruct (Nat.lt_ge_cases (computeChainDataLength c) tagLen) as [Hs | Hlen].
  { rewrite evpDecrypt_short in H by assumption. inversion H; subst.
    apply (f_equal (@length _)) in Hlog. rewrite !length_app in Hlog.
    simpl in Hlog. lia. }
  destruct (evpDecrypt_feeds E K c ad iv tagLen blk Hlen _ _ _ H)
    as (ps & tr & _ & He & [Hp _ _]).
  rewrite He in Hlog. apply app_inv_head in Hlog. subst tr.
  assert (Hin : In (Call_EncryptUpdate false p)
                   (map fst (tr0 ++ [(Call_EncryptUpdate false p, true)])))
    by (rewrite map_app, in_app_iff; right; now left).
  apply (prefix_In _ _ _ _ Hp) in Hin.
  repeat (apply in_app_iff in Hin; destruct Hin as [Hin | Hin]);
    try (destruct blk; simpl in Hin; repeat destruct Hin as [Hin | Hin];
         discriminate || contradiction);
    try (apply in_map_iff in Hin; destruct Hin as (x & Hx & _); discriminate).
  unfold ad_calls in Hin. destruct ad; [| contradiction].
  apply in_map_iff in Hin. destruct Hin as (x & Hx & _). discriminate.
Qed.

(** X14: the exceptions of [evpDecrypt].  A run that throws throws one of
    four messages, each for its own reason: "too much associated data" when
    an element of the associated data is longer than an [int] can tell;
    "Decryption error: too much cipher text" only without block operations,
    and only when the ciphertext holds more bytes than an [int] can tell;
    the [std::out_of_range] of the output cursor (here "overflow") only with
    block operations; and "Decryption error" when the last call made on the
    library did not return 1.  Unsharing the ciphertext never throws. *)
Theorem evpDecrypt_exception_messages :
  forall E K ciphertext associatedData iv tagLen useBlockOps st w st',
    evpDecrypt E K ciphertext associatedData iv tagLen useBlockOps st
    = (Throw w, st') ->
    (w = "too much associated data"%string /\
     oversize (ad_bufs associatedData)) \/
    (w = "Decryption error: too much cipher text"%string /\
     useBlockOps = false /\
     exceeds_int (computeChainDataLength ciphertext) = true) \/
    (w = "overflow"%string /\ useBlockOps = true) \/
    (w = "Decryption error"%string /\
     exists tr0 call, clog st' = clog st ++ tr0 ++ [(call, false)]).
Proof.
  intros E K c ad iv tagLen blk st w st' H.
  destruct (evpDecrypt_throws E K c ad iv tagLen blk _ _ _ H) as [_ Hw].
  destruct (Hw w eq_refl) as [[Ha | [Hp | Ho]] | [-> Hf]].
  - now left.
  - right; now left.
  - right; right; now left.
  - right; right; right. split; [reflexivity |].
    destruct Hf as [Hf | Hn]; [exact Hf |].
    now apply (evpDecrypt_not_negative_last _ _ _ _ _ _ _ _ _ _ H) in Hn.
Qed.

Lemma evpDecrypt_exception_messages_witness :
  let c : Chain := (Toy.buf [x61; x62; x63; x00; x00; x00; x00] 0 false, []) in
  let run := evpDecrypt Toy.faulty 4 c None [x07] 4 true (Toy.fails_at 1) in
  fst run = Throw "Decryption error"%string /\
  clog (snd run)
  = [(Call_DecryptInit_ex [x07], true);
     (Call_SET_TAG [x00; x00; x00; x00], false)] /\
  exists tr0 call,
    clog (snd run) = clog (Toy.fails_at 1) ++ tr0 ++ [(call, false)].
Proof.
  intros c run.
  assert (Hrun : run = (Throw "Decryption error"%string, snd run))
    by (vm_compute; reflexivity).
  split; [vm_compute; reflexivity |].
  split; [vm_compute; reflexivity |].
  destruct (evpDecrypt_exception_messages Toy.faulty 4 c None [x07] 4 true
              (Toy.fails_at 1) _ _ Hrun)
    as [[Hw _] | [[Hw _] | [[Hw _] | [_ Hf]]]];
    try discriminate Hw.
  exact Hf.
Defined.

(** ** The errors of the kernel *)

Section NoOverflow.
Variable E : EVP.
Variable pending : EVP_CIPHER_CTX E -> nat.
Hypothesis Hb : buffering E pending.

(** The associated data leaves what the context holds back as it is. *)
Lemma feed_associatedData_pending what ads : forall (st : cstate E) u st',
  feed_associatedData (lib_EncryptUpdate true) what ads st = (Ok u, st') ->
  pending (cctx st') = pending (cctx st).
Proof.
  induction ads as [| b rest IH]; intros st u st' H; cbn [feed_associatedData] in H.
  - now inversion H.
  - destruct (exceeds_int (length (data b))); [discriminate |].
    apply bind_inv_Ok in H. destruct H as (r & st1 & H1 & H).
    lib_inv H1.
    destruct H1 as [(c & w & Hu & Hr & ->) | (_ & Hr & ->)];
      inversion Hr; subst r; [| discriminate].
    rewrite (IH _ _ _ H). simpl. eapply (buf_enc_aad Hb); exact Hu.
Qed.

(** The block pass of encryption on a library that keeps [buffering]: the
    cursor never runs off the output chain, and the cursor and what the
    library holds back add up to what was given. *)
Lemma feed_blocks_enc_fits pieces : forall tw ti out pos (st : cstate E) r st',
  pos + pending (cctx st) + length (concat pieces) <= length (contents out) ->
  feed_blocks
    (fun '(totalWritten, totalInput) plain =>
       if exceeds_int (length plain)
       then throw "Encryption error: too much plain text"%string
       else
         negative <- outLen_negative false plain ;;
         r <- lib_EncryptUpdate false plain ;;
         match r with
         | None => throw "Encryption error"%string
         | Some w =>
           if negative then throw "Encryption error"%string
           else ret ((totalWritten + length w, totalInput + length plain), w)
         end)
    (tw, ti) pieces out pos st = (r, st') ->
  r <> Throw "overflow"%string /\
  forall s' out' pos',
    r = Ok (s', (out', pos')) ->
    pos' + pending (cctx st') = pos + pending (cctx st) + length (concat pieces) /\
    length (contents out') = length (contents out).
Proof.
  induction pieces as [| p ps IH]; intros tw ti out pos st r st' Hroom H;
    cbn [feed_blocks] in H.
  - inversion H; subst. split; [discriminate |].
    intros s' out' pos' Hr. inversion Hr; subst. simpl. split; [lia | reflexivity].
  - simpl concat in Hroom. rewrite length_app in Hroom.
    apply bind_inv in H.
    destruct H as [([[tw1 ti1] w] & st1 & H1 & H2) | [(w & H1 & ->) | (H1 & ->)]].
    + (* the update went through *)
      destruct (exceeds_int (length p)); [discriminate |].
      unfold bind at 1, outLen_negative in H1.
      apply bind_inv_Ok in H1. destruct H1 as (r1 & st2 & H1 & H3).
      lib_inv H1.
      destruct H1 as [(c & w0 & Hu & Hr & ->) | (_ & Hr & ->)];
        inversion Hr; subst r1; [| discriminate].
      destruct (EVP_EncryptUpdate_outl_negative E (cctx st) false p);
        [discriminate |].
      inversion H3; subst tw1 ti1 w st1.
      pose proof (buf_enc_update Hb _ _ Hu) as Hbal.
      apply bind_inv in H2.
      destruct H2 as [(o1 & st3 & Hp & H2) | [(w & Hp & ->) | (Hp & ->)]].
      * pose proof (push_state _ _ _ _ _ _ _ Hp) as ->.
        unfold push in Hp.
        destruct (_ <? _); [discriminate |]. inversion Hp; subst o1.
        apply IH in H2.
        -- destruct H2 as [Hno Hok]. split; [exact Hno |].
           intros s' out' pos' Hr'. destruct (Hok _ _ _ Hr') as [Hpos Hl].
           rewrite contents_write_chain, overwrite_length in Hl.
           simpl cctx in Hpos. simpl concat. rewrite length_app.
           split; [lia | exact Hl].
        -- rewrite contents_write_chain, overwrite_length. simpl cctx. lia.
      * unfold push in Hp. rewrite computeChainDataLength_contents in Hp.
        destruct (Nat.ltb_spec (length (contents out)) (pos + length w0));
          [lia | discriminate].
      * unfold push in Hp. destruct (_ <? _); discriminate.
    + (* the update threw *)
      split; [| discriminate].
      destruct (exceeds_int (length p)); [inversion H1; discriminate |].
      unfold bind at 1, outLen_negative in H1.
      apply bind_inv in H1.
      destruct H1 as [(r1 & st2 & H1 & H3) | [(w' & H1 & Hw) | (H1 & Hw)]].
      * destruct r1 as [w0 |]; [| inversion H3; discriminate].
        destruct (EVP_EncryptUpdate_outl_negative E (cctx st) false p);
          inversion H3; discriminate.
      * lib_inv H1. destruct H1 as [(? & ? & _ & ? & _) | (_ & ? & _)]; discriminate.
      * discriminate.
    + split; discriminate.
Qed.

Lemma encFuncBlocks_fits inp out (st : cstate E) r st' :
  pending (cctx st) = 0 ->
  length (contents inp) = length (contents out) ->
  encFuncBlocks inp out st = (r, st') -> r <> Throw "overflow"%string.
Proof.
  intros Hp0 Hlen H. unfold encFuncBlocks, transformBufferBlocks in H.
  pose proof (blocks_concat 16 (contents inp) ltac:(lia)) as Hc.
  apply bind_inv in H.
  destruct H as [([[tw ti] [o pos]] & st1 & H1 & H2) | [(w & H1 & ->) | (H1 & ->)]];
    apply feed_blocks_enc_fits in H1; try (rewrite Hc, Hp0; simpl; lia);
    destruct H1 as [Hno Hok]; try discriminate;
    try (intros Heq; inversion Heq; subst w; now apply Hno).
  destruct (Hok _ _ _ eq_refl) as [Hpos Hl]. rewrite Hc, Hp0 in Hpos.
  simpl in Hpos.
  destruct (_ <=? _)%Z.
  - apply bind_inv in H2.
    destruct H2 as [(r1 & st2 & Hf & H2) | [(w & Hf & ->) | (Hf & ->)]];
      lib_inv Hf;
      destruct Hf as [(c & w0 & Hu & Hr & ->) | (_ & Hr & ->)];
      try discriminate; inversion Hr; subst r1; inversion H2; discriminate.
  - apply bind_inv in H2.
    destruct H2 as [(r1 & st2 & Hf & H2) | [(w & Hf & ->) | (Hf & ->)]];
      lib_inv Hf;
      destruct Hf as [(c & w0 & Hu & Hr & ->) | (_ & Hr & ->)];
      try discriminate; inversion Hr; subst r1;
      [| inversion H2; discriminate].
    destruct (buf_enc_final Hb _ Hu) as [Hwf _].
    destruct (16 <? length w0); [inversion H2; discriminate |].
    unfold push in H2. rewrite computeChainDataLength_contents in H2.
    destruct (Nat.ltb_spec (length (contents o)) (pos + length w0));
      [lia | inversion H2; discriminate].
Qed.

(** On a library that keeps [buffering], the cursor of the output chain
    never runs off its end. *)
Lemma evpEncrypt_fits p ad iv tagLen (blk : bool) headroom (st : cstate E) r st' :
  evpEncrypt E p ad iv tagLen blk headroom st = (r, st') ->
  r <> Throw "overflow"%string.
Proof.
  intros H Hr. subst r.
  destruct (evpEncrypt_throws E p ad iv tagLen blk headroom _ _ _ H) as [_ Hw].
  destruct (Hw _ eq_refl) as [[[Hm _] | [[Hm _] | [_ Hblk]]] | [Hm _]];
    try discriminate Hm.
  subst blk. unfold evpEncrypt in H.
  apply bind_inv in H.
  destruct H as [(ok & st1 & H1 & H2) | [(w & H1 & Hw') | (H1 & Hw')]];
    lib_inv H1;
    destruct H1 as [(c1 & Hi & Hr & ->) | (_ & Hr & ->)];
    try discriminate; inversion Hr; subst ok; simpl negb in H2; cbv iota in H2;
    [| inversion H2].
  apply bind_inv in H2.
  destruct H2 as [(u & st2 & Ha & H3) | [(w & Ha & Hw') | (Ha & Hw')]];
    [| | discriminate].
  2: { inversion Hw'; subst w.
       destruct (feed_optional_associatedData_throws E
                   (fun a c => EVP_EncryptUpdate E c true a)
                   (Call_EncryptUpdate true) "Encryption error" ad _ _ _ Ha)
         as [_ Hq].
       destruct (Hq _ eq_refl) as [[Hm _] | [Hm _]]; discriminate Hm. }
  assert (Hp2 : pending (cctx st2) = 0).
  { destruct ad as [a |]; cbn [feed_optional_associatedData] in Ha.
    - rewrite (feed_associatedData_pending _ _ _ _ _ Ha). simpl.
      eapply (buf_enc_init Hb); exact Hi.
    - inversion Ha; subst. simpl. eapply (buf_enc_init Hb); exact Hi. }
  apply bind_inv in H3.
  destruct H3 as [(o & st3 & He & H4) | [(w & He & Hw') | (He & Hw')]];
    [| | discriminate].
  - destruct (_ <? _); apply bind_inv in H4;
      destruct H4 as [(rt & st4 & Ht & H5) | [(w & Ht & Hw') | (Ht & Hw')]];
      lib_inv Ht;
      destruct Ht as [(c & w0 & _ & Hrt & ->) | (_ & Hrt & ->)];
      try discriminate; inversion Hrt; subst rt; inversion H5.
  - inversion Hw'; subst w.
    exact (encFuncBlocks_fits _ _ _ _ _ Hp2 (length_encrypt_output p tagLen headroom)
             He eq_refl).
Qed.

End NoOverflow.

(** In a record that is good up to a last call that did not return 1, a
    call that did not return 1 is that last call. *)
Lemma failed_call_is_last (tr tr0 tr1 : list (Call * bool)) call :
  tr = tr0 ++ (call, false) :: tr1 ->
  good tr \/ (exists tr0' call', tr = tr0' ++ [(call', false)] /\ good tr0') ->
  tr1 = [] /\ exists tr0', tr = tr0' ++ [(call, false)] /\ good tr0'.
Proof.
  intros Htr [Hg | (tr0' & call' & Heq & Hg)].
  - exfalso. rewrite Htr in Hg. apply Forall_app in Hg. destruct Hg as [_ Hg].
    inversion Hg; subst. discriminate.
  - destruct tr1 as [| x tr1' _] using rev_ind.
    + split; [reflexivity |]. rewrite Htr in Heq.
      apply app_inj_tail in Heq. destruct Heq as [<- Hc]. inversion Hc; subst.
      exists tr0. now split.
    + exfalso. rewrite Htr in Heq.
      change (tr0 ++ (call, false) :: tr1' ++ [x])
        with (tr0 ++ ((call, false) :: tr1') ++ [x]) in Heq.
      rewrite app_assoc in Heq. apply app_inj_tail in Heq.
      destruct Heq as [<- _]. apply Forall_app in Hg. destruct Hg as [_ Hg].
      inversion Hg; subst. discriminate.
Qed.

(** C5: the errors of the kernel.  A run of [evpEncrypt] that throws
    throws "too much associated data" or "Encryption error: too much plain
    text" because an element of the associated data or of the plaintext is
    longer than an [int] can tell, or "Encryption error" because the last
    call made on the library did not return 1 or was an update on plaintext
    that returned 1 and left a negative [outLen], or, with block
    operations, the [std::out_of_range] of the output cursor (here
    "overflow"), and that only on a library that does not keep [buffering],
    that is, one that stored more bytes than it was given.  In [evpEncrypt]
    and in [evpDecrypt] a call that did not return 1 is the last call of the
    run, wherever it was made: in [evpEncrypt] the run then threw; in
    [evpDecrypt] the run gave [folly::none] and no exception when the call
    was [EVP_DecryptFinal_ex], and threw, giving no answer, when it was any
    other call, the updates among them. *)
Theorem kernel_errors :
  (forall E plaintext associatedData iv tagLen useBlockOps headroom
          (st : cstate E) w st',
     evpEncrypt E plaintext associatedData iv tagLen useBlockOps headroom st
     = (Throw w, st') ->
     (w = "too much associated data"%string /\
      oversize (ad_bufs associatedData)) \/
     (w = "Encryption error: too much plain text"%string /\
      oversize (bufs plaintext)) \/
     (w = "Encryption error"%string /\
      exists tr0 call, clog st' = clog st ++ tr0 ++ [(call, false)]) \/
     (w = "Encryption error"%string /\
      exists tr0 p c w0,
        clog st' = clog st ++ tr0 ++ [(Call_EncryptUpdate false p, true)] /\
        EVP_EncryptUpdate E c false p = Some (cctx st', w0) /\
        EVP_EncryptUpdate_outl_negative E c false p = true) \/
     (w = "overflow"%string /\ useBlockOps = true /\
      forall pending, ~ buffering E pending)) /\
  (forall E plaintext associatedData iv tagLen useBlockOps headroom
          (st : cstate E) r st' tr0 call tr1,
     evpEncrypt E plaintext associatedData iv tagLen useBlockOps headroom st
     = (r, st') ->
     clog st' = clog st ++ tr0 ++ (call, false) :: tr1 ->
     tr1 = [] /\ exists w, r = Throw w) /\
  (forall E K ciphertext associatedData iv tagLen useBlockOps
          (st : cstate E) r st' tr0 call tr1,
     evpDecrypt E K ciphertext associatedData iv tagLen useBlockOps st
     = (r, st') ->
     clog st' = clog st ++ tr0 ++ (call, false) :: tr1 ->
     tr1 = [] /\
     match call with
     | Call_DecryptFinal_ex => r = Ok None
     | _ => exists w, r = Throw w
     end).
Proof.
  split; [| split].
  - intros E p ad iv tagLen blk headroom st w st' H.
    destruct (evpEncrypt_throws E p ad iv tagLen blk headroom _ _ _ H) as [_ Hw].
    destruct (Hw w eq_refl)
      as [[Ha | [(Hm & _ & Ho) | [Hm Hblk]]] | [-> [Hf | Hn]]].
    + now left.
    + right; left. now split.
    + right; right; right; right.
      split; [exact Hm |]. split; [exact Hblk |].
      intros pending Hb. subst w.
      exact (evpEncrypt_fits E pending Hb _ _ _ _ _ _ _ _ _ H eq_refl).
    + right; right; left. now split.
    + right; right; right; left. now split.
  - intros E p ad iv tagLen blk headroom st r st' tr0 call tr1 H Hlog.
    destruct (evpEncrypt_feeds E p ad iv tagLen blk headroom _ _ _ H)
      as (ps & tr & _ & He & [_ _ Hflags]).
    rewrite He in Hlog. apply app_inv_head in Hlog.
    assert (Hcases : good tr \/
              exists tr0' call', tr = tr0' ++ [(call', false)] /\ good tr0').
    { destruct Hflags as [[Hg _] | (tr0' & call' & Heq & Hg & _)];
        [now left | right; eauto]. }
    destruct (failed_call_is_last _ _ _ _ Hlog Hcases) as [-> (tr0' & Heq & _)].
    split; [reflexivity |].
    destruct Hflags as [[Hg _] | (tr2 & call2 & Heq2 & _ & Hf)].
    { rewrite Heq in Hg. apply good_last_true in Hg. discriminate. }
    rewrite Heq in Heq2. apply app_inj_tail in Heq2.
    destruct Heq2 as [_ Hc]. inversion Hc; subst call2.
    assert (Hnf : call <> Call_DecryptFinal_ex).
    { intros ->.
      assert (Hin : In Call_DecryptFinal_ex (map fst tr))
        by (rewrite Heq, map_app, in_app_iff; right; now left).
      destruct (evpEncrypt_feeds E p ad iv tagLen blk headroom _ _ _ H)
        as (ps' & tr' & _ & He' & [Hp' _ _]).
      rewrite He in He'. apply app_inv_head in He'. subst tr'.
      apply (prefix_In _ _ _ _ Hp') in Hin.
      repeat (apply in_app_iff in Hin; destruct Hin as [Hin | Hin]);
        try (simpl in Hin; repeat destruct Hin as [Hin | Hin];
             discriminate || contradiction);
        try (apply in_map_iff in Hin; destruct Hin as (x & Hx & _); discriminate).
      unfold ad_calls in Hin. destruct ad; [| contradiction].
      apply in_map_iff in Hin. destruct Hin as (x & Hx & _). discriminate. }
    destruct call; simpl in Hf; try (now contradiction Hnf);
      destruct Hf as [w Hw]; destruct r; try discriminate;
      inversion Hw; eauto.
  - intros E K c ad iv tagLen blk st r st' tr0 call tr1 H Hlog.
    destruct (Nat.lt_ge_cases (computeChainDataLength c) tagLen) as [Hshort | Hlen].
    { rewrite evpDecrypt_short in H by assumption.
      inversion H; subst.
      apply (f_equal (@length _)) in Hlog. rewrite !length_app in Hlog.
      simpl in Hlog. lia. }
    destruct (evpDecrypt_feeds E K c ad iv tagLen blk Hlen _ _ _ H)
      as (ps & tr & _ & He & [_ _ Hflags]).
    rewrite He in Hlog. apply app_inv_head in Hlog.
    assert (Hcases : good tr \/
              exists tr0' call', tr = tr0' ++ [(call', false)] /\ good tr0').
    { destruct Hflags as [[Hg _] | (tr0' & call' & Heq & Hg & _)];
        [now left | right; eauto]. }
    destruct (failed_call_is_last _ _ _ _ Hlog Hcases) as [-> (tr0' & Heq & _)].
    split; [reflexivity |].
    destruct Hflags as [[Hg _] | (tr2 & call2 & Heq2 & _ & Hf)].
    { rewrite Heq in Hg. apply good_last_true in Hg. discriminate. }
    rewrite Heq in Heq2. apply app_inj_tail in Heq2.
    destruct Heq2 as [_ Hc]. inversion Hc; subst call2.
    assert (Hfinal : call = Call_DecryptFinal_ex -> r = Ok None).
    { intros ->. simpl in Hf. destruct r as [[q |] | |]; try discriminate;
        [| reflexivity].
      apply evpDecrypt_Some_final in H. destruct H as [tr3 H3].
      rewrite He, Heq, app_assoc in H3. apply app_inj_tail in H3.
      destruct H3 as [_ H3]. discriminate. }
    destruct call; try (now apply Hfinal);
      simpl in Hf; destruct Hf as [w Hw];
      destruct r; try discriminate; inversion Hw; eauto.
Qed.

Lemma kernel_errors_witness :
  let p : Chain := (Toy.buf [x61; x62; x63] 8 false, []) in
  let run1 :=
    evpEncrypt Toy.negating p None [x07] 4 true 0 (Toy.negating_keyed x55) in
  let c : Chain := (Toy.buf [x61; x62; x63; x00; x00; x00; x00] 0 false, []) in
  let run2 := evpDecrypt Toy.faulty 4 c None [x07] 4 false (Toy.fails_at 1) in
  let bad : Chain :=
    (Toy.buf [x54; x57; x56; x51; x50; x59; x59; x59; x58] 0 false, []) in
  let run3 := evpDecrypt Toy.cipher 4 bad None [x07] 4 false (Toy.keyed x55 1) in
  (clog (snd run1)
   = [(Call_EncryptInit_ex [x07], true);
      (Call_EncryptUpdate false [x61; x62; x63], true)] /\
   fst run1 = Throw "Encryption error"%string /\
   exists tr0 p0 c0 w0,
     clog (snd run1)
     = clog (Toy.negating_keyed x55) ++ tr0 ++
       [(Call_EncryptUpdate false p0, true)] /\
     EVP_EncryptUpdate Toy.negating c0 false p0 = Some (cctx (snd run1), w0) /\
     EVP_EncryptUpdate_outl_negative Toy.negating c0 false p0 = true) /\
  (clog (snd run2)
   = [(Call_DecryptInit_ex [x07], true);
      (Call_DecryptUpdate false [x61; x62; x63], false)] /\
   exists w, fst run2 = Throw w) /\
  (clog (snd run3)
   = [(Call_DecryptInit_ex [x07], true);
      (Call_DecryptUpdate false [x54; x57; x56; x51; x50], true);
      (Call_SET_TAG [x59; x59; x59; x58], true);
      (Call_DecryptFinal_ex, false)] /\
   fst run3 = Ok None).
Proof.
  intros p run1 c run2 bad run3.
  destruct kernel_errors as (Henc & _ & Hdec).
  split; [| split].
  - assert (Hlog : clog (snd run1)
                   = [(Call_EncryptInit_ex [x07], true);
                      (Call_EncryptUpdate false [x61; x62; x63], true)])
      by (vm_compute; reflexivity).
    assert (Hrun : run1 = (Throw "Encryption error"%string, snd run1))
      by (vm_compute; reflexivity).
    split; [exact Hlog |]. split; [now rewrite Hrun |].
    destruct (Henc Toy.negating p None [x07] 4 true 0 (Toy.negating_keyed x55)
                _ _ Hrun)
      as [[Hm _] | [[Hm _] | [[_ Hf] | [[_ Hn] | [Hm _]]]]];
      try discriminate Hm; [| exact Hn].
    destruct Hf as (tr0 & call & Hf). rewrite Hlog in Hf.
    change (clog (Toy.negating_keyed x55) ++ tr0 ++ [(call, false)])
      with (tr0 ++ [(call, false)]) in Hf.
    change [(Call_EncryptInit_ex [x07], true);
            (Call_EncryptUpdate false [x61; x62; x63], true)]
      with ([(Call_EncryptInit_ex [x07], true)] ++
            [(Call_EncryptUpdate false [x61; x62; x63], true)]) in Hf.
    apply app_inj_tail in Hf. destruct Hf as [_ Hf]. discriminate.
  - assert (Hlog : clog (snd run2)
                   = [(Call_DecryptInit_ex [x07], true);
                      (Call_DecryptUpdate false [x61; x62; x63], false)])
      by (vm_compute; reflexivity).
    split; [exact Hlog |].
    exact (proj2 (Hdec Toy.faulty 4 c None [x07] 4 false (Toy.fails_at 1)
                    (fst run2) (snd run2) [(Call_DecryptInit_ex [x07], true)]
                    (Call_DecryptUpdate false [x61; x62; x63]) []
                    (surjective_pairing run2) Hlog)).
  - assert (Hlog : clog (snd run3)
                   = [(Call_DecryptInit_ex [x07], true);
                      (Call_DecryptUpdate false [x54; x57; x56; x51; x50], true);
                      (Call_SET_TAG [x59; x59; x59; x58], true);
                      (Call_DecryptFinal_ex, false)])
      by (vm_compute; reflexivity).
    split; [exact Hlog |].
    exact (proj2 (Hdec Toy.cipher 4 bad None [x07] 4 false (Toy.keyed x55 1)
                    (fst run3) (snd run3)
                    [(Call_DecryptInit_ex [x07], true);
                     (Call_DecryptUpdate false [x54; x57; x56; x51; x50], true);
                     (Call_SET_TAG [x59; x59; x59; x58], true)]
                    Call_DecryptFinal_ex []
                    (surjective_pairing run3) Hlog)).
Defined.

(** ** Where the plaintext chain comes from *)

Lemma map_unshared_copy_unshared l :
  filter isSharedOne l = [] -> map unshared_copy l = l.
Proof.
  induction l as [| b t IH]; simpl; [reflexivity |].
  unfold unshared_copy at 1.
  destruct (isSharedOne b); [discriminate |].
  intros H. now rewrite IH.
Qed.

Lemma shapes_of_copies l : forall l',
  map shape l' = map shape (map unshared_copy l) ->
  Forall2 (fun b b' =>
             length (data b') = length (data b) /\ isSharedOne b' = false /\
             (isSharedOne b = false -> shape b' = shape b) /\
             (isSharedOne b = true -> headroom b' = 0))
          l l'.
Proof.
  induction l as [| b t IH]; intros [| b' t'] H; try discriminate;
    [constructor |].
  cbn [map] in H. inversion H as [[Hh Hd Ht Hs Hrest]].
  constructor; [| now apply IH].
  unfold unshared_copy in *. destruct (isSharedOne b) eqn:Hb; cbn in *.
  - repeat split; auto; discriminate.
  - repeat split; auto; [congruence | | discriminate].
    intros _. unfold shape. congruence.
Qed.

(** X15: where the chain [evpDecrypt] returns comes from.  [trimBytes] cuts
    the tag off the end of the ciphertext chain and keeps its elements.
    When no element is shared, the plaintext is written in place: the chain
    returned has the elements of the trimmed chain.  When exactly
    [kMaxSharedInChain] elements are shared, each of those is replaced by an
    unshared copy of its length without headroom, and the others are as
    they were.  When more are shared, the chain returned is one new unshared
    element without headroom that holds the plaintext. *)
Theorem evpDecrypt_in_place_or_copied E K (ciphertext : Chain) associatedData
    iv tagLen (useBlockOps : bool) (st : cstate E) q st' :
  evpDecrypt E K ciphertext associatedData iv tagLen useBlockOps st
  = (Ok (Some q), st') ->
  let trimmed := fst (trimBytes ciphertext tagLen) in
  (numShared ciphertext = 0 -> map shape (bufs q) = map shape (bufs trimmed)) /\
  (numShared ciphertext = K ->
   Forall2 (fun b b' =>
              length (data b') = length (data b) /\ isSharedOne b' = false /\
              (isSharedOne b = false -> shape b' = shape b) /\
              (isSharedOne b = true -> headroom b' = 0))
           (bufs trimmed) (bufs q)) /\
  (K < numShared ciphertext ->
   exists b',
     bufs q = [b'] /\ headroom b' = 0 /\ isSharedOne b' = false /\
     length (data b') = computeChainDataLength ciphertext - tagLen).
Proof.
  intros H trimmed. apply evpDecrypt_inv_Some in H.
  destruct H as (Hlen & c' & t & input & output & st1 & Htrim & Hfix & Hrun).
  apply dec_stage_shape in Hrun.
  assert (Ht : trimmed = c') by (unfold trimmed; now rewrite Htrim).
  rewrite Ht.
  destruct (trimBytes_spec _ _ _ _ Htrim) as (Hflags & _ & _ & _).
  apply numShared_flags in Hflags. rewrite <- Hflags.
  assert (H0 : numShared c' = 0 -> output = c').
  { intros Hn. rewrite (fixupSharedBuffer_unshared K c' _ Hn) in Hfix.
    now inversion Hfix. }
  split; [| split].
  - intros Hn. now rewrite Hrun, (H0 Hn).
  - intros HK. apply shapes_of_copies. rewrite Hrun.
    destruct (Nat.eq_dec K 0) as [-> | Hpos].
    + rewrite (H0 HK). unfold numShared in HK.
      apply length_zero_iff_nil in HK.
      now rewrite (map_unshared_copy_unshared _ HK).
    + rewrite (fixupSharedBuffer_full K c' _ HK) in Hfix by lia.
      now inversion Hfix.
  - intros Hgt. rewrite (fixupSharedBuffer_over K c' _ Hgt) in Hfix.
    inversion Hfix; subst.
    assert (Hs : map shape (bufs q)
                 = [(0, computeChainDataLength ciphertext - tagLen, 0, false)]).
    { rewrite Hrun. unfold bufs, shape, append, create, uninitialized.
      cbn. now rewrite repeat_length, Nat.sub_diag. }
    destruct q as [b' t']. unfold bufs in *. cbn [fst snd map] in *.
    destruct t'; [| discriminate].
    inversion Hs as [[Hh Hd Htl Hsh]].
    exists b'. repeat split; auto.
Qed.

Lemma evpDecrypt_in_place_or_copied_witness :
  let c : Chain :=
    (Toy.buf [x54; x57; x56] 3 true,
     [Toy.buf [x51; x50; x50; x50; x50; x50] 16 true]) in
  let ad : option Chain := Some (Toy.buf [x09; x0a] 0 false, []) in
  let st := Toy.stream_keyed x55 in
  let run := evpDecrypt Toy.stream 2 c ad [x07] 4 false st in
  let q := match fst run with Ok (Some q) => q | _ => c end in
  run = (Ok (Some q), snd run) /\
  numShared c = 2 /\
  map (fun b => length (data b)) (bufs q) = [3; 2] /\
  Forall2 (fun b b' =>
             length (data b') = length (data b) /\ isSharedOne b' = false /\
             (isSharedOne b = false -> shape b' = shape b) /\
             (isSharedOne b = true -> headroom b' = 0))
          (bufs (fst (trimBytes c 4))) (bufs q).
Proof.
  intros c ad st run q.
  assert (Hrun : run = (Ok (Some q), snd run)) by (vm_compute; reflexivity).
  split; [exact Hrun |]. split; [reflexivity |]. split; [reflexivity |].
  exact (proj1 (proj2 (evpDecrypt_in_place_or_copied Toy.stream 2 c ad [x07] 4
                         false st q (snd run) Hrun)) eq_refl).
Defined.

End AeadFacts.
